(** * dynel: reactive values, event bus and component assembly

    A shallow embedding of [src/utils.ts] (classes [State] and [Event]) and
    of [src/dynel.ts] (class [Dynel]), followed by the properties of the
    written specification that were checked against it.

    Conventions of the embedding.
    - JavaScript objects live in heaps indexed by address, so that aliasing
      and identity are visible: a [State] object is an index into
      [states], an [Event] object an index into [events].
    - The static [Map]s of the classes are [gmap]s from strings to
      addresses.
    - A callback is a tagged function from the received value to the
      commands it issues against the [State]/[Event] API; running a callback
      may therefore re-enter [set] or [trigger].  Nesting depth is bounded by
      a fuel argument, which plays the role of the call stack.
    - Every call of a callback, every return from one and every store into a
      [State] is appended to a trace. *)

From Stdlib Require Import ZArith Ascii String.
From stdpp Require Import gmap strings list fin_maps pretty.

Set Warnings "-register-all".
Open Scope string_scope.
Open Scope list_scope.
Open Scope stdpp_scope.
Open Scope nat_scope.

(* ===================================================================== *)
(** * Part I. Definitions                                                 *)
(* ===================================================================== *)

(** ** JavaScript values *)

Inductive jsval :=
| VUndef
| VNull
| VBool (b : bool)
| VNum (n : Z)
| VStr (s : string)
| VObj (o : nat).

#[global] Instance jsval_eq_dec : EqDecision jsval.
Proof. solve_decision. Defined.

(** [ToBoolean] on the values above. *)
Definition truthy (v : jsval) : bool :=
  match v with
  | VUndef | VNull => false
  | VBool b => b
  | VNum n => negb (n =? 0)%Z
  | VStr s => negb (String.eqb s "")
  | VObj _ => true
  end.

(** [Number.MAX_SAFE_INTEGER], [2 ** 53 - 1]. *)
Definition MAX_SAFE_INTEGER : Z := 9007199254740991.

(** [String(v)], where the values above determine it.  A number is an
    integer here: up to [Number.MAX_SAFE_INTEGER] in absolute value its
    text is its decimal numeral; beyond, not every integer is a number, and
    the text of those that are is rounded to seventeen digits or written
    with an exponent, which is left out ([None]).  The text of an object
    depends on the object (the elements of an array, the class of a DOM
    node, a [toString] of its own), which an address does not tell: it is
    left out as well. *)
Definition js_String (v : jsval) : option string :=
  match v with
  | VUndef => Some "undefined"
  | VNull => Some "null"
  | VBool true => Some "true"
  | VBool false => Some "false"
  | VNum n => if (Z.abs n <=? MAX_SAFE_INTEGER)%Z then Some (pretty n) else None
  | VStr s => Some s
  | VObj _ => None
  end.

(** ** Keys and instance identifiers ([src/dynel.ts]) *)

(** [Dynel.key(uid, name)] returns [name + "." + uid]. *)
Definition Dynel_key (uid name : string) : string :=
  name +:+ "." +:+ uid.

(** The [uid] computed by the constructor:
    [(Date.now() * 100 + Math.trunc(Math.random() * 10000)).toString()].
    [now] is the reading of [Date.now()], [draw] the integer
    [Math.trunc(Math.random() * 10000)], which ranges over [0 .. 9999]. *)
Definition Dynel_uid (now draw : Z) : string :=
  pretty (now * 100 + draw)%Z.

Definition draw_in_range (draw : Z) : Prop := (0 <= draw < 10000)%Z.

(** ** Callbacks, heaps and the world ([src/utils.ts]) *)

(** What a callback may do: the public operations of [State] and [Event].
    [CGet] and [CStaticGet] read a value and continue with commands that
    depend on it. *)
Inductive cmd :=
| CSet (a : nat) (v : jsval)                               (* s.set(v) *)
| CGet (a : nat) (k : jsval → list cmd)                    (* s.get() *)
| CSubscribe (a : nat) (tag : string) (body : jsval → list cmd)
                                                           (* s.subscribe(cb) *)
| CNew (init : jsval) (name : option string) (now : Z)     (* new State(init, name) *)
| CStaticSet (name : string) (v : jsval)                   (* State.set(name, v) *)
| CStaticGet (name : string) (k : jsval → list cmd)        (* State.get(name) *)
| CStaticSubscribe (name : string) (tag : string) (body : jsval → list cmd)
                                                           (* State.subscribe(name, cb) *)
| CAddListener (name : string) (tag : string) (body : jsval → list cmd)
                                                           (* Event.addListener(name, cb) *)
| CTrigger (name : string) (payload : jsval).              (* Event.trigger(name, payload) *)

(** [Listener<T>]: a function object.  The tag only names it in traces. *)
Record Listener := mkListener {
  ltag : string;
  lbody : jsval → list cmd
}.

(** A listener that only observes: its body issues no command. *)
Definition observer (tag : string) : Listener := mkListener tag (λ _, []).

Definition is_observer (l : Listener) : Prop := ∀ v, lbody l v = [].

(** An object of class [State]. *)
Record StateObj := mkState {
  s_name : string;
  s_value : jsval;
  s_setCallbacks : list Listener
}.

(** An object of class [Event]. *)
Record EventObj := mkEvent {
  e_name : string;
  e_listeners : list Listener
}.

(** Observable steps. *)
Inductive event :=
| EvStore (a : nat) (v : jsval)        (* this.value = v  on the State at a *)
| EvCall (tag : string) (v : jsval)    (* a listener is entered with v *)
| EvRet (tag : string).                (* that listener returns *)

#[global] Instance event_eq_dec : EqDecision event.
Proof. solve_decision. Defined.

(** A template request handed to the network ([fetch(url)] in
    [Dynel.fetch]), with what the suspended call needs when it resumes. *)
Record Request := mkRequest {
  rq_url : string;
  rq_kind : string;
  rq_state : nat;
  rq_onResult : Listener;
  rq_done : bool
}.

Record World := mkWorld {
  states : list StateObj;                  (* heap of State objects *)
  State_instanceMap : gmap string nat;     (* State.instanceMap *)
  events : list EventObj;                  (* heap of Event objects *)
  Event_instanceMap : gmap string nat;     (* Event.instanceMap *)
  trace : list event;
  Dynel_instanceMap : gmap string (list (string * string));
                                           (* Dynel.instanceMap: uid to the
                                              attributes of the element *)
  Dynel_fetchCache : gmap string nat;      (* Dynel.fetchCache *)
  requests : list Request;                 (* calls of the network fetch *)
  nodes : list string;                     (* container nodes created by
                                              Dynel.fetch, with their innerHTML *)
  Dynel_baseUrl : string;
  Dynel_extension : string;
  Dynel_propPrefix : string
}.

Definition empty_world : World :=
  mkWorld [] ∅ [] ∅ [] ∅ ∅ [] [] "/components/" ".dynel.html" "prop-".

Definition with_states (f : list StateObj → list StateObj) (w : World) : World :=
  mkWorld (f (states w)) (State_instanceMap w) (events w) (Event_instanceMap w)
    (trace w) (Dynel_instanceMap w) (Dynel_fetchCache w) (requests w) (nodes w)
    (Dynel_baseUrl w) (Dynel_extension w) (Dynel_propPrefix w).

Definition with_State_instanceMap (f : gmap string nat → gmap string nat)
    (w : World) : World :=
  mkWorld (states w) (f (State_instanceMap w)) (events w) (Event_instanceMap w)
    (trace w) (Dynel_instanceMap w) (Dynel_fetchCache w) (requests w) (nodes w)
    (Dynel_baseUrl w) (Dynel_extension w) (Dynel_propPrefix w).

Definition with_events (f : list EventObj → list EventObj) (w : World) : World :=
  mkWorld (states w) (State_instanceMap w) (f (events w)) (Event_instanceMap w)
    (trace w) (Dynel_instanceMap w) (Dynel_fetchCache w) (requests w) (nodes w)
    (Dynel_baseUrl w) (Dynel_extension w) (Dynel_propPrefix w).

Definition with_Event_instanceMap (f : gmap string nat → gmap string nat)
    (w : World) : World :=
  mkWorld (states w) (State_instanceMap w) (events w) (f (Event_instanceMap w))
    (trace w) (Dynel_instanceMap w) (Dynel_fetchCache w) (requests w) (nodes w)
    (Dynel_baseUrl w) (Dynel_extension w) (Dynel_propPrefix w).

Definition log (e : event) (w : World) : World :=
  mkWorld (states w) (State_instanceMap w) (events w) (Event_instanceMap w)
    (trace w ++ [e]) (Dynel_instanceMap w) (Dynel_fetchCache w) (requests w)
    (nodes w) (Dynel_baseUrl w) (Dynel_extension w) (Dynel_propPrefix w).

Definition with_Dynel_instanceMap
    (f : gmap string (list (string * string)) → gmap string (list (string * string)))
    (w : World) : World :=
  mkWorld (states w) (State_instanceMap w) (events w) (Event_instanceMap w)
    (trace w) (f (Dynel_instanceMap w)) (Dynel_fetchCache w) (requests w) (nodes w)
    (Dynel_baseUrl w) (Dynel_extension w) (Dynel_propPrefix w).

Definition with_Dynel_fetchCache (f : gmap string nat → gmap string nat)
    (w : World) : World :=
  mkWorld (states w) (State_instanceMap w) (events w) (Event_instanceMap w)
    (trace w) (Dynel_instanceMap w) (f (Dynel_fetchCache w)) (requests w) (nodes w)
    (Dynel_baseUrl w) (Dynel_extension w) (Dynel_propPrefix w).

Definition with_requests (f : list Request → list Request) (w : World) : World :=
  mkWorld (states w) (State_instanceMap w) (events w) (Event_instanceMap w)
    (trace w) (Dynel_instanceMap w) (Dynel_fetchCache w) (f (requests w)) (nodes w)
    (Dynel_baseUrl w) (Dynel_extension w) (Dynel_propPrefix w).


(** ** Class [State] *)

(** [new State(initialValue, name)]: the name defaults to
    [String(Date.now())]; the constructor ends with
    [State.registerInstance(this.name, this)], an unconditional
    [instanceMap.set].  Returns the address of the new object. *)
Definition State_registerInstance (name : string) (a : nat) (w : World) : World :=
  with_State_instanceMap (λ m, <[name := a]> m) w.

Definition State_new (initialValue : jsval) (name : option string) (now : Z)
    (w : World) : nat * World :=
  let nm := default (pretty now) name in
  let a := length (states w) in
  (a, State_registerInstance nm a
        (with_states (λ h, h ++ [mkState nm initialValue []]) w)).

(** [subscribe(cb)]: [this.setCallbacks.push(cb)]. *)
Definition State_subscribe (a : nat) (cb : Listener) (w : World) : option World :=
  st ← states w !! a;
  Some (with_states
          (λ h, <[a := mkState (s_name st) (s_value st) (s_setCallbacks st ++ [cb])]> h) w).

(** [get()]. *)
Definition State_get (a : nat) (w : World) : option jsval :=
  s_value <$> states w !! a.

(** [State.get(name)]: [State.instanceMap.get(name)?.get()]. *)
Definition State_static_get (name : string) (w : World) : jsval :=
  match State_instanceMap w !! name with
  | Some a => default VUndef (State_get a w)
  | None => VUndef
  end.

(** [State.subscribe(name, cb)]:
    [State.instanceMap.get(name)?.subscribe(cb)]. *)
Definition State_static_subscribe (name : string) (cb : Listener) (w : World)
    : option World :=
  match State_instanceMap w !! name with
  | Some a => State_subscribe a cb w
  | None => Some w
  end.

(** ** Class [Event] *)

Definition Event_registerInstance (name : string) (e : nat) (w : World) : World :=
  with_Event_instanceMap (λ m, <[name := e]> m) w.

Definition Event_new (name : string) (w : World) : nat * World :=
  let e := length (events w) in
  (e, Event_registerInstance name e
        (with_events (λ h, h ++ [mkEvent name []]) w)).

(** [addListener(listener)]: [this.listeners.push(listener)]. *)
Definition Event_addListener (e : nat) (l : Listener) (w : World) : option World :=
  ev ← events w !! e;
  Some (with_events (λ h, <[e := mkEvent (e_name ev) (e_listeners ev ++ [l])]> h) w).

(** [Event.addListener(name, listener)]: the channel is created when
    [Event.instanceMap.has(name)] is false. *)
Definition Event_static_addListener (name : string) (l : Listener) (w : World)
    : option World :=
  let w1 :=
    match Event_instanceMap w !! name with
    | Some _ => w
    | None => let '(e, w') := Event_new name w in Event_registerInstance name e w'
    end in
  e ← Event_instanceMap w1 !! name;
  Event_addListener e l w1.

(** ** Operations that call listeners

    They are parameterised by [run], the interpreter of the commands a
    listener issues. *)
Section WithRun.
Variable run : list cmd → World → option World.

(** Calling a function object [l] with the argument [v]. *)
Definition invoke (l : Listener) (v : jsval) (w : World) : option World :=
  w' ← run (lbody l v) (log (EvCall (ltag l) v) w);
  Some (log (EvRet (ltag l)) w').

(** [arr.forEach(cb => cb(arg))] where both the array and the argument
    are read from the world: the length is read once, before the loop
    ([n] is the number of indices still to visit, [i] the next index), the
    element at each index is read when that index is reached, an absent
    index is skipped. *)
Fixpoint forEach_from (arr : World → option (list Listener))
    (arg : World → option jsval) (n i : nat) (w : World) : option World :=
  match n with
  | 0 => Some w
  | S n' =>
      ls ← arr w;
      match ls !! i with
      | None => forEach_from arr arg n' (S i) w
      | Some l =>
          v ← arg w;
          w' ← invoke l v w;
          forEach_from arr arg n' (S i) w'
      end
  end.

Definition State_setCallbacks_of (a : nat) (w : World) : option (list Listener) :=
  s_setCallbacks <$> states w !! a.

(** [set(newValue)]:
    [this.value = newValue;
     this.setCallbacks.forEach((cb) => cb(this.value));]
    The argument of each callback is [this.value] as it is when that
    callback is called. *)
Definition State_set (a : nat) (newValue : jsval) (w : World) : option World :=
  st ← states w !! a;
  let w1 :=
    log (EvStore a newValue)
      (with_states (λ h, <[a := mkState (s_name st) newValue (s_setCallbacks st)]> h) w) in
  forEach_from (State_setCallbacks_of a) (State_get a)
    (length (s_setCallbacks st)) 0 w1.

(** [State.set(name, newValue)]:
    [(State.instanceMap.has(name) ? State.instanceMap
      : State.instanceMap.set(name, new State(undefined, name)))
     .get(name)!.set(newValue)]. *)
Definition State_static_set (name : string) (newValue : jsval) (w : World)
    : option World :=
  let w1 :=
    match State_instanceMap w !! name with
    | Some _ => w
    | None =>
        let '(a, w') := State_new VUndef (Some name) 0 w in
        State_registerInstance name a w'
    end in
  a ← State_instanceMap w1 !! name;
  State_set a newValue w1.

Definition Event_listeners_of (e : nat) (w : World) : option (list Listener) :=
  e_listeners <$> events w !! e.

(** [trigger(payload)]:
    [this.listeners.forEach((listener) => listener(payload))]. *)
Definition Event_trigger (e : nat) (payload : jsval) (w : World) : option World :=
  ev ← events w !! e;
  forEach_from (Event_listeners_of e) (λ _, Some payload)
    (length (e_listeners ev)) 0 w.

(** [Event.trigger(name, payload)]:
    [Event.instanceMap.get(name)?.trigger(payload)]. *)
Definition Event_static_trigger (name : string) (payload : jsval) (w : World)
    : option World :=
  match Event_instanceMap w !! name with
  | Some e => Event_trigger e payload w
  | None => Some w
  end.

(** One command of a listener body. *)
Definition exec_cmd (c : cmd) (w : World) : option World :=
  match c with
  | CSet a v => State_set a v w
  | CGet a k => v ← State_get a w; run (k v) w
  | CSubscribe a tag body => State_subscribe a (mkListener tag body) w
  | CNew init name now => Some (State_new init name now w).2
  | CStaticSet name v => State_static_set name v w
  | CStaticGet name k => run (k (State_static_get name w)) w
  | CStaticSubscribe name tag body =>
      State_static_subscribe name (mkListener tag body) w
  | CAddListener name tag body =>
      Event_static_addListener name (mkListener tag body) w
  | CTrigger name payload => Event_static_trigger name payload w
  end.

(** The commands of a body, in order. *)
Fixpoint exec_cmds (cs : list cmd) (w : World) : option World :=
  match cs with
  | [] => Some w
  | c :: cs' => w' ← exec_cmd c w; exec_cmds cs' w'
  end.
End WithRun.

(** The interpreter: [fuel] bounds how deeply listener bodies and
    continuations nest.  An empty body needs no fuel. *)
Fixpoint run (fuel : nat) (cs : list cmd) (w : World) : option World :=
  match cs with
  | [] => Some w
  | _ =>
      match fuel with
      | 0 => None
      | S f => exec_cmds (run f) cs w
      end
  end.

(** ** Reading traces *)

(** The calls made at nesting depth [d = 0], with their arguments, in the
    order in which they happen. *)
Fixpoint top_calls_at (d : nat) (tr : list event) : list (string * jsval) :=
  match tr with
  | [] => []
  | EvStore _ _ :: r => top_calls_at d r
  | EvCall t v :: r =>
      match d with
      | 0 => (t, v) :: top_calls_at 1 r
      | S _ => top_calls_at (S d) r
      end
  | EvRet _ :: r => top_calls_at (pred d) r
  end.

Definition top_calls : list event → list (string * jsval) := top_calls_at 0.

(** The value the State at [a] holds after the stores of [tr], when it held
    [cur] before. *)
Fixpoint last_store (a : nat) (cur : jsval) (tr : list event) : jsval :=
  match tr with
  | [] => cur
  | EvStore a' v :: r => last_store a (if decide (a' = a) then v else cur) r
  | _ :: r => last_store a cur r
  end.

(** The value the State at [a] holds at the moment of each call made at
    depth 0. *)
Fixpoint held_at_calls (a : nat) (cur : jsval) (d : nat) (tr : list event)
    : list jsval :=
  match tr with
  | [] => []
  | EvStore a' v :: r => held_at_calls a (if decide (a' = a) then v else cur) d r
  | EvCall _ _ :: r =>
      match d with
      | 0 => cur :: held_at_calls a cur 1 r
      | S _ => held_at_calls a cur (S d) r
      end
  | EvRet _ :: r => held_at_calls a cur (pred d) r
  end.

(** Whether [tr] stores into the State at [a]. *)
Definition stores_into (a : nat) (tr : list event) : Prop :=
  ∃ v, EvStore a v ∈ tr.

(** Well-bracketed traces: every call has returned, and what happened
    between a call and its return is itself well bracketed. *)
Inductive balanced : list event → Prop :=
| balanced_nil : balanced []
| balanced_store a v tr : balanced tr → balanced (EvStore a v :: tr)
| balanced_call t v inner tr :
    balanced inner → balanced tr →
    balanced (EvCall t v :: inner ++ EvRet t :: tr).

(** One complete call of the listener [l] with [v]. *)
Definition call_segment (l : Listener) (v : jsval) (inner : list event)
    : list event :=
  EvCall (ltag l) v :: inner ++ [EvRet (ltag l)].

(** The trace of a [forEach] over the listeners [ls]: one complete call per
    listener, in order; [argf pre] is the argument passed when [pre] is what
    has happened since the loop started. *)
Inductive loop_trace (argf : list event → jsval)
    : list event → list Listener → list event → Prop :=
| loop_trace_nil pre : loop_trace argf pre [] []
| loop_trace_cons pre l ls inner tr :
    balanced inner →
    loop_trace argf (pre ++ call_segment l (argf pre) inner) ls tr →
    loop_trace argf pre (l :: ls) (call_segment l (argf pre) inner ++ tr).

(** ** What running listeners can change

    [grows w w' tr]: [w'] is [w] after the steps [tr].  State and Event
    objects are never removed, their names are fixed, their callback lists
    only grow at the end, the value of a State is the one last stored, and
    the tables of [Dynel] are not touched. *)
Record grows (w w' : World) (tr : list event) : Prop := mkGrows {
  grows_trace : trace w' = trace w ++ tr;
  grows_states : ∀ a st, states w !! a = Some st →
    ∃ st', states w' !! a = Some st' ∧ s_name st' = s_name st ∧
           s_setCallbacks st `prefix_of` s_setCallbacks st' ∧
           s_value st' = last_store a (s_value st) tr;
  grows_events : ∀ e ev, events w !! e = Some ev →
    ∃ ev', events w' !! e = Some ev' ∧ e_name ev' = e_name ev ∧
           e_listeners ev `prefix_of` e_listeners ev';
  grows_instanceMap : Dynel_instanceMap w' = Dynel_instanceMap w;
  grows_fetchCache : Dynel_fetchCache w' = Dynel_fetchCache w;
  grows_requests : requests w' = requests w;
  grows_nodes : nodes w' = nodes w;
  grows_config :
    Dynel_baseUrl w' = Dynel_baseUrl w ∧ Dynel_extension w' = Dynel_extension w ∧
    Dynel_propPrefix w' = Dynel_propPrefix w
}.

(** An interpreter is sound when every completed run is a well-bracketed
    growth. *)
Definition run_sound (r : list cmd → World → option World) : Prop :=
  ∀ cs w w', r cs w = Some w' → ∃ tr, grows w w' tr ∧ balanced tr.

(** The world with [tr] appended to its trace. *)
Definition logs (tr : list event) (w : World) : World :=
  mkWorld (states w) (State_instanceMap w) (events w) (Event_instanceMap w)
    (trace w ++ tr) (Dynel_instanceMap w) (Dynel_fetchCache w) (requests w)
    (nodes w) (Dynel_baseUrl w) (Dynel_extension w) (Dynel_propPrefix w).

(** The trace of calling observers one after the other with [v]. *)
Definition observer_calls (ls : list Listener) (v : jsval) : list event :=
  flat_map (λ l, [EvCall (ltag l) v; EvRet (ltag l)]) ls.

(** An interpreter that accepts the empty body. *)
Definition run_nil (r : list cmd → World → option World) : Prop :=
  ∀ w, r [] w = Some w.

(** ** Sample listeners and worlds *)

(** A subscriber that, when it receives 1, sets the State at [a] to 2. *)
Definition bump_once (a : nat) : Listener :=
  mkListener "a" (λ v, if decide (v = VNum 1) then [CSet a (VNum 2)] else []).

(** One State at address 0 with the subscribers [bump_once 0] and an
    observer, in that order. *)
Definition world_reentrant : World :=
  with_states (λ _, [mkState "s" VUndef [bump_once 0; observer "b"]]) empty_world.

(** What happens after the store when the State of [world_reentrant] is
    set to 1. *)
Definition trace_reentrant : list event :=
  [EvCall "a" (VNum 1); EvStore 0 (VNum 2);
   EvCall "a" (VNum 2); EvRet "a"; EvCall "b" (VNum 2); EvRet "b";
   EvRet "a"; EvCall "b" (VNum 2); EvRet "b"].

(** One State at address 0 with three observers. *)
Definition world_observed : World :=
  with_states
    (λ _, [mkState "s" VUndef [observer "a"; observer "b"; observer "c"]])
    empty_world.

(** One State registered under ["k"]. *)
Definition world_named : World := (State_new VUndef (Some "k") 0 empty_world).2.

(** One Event ["ready:x"] with two listeners. *)
Definition world_listened : World :=
  default empty_world
    (w ← Event_static_addListener "ready:x" (observer "a") empty_world;
     Event_static_addListener "ready:x" (observer "b") w).

(** ** Class [Dynel]: properties, internal state, events ([src/dynel.ts]) *)

(** [class Prop<T> extends State<T> {}]: [Prop] adds nothing, and the static
    methods it inherits are those of [State], whose bodies name
    [State.instanceMap].  [Prop.set], [Prop.get] and [Prop.subscribe] are
    therefore [State.set], [State.get] and [State.subscribe] on the one
    registry. *)
Definition Prop_set := State_static_set.
Definition Prop_get := State_static_get.
Definition Prop_subscribe := State_static_subscribe.

(** ** Attributes of an element

    A character of the embedding is the code point of its number, from 0
    to 255. *)

(** The characters of an XML [Name]: [NameStartChar] is [":"], ["_"], a
    letter, or one of the code points C0-D6, D8-F6, F8-FF; [NameChar] is
    one of these, ["-"], ["."], a digit or the code point B7. *)
Definition is_NameStartChar (c : ascii) : bool :=
  let n := nat_of_ascii c in
  (n =? 58) || ((65 <=? n) && (n <=? 90)) || (n =? 95)
  || ((97 <=? n) && (n <=? 122))
  || ((192 <=? n) && (n <=? 214)) || ((216 <=? n) && (n <=? 246))
  || (248 <=? n).

Definition is_NameChar (c : ascii) : bool :=
  let n := nat_of_ascii c in
  is_NameStartChar c || (n =? 45) || (n =? 46)
  || ((48 <=? n) && (n <=? 57)) || (n =? 183).

Fixpoint all_NameChar (s : string) : bool :=
  match s with
  | EmptyString => true
  | String c rest => is_NameChar c && all_NameChar rest
  end.

Definition is_Name (s : string) : bool :=
  match s with
  | EmptyString => false
  | String c rest => is_NameStartChar c && all_NameChar rest
  end.

(** ASCII lower case: only the letters [A] to [Z] change. *)
Definition ascii_lowercase (c : ascii) : ascii :=
  let n := nat_of_ascii c in
  if (65 <=? n) && (n <=? 90) then ascii_of_nat (n + 32) else c.

Fixpoint to_ascii_lowercase (s : string) : string :=
  match s with
  | EmptyString => EmptyString
  | String c rest => String (ascii_lowercase c) (to_ascii_lowercase rest)
  end.

(** The first attribute named [name] gets the value [value]; when there is
    none, the attribute is appended. *)
Fixpoint set_attribute_value (name value : string)
    (attrs : list (string * string)) : list (string * string) :=
  match attrs with
  | [] => [(name, value)]
  | (n, v) :: rest =>
      if String.eqb n name then (n, value) :: rest
      else (n, v) :: set_attribute_value name value rest
  end.

(** [elem.setAttribute(qualifiedName, value)] on the attribute list of an
    HTML element in an HTML document: a [qualifiedName] that is not an XML
    [Name] throws an [InvalidCharacterError] ([None]); otherwise the name
    is put in ASCII lower case and the attribute of that name is set. *)
Definition setAttribute (qualifiedName value : string)
    (attrs : list (string * string)) : option (list (string * string)) :=
  if is_Name qualifiedName
  then Some (set_attribute_value (to_ascii_lowercase qualifiedName) value attrs)
  else None.

(** How a call ends: it returns a value, or it throws; [w] is the world
    at that moment. *)
Inductive outcome :=
| Returned (w : World) (result : jsval)
| Threw (error : string) (w : World).

Definition world_of (o : outcome) : World :=
  match o with
  | Returned w _ => w
  | Threw _ w => w
  end.

(** [Dynel.getElem(uid)]. *)
Definition Dynel_getElem (uid : string) (w : World) : option (list (string * string)) :=
  Dynel_instanceMap w !! uid.

(** [Dynel.registerInstance(uid, instance)]. *)
Definition Dynel_registerInstance (uid : string) (attrs : list (string * string))
    (w : World) : World :=
  with_Dynel_instanceMap (λ m, <[uid := attrs]> m) w.

Section DynelWithRun.
Variable run : list cmd → World → option World.

(** [Dynel.setProp(uid, propName, newValue)]:
    [Prop.set(key, newValue);
     Dynel.getElem(uid)?.setAttribute(Dynel.propPrefix + propName,
                                      String(newValue));]
    The arguments of [setAttribute] are evaluated only when an element is
    registered under [uid]; the value is stored before [setAttribute] can
    throw.  No result ([None]) when the subscribers do not finish within
    the fuel of [run], or when the text of [newValue] is left out of
    [js_String]. *)
Definition Dynel_setProp (uid propName : string) (newValue : jsval) (w : World)
    : option outcome :=
  let key := Dynel_key uid propName in
  w1 ← Prop_set run key newValue w;
  match Dynel_getElem uid w1 with
  | Some attrs =>
      text ← js_String newValue;
      match setAttribute (Dynel_propPrefix w1 +:+ propName) text attrs with
      | Some attrs' => Some (Returned (Dynel_registerInstance uid attrs' w1) VUndef)
      | None => Some (Threw "InvalidCharacterError" w1)
      end
  | None => Some (Returned w1 VUndef)
  end.

(** [Dynel.setState(uid, stateName, newValue)]. *)
Definition Dynel_setState (uid stateName : string) (newValue : jsval) (w : World)
    : option World :=
  let key := Dynel_key uid stateName in
  State_static_set run key newValue w.
End DynelWithRun.

(** [Dynel.getProp(uid, propName)]. *)
Definition Dynel_getProp (uid propName : string) (w : World) : jsval :=
  let key := Dynel_key uid propName in
  Prop_get key w.

(** [Dynel.getState(uid, stateName)]. *)
Definition Dynel_getState (uid stateName : string) (w : World) : jsval :=
  let key := Dynel_key uid stateName in
  State_static_get key w.

(** [Dynel.onProp(uid, propName, cb)]. *)
Definition Dynel_onProp (uid propName : string) (cb : Listener) (w : World)
    : option World :=
  let key := Dynel_key uid propName in
  Prop_subscribe key cb w.

(** [Dynel.onState(uid, stateName, cb)]. *)
Definition Dynel_onState (uid stateName : string) (cb : Listener) (w : World)
    : option World :=
  let key := Dynel_key uid stateName in
  State_static_subscribe key cb w.

(** [Dynel.listen(type, cb)]. *)
Definition Dynel_listen (type : string) (cb : Listener) (w : World) : option World :=
  Event_static_addListener type cb w.

Section DynelAccessors.
Variable run : list cmd → World → option World.

(** [Dynel.prop(uid, propName, newValue)]:
    [newValue === undefined ? Dynel.getProp(uid, propName)
                            : Dynel.setProp(uid, propName, newValue)].
    [setProp] returns nothing, that is [undefined]. *)
Definition Dynel_prop (uid propName : string) (newValue : jsval) (w : World)
    : option outcome :=
  if decide (newValue = VUndef)
  then Some (Returned w (Dynel_getProp uid propName w))
  else Dynel_setProp run uid propName newValue w.

(** [Dynel.state(uid, stateName, newValue)]. *)
Definition Dynel_state (uid stateName : string) (newValue : jsval) (w : World)
    : option outcome :=
  if decide (newValue = VUndef)
  then Some (Returned w (Dynel_getState uid stateName w))
  else w' ← Dynel_setState run uid stateName newValue w; Some (Returned w' VUndef).

(** [Dynel.dispatch(type, payload)]. *)
Definition Dynel_dispatch (type : string) (payload : jsval) (w : World)
    : option World :=
  Event_static_trigger run type payload w.

(** ** The template cache: [Dynel.fetch]

    [Dynel.fetch] is an [async] function: its body runs synchronously up
    to the first [await], which is on the network [fetch]; what follows
    the two [await]s runs when the response text has arrived.
    [Dynel_fetch] is the synchronous part, [Dynel_fetch_resume] the rest.

    [const state = Dynel.fetchCache.get(kind) ?? new State();]
    evaluates [new State()] only when the kind is not cached, which is
    also when [!Dynel.fetchCache.has(kind)] holds. [now] is the reading
    of [Date.now()] taken by that constructor. *)
Definition Dynel_fetch (kind : string) (onResult : Listener) (now : Z)
    (w : World) : option World :=
  match Dynel_fetchCache w !! kind with
  | None =>
      let '(state, w1) := State_new VUndef None now w in
      let w2 := with_Dynel_fetchCache (λ m, <[kind := state]> m) w1 in
      Some (with_requests
              (λ rs, rs ++ [mkRequest
                              (Dynel_baseUrl w2 +:+ kind +:+ Dynel_extension w2)
                              kind state onResult false]) w2)
  | Some state =>
      v ← State_get state w;
      if negb (truthy v) then State_subscribe state onResult w
      else invoke run onResult v w
  end.

End DynelAccessors.








(** The State registered under [key], if any, exists and all its
    subscribers are observers. *)
Definition quiet_key (key : string) (w : World) : Prop :=
  ∀ a, State_instanceMap w !! key = Some a →
       ∃ st, states w !! a = Some st ∧ Forall is_observer (s_setCallbacks st).

(** An element registered under the uid ["7"], carrying [prop-n="0"], and a
    subscriber of its property [n]. *)
Definition world_component : World :=
  default empty_world
    (w ← State_static_set (run 0) (Dynel_key "7" "n") (VStr "0")
           (Dynel_registerInstance "7" [("prop-n", "0")] empty_world);
     Dynel_onProp "7" "n" (observer "seen") w).











(** ** Regular expressions and [String.prototype.replaceAll]

    [Dynel.prepareScript] rewrites the text of a script with two calls of
    [replaceAll] whose patterns are regular expression literals.  The
    patterns are embedded as syntax trees and matched by a backtracking
    matcher that lists the matches at a position in the order in which the
    JavaScript matcher tries them (greedy quantifiers, alternatives left to
    right), so that the first element of the list is the match JavaScript
    reports.

    A text is a list of code units; the embedding covers the code units
    below 256, one [ascii] each. *)

Inductive regex :=
| REps                              (* the empty pattern *)
| RChar (c : ascii)                 (* a literal character *)
| RClass (p : ascii → bool)         (* a character class escape *)
| RSeq (r1 r2 : regex)
| RAlt (r1 r2 : regex)              (* r1|r2 *)
| RStar (r : regex)                 (* r*, greedy *)
| RGroup (k : nat) (r : regex).     (* the k-th capturing group *)

(** [r+] is [rr*]. *)
Definition RPlus (r : regex) : regex := RSeq r (RStar r).

(** A literal word. *)
Fixpoint RStr (s : list ascii) : regex :=
  match s with
  | [] => REps
  | [c] => RChar c
  | c :: s' => RSeq (RChar c) (RStr s')
  end.

(** A match: the text consumed, the captures (latest first) and the text
    that follows.  In a star the captures of all iterations are kept and
    the latest is the one read, as in JavaScript for a group that takes
    part in every iteration. *)
Abbreviation captures := (list (nat * list ascii)).
Abbreviation rmatch_result := (list ascii * captures * list ascii)%type.

(** The iterations of a greedy star whose body is matched by [step]: first
    one more iteration, provided it consumes something, followed by the
    rest of the star; failing that, no iteration.  [n] bounds the number of
    iterations; as an iteration that consumes nothing is rejected,
    [length s] of them are always enough. *)
Fixpoint star_iter (step : nat → list ascii → list rmatch_result)
    (n : nat) (s : list ascii) : list rmatch_result :=
  match n with
  | 0 => [([], [], s)]
  | S n' =>
      (x1 ← step n s;
       match x1.1.1 with
       | [] => []
       | _ :: _ =>
           x2 ← star_iter step n' x1.2;
           [(x1.1.1 ++ x2.1.1, x2.1.2 ++ x1.1.2, x2.2)]
       end) ++ [([], [], s)]
  end.

(** The matches of [r] at the start of [s], in priority order. *)
Fixpoint rmatch (r : regex) (n : nat) (s : list ascii) : list rmatch_result :=
  match r with
  | REps => [([], [], s)]
  | RChar c =>
      match s with
      | c' :: s' => if Ascii.eqb c c' then [([c'], [], s')] else []
      | [] => []
      end
  | RClass p =>
      match s with
      | c' :: s' => if p c' then [([c'], [], s')] else []
      | [] => []
      end
  | RSeq r1 r2 =>
      x1 ← rmatch r1 n s;
      x2 ← rmatch r2 n x1.2;
      [(x1.1.1 ++ x2.1.1, x2.1.2 ++ x1.1.2, x2.2)]
  | RAlt r1 r2 => rmatch r1 n s ++ rmatch r2 n s
  | RGroup k r1 =>
      x ← rmatch r1 n s;
      [(x.1.1, (k, x.1.1) :: x.1.2, x.2)]
  | RStar r1 => star_iter (rmatch r1) n s
  end.

(** The match JavaScript reports at the start of [s], if any. *)
Definition regex_exec (r : regex) (s : list ascii) : option rmatch_result :=
  head (rmatch r (length s) s).

(** The value of the capture [k]: the latest one; the empty text when the
    group did not take part in the match. *)
Fixpoint capture (k : nat) (cs : captures) : list ascii :=
  match cs with
  | [] => []
  | (k', m) :: cs' => if Nat.eqb k k' then m else capture k cs'
  end.

Definition digit_of (c : ascii) : option nat :=
  let n := nat_of_ascii c in
  if (Nat.leb 49 n && Nat.leb n 57)%bool then Some (n - 48) else None.

(** The replacement text for one match: [$$] is a dollar, [$&] the text
    matched, [$1] to [$9] a capture; any other character stands for
    itself.  Not covered: the references to the text before and after the
    match, two-digit and named references, and a reference to a group the
    pattern does not have, which JavaScript copies as it is.  The two
    templates below only refer to the groups 1 and 3 of patterns with five
    groups, and each reference is followed by a parenthesis or a quote. *)
Fixpoint expand (tpl : list ascii) (whole : list ascii) (cs : captures)
    : list ascii :=
  match tpl with
  | [] => []
  | c :: tpl' =>
      if Ascii.eqb c "$" then
        match tpl' with
        | [] => [c]
        | d :: tpl'' =>
            if Ascii.eqb d "$" then "$"%char :: expand tpl'' whole cs
            else if Ascii.eqb d "&" then whole ++ expand tpl'' whole cs
            else match digit_of d with
                 | Some k => capture k cs ++ expand tpl'' whole cs
                 | None => c :: expand tpl' whole cs
                 end
        end
      else c :: expand tpl' whole cs
  end.

(** [s.replaceAll(r, tpl)] for a global pattern [r]: the text is scanned
    from left to right; at a position where [r] matches, the replacement is
    emitted and the scan resumes after the match (one character further
    when the match is empty, that character being copied); elsewhere the
    character is copied.  The end of the text is a position like the
    others.  [skip] is the number of characters of the last match that
    remain to be passed over. *)
Fixpoint replaceAll_from (r : regex) (tpl : list ascii) (skip : nat)
    (s : list ascii) : list ascii :=
  match s with
  | [] =>
      match skip, regex_exec r [] with
      | 0, Some (m, cs, _) => expand tpl m cs
      | _, _ => []
      end
  | c :: s' =>
      match skip with
      | S k => replaceAll_from r tpl k s'
      | 0 =>
          match regex_exec r s with
          | Some (m, cs, _) =>
              match m with
              | [] => expand tpl m cs ++ c :: replaceAll_from r tpl 0 s'
              | _ :: m' => expand tpl m cs ++ replaceAll_from r tpl (length m') s'
              end
          | None => c :: replaceAll_from r tpl 0 s'
          end
      end
  end.

Definition replaceAll (r : regex) (tpl : list ascii) (s : list ascii) : list ascii :=
  replaceAll_from r tpl 0 s.

(** [\w]: letters, digits and the underscore. *)
Definition is_word (c : ascii) : bool :=
  let n := nat_of_ascii c in
  ((Nat.leb 97 n && Nat.leb n 122) || (Nat.leb 65 n && Nat.leb n 90) ||
   (Nat.leb 48 n && Nat.leb n 57) || Nat.eqb n 95)%bool.

(** [\s]: tab, line feed, vertical tab, form feed, carriage return, space
    and no-break space. *)
Definition is_space (c : ascii) : bool :=
  let n := nat_of_ascii c in
  ((Nat.leb 9 n && Nat.leb n 13) || Nat.eqb n 32 || Nat.eqb n 160)%bool.

Definition chars (s : string) : list ascii := list_ascii_of_string s.

(** The double quote. *)
Definition dq : ascii := Ascii false true false false false true false false.

(** The name of a property, state or reference between the quotes: one or
    more word characters, then any number of segments made of a hyphen and
    one or more word characters; groups 4 and 5 are inside, group 3 around
    the whole. *)
Definition re_name : regex :=
  RGroup 3 (RSeq (RGroup 4 (RPlus (RClass is_word)))
              (RStar (RGroup 5 (RSeq (RChar "-") (RPlus (RClass is_word)))))).

(** The first pattern of [prepareScript]: group 1 around a dollar and
    group 2, which is [onProp|onState]; white space, zero or more; an
    opening parenthesis; white space, zero or more; a double quote; the
    name; a double quote. *)
Definition re_subscribe : regex :=
  RSeq (RGroup 1 (RSeq (RChar "$")
                    (RGroup 2 (RAlt (RStr (chars "onProp")) (RStr (chars "onState"))))))
    (RSeq (RStar (RClass is_space))
       (RSeq (RChar "(")
          (RSeq (RStar (RClass is_space))
             (RSeq (RChar dq) (RSeq re_name (RChar dq)))))).

(** The second pattern of [prepareScript]: group 1 around a dollar and
    group 2, which is [prop|ref|state]; an opening parenthesis at once;
    white space, zero or more; a double quote; the name; a double quote;
    white space, zero or more. *)
Definition re_access : regex :=
  RSeq (RGroup 1 (RSeq (RChar "$")
                    (RGroup 2 (RAlt (RStr (chars "prop"))
                                 (RAlt (RStr (chars "ref")) (RStr (chars "state")))))))
    (RSeq (RChar "(")
       (RSeq (RStar (RClass is_space))
          (RSeq (RChar dq)
             (RSeq re_name (RSeq (RChar dq) (RStar (RClass is_space))))))).

(** The replacement templates: in both, the reference to group 1, an
    opening parenthesis, the uid between double quotes, a comma (followed by
    a space in the first template only), and the reference to group 3
    between double quotes. *)
Definition tpl_subscribe (uid : list ascii) : list ascii :=
  chars "$1(" ++ [dq] ++ uid ++ [dq] ++ chars ", " ++ [dq] ++ chars "$3" ++ [dq].

Definition tpl_access (uid : list ascii) : list ascii :=
  chars "$1(" ++ [dq] ++ uid ++ [dq] ++ chars "," ++ [dq] ++ chars "$3" ++ [dq].

(** [Dynel.prepareScript] on the text of the script element. *)
Definition prepareScript_chars (uid : list ascii) (text : list ascii) : list ascii :=
  replaceAll re_access (tpl_access uid)
    (replaceAll re_subscribe (tpl_subscribe uid) text).

Definition prepareScript (uid : string) (text : string) : string :=
  string_of_list_ascii (prepareScript_chars (chars uid) (chars text)).

(** ** Patterns and the dollar sign

    Both patterns of [prepareScript] start with a dollar and contain no
    other way to match one. *)

(** No part of [r] matches a dollar. *)
Fixpoint dollar_free (r : regex) : bool :=
  match r with
  | REps => true
  | RChar c => negb (Ascii.eqb c "$")
  | RClass p => negb (p "$"%char)
  | RSeq r1 r2 | RAlt r1 r2 => dollar_free r1 && dollar_free r2
  | RStar r1 | RGroup _ r1 => dollar_free r1
  end.

(** [r] matches a dollar first and none afterwards. *)
Fixpoint dollar_first (r : regex) : bool :=
  match r with
  | RChar c => Ascii.eqb c "$"
  | RSeq r1 r2 => dollar_first r1 && dollar_free r2
  | RGroup _ r1 => dollar_first r1
  | _ => false
  end.

(** The match [x] of a text, seen as a match of that text followed by [y]. *)
Definition extend (y : list ascii) (x : rmatch_result) : rmatch_result :=
  (x.1.1, x.1.2, x.2 ++ y).

(** ** The recognised calls, as texts *)

(** One or more word characters. *)
Definition word (w : list ascii) : Prop :=
  w ≠ [] ∧ Forall (λ c, is_word c = true) w.

(** A name: a word followed by hyphenated words, as in [my-prop-name]. *)
Definition name_text (w : list ascii) (segs : list (list ascii)) : list ascii :=
  w ++ mjoin ((λ seg, "-"%char :: seg) <$> segs).

(** White space only. *)
Definition spaces (ws : list ascii) : Prop := Forall (λ c, is_space c = true) ws.

(** A text that does not start with white space. *)
Definition no_leading_space (s : list ascii) : Prop :=
  match s with
  | [] => True
  | c :: _ => is_space c = false
  end.

(** No dollar in the text. *)
Definition dollarless (s : list ascii) : Prop := Forall (λ c, c ≠ "$"%char) s.

(** [first_match r n s m cs rest]: the first match of [r] at the start of
    [s] consumes [m], captures [cs] and leaves [rest]. *)
Definition first_match (r : regex) (n : nat) (s m : list ascii) (cs : captures)
    (rest : list ascii) : Prop :=
  head (rmatch r n s) = Some (m, cs, rest).

(** The hyphenated segment inside a name: group 5. *)
Definition re_segment : regex :=
  RGroup 5 (RSeq (RChar "-") (RPlus (RClass is_word))).

(** The names of the functions the two patterns recognise. *)
Definition subscribe_name (f : list ascii) : Prop :=
  f = chars "onProp" ∨ f = chars "onState".

Definition access_name (f : list ascii) : Prop :=
  f = chars "prop" ∨ f = chars "ref" ∨ f = chars "state".

(** A call of a subscription function as it is written in a template: the
    dollar and the function name, optional white space, the parenthesis,
    optional white space, the name between double quotes. *)
Definition subscribe_call (f ws1 ws2 name : list ascii) : list ascii :=
  "$"%char :: f ++ ws1 ++ "("%char :: ws2 ++ dq :: name ++ [dq].

(** A call of an access function as it is written in a template: the
    dollar and the function name, the parenthesis at once, optional white
    space, the name between double quotes. *)
Definition access_call (f ws name : list ascii) : list ascii :=
  "$"%char :: f ++ "("%char :: ws ++ dq :: name ++ [dq].

(** The same calls with the uid as first argument. *)
Definition subscribe_call_with (uid f name : list ascii) : list ascii :=
  "$"%char :: f ++ "("%char :: dq :: uid ++ dq :: ","%char :: " "%char :: dq
    :: name ++ [dq].

Definition access_call_with (uid f name : list ascii) : list ascii :=
  "$"%char :: f ++ "("%char :: dq :: uid ++ dq :: ","%char :: dq :: name ++ [dq].

(** The leading white space of a text, and the text without it. *)
Fixpoint leading_spaces (s : list ascii) : list ascii :=
  match s with
  | [] => []
  | c :: s' => if is_space c then c :: leading_spaces s' else []
  end.

Fixpoint skip_spaces (s : list ascii) : list ascii :=
  match s with
  | [] => []
  | c :: s' => if is_space c then skip_spaces s' else s
  end.

(** Every capturing group of [r] has a number of at least [k]. *)
Fixpoint groups_from (k : nat) (r : regex) : bool :=
  match r with
  | REps | RChar _ | RClass _ => true
  | RSeq r1 r2 | RAlt r1 r2 => groups_from k r1 && groups_from k r2
  | RStar r1 => groups_from k r1
  | RGroup k' r1 => Nat.leb k k' && groups_from k r1
  end.

(** ** Properties of matchers used in the proofs *)

(** A match splits the text into what it consumed and what follows. *)
Definition splits (s : list ascii) (x : rmatch_result) : Prop :=
  s = x.1.1 ++ x.2.

(** Enough fuel is as good as any larger amount. *)
Definition fuel_irrelevant (step : nat → list ascii → list rmatch_result) : Prop :=
  ∀ s n n', length s ≤ n → length s ≤ n' → step n s = step n' s.

(** A dollar in the text stops a dollar-free pattern like the end of the
    text does. *)
Definition stops_at_dollar (step : nat → list ascii → list rmatch_result) : Prop :=
  ∀ n x y, length (x ++ "$"%char :: y) ≤ n →
    step n (x ++ "$"%char :: y) = extend ("$"%char :: y) <$> step n x.

(** ** The document tree and slot projection ([Dynel.assemble])

    A node is an object: it has an identity, here a number, and it is in
    one place at a time.  [elem.replaceWith(actual)] therefore takes
    [actual] away from where it is before it puts it where [elem] was. *)

Inductive node :=
| Elem (id : nat) (tag : string) (attrs : list (string * string)) (kids : list node)
| Text (id : nat) (data : string).

Definition node_id (t : node) : nat :=
  match t with
  | Elem i _ _ _ => i
  | Text i _ => i
  end.

(** [elem.getAttribute(name)]; [None] is [null]. *)
Fixpoint getAttribute (name : string) (attrs : list (string * string))
    : option string :=
  match attrs with
  | [] => None
  | (n, v) :: rest => if String.eqb n name then Some v else getAttribute name rest
  end.

(** The identities of a node and of its descendants, in document order. *)
Fixpoint ids (t : node) : list nat :=
  match t with
  | Elem i _ _ kids => i :: flat_map ids kids
  | Text i _ => [i]
  end.

(** The identities of the descendants proper. *)
Definition inner_ids (t : node) : list nat :=
  match t with
  | Elem _ _ _ kids => flat_map ids kids
  | Text _ _ => []
  end.

(** [node.cloneNode(true)]: a deep copy made of new objects.  The copy of
    the node [i] gets the identity [fresh + i], where [fresh] is above
    every identity in use. *)
Fixpoint cloneNode (fresh : nat) (t : node) : node :=
  match t with
  | Elem i tag attrs kids => Elem (fresh + i) tag attrs (map (cloneNode fresh) kids)
  | Text i data => Text (fresh + i) data
  end.

(** The name a slot placeholder declares: [elem.getAttribute("name") ?? ""]
    for a [slot] element, nothing for any other node. *)
Definition placeholder (t : node) : option string :=
  match t with
  | Elem _ tag attrs _ =>
      if String.eqb tag "slot" then Some (default "" (getAttribute "name" attrs))
      else None
  | Text _ _ => None
  end.

(** [t.querySelectorAll("slot")]: the [slot] elements among the descendants
    of [t], in document order.  The list is static: it is computed once. *)
Fixpoint querySelectorAll_slot (t : node) : list node :=
  match t with
  | Elem _ _ _ kids =>
      flat_map (λ k, match placeholder k with
                     | Some _ => k :: querySelectorAll_slot k
                     | None => querySelectorAll_slot k
                     end) kids
  | Text _ _ => []
  end.

(** The element children of a list of child nodes ([root.children]). *)
Definition is_element (t : node) : bool :=
  match t with
  | Elem _ _ _ _ => true
  | Text _ _ => false
  end.

Definition element_children (kids : list node) : list node :=
  List.filter is_element kids.

(** The slot map of [assemble]: every element child of the root is stored
    under [elem.getAttribute("slot") ?? ""]; a later child with the same
    slot name takes the place of an earlier one. *)
Definition slot_of (t : node) : string :=
  match t with
  | Elem _ _ attrs _ => default "" (getAttribute "slot" attrs)
  | Text _ _ => ""
  end.

Definition slotDump_of (kids : list node) : gmap string nat :=
  fold_left (λ m k, <[slot_of k := node_id k]> m) (element_children kids) ∅.

(** The subtree with identity [i] in [t], if it is there. *)
Fixpoint find_node (i : nat) (t : node) : option node :=
  if Nat.eqb (node_id t) i then Some t
  else match t with
       | Elem _ _ _ kids =>
           (fix go (ks : list node) : option node :=
              match ks with
              | [] => None
              | k :: ks' =>
                  match find_node i k with
                  | Some r => Some r
                  | None => go ks'
                  end
              end) kids
       | Text _ _ => None
       end.

(** [t] without its descendant [i]. *)
Fixpoint remove_node (i : nat) (t : node) : node :=
  match t with
  | Elem j tag attrs kids =>
      Elem j tag attrs
        ((fix go (ks : list node) : list node :=
            match ks with
            | [] => []
            | k :: ks' =>
                if Nat.eqb (node_id k) i then go ks'
                else remove_node i k :: go ks'
            end) kids)
  | Text _ _ => t
  end.

(** [t] with [new] in the place of its descendant [i]. *)
Fixpoint replace_node (i : nat) (new : node) (t : node) : node :=
  match t with
  | Elem j tag attrs kids =>
      Elem j tag attrs
        ((fix go (ks : list node) : list node :=
            match ks with
            | [] => []
            | k :: ks' =>
                (if Nat.eqb (node_id k) i then new else replace_node i new k)
                :: go ks'
            end) kids)
  | Text _ _ => t
  end.

(** Whether [i] is a descendant proper of [t], that is, has a parent in
    [t]. *)
Definition has_parent_in (i : nat) (t : node) : bool :=
  bool_decide (i ∈ inner_ids t).

(** The trees [assemble] works on: the copy of the template, the root of
    the instance with its children, and the subtrees that were taken out
    of a tree and are still referred to by the static list of slots. *)
Record forest := mkForest {
  f_clone : node;
  f_root : node;
  f_detached : list node
}.

Definition forest_trees (f : forest) : list node :=
  f_clone f :: f_root f :: f_detached f.

Definition forest_map (g : node → node) (f : forest) : forest :=
  mkForest (g (f_clone f)) (g (f_root f)) (map g (f_detached f)).

Definition forest_find (i : nat) (f : forest) : option node :=
  head (omap (find_node i) (forest_trees f)).

(** [elem.replaceWith(actual)], where [elem] and [actual] are the nodes
    with the identities [e] and [a]:
    - if [elem] has no parent, nothing happens;
    - if [actual] is [elem] itself, nothing changes;
    - if [actual] contains [elem], the call throws ([None]);
    - otherwise [actual] leaves the place where it is and takes the place
      of [elem], which is left without parent. *)
Definition replaceWith (e a : nat) (f : forest) : option forest :=
  if negb (existsb (has_parent_in e) (forest_trees f)) then Some f
  else if Nat.eqb e a then Some f
  else
    match forest_find a f, forest_find e f with
    | Some actual, Some elem =>
        if bool_decide (e ∈ ids actual) then None
        else
          let f1 := forest_map (remove_node a) f in
          let f2 := forest_map (replace_node e actual) f1 in
          Some (mkForest (f_clone f2) (f_root f2)
                  (f_detached f2 ++ [remove_node a elem]))
    | _, _ => Some f
    end.

(** One round of the loop over the slots:
    [const slotName = elem.getAttribute("name") ?? "";
     const actual = slotDump.get(slotName);
     actual && elem.replaceWith(actual);] *)
Definition project_slot (slotDump : gmap string nat) (f : forest) (elem : node)
    : option forest :=
  match placeholder elem with
  | Some slotName =>
      match slotDump !! slotName with
      | Some actual => replaceWith (node_id elem) actual f
      | None => Some f
      end
  | None => Some f
  end.

Fixpoint project_slots (slotDump : gmap string nat) (slots : list node)
    (f : forest) : option forest :=
  match slots with
  | [] => Some f
  | elem :: rest => f' ← project_slot slotDump f elem; project_slots slotDump rest f'
  end.

(** The first part of [assemble]: the template is copied, the slot map is
    built from the children of the root, and every slot of the copy is
    visited. [root] is [this.root] with its children. *)
Definition assemble_slots (fresh : nat) (containerNode root : node)
    : option forest :=
  let clone := cloneNode fresh containerNode in
  let slotDump := slotDump_of (match root with
                               | Elem _ _ _ kids => kids
                               | Text _ _ => []
                               end) in
  project_slots slotDump (querySelectorAll_slot clone)
    (mkForest clone root []).

(** ** Slot projection, after the specification

    Following the specification: every slot placeholder of the copied
    template whose declared name has an entry in the slot map is replaced in
    place by the projected child; every other placeholder, and every other
    node, is left as it is.  [m] gives the projected child for a name. *)
Fixpoint project_spec (m : string → option node) (t : node) : node :=
  match t with
  | Elem i tag attrs kids =>
      Elem i tag attrs
        (map (λ k, match placeholder k ≫= m with
                   | Some child => child
                   | None => project_spec m k
                   end) kids)
  | Text _ _ => t
  end.

(** The child of the root that the slot map holds for a name. *)
Definition projected (kids : list node) (name : string) : option node :=
  a ← slotDump_of kids !! name;
  List.find (λ k, Nat.eqb (node_id k) a) kids.

(** The same substitution, for the placeholders in [done] only: the state
    of the copy when the slots of [done] have been visited. *)
Fixpoint project_upto (m : string → option node) (done : list nat) (t : node)
    : node :=
  match t with
  | Elem i tag attrs kids =>
      Elem i tag attrs
        (map (λ k, if bool_decide (node_id k ∈ done) then
                     match placeholder k ≫= m with
                     | Some child => child
                     | None => project_upto m done k
                     end
                   else project_upto m done k) kids)
  | Text _ _ => t
  end.

(** A node and its descendants, in document order. *)
Fixpoint subtrees (t : node) : list node :=
  match t with
  | Elem _ _ _ kids => t :: flat_map subtrees kids
  | Text _ _ => [t]
  end.

(** No slot placeholder of [t] lies inside another. *)
Definition flat_slots (t : node) : Prop :=
  Forall (λ s, querySelectorAll_slot s = []) (querySelectorAll_slot t).

(** No two slot placeholders of [t] declare the same name. *)
Definition distinct_slot_names (t : node) : Prop :=
  NoDup (placeholder <$> querySelectorAll_slot t).

(** Every node of the two trees has its own identity. *)
Definition unique_ids (clone root : node) : Prop :=
  NoDup (ids clone ++ ids root).

(** ** Sample trees *)

(** A template with the default slot and a slot named [footer], and an
    instance with one unnamed child and one child for [footer]. *)
Definition template_card : node :=
  Elem 0 "div" []
    [Elem 1 "h1" [] [Elem 2 "slot" [] []];
     Elem 3 "p" [] [Text 4 "body"];
     Elem 5 "slot" [("name", "footer")] [Text 6 "no footer"];
     Elem 7 "slot" [("name", "aside")] []].

Definition instance_card : node :=
  Elem 10 "x-card" []
    [Elem 11 "b" [] [Text 12 "title"];
     Text 13 " ";
     Elem 14 "i" [("slot", "footer")] []].


Definition instance_twice : node :=
  Elem 10 "x-twice" [] [Elem 11 "b" [("slot", "x")] []].

(** A template with a placeholder inside the fallback content of another
    placeholder. *)
Definition template_nested : node :=
  Elem 0 "div" []
    [Elem 1 "slot" [("name", "x")] [Elem 2 "slot" [("name", "y")] []]].

(** The slots a child contributes to [querySelectorAll_slot]: the child
    itself when it is a slot, then the slots inside it. *)
Definition slots_within (k : node) : list node :=
  match placeholder k with
  | Some _ => k :: querySelectorAll_slot k
  | None => querySelectorAll_slot k
  end.

(** The descendants proper of a node. *)
Definition inner_subtrees (t : node) : list node :=
  match t with
  | Elem _ _ _ kids => flat_map subtrees kids
  | Text _ _ => []
  end.

(** What [project_upto] makes of a child. *)
Definition project_kid_upto (m : string → option node) (done : list nat)
    (k : node) : node :=
  if bool_decide (node_id k ∈ done) then
    match placeholder k ≫= m with
    | Some child => child
    | None => project_upto m done k
    end
  else project_upto m done k.

(** The children projected into a tree are made of other nodes than the
    tree. *)
Definition children_apart (m : string → option node) (t : node) : Prop :=
  ∀ name child j, m name = Some child → j ∈ ids child → j ∉ ids t.

(** The children of the root that the slots of [visited] have taken. *)
Definition actuals_used (slotDump : gmap string nat) (visited : list node)
    : list nat :=
  omap (λ s, placeholder s ≫= (slotDump !!.)) visited.

(** ** Further operations of [State], [Event] and [Dynel] *)

(** How a call that can throw ends. *)
Inductive completion :=
| Returns (w : World)
| ThrowsTypeError.

(** [states.forEach(s => s.subscribe(cb))]. *)
Fixpoint subscribe_each (cb : Listener) (ss : list nat) (w : World)
    : option World :=
  match ss with
  | [] => Some w
  | s :: rest => w' ← State_subscribe s cb w; subscribe_each cb rest w'
  end.

(** [State.subscribe(cb, ...states)], the overload taken when the first
    argument is not a string:
    [const states = [part2, ...part3];
     states.forEach(s => s.subscribe(cb));]
    [part2] is [undefined] when the call passes no state; the array then
    holds [undefined], and reading its [subscribe] throws. *)
Definition State_static_subscribe_states (cb : Listener) (part2 : option nat)
    (part3 : list nat) (w : World) : option completion :=
  match part2 with
  | None => Some ThrowsTypeError
  | Some s => Returns <$> subscribe_each cb (s :: part3) w
  end.

(** The listeners the channel registered under [name] has; none when there
    is no such channel. *)
Definition listeners_under (name : string) (w : World) : list Listener :=
  match Event_instanceMap w !! name with
  | Some e => default [] (Event_listeners_of e w)
  | None => []
  end.

(** The subscribers the State registered under [name] has. *)
Definition subscribers_under (name : string) (w : World) : list Listener :=
  match State_instanceMap w !! name with
  | Some a => default [] (State_setCallbacks_of a w)
  | None => []
  end.

(** What becomes of the two registries from [w] to [w']: a name bound to
    a State is still bound, to the same State or to one created since; a
    name bound to a channel is bound to the same channel. *)
Definition names_kept (w w' : World) : Prop :=
  length (states w) ≤ length (states w') ∧
  (∀ k a, State_instanceMap w !! k = Some a →
     ∃ a', State_instanceMap w' !! k = Some a' ∧
           (a' = a ∨ length (states w) ≤ a')) ∧
  (∀ k e, Event_instanceMap w !! k = Some e → Event_instanceMap w' !! k = Some e).

(** Every name of the registry of [State] is bound to an object of the
    heap of its own, whose subscribers are observers. *)
Definition calm (w : World) : Prop :=
  (∀ key, quiet_key key w) ∧
  (∀ k k' a, State_instanceMap w !! k = Some a →
             State_instanceMap w !! k' = Some a → k = k').

(** Every channel of the registry of [Event] is in the heap and has
    observers as listeners. *)
Definition quiet_channel (name : string) (w : World) : Prop :=
  ∀ e, Event_instanceMap w !! name = Some e →
       ∃ ev, events w !! e = Some ev ∧ Forall is_observer (e_listeners ev).

(** [Dynel.configure(options)]:
    [if (options.baseUrl) Dynel.baseUrl = options.baseUrl;] and the same for
    [extension] and [propPrefix].  A field that is absent is [None]; a
    field that is the empty string is falsy like an absent one. *)
Definition with_config (baseUrl extension propPrefix : string) (w : World)
    : World :=
  mkWorld (states w) (State_instanceMap w) (events w) (Event_instanceMap w)
    (trace w) (Dynel_instanceMap w) (Dynel_fetchCache w) (requests w) (nodes w)
    baseUrl extension propPrefix.

Definition option_truthy (o : option string) : bool :=
  match o with
  | Some s => truthy (VStr s)
  | None => false
  end.

Definition Dynel_configure (baseUrl extension propPrefix : option string)
    (w : World) : World :=
  let w1 :=
    if option_truthy baseUrl
    then with_config (default "" baseUrl) (Dynel_extension w) (Dynel_propPrefix w) w
    else w in
  let w2 :=
    if option_truthy extension
    then with_config (Dynel_baseUrl w1) (default "" extension) (Dynel_propPrefix w1) w1
    else w1 in
  if option_truthy propPrefix
  then with_config (Dynel_baseUrl w2) (Dynel_extension w2) (default "" propPrefix) w2
  else w2.

(** The three settings are not empty. *)
Definition configured (w : World) : Prop :=
  Dynel_baseUrl w ≠ "" ∧ Dynel_extension w ≠ "" ∧ Dynel_propPrefix w ≠ "".

(** [s.replace(p, "")] for a string [p]: [s] without the first occurrence
    of [p], [s] itself when [p] does not occur. *)
Fixpoint remove_first (p s : string) : string :=
  if String.prefix p s
  then String.substring (String.length p) (String.length s - String.length p) s
  else match s with
       | EmptyString => EmptyString
       | String c s' => String c (remove_first p s')
       end.

Section DynelAssemble.
Variable run : list cmd → World → option World.

(** The end of [assemble]:
    [Array.from(this.attributes).forEach((attr) => {
       attr.name.startsWith(Dynel.propPrefix) &&
         Dynel.setProp(this.uid, attr.name.replace(Dynel.propPrefix, ""),
                       attr.value); })].
    [attributes] is the copy of the attributes of the element made by
    [Array.from] before the loop.  A [setProp] that throws ends the loop. *)
Fixpoint assemble_props (uid : string) (attributes : list (string * string))
    (w : World) : option outcome :=
  match attributes with
  | [] => Some (Returned w VUndef)
  | (name, value) :: rest =>
      if String.prefix (Dynel_propPrefix w) name
      then
        o ← Dynel_setProp run uid (remove_first (Dynel_propPrefix w) name)
              (VStr value) w;
        match o with
        | Returned w' _ => assemble_props uid rest w'
        | Threw error w' => Some (Threw error w')
        end
      else assemble_props uid rest w
  end.
End DynelAssemble.

(** An attribute name as the HTML parser gives it to an element and as
    [setAttribute] takes it: an XML name in lower case. *)
Definition lowercase_Name (name : string) : Prop :=
  is_Name name = true ∧ to_ascii_lowercase name = name.

(** A text without a dot. *)
Definition dotless (s : string) : Prop := Forall (λ c, c ≠ "."%char) (chars s).

(** ** The texts a pattern matches

    [matches r m]: the pattern [r] matches the whole of the text [m].  The
    matcher only reports such texts. *)
Inductive matches : regex → list ascii → Prop :=
| matches_eps : matches REps []
| matches_char c : matches (RChar c) [c]
| matches_class p c : p c = true → matches (RClass p) [c]
| matches_seq r1 r2 m1 m2 :
    matches r1 m1 → matches r2 m2 → matches (RSeq r1 r2) (m1 ++ m2)
| matches_alt_l r1 r2 m : matches r1 m → matches (RAlt r1 r2) m
| matches_alt_r r1 r2 m : matches r2 m → matches (RAlt r1 r2) m
| matches_star_nil r : matches (RStar r) []
| matches_star_more r m1 m2 :
    matches r m1 → matches (RStar r) m2 → matches (RStar r) (m1 ++ m2)
| matches_group k r m : matches r m → matches (RGroup k r) m.

(** The first character of a text, if any, is neither white space nor a
    double quote. *)
Definition starts_other (t : list ascii) : Prop :=
  match t with
  | [] => True
  | c :: _ => is_space c = false ∧ c ≠ dq
  end.

(** ** [Dynel.prepareStyle]

    [this.useShadow || (elem.textContent = (elem.textContent ?? "")
       .replaceAll(/(\[\s*ref\s*=\s*"(\w+)"\s*\])/g, `${this.name} $1`)
       .replaceAll("self", this.name))]. *)

(** The pattern of [prepareStyle]: group 1 around an opening bracket,
    white space, [ref], white space, an equals sign, white space, a double
    quote, group 2 (one or more word characters), a double quote, white
    space and a closing bracket. *)
Definition re_ref : regex :=
  RGroup 1
    (RSeq (RChar "[")
       (RSeq (RStar (RClass is_space))
          (RSeq (RStr (chars "ref"))
             (RSeq (RStar (RClass is_space))
                (RSeq (RChar "=")
                   (RSeq (RStar (RClass is_space))
                      (RSeq (RChar dq)
                         (RSeq (RGroup 2 (RPlus (RClass is_word)))
                            (RSeq (RChar dq)
                               (RSeq (RStar (RClass is_space))
                                  (RChar "]"))))))))))).

(** The replacement template: the name of the component, a space and the
    reference to group 1. *)
Definition tpl_ref (name : list ascii) : list ascii := name ++ chars " $1".

(** Whether the text [s] starts with [p]. *)
Fixpoint is_prefix (p s : list ascii) : bool :=
  match p, s with
  | [], _ => true
  | _ :: _, [] => false
  | a :: p', b :: s' => Ascii.eqb a b && is_prefix p' s'
  end.

(** The replacement text for one match of a string pattern: [$$] is a
    dollar, [$&] the text matched, a dollar and a backquote the text before
    the match, a dollar and a quote the text after it; a string pattern has
    no groups, so any other character, a dollar before a digit included,
    stands for itself. *)
Fixpoint expand_plain (tpl matched before after : list ascii) : list ascii :=
  match tpl with
  | [] => []
  | c :: tpl' =>
      if Ascii.eqb c "$" then
        match tpl' with
        | [] => [c]
        | d :: tpl'' =>
            if Ascii.eqb d "$" then "$"%char :: expand_plain tpl'' matched before after
            else if Ascii.eqb d "&" then matched ++ expand_plain tpl'' matched before after
            else if Ascii.eqb d "`" then before ++ expand_plain tpl'' matched before after
            else if Ascii.eqb d "'" then after ++ expand_plain tpl'' matched before after
            else c :: expand_plain tpl' matched before after
        end
      else c :: expand_plain tpl' matched before after
  end.

(** [s.replaceAll(pat, tpl)] for a string [pat]: the occurrences of [pat]
    are found from left to right, each search starting where the
    occurrence before ends (one character further for the empty pattern).
    [before] is the text that precedes the position reached, [skip] the
    number of characters of the last occurrence that remain to be passed
    over. *)
Fixpoint replaceAll_str_from (pat tpl : list ascii) (skip : nat)
    (before s : list ascii) : list ascii :=
  match s with
  | [] =>
      match skip, pat with
      | 0, [] => expand_plain tpl [] before []
      | _, _ => []
      end
  | c :: s' =>
      match skip with
      | S k => replaceAll_str_from pat tpl k (before ++ [c]) s'
      | 0 =>
          if is_prefix pat s
          then expand_plain tpl pat before (drop (length pat) s)
               ++ match pat with
                  | [] => c :: replaceAll_str_from pat tpl 0 (before ++ [c]) s'
                  | _ :: pat' =>
                      replaceAll_str_from pat tpl (length pat') (before ++ [c]) s'
                  end
          else c :: replaceAll_str_from pat tpl 0 (before ++ [c]) s'
      end
  end.

Definition replaceAll_str (pat tpl s : list ascii) : list ascii :=
  replaceAll_str_from pat tpl 0 [] s.

(** [prepareStyle] on the text of the style element; [name] is
    [this.name]. With [useShadow] the text is left as it is. *)
Definition prepareStyle_chars (useShadow : bool) (name text : list ascii)
    : list ascii :=
  if useShadow then text
  else replaceAll_str (chars "self") name (replaceAll re_ref (tpl_ref name) text).

Definition prepareStyle (useShadow : bool) (name text : string) : string :=
  string_of_list_ascii (prepareStyle_chars useShadow (chars name) (chars text)).

(** ** Patterns and a character they start with *)

(** No part of [r] matches the character [d]. *)
Fixpoint char_free (d : ascii) (r : regex) : bool :=
  match r with
  | REps => true
  | RChar c => negb (Ascii.eqb c d)
  | RClass p => negb (p d)
  | RSeq r1 r2 | RAlt r1 r2 => char_free d r1 && char_free d r2
  | RStar r1 | RGroup _ r1 => char_free d r1
  end.

(** [r] matches [d] first and not afterwards. *)
Fixpoint char_first (d : ascii) (r : regex) : bool :=
  match r with
  | RChar c => Ascii.eqb c d
  | RSeq r1 r2 => char_first d r1 && char_free d r2
  | RGroup _ r1 => char_first d r1
  | _ => false
  end.

(** The character [d] in the text stops the matcher like the end of the
    text does. *)
Definition stops_at (d : ascii) (step : nat → list ascii → list rmatch_result)
    : Prop :=
  ∀ n x y, length (x ++ d :: y) ≤ n →
    step n (x ++ d :: y) = extend (d :: y) <$> step n x.

(** [s.replaceAll(pat, tpl)] when [tpl] holds no dollar: every occurrence
    is replaced by [tpl] itself. *)
Fixpoint subst_from (pat tpl : list ascii) (skip : nat) (s : list ascii)
    : list ascii :=
  match s with
  | [] =>
      match skip, pat with
      | 0, [] => tpl
      | _, _ => []
      end
  | c :: s' =>
      match skip with
      | S k => subst_from pat tpl k s'
      | 0 =>
          if is_prefix pat s
          then tpl ++ match pat with
                      | [] => c :: subst_from pat tpl 0 s'
                      | _ :: pat' => subst_from pat tpl (length pat') s'
                      end
          else c :: subst_from pat tpl 0 s'
      end
  end.

(** A character that does not continue an occurrence of [self] begun
    before it. *)
Definition not_in_elf (c : ascii) : Prop :=
  c ≠ "e"%char ∧ c ≠ "l"%char ∧ c ≠ "f"%char.

(** A rule selecting a reference, as it is written in a style sheet. *)
Definition ref_selector (ws1 ws2 ws3 w ws4 : list ascii) : list ascii :=
  "["%char :: ws1 ++ chars "ref" ++ ws2 ++ "="%char :: ws3 ++ dq :: w
    ++ dq :: ws4 ++ ["]"%char].

(** ** The rest of [assemble]: scripts, styles and the children of the root

    Tags are the local names of the elements, in lower case as the HTML
    parser gives them, so that [elem.tagName.toLowerCase()] is the tag.
    Running the scripts, which the browser does when the new script
    elements are connected by the last [replaceChildren], is not part of
    the embedding. *)

(** [node.textContent]: the texts of the descendants, in document order. *)
Fixpoint textContent (t : node) : string :=
  match t with
  | Text _ data => data
  | Elem _ _ _ kids => String.concat "" (map textContent kids)
  end.

(** The children that [elem.textContent = s] gives an element: one new
    text node, none for the empty string. *)
Definition text_child (fresh : nat) (s : string) : list node :=
  if String.eqb s "" then [] else [Text fresh s].

(** [elem.textContent = s] for the element [e] of the tree [t]. *)
Fixpoint set_textContent (e fresh : nat) (s : string) (t : node) : node :=
  match t with
  | Elem i tag attrs kids =>
      if Nat.eqb i e then Elem i tag attrs (text_child fresh s)
      else Elem i tag attrs (map (set_textContent e fresh s) kids)
  | Text _ _ => t
  end.

Definition kids_of (t : node) : list node :=
  match t with
  | Elem _ _ _ kids => kids
  | Text _ _ => []
  end.

(** The same on the forest; the children the element had are now without
    parent. *)
Definition set_textContent_in (e fresh : nat) (s : string) (f : forest) : forest :=
  let old := default [] (kids_of <$> forest_find e f) in
  let f1 := forest_map (set_textContent e fresh s) f in
  mkForest (f_clone f1) (f_root f1) (f_detached f1 ++ old).

Definition is_script_or_style (t : node) : bool :=
  match t with
  | Elem _ tag _ _ => String.eqb tag "script" || String.eqb tag "style"
  | Text _ _ => false
  end.

(** [t.querySelectorAll("script, style")]: a static list, in document
    order. *)
Fixpoint querySelectorAll_script_style (t : node) : list node :=
  match t with
  | Elem _ _ _ kids =>
      flat_map (λ k, if is_script_or_style k
                     then k :: querySelectorAll_script_style k
                     else querySelectorAll_script_style k) kids
  | Text _ _ => []
  end.

(** [elem.replaceWith(temp)] for a node [temp] that was just created: it
    takes the place of [elem], which is left without parent; nothing
    happens when [elem] has no parent. *)
Definition replaceWith_new (e : nat) (temp : node) (f : forest) : forest :=
  if existsb (has_parent_in e) (forest_trees f) then
    match forest_find e f with
    | Some elem =>
        let f1 := forest_map (replace_node e temp) f in
        mkForest (f_clone f1) (f_root f1) (f_detached f1 ++ [elem])
    | None => f
    end
  else f.

(** One round of the loop over the scripts and styles:
    [const type = elem.tagName.toLowerCase();
     if (type === "style") this.prepareStyle(elem);
     else if (type === "script") this.prepareScript(elem);
     const temp = document.createElement(type);
     temp.textContent = elem.textContent;
     elem.replaceWith(temp);]
    [fresh], [fresh + 1] and [fresh + 2] are the identities of the text
    node given to [elem], of [temp] and of the text node of [temp]. *)
Definition recreate (useShadow : bool) (name uid : string) (fresh : nat)
    (elem : node) (f : forest) : option forest :=
  match elem with
  | Text _ _ => Some f
  | Elem e type _ _ =>
      cur ← forest_find e f;
      let f1 :=
        if String.eqb type "style" then
          if useShadow then f
          else set_textContent_in e fresh
                 (prepareStyle false name (textContent cur)) f
        else if String.eqb type "script" then
          set_textContent_in e fresh (prepareScript uid (textContent cur)) f
        else f in
      cur1 ← forest_find e f1;
      let temp :=
        Elem (fresh + 1) type [] (text_child (fresh + 2) (textContent cur1)) in
      Some (replaceWith_new e temp f1)
  end.

Fixpoint recreate_all (useShadow : bool) (name uid : string) (fresh : nat)
    (elems : list node) (f : forest) : option forest :=
  match elems with
  | [] => Some f
  | elem :: rest =>
      f' ← recreate useShadow name uid fresh elem f;
      recreate_all useShadow name uid (fresh + 3) rest f'
  end.

(** [this.root.replaceChildren()]. *)
Definition replaceChildren_none (f : forest) : forest :=
  match f_root f with
  | Elem rid rtag rattrs kids =>
      mkForest (f_clone f) (Elem rid rtag rattrs []) (f_detached f ++ kids)
  | Text _ _ => f
  end.

(** [this.root.replaceChildren(...Array.from(clone.children))]: the element
    children of the copy leave it and become the children of the root. *)
Definition replaceChildren_clone_children (f : forest) : forest :=
  match f_root f, f_clone f with
  | Elem rid rtag rattrs kids, Elem cid ctag cattrs ckids =>
      mkForest
        (Elem cid ctag cattrs (List.filter (λ k, negb (is_element k)) ckids))
        (Elem rid rtag rattrs (element_children ckids))
        (f_detached f ++ kids)
  | _, _ => f
  end.

(** [assemble] from [this.root.replaceChildren()] to the last
    [replaceChildren], on the forest the loop over the slots has left. *)
Definition assemble_rest (useShadow : bool) (name uid : string) (fresh : nat)
    (f : forest) : option forest :=
  let f1 := replaceChildren_none f in
  f2 ← recreate_all useShadow name uid fresh
          (querySelectorAll_script_style (f_clone f1)) f1;
  Some (replaceChildren_clone_children f2).

(** [assemble] on the document: the copy, the slots, the scripts and
    styles, the children of the root. *)
Definition assemble_dom (useShadow : bool) (name uid : string)
    (fresh fresh' : nat) (containerNode root : node) : option forest :=
  f ← assemble_slots fresh containerNode root;
  assemble_rest useShadow name uid fresh' f.

(** *** What the loop makes of the copy *)

(** The text [prepareStyle] or [prepareScript] gives an element of tag
    [type]. *)
Definition prepare (useShadow : bool) (name uid type text : string) : string :=
  if String.eqb type "style" then prepareStyle useShadow name text
  else if String.eqb type "script" then prepareScript uid text
  else text.

(** The element created for [elem]: the same tag, no attribute, and the
    prepared text as its only child. *)
Definition temp_of (useShadow : bool) (name uid : string) (fresh : nat)
    (elem : node) : node :=
  match elem with
  | Elem _ type _ _ =>
      Elem (fresh + 1) type []
        (text_child (fresh + 2)
           (prepare useShadow name uid type (textContent elem)))
  | Text _ _ => elem
  end.

(** The position of [i] in [l]. *)
Fixpoint index_of (i : nat) (l : list nat) : nat :=
  match l with
  | [] => 0
  | x :: rest => if Nat.eqb x i then 0 else S (index_of i rest)
  end.

(** The element created for a script or style of the copy [t], with the
    identities the loop gives it. *)
Definition new_element (useShadow : bool) (name uid : string) (fresh : nat)
    (t : node) (elem : node) : node :=
  temp_of useShadow name uid
    (fresh + 3 * index_of (node_id elem)
                   (node_id <$> querySelectorAll_script_style t))
    elem.

(** Every script and style of the tree replaced by what [mk] makes of
    it. *)
Fixpoint restyle (mk : node → node) (t : node) : node :=
  match t with
  | Elem i tag attrs kids =>
      Elem i tag attrs
        (map (λ k, if is_script_or_style k then mk k else restyle mk k) kids)
  | Text _ _ => t
  end.

(** The same for the scripts and styles in [done] only. *)
Fixpoint recreate_upto (mk : node → node) (done : list nat) (t : node) : node :=
  match t with
  | Elem i tag attrs kids =>
      Elem i tag attrs
        (map (λ k, if is_script_or_style k && bool_decide (node_id k ∈ done)
                   then mk k else recreate_upto mk done k) kids)
  | Text _ _ => t
  end.

Definition recreate_kid_upto (mk : node → node) (done : list nat) (k : node)
    : node :=
  if is_script_or_style k && bool_decide (node_id k ∈ done)
  then mk k else recreate_upto mk done k.

(** The scripts and styles a child contributes to the list. *)
Definition marked_within (k : node) : list node :=
  if is_script_or_style k
  then k :: querySelectorAll_script_style k
  else querySelectorAll_script_style k.

(** No script or style of [t] lies inside another. *)
Definition flat_scripts (t : node) : Prop :=
  Forall (λ s, querySelectorAll_script_style s = [])
    (querySelectorAll_script_style t).

(** What [mk] makes is made of other nodes than [t]. *)
Definition made_apart (mk : node → node) (t : node) : Prop :=
  ∀ k j, is_script_or_style k = true → j ∈ ids (mk k) → j ∉ ids t.

(** A template with a style, a script and a text at the top, and a script
    further down. *)
Definition template_scripted : node :=
  Elem 0 "div" []
    [Elem 1 "style" [("media", "screen")] [Text 2 "self { color: red }"];
     Text 3 "hello";
     Elem 4 "p" [] [Elem 5 "script" [] [Text 6 "f(1)"]];
     Elem 7 "script" [("type", "module")] [Text 8 "g(2)"]].

(** A template with a style, the default slot and a script, and an
    instance whose child brings a script of its own. *)
Definition template_widget : node :=
  Elem 0 "div" []
    [Elem 1 "style" [] [Text 2 "self { color: red }"];
     Elem 3 "slot" [] [];
     Elem 4 "script" [] [Text 5 "f(1)"]].

Definition instance_widget : node :=
  Elem 10 "x-widget" []
    [Elem 11 "b" [] [Elem 12 "script" [] [Text 13 "g(2)"]]].

(* ===================================================================== *)
(** * Part II. Properties                                                 *)
(* ===================================================================== *)

(** ** Traces *)

Lemma last_store_app a cur t1 t2 :
  last_store a cur (t1 ++ t2) = last_store a (last_store a cur t1) t2.
Proof.
  revert cur. induction t1 as [|e t1 IH]; intros cur; [done|].
  destruct e; simpl; auto.
Qed.

Lemma balanced_app t1 t2 : balanced t1 → balanced t2 → balanced (t1 ++ t2).
Proof.
  induction 1 as [|a v tr _ IH|t v inner tr Hin _ _ IH]; intros H2; simpl.
  - done.
  - constructor. auto.
  - rewrite <- app_assoc. simpl. constructor; auto.
Qed.

Lemma balanced_segment l v inner :
  balanced inner → balanced (call_segment l v inner).
Proof.
  intros H. unfold call_segment.
  apply (balanced_call (ltag l) v inner []); [done | constructor].
Qed.

Lemma top_calls_at_balanced d inner rest :
  balanced inner →
  top_calls_at (S d) (inner ++ rest) = top_calls_at (S d) rest.
Proof.
  intros H. revert d rest.
  induction H as [|a v tr _ IH|t v inner tr _ IH1 _ IH2]; intros d rest; simpl.
  - done.
  - apply IH.
  - rewrite <- app_assoc. rewrite IH1. simpl. apply IH2.
Qed.

Lemma held_at_calls_balanced a cur d inner rest :
  balanced inner →
  held_at_calls a cur (S d) (inner ++ rest)
  = held_at_calls a (last_store a cur inner) (S d) rest.
Proof.
  intros H. revert cur d rest.
  induction H as [|a' v tr _ IH|t v inner tr _ IH1 _ IH2]; intros cur d rest; simpl.
  - done.
  - apply IH.
  - rewrite <- app_assoc. rewrite IH1. simpl. rewrite IH2.
    by rewrite last_store_app.
Qed.

Lemma top_calls_segment l v inner rest :
  balanced inner →
  top_calls (call_segment l v inner ++ rest) = (ltag l, v) :: top_calls rest.
Proof.
  intros H. unfold top_calls, call_segment. simpl.
  rewrite <- app_assoc. by rewrite top_calls_at_balanced.
Qed.

Lemma held_at_calls_segment a cur l v inner rest :
  balanced inner →
  held_at_calls a cur 0 (call_segment l v inner ++ rest)
  = cur :: held_at_calls a (last_store a cur inner) 0 rest.
Proof.
  intros H. unfold call_segment. simpl.
  rewrite <- app_assoc. by rewrite held_at_calls_balanced.
Qed.

Lemma last_store_segment a cur l v inner :
  last_store a cur (call_segment l v inner) = last_store a cur inner.
Proof. unfold call_segment. simpl. by rewrite last_store_app. Qed.

Lemma last_store_no_store a cur tr :
  ¬ stores_into a tr → last_store a cur tr = cur.
Proof.
  revert cur. induction tr as [|e tr IH]; intros cur Hn; [done|].
  assert (¬ stores_into a tr) as Hn'.
  { intros [v Hv]. apply Hn. exists v. by right. }
  destruct e as [a' v| |]; simpl; auto.
  case_decide as Ha; [|auto]. subst a'.
  exfalso. apply Hn. exists v. by left.
Qed.

Lemma loop_trace_balanced argf pre ls tr :
  loop_trace argf pre ls tr → balanced tr.
Proof.
  induction 1; [constructor|].
  apply balanced_app; [by apply balanced_segment | done].
Qed.

Lemma loop_trace_tags argf pre ls tr :
  loop_trace argf pre ls tr → (top_calls tr).*1 = ltag <$> ls.
Proof.
  induction 1 as [|pre l ls inner tr Hin _ IH]; [done|].
  rewrite top_calls_segment by done. rewrite !fmap_cons. by f_equal.
Qed.

(** In the loop of [set], the argument of each call is the value held. *)
Lemma loop_trace_held a v pre ls tr :
  loop_trace (last_store a v) pre ls tr →
  (top_calls tr).*2 = held_at_calls a (last_store a v pre) 0 tr.
Proof.
  induction 1 as [|pre l ls inner tr Hin _ IH]; [done|].
  rewrite top_calls_segment by done.
  rewrite held_at_calls_segment by done. rewrite fmap_cons. f_equal.
  rewrite IH. by rewrite last_store_app, last_store_segment.
Qed.

(** With a constant argument every call receives it. *)
Lemma loop_trace_const p pre ls tr :
  loop_trace (λ _, p) pre ls tr → top_calls tr = (λ l, (ltag l, p)) <$> ls.
Proof.
  induction 1 as [|pre l ls inner tr Hin _ IH]; [done|].
  rewrite top_calls_segment by done. rewrite fmap_cons. by f_equal.
Qed.

Lemma stores_into_app a t1 t2 :
  stores_into a (t1 ++ t2) ↔ stores_into a t1 ∨ stores_into a t2.
Proof.
  unfold stores_into. split.
  - intros [v Hv]. apply elem_of_app in Hv as [H|H]; eauto.
  - intros [[v H]|[v H]]; exists v; apply elem_of_app; auto.
Qed.

(** Without a store into [a] during the loop of [set], every call receives
    the value held when the loop started. *)
Lemma loop_trace_no_store a v pre ls tr :
  loop_trace (last_store a v) pre ls tr → ¬ stores_into a tr →
  top_calls tr = (λ l, (ltag l, last_store a v pre)) <$> ls.
Proof.
  induction 1 as [|pre l ls inner tr Hin _ IH]; intros Hn; [done|].
  rewrite top_calls_segment by done. rewrite fmap_cons. f_equal.
  rewrite IH.
  - rewrite last_store_app, last_store_segment.
    rewrite (last_store_no_store a _ inner); [done|].
    intros Hs. apply Hn. apply stores_into_app. left.
    destruct Hs as [u Hu]. exists u. unfold call_segment.
    right. apply elem_of_app. by left.
  - intros Hs. apply Hn. apply stores_into_app. by right.
Qed.

(** ** Growth of the world *)

Lemma grows_refl w : grows w w [].
Proof.
  split; try done.
  - by rewrite app_nil_r.
  - intros a st H. exists st. by repeat split.
  - intros e ev H. exists ev. by repeat split.
Qed.

Lemma grows_trans w1 w2 w3 t1 t2 :
  grows w1 w2 t1 → grows w2 w3 t2 → grows w1 w3 (t1 ++ t2).
Proof.
  intros [T1 S1 E1 A1 B1 C1 D1 (F1 & G1 & H1)] [T2 S2 E2 A2 B2 C2 D2 (F2 & G2 & H2)].
  split; try congruence.
  - rewrite T2, T1. by rewrite app_assoc.
  - intros a st H.
    destruct (S1 a st H) as (st1 & L1 & N1 & P1 & V1).
    destruct (S2 a st1 L1) as (st2 & L2 & N2 & P2 & V2).
    exists st2. repeat split; [done | congruence | by etrans |].
    rewrite last_store_app. congruence.
  - intros e ev H.
    destruct (E1 e ev H) as (ev1 & L1 & N1 & P1).
    destruct (E2 e ev1 L1) as (ev2 & L2 & N2 & P2).
    exists ev2. repeat split; [done | congruence | by etrans].
  - repeat split; congruence.
Qed.

Lemma grows_log_call t v w : grows w (log (EvCall t v) w) [EvCall t v].
Proof.
  split; try done.
  - intros a st H. exists st. by repeat split.
  - intros e ev H. exists ev. by repeat split.
Qed.

Lemma grows_log_ret t w : grows w (log (EvRet t) w) [EvRet t].
Proof.
  split; try done.
  - intros a st H. exists st. by repeat split.
  - intros e ev H. exists ev. by repeat split.
Qed.

Lemma grows_store a v st w :
  states w !! a = Some st →
  grows w
    (log (EvStore a v)
       (with_states (λ h, <[a := mkState (s_name st) v (s_setCallbacks st)]> h) w))
    [EvStore a v].
Proof.
  intros Ha. split; try done.
  - intros b sb Hb. simpl. destruct (decide (a = b)) as [->|Hne].
    + assert (sb = st) as -> by congruence.
      eexists. split.
      { apply list_lookup_insert_eq. by eapply lookup_lt_Some. }
      by repeat split.
    + exists sb. rewrite list_lookup_insert_ne by done. by repeat split.
  - intros e ev H. exists ev. by repeat split.
Qed.

Lemma grows_State_subscribe a cb w w' :
  State_subscribe a cb w = Some w' → grows w w' [].
Proof.
  unfold State_subscribe. intros H.
  destruct (states w !! a) as [st|] eqn:Ha; simplify_eq/=.
  split; try done.
  - by rewrite app_nil_r.
  - intros b sb Hb. simpl. destruct (decide (a = b)) as [->|Hne].
    + assert (sb = st) as -> by congruence.
      eexists. split.
      { apply list_lookup_insert_eq. by eapply lookup_lt_Some. }
      repeat split; simpl; [by apply prefix_app_r].
    + exists sb. rewrite list_lookup_insert_ne by done. by repeat split.
  - intros e ev H. exists ev. by repeat split.
Qed.

Lemma grows_State_registerInstance name a w :
  grows w (State_registerInstance name a w) [].
Proof.
  split; try done.
  - by rewrite app_nil_r.
  - intros b sb Hb. exists sb. by repeat split.
  - intros e ev H. exists ev. by repeat split.
Qed.

Lemma grows_State_new init name now w :
  grows w (State_new init name now w).2 [].
Proof.
  split; try done.
  - by rewrite app_nil_r.
  - intros b sb Hb. exists sb. simpl.
    rewrite lookup_app_l by (by eapply lookup_lt_Some). by repeat split.
  - intros e ev H. exists ev. by repeat split.
Qed.

Lemma grows_State_static_subscribe name cb w w' :
  State_static_subscribe name cb w = Some w' → grows w w' [].
Proof.
  unfold State_static_subscribe. destruct (State_instanceMap w !! name).
  - apply grows_State_subscribe.
  - intros [= <-]. apply grows_refl.
Qed.

Lemma grows_Event_addListener e l w w' :
  Event_addListener e l w = Some w' → grows w w' [].
Proof.
  unfold Event_addListener. intros H.
  destruct (events w !! e) as [ev|] eqn:He; simplify_eq/=.
  split; try done.
  - by rewrite app_nil_r.
  - intros b sb Hb. exists sb. by repeat split.
  - intros e' ev' H'. simpl. destruct (decide (e = e')) as [->|Hne].
    + assert (ev' = ev) as -> by congruence.
      eexists. split.
      { apply list_lookup_insert_eq. by eapply lookup_lt_Some. }
      repeat split; simpl. by apply prefix_app_r.
    + exists ev'. rewrite list_lookup_insert_ne by done. by repeat split.
Qed.

Lemma grows_Event_new name w : grows w (Event_new name w).2 [].
Proof.
  split; try done.
  - by rewrite app_nil_r.
  - intros b sb Hb. exists sb. by repeat split.
  - intros e ev H. exists ev. simpl.
    rewrite lookup_app_l by (by eapply lookup_lt_Some). by repeat split.
Qed.

Lemma grows_Event_registerInstance name e w :
  grows w (Event_registerInstance name e w) [].
Proof.
  split; try done.
  - by rewrite app_nil_r.
  - intros b sb Hb. exists sb. by repeat split.
  - intros e' ev H. exists ev. by repeat split.
Qed.

Lemma grows_Event_static_addListener name l w w' :
  Event_static_addListener name l w = Some w' → grows w w' [].
Proof.
  unfold Event_static_addListener. intros H.
  destruct (Event_instanceMap w !! name) as [e|] eqn:Hm.
  - rewrite Hm in H. simpl in H. by eapply grows_Event_addListener.
  - apply bind_Some in H as (e & _ & H).
    apply grows_Event_addListener in H.
    unfold Event_new in H.
    refine (grows_trans _ _ _ [] [] _ H).
    refine (grows_trans _ _ _ [] [] (grows_Event_new name w) _).
    apply grows_Event_registerInstance.
Qed.

(** ** Soundness of the operations that call listeners *)

Section Sound.
Variable r : list cmd → World → option World.
Hypothesis Hr : run_sound r.

Lemma invoke_sound l v w w' :
  invoke r l v w = Some w' →
  ∃ inner, grows w w' (call_segment l v inner) ∧ balanced inner.
Proof.
  unfold invoke. intros H.
  apply bind_Some in H as (w1 & Hrun & [= <-]).
  destruct (Hr _ _ _ Hrun) as (inner & Hg & Hb).
  exists inner. split; [|done].
  unfold call_segment.
  change (EvCall (ltag l) v :: inner ++ [EvRet (ltag l)])
    with ([EvCall (ltag l) v] ++ inner ++ [EvRet (ltag l)]).
  eapply grows_trans; [apply grows_log_call|].
  eapply grows_trans; [exact Hg|]. apply grows_log_ret.
Qed.

Lemma forEach_sound arr arg argf ls0 w0 :
  (∀ w pre, grows w0 w pre → ∃ ls, arr w = Some ls ∧ ls0 `prefix_of` ls) →
  (∀ w pre, grows w0 w pre → arg w = Some (argf pre)) →
  ∀ n i w w' pre,
    grows w0 w pre → i + n = length ls0 →
    forEach_from r arr arg n i w = Some w' →
    ∃ tr, grows w w' tr ∧ loop_trace argf pre (drop i ls0) tr.
Proof.
  intros Harr Harg n.
  induction n as [|n IH]; intros i w w' pre Hg Hlen H; simpl in H.
  - simplify_eq. exists []. split; [apply grows_refl|].
    rewrite drop_ge by lia. constructor.
  - destruct (Harr w pre Hg) as (ls & Hls & Hpre).
    rewrite Hls in H. simpl in H.
    assert (i < length ls0) as Hi by lia.
    destruct (lookup_lt_is_Some_2 ls0 i Hi) as [l Hl].
    rewrite (prefix_lookup_Some _ _ _ _ Hl Hpre) in H.
    rewrite (Harg w pre Hg) in H. simpl in H.
    apply bind_Some in H as (w1 & Hinv & H).
    destruct (invoke_sound _ _ _ _ Hinv) as (inner & Hg1 & Hb).
    assert (grows w0 w1 (pre ++ call_segment l (argf pre) inner)) as Hg01
      by (by eapply grows_trans).
    destruct (IH (S i) w1 w' _ Hg01 ltac:(lia) H) as (tr & Hg2 & Hlt).
    exists (call_segment l (argf pre) inner ++ tr). split.
    + by eapply grows_trans.
    + rewrite (drop_S _ _ _ Hl). by constructor.
Qed.

Lemma State_set_sound a v w w' :
  State_set r a v w = Some w' →
  ∃ st tr, states w !! a = Some st ∧ grows w w' (EvStore a v :: tr) ∧
           loop_trace (last_store a v) [] (s_setCallbacks st) tr.
Proof.
  unfold State_set. intros H.
  destruct (states w !! a) as [st|] eqn:Ha; [|done]. simpl in H.
  set (w1 := log (EvStore a v) _) in H.
  assert (grows w w1 [EvStore a v]) as Hg1 by (by apply grows_store).
  assert (states w1 !! a = Some (mkState (s_name st) v (s_setCallbacks st)))
    as Ha1.
  { simpl. apply list_lookup_insert_eq. by eapply lookup_lt_Some. }
  destruct (forEach_sound (State_setCallbacks_of a) (State_get a)
              (last_store a v) (s_setCallbacks st) w1) with
    (n := length (s_setCallbacks st)) (i := 0) (w := w1) (w' := w')
    (pre := @nil event) as (tr & Hg & Hlt); try done.
  - intros w2 pre Hg2.
    destruct (grows_states _ _ _ Hg2 _ _ Ha1) as (st2 & L2 & _ & P2 & _).
    exists (s_setCallbacks st2). unfold State_setCallbacks_of.
    by rewrite L2.
  - intros w2 pre Hg2.
    destruct (grows_states _ _ _ Hg2 _ _ Ha1) as (st2 & L2 & _ & _ & V2).
    unfold State_get. rewrite L2. simpl. by rewrite V2.
  - apply grows_refl.
  - exists st, tr. split; [done|]. split; [|done].
    change (EvStore a v :: tr) with ([EvStore a v] ++ tr).
    by eapply grows_trans.
Qed.

Lemma State_set_balanced a v w w' :
  State_set r a v w = Some w' → ∃ tr, grows w w' tr ∧ balanced tr.
Proof.
  intros H. destruct (State_set_sound _ _ _ _ H) as (st & tr & _ & Hg & Hlt).
  exists (EvStore a v :: tr). split; [done|].
  constructor. by eapply loop_trace_balanced.
Qed.

Lemma State_static_set_balanced name v w w' :
  State_static_set r name v w = Some w' → ∃ tr, grows w w' tr ∧ balanced tr.
Proof.
  unfold State_static_set. intros H.
  apply bind_Some in H as (a & _ & H).
  destruct (State_set_balanced _ _ _ _ H) as (tr & Hg & Hb).
  exists tr. split; [|done].
  destruct (State_instanceMap w !! name); [done|].
  unfold State_new in Hg.
  refine (grows_trans _ _ _ [] tr _ Hg).
  refine (grows_trans _ _ _ [] [] (grows_State_new VUndef (Some name) 0 w) _).
  apply grows_State_registerInstance.
Qed.

Lemma Event_trigger_sound e p w w' :
  Event_trigger r e p w = Some w' →
  ∃ ev tr, events w !! e = Some ev ∧ grows w w' tr ∧
           loop_trace (λ _, p) [] (e_listeners ev) tr.
Proof.
  unfold Event_trigger. intros H.
  destruct (events w !! e) as [ev|] eqn:He; [|done]. simpl in H.
  destruct (forEach_sound (Event_listeners_of e) (λ _, Some p)
              (λ _, p) (e_listeners ev) w) with
    (n := length (e_listeners ev)) (i := 0) (w := w) (w' := w')
    (pre := @nil event) as (tr & Hg & Hlt); try done.
  - intros w2 pre Hg2.
    destruct (grows_events _ _ _ Hg2 _ _ He) as (ev2 & L2 & _ & P2).
    exists (e_listeners ev2). unfold Event_listeners_of. by rewrite L2.
  - apply grows_refl.
  - by exists ev, tr.
Qed.

Lemma Event_static_trigger_balanced name p w w' :
  Event_static_trigger r name p w = Some w' →
  ∃ tr, grows w w' tr ∧ balanced tr.
Proof.
  unfold Event_static_trigger. intros H.
  destruct (Event_instanceMap w !! name) as [e|].
  - destruct (Event_trigger_sound _ _ _ _ H) as (ev & tr & _ & Hg & Hlt).
    exists tr. split; [done|]. by eapply loop_trace_balanced.
  - simplify_eq. exists []. split; [apply grows_refl | constructor].
Qed.

Lemma exec_cmd_sound c w w' :
  exec_cmd r c w = Some w' → ∃ tr, grows w w' tr ∧ balanced tr.
Proof.
  destruct c; simpl; intros H.
  - by eapply State_set_balanced.
  - apply bind_Some in H as (u & _ & H). by eapply Hr.
  - exists []. split; [by eapply grows_State_subscribe | constructor].
  - simplify_eq. exists []. split; [apply grows_State_new | constructor].
  - by eapply State_static_set_balanced.
  - by eapply Hr.
  - exists []. split; [by eapply grows_State_static_subscribe | constructor].
  - exists []. split; [by eapply grows_Event_static_addListener | constructor].
  - by eapply Event_static_trigger_balanced.
Qed.

Lemma exec_cmds_sound : run_sound (exec_cmds r).
Proof.
  intros cs. induction cs as [|c cs IH]; intros w w' H; simpl in H.
  - simplify_eq. exists []. split; [apply grows_refl | constructor].
  - apply bind_Some in H as (w1 & H1 & H2).
    destruct (exec_cmd_sound _ _ _ H1) as (t1 & G1 & B1).
    destruct (IH _ _ H2) as (t2 & G2 & B2).
    exists (t1 ++ t2). split; [by eapply grows_trans | by apply balanced_app].
Qed.
End Sound.

Lemma run_is_sound fuel : run_sound (run fuel).
Proof.
  induction fuel as [|f IH]; intros cs w w' H.
  - destruct cs; [|done]. simpl in H. simplify_eq.
    exists []. split; [apply grows_refl | constructor].
  - destruct cs as [|c cs].
    + simpl in H. simplify_eq. exists []. split; [apply grows_refl | constructor].
    + by eapply (exec_cmds_sound (run f) IH).
Qed.

(** ** Observers: the calls return *)

Lemma logs_nil w : logs [] w = w.
Proof. destruct w. unfold logs. simpl. by rewrite app_nil_r. Qed.

Lemma logs_logs t1 t2 w : logs t2 (logs t1 w) = logs (t1 ++ t2) w.
Proof. unfold logs. simpl. by rewrite app_assoc. Qed.

Lemma log_logs e t w : log e (logs t w) = logs (t ++ [e]) w.
Proof. unfold log, logs. simpl. by rewrite app_assoc. Qed.

Lemma run_accepts_nil fuel : run_nil (run fuel).
Proof. intros w. by destruct fuel. Qed.

Section Observers.
Variable r : list cmd → World → option World.
Hypothesis Hnil : run_nil r.

Lemma invoke_observer l v t w :
  is_observer l →
  invoke r l v (logs t w) = Some (logs (t ++ [EvCall (ltag l) v; EvRet (ltag l)]) w).
Proof.
  intros Hl. unfold invoke. rewrite Hl, Hnil. simpl.
  rewrite !log_logs. by rewrite <- app_assoc.
Qed.

Lemma forEach_observers arr arg ls v w :
  (∀ t, arr (logs t w) = Some ls) →
  (∀ t, arg (logs t w) = Some v) →
  Forall is_observer ls →
  ∀ n i t,
    forEach_from r arr arg n i (logs t w)
    = Some (logs (t ++ observer_calls (take n (drop i ls)) v) w).
Proof.
  intros Harr Harg Hobs n.
  induction n as [|n IH]; intros i t; simpl.
  - by rewrite app_nil_r.
  - rewrite Harr. simpl. destruct (ls !! i) as [l|] eqn:Hl.
    + rewrite Harg. simpl. rewrite invoke_observer.
      2:{ eapply Forall_lookup_1; eauto. }
      simpl. rewrite IH. rewrite (drop_S _ _ _ Hl). simpl.
      by rewrite <- app_assoc.
    + rewrite IH. apply lookup_ge_None in Hl.
      rewrite !drop_ge by lia. by rewrite !take_nil.
Qed.

Lemma State_set_observers a v st w :
  states w !! a = Some st →
  Forall is_observer (s_setCallbacks st) →
  State_set r a v w
  = Some (logs (EvStore a v :: observer_calls (s_setCallbacks st) v)
            (with_states
               (λ h, <[a := mkState (s_name st) v (s_setCallbacks st)]> h) w)).
Proof.
  intros Ha Hobs. unfold State_set. rewrite Ha. simpl.
  set (w1 := with_states _ w).
  change (log (EvStore a v) w1) with (logs [EvStore a v] w1).
  assert (states w1 !! a = Some (mkState (s_name st) v (s_setCallbacks st)))
    as Ha1.
  { simpl. apply list_lookup_insert_eq. by eapply lookup_lt_Some. }
  rewrite (forEach_observers _ _ (s_setCallbacks st) v w1).
  - rewrite drop_0, firstn_all. done.
  - intros t. unfold State_setCallbacks_of. simpl in *. by rewrite Ha1.
  - intros t. unfold State_get. simpl in *. by rewrite Ha1.
  - done.
Qed.

Lemma Event_trigger_observers e p ev w :
  events w !! e = Some ev →
  Forall is_observer (e_listeners ev) →
  Event_trigger r e p w = Some (logs (observer_calls (e_listeners ev) p) w).
Proof.
  intros He Hobs. unfold Event_trigger. rewrite He. simpl.
  rewrite <- (logs_nil w) at 1.
  rewrite (forEach_observers _ _ (e_listeners ev) p w); try done.
  - by rewrite drop_0, firstn_all.
  - intros t. unfold Event_listeners_of. simpl. by rewrite He.
Qed.
End Observers.

Lemma top_calls_observer_calls ls v :
  top_calls (observer_calls ls v) = (λ l, (ltag l, v)) <$> ls.
Proof.
  induction ls as [|l ls IH]; [done|].
  unfold top_calls in *. simpl. by rewrite IH.
Qed.

(** ** Claims on [State] and [Event] *)

(** C2 (as amended). [set(v)] on a State first stores [v], then calls every
    subscriber registered when [set] was called, each exactly once, in
    registration order, synchronously: whatever a subscriber does, nested
    notifications included, is complete (well bracketed) before the next
    subscriber of the outer call is entered.  The argument of each call is
    the value the State holds when that subscriber is entered; it is [v] for
    each of them unless the State was stored into again during the
    notification.  When the subscribers are observers the call returns and
    the trace is exactly the store followed by their calls with [v]. *)
Theorem State_set_notifies fuel a v w st :
  states w !! a = Some st →
  (∀ w', State_set (run fuel) a v w = Some w' →
     ∃ tr,
       trace w' = trace w ++ EvStore a v :: tr ∧
       balanced tr ∧
       (top_calls tr).*1 = ltag <$> s_setCallbacks st ∧
       (top_calls tr).*2 = held_at_calls a v 0 tr ∧
       (¬ stores_into a tr →
          top_calls tr = (λ l, (ltag l, v)) <$> s_setCallbacks st)) ∧
  (Forall is_observer (s_setCallbacks st) →
     ∃ w', State_set (run fuel) a v w = Some w' ∧
           State_get a w' = Some v ∧
           trace w' = trace w ++ EvStore a v :: observer_calls (s_setCallbacks st) v).
Proof.
  intros Ha. split.
  - intros w' H.
    destruct (State_set_sound _ (run_is_sound fuel) _ _ _ _ H)
      as (st' & tr & Ha' & Hg & Hlt).
    assert (st' = st) as -> by congruence.
    exists tr. split; [apply (grows_trace _ _ _ Hg)|].
    split; [by eapply loop_trace_balanced|].
    split; [by eapply loop_trace_tags|].
    split; [by apply (loop_trace_held a v [] _ _ Hlt)|].
    intros Hn. by apply (loop_trace_no_store a v [] _ _ Hlt).
  - intros Hobs. eexists. split.
    + by apply (State_set_observers _ (run_accepts_nil fuel)).
    + split; [|done]. unfold State_get. simpl.
      rewrite list_lookup_insert_eq; [done|]. by eapply lookup_lt_Some.
Qed.

Lemma State_set_notifies_witness :
  (∃ tr,
     trace (logs (EvStore 0 (VNum 7) :: observer_calls
                    [observer "a"; observer "b"; observer "c"] (VNum 7))
              (with_states (λ _, [mkState "s" (VNum 7)
                                    [observer "a"; observer "b"; observer "c"]])
                 world_observed))
     = trace world_observed ++ EvStore 0 (VNum 7) :: tr ∧
     balanced tr ∧
     (top_calls tr).*1 = ["a"; "b"; "c"] ∧
     (top_calls tr).*2 = held_at_calls 0 (VNum 7) 0 tr ∧
     (¬ stores_into 0 tr →
        top_calls tr = [("a", VNum 7); ("b", VNum 7); ("c", VNum 7)])) ∧
  (∃ w', State_set (run 0) 0 (VNum 7) world_observed = Some w' ∧
         State_get 0 w' = Some (VNum 7) ∧
         trace w' = [EvStore 0 (VNum 7); EvCall "a" (VNum 7); EvRet "a";
                     EvCall "b" (VNum 7); EvRet "b";
                     EvCall "c" (VNum 7); EvRet "c"]).
Proof.
  destruct (State_set_notifies 0 0 (VNum 7) world_observed
              (mkState "s" VUndef [observer "a"; observer "b"; observer "c"])
              eq_refl) as [H1 H2].
  split.
  - apply H1. vm_compute. reflexivity.
  - apply H2. repeat constructor.
Defined.

(** C2 (as stated) fails: with the subscribers [bump_once 0; observer "b"],
    [set(1)] enters ["a"] with 1; ["a"] sets the State to 2, which notifies
    ["a"] and ["b"] with 2; back in the outer call, ["b"] is entered with
    the value then held, 2, not with the 1 that was passed to [set]. *)
Lemma State_set_passes_held_value :
  trace <$> State_set (run 2) 0 (VNum 1) world_reentrant
  = Some (trace world_reentrant ++ EvStore 0 (VNum 1) :: trace_reentrant) ∧
  top_calls trace_reentrant = [("a", VNum 1); ("b", VNum 2)] ∧
  top_calls trace_reentrant
  ≠ (λ l, (ltag l, VNum 1)) <$> [bump_once 0; observer "b"].
Proof.
  split; [vm_compute; reflexivity|].
  split; [vm_compute; reflexivity|].
  vm_compute. discriminate.
Qed.

(** C8. [Event.trigger(name, payload)] on a name without channel returns
    the world as it is: nothing is called, nothing changes, no channel is
    created.  On an existing channel, the listeners registered when
    [trigger] was called are called, each exactly once, in registration
    order, each with [payload], synchronously (what a listener does is
    complete before the next one is entered); when they are observers the
    call returns and the trace is exactly their calls. *)
Theorem Event_trigger_spec fuel name payload w :
  (Event_instanceMap w !! name = None →
     Event_static_trigger (run fuel) name payload w = Some w) ∧
  (∀ e ev,
     Event_instanceMap w !! name = Some e → events w !! e = Some ev →
     Event_static_trigger (run fuel) name payload w
     = Event_trigger (run fuel) e payload w ∧
     (∀ w', Event_trigger (run fuel) e payload w = Some w' →
        ∃ tr,
          trace w' = trace w ++ tr ∧ balanced tr ∧
          top_calls tr = (λ l, (ltag l, payload)) <$> e_listeners ev) ∧
     (Forall is_observer (e_listeners ev) →
        Event_trigger (run fuel) e payload w
        = Some (logs (observer_calls (e_listeners ev) payload) w))).
Proof.
  split.
  - intros Hn. unfold Event_static_trigger. by rewrite Hn.
  - intros e ev Hm He. split; [|split].
    + unfold Event_static_trigger. by rewrite Hm.
    + intros w' H.
      destruct (Event_trigger_sound _ (run_is_sound fuel) _ _ _ _ H)
        as (ev' & tr & He' & Hg & Hlt).
      assert (ev' = ev) as -> by congruence.
      exists tr. split; [apply (grows_trace _ _ _ Hg)|].
      split; [by eapply loop_trace_balanced|].
      by apply (loop_trace_const payload [] _ _ Hlt).
    + intros Hobs. by apply (Event_trigger_observers _ (run_accepts_nil fuel)).
Qed.

Lemma Event_trigger_spec_witness :
  Event_static_trigger (run 0) "ready:y" (VNum 3) world_listened
  = Some world_listened ∧
  Event_static_trigger (run 0) "ready:x" (VNum 3) world_listened
  = Some (logs [EvCall "a" (VNum 3); EvRet "a"; EvCall "b" (VNum 3); EvRet "b"]
            world_listened) ∧
  ∃ tr,
    trace (logs [EvCall "a" (VNum 3); EvRet "a"; EvCall "b" (VNum 3); EvRet "b"]
             world_listened)
    = trace world_listened ++ tr ∧ balanced tr ∧
    top_calls tr = [("a", VNum 3); ("b", VNum 3)].
Proof.
  split.
  - apply (proj1 (Event_trigger_spec 0 "ready:y" (VNum 3) world_listened)).
    vm_compute. reflexivity.
  - destruct (proj2 (Event_trigger_spec 0 "ready:x" (VNum 3) world_listened)
                0 (mkEvent "ready:x" [observer "a"; observer "b"])
                ltac:(vm_compute; reflexivity) ltac:(vm_compute; reflexivity))
    as (H0 & H1 & H2).
    assert (Event_trigger (run 0) 0 (VNum 3) world_listened
            = Some (logs [EvCall "a" (VNum 3); EvRet "a";
                          EvCall "b" (VNum 3); EvRet "b"] world_listened)) as H3.
    { apply H2. repeat constructor. }
    split.
    + rewrite H0. exact H3.
    + apply H1. exact H3.
Defined.

(** C5 (as amended). [new State(initialValue, name)] allocates one object
    and registers it under its name (the given name, else the decimal
    string of [Date.now()]), replacing whatever that name was bound to;
    every other name keeps its binding, the State objects that existed are
    unchanged, and nothing else in the world changes. *)
Theorem State_new_registers initialValue name now w :
  let nm := default (pretty now) name in
  let a := (State_new initialValue name now w).1 in
  let w' := (State_new initialValue name now w).2 in
  a = length (states w) ∧
  states w' = states w ++ [mkState nm initialValue []] ∧
  State_instanceMap w' !! nm = Some a ∧
  (∀ k, k ≠ nm → State_instanceMap w' !! k = State_instanceMap w !! k) ∧
  (∀ b st, states w !! b = Some st → states w' !! b = Some st) ∧
  events w' = events w ∧ Event_instanceMap w' = Event_instanceMap w ∧
  trace w' = trace w.
Proof.
  intros nm a w'. subst nm a w'. simpl.
  split; [done|]. split; [done|].
  split; [apply lookup_insert_eq|].
  split; [intros k Hk; by apply lookup_insert_ne|].
  split; [|done].
  intros b st Hb. rewrite lookup_app_l; [done|]. by eapply lookup_lt_Some.
Qed.

Lemma State_new_registers_witness :
  State_instanceMap (State_new (VNum 1) (Some "j") 0 world_named).2 !! "k"
  = State_instanceMap world_named !! "k".
Proof.
  apply (State_new_registers (VNum 1) (Some "j") 0 world_named).
  discriminate.
Defined.

(** C5 (as stated) fails: with ["k"] bound to the State at address 0,
    [new State(1, "k")] rebinds ["k"] to the new object at address 1. *)
Lemma State_new_replaces_binding :
  State_instanceMap world_named !! "k" = Some 0 ∧
  State_instanceMap (State_new (VNum 1) (Some "k") 0 world_named).2 !! "k" = Some 1 ∧
  State_instanceMap (State_new (VNum 1) (Some "k") 0 world_named).2
  ≠ State_instanceMap world_named.
Proof.
  split; [vm_compute; reflexivity|]. split; [vm_compute; reflexivity|].
  intros H. apply (f_equal (λ m : gmap string nat, m !! "k")) in H.
  vm_compute in H. discriminate.
Qed.

(** ** Claims on keys and identifiers *)

(** C7. The key of an entity name and an instance id is the name, a dot and
    the id; for a fixed name distinct ids give distinct keys. *)
Theorem Dynel_key_injective (n i1 i2 : string) :
  Dynel_key i1 n = n +:+ "." +:+ i1 ∧
  (i1 ≠ i2 → Dynel_key i1 n ≠ Dynel_key i2 n).
Proof.
  split; [done|].
  intros Hne Heq. apply Hne. unfold Dynel_key in Heq.
  apply (inj (String.append n)) in Heq.
  by apply (inj (String.append ".")) in Heq.
Qed.

Lemma Dynel_key_injective_witness :
  Dynel_key "42" "x" = "x.42" ∧ Dynel_key "42" "x" ≠ Dynel_key "43" "x".
Proof.
  destruct (Dynel_key_injective "x" "42" "43") as [H1 H2].
  split; [exact H1|]. apply H2. discriminate.
Defined.

(** C6 fails on the code: the identifier is the decimal string of
    [now * 100 + draw] with [draw] below 10000, so an instance built at
    millisecond [t] with draw 100 and one built at [t + 1] with draw 0 get
    the same identifier, as do two instances with the same millisecond and
    the same draw. *)
Theorem Dynel_uid_collision :
  draw_in_range 100 ∧ draw_in_range 0 ∧
  (1700000000000, 100)%Z ≠ (1700000000001, 0)%Z ∧
  Dynel_uid 1700000000000 100 = Dynel_uid 1700000000001 0 ∧
  Dynel_uid 1700000000000 100 = "170000000000100".
Proof.
  unfold draw_in_range.
  split; [lia|]. split; [lia|]. split; [discriminate|].
  split; vm_compute; reflexivity.
Qed.
(** ** Claims on properties and internal state *)

Lemma State_static_set_sound r key v w w' :
  run_sound r →
  State_static_set r key v w = Some w' →
  ∃ a tr st',
    trace w' = trace w ++ EvStore a v :: tr ∧ balanced tr ∧
    states w' !! a = Some st' ∧ s_value st' = last_store a v tr.
Proof.
  intros Hr H. unfold State_static_set in H.
  apply bind_Some in H as (a & _ & H).
  destruct (State_set_sound _ Hr _ _ _ _ H) as (st & tr & Ha & Hg & Hlt).
  destruct (grows_states _ _ _ Hg _ _ Ha) as (st' & Ha' & _ & _ & Hv).
  exists a, tr, st'. simpl in Hv. rewrite decide_True in Hv by done.
  split; [|split; [by eapply loop_trace_balanced | done]].
  rewrite (grows_trace _ _ _ Hg). by destruct (State_instanceMap w !! key).
Qed.

(** [State.set(key, v)] stores into the State the key is bound to when it
    is called, notifies the subscribers that State has, and touches none
    of the tables of [Dynel]. *)
Lemma State_static_set_target r key v w w' :
  run_sound r →
  State_static_set r key v w = Some w' →
  ∃ a tr st',
    trace w' = trace w ++ EvStore a v :: tr ∧ balanced tr ∧
    (∀ a0, State_instanceMap w !! key = Some a0 → a = a0) ∧
    (State_instanceMap w !! key = None → a = length (states w)) ∧
    (top_calls tr).*1 = ltag <$> subscribers_under key w ∧
    (¬ stores_into a tr →
       top_calls tr = (λ l, (ltag l, v)) <$> subscribers_under key w) ∧
    states w' !! a = Some st' ∧ s_value st' = last_store a v tr ∧
    Dynel_instanceMap w' = Dynel_instanceMap w ∧
    Dynel_propPrefix w' = Dynel_propPrefix w.
Proof.
  intros Hr H. unfold State_static_set in H.
  apply bind_Some in H as (a & Hbound & H).
  destruct (State_set_sound _ Hr _ _ _ _ H) as (st & tr & Ha & Hg & Hlt).
  destruct (grows_states _ _ _ Hg _ _ Ha) as (st' & Ha' & _ & _ & Hv).
  simpl in Hv. rewrite decide_True in Hv by done.
  exists a, tr, st'.
  assert (subscribers_under key w = s_setCallbacks st) as Hsubs.
  { unfold subscribers_under, State_setCallbacks_of.
    destruct (State_instanceMap w !! key) as [a0|] eqn:Hk.
    - assert (a0 = a) as -> by congruence. by rewrite Ha.
    - simpl in Hbound, Ha. rewrite lookup_insert_eq in Hbound.
      injection Hbound as <-.
      rewrite lookup_app_r, Nat.sub_diag in Ha by done. by simplify_eq/=. }
  rewrite Hsubs.
  split. { rewrite (grows_trace _ _ _ Hg). by destruct (State_instanceMap w !! key). }
  split; [by eapply loop_trace_balanced|].
  split. { intros a0 Hk. rewrite Hk in Hbound. congruence. }
  split. { intros Hk. rewrite Hk in Hbound. simpl in Hbound.
           rewrite lookup_insert_eq in Hbound. congruence. }
  split; [by eapply loop_trace_tags|].
  split. { intros Hn. by apply (loop_trace_no_store a v [] _ _ Hlt). }
  split; [done|]. split; [done|].
  rewrite (grows_instanceMap _ _ _ Hg).
  destruct (grows_config _ _ _ Hg) as (_ & _ & ->).
  by destruct (State_instanceMap w !! key).
Qed.

Lemma State_static_set_quiet r key v w :
  run_nil r → quiet_key key w →
  ∃ w', State_static_set r key v w = Some w' ∧
        State_static_get key w' = v ∧
        Dynel_instanceMap w' = Dynel_instanceMap w ∧
        Dynel_propPrefix w' = Dynel_propPrefix w.
Proof.
  intros Hnil Hq. unfold State_static_set.
  destruct (State_instanceMap w !! key) as [a|] eqn:Hk.
  - destruct (Hq a Hk) as (st & Ha & Hobs).
    rewrite Hk. simpl. rewrite (State_set_observers r Hnil a v st w Ha Hobs).
    eexists. split; [done|]. split; [|done].
    unfold State_static_get, State_get. simpl. rewrite Hk.
    rewrite list_lookup_insert_eq; [done|]. by eapply lookup_lt_Some.
  - simpl. rewrite insert_insert_eq, lookup_insert_eq. simpl.
    erewrite (State_set_observers r Hnil (length (states w)) v
                (mkState key VUndef [])).
    + eexists. split; [done|]. split; [|done].
      unfold State_static_get, State_get. simpl.
      rewrite lookup_insert_eq.
      rewrite list_lookup_insert_eq by (rewrite length_app; simpl; lia).
      done.
    + simpl. by rewrite lookup_app_r, Nat.sub_diag.
    + constructor.
Qed.

(** [State.get(key)] is the value of the State the key is bound to. *)
Lemma State_static_get_bound key a st w :
  State_instanceMap w !! key = Some a → states w !! a = Some st →
  State_static_get key w = s_value st.
Proof.
  intros Hk Ha. unfold State_static_get, State_get. by rewrite Hk, Ha.
Qed.

(** The part of [setProp] that is [setState]; what follows it touches the
    attributes of the element only. *)
Lemma Dynel_setProp_registry r u n v w o :
  Dynel_setProp r u n v w = Some o →
  ∃ w1, Dynel_setState r u n v w = Some w1 ∧
        states (world_of o) = states w1 ∧
        State_instanceMap (world_of o) = State_instanceMap w1 ∧
        trace (world_of o) = trace w1.
Proof.
  unfold Dynel_setProp, Dynel_setState, Prop_set. intros H.
  apply bind_Some in H as (w1 & H1 & H).
  exists w1. split; [done|].
  destruct (Dynel_getElem u w1) as [attrs|]; [|by simplify_eq].
  apply bind_Some in H as (text & _ & H).
  destruct (setAttribute _ text attrs); by simplify_eq.
Qed.




Lemma Dynel_setProp_stores fuel u n x w o :
  Dynel_setProp (run fuel) u n x w = Some o →
  ∃ a tr, trace (world_of o) = trace w ++ EvStore a x :: tr.
Proof.
  intros H.
  destruct (Dynel_setProp_registry _ _ _ _ _ _ H) as (w1 & H1 & _ & _ & Ht).
  unfold Dynel_setState in H1.
  destruct (State_static_set_sound _ _ _ _ _ (run_is_sound fuel) H1)
    as (a & tr & _ & Htr & _).
  exists a, tr. congruence.
Qed.
(** C10. Called with [undefined] as third argument, [Dynel.prop] and
    [Dynel.state] read: they return the value of the State the key is bound
    to ([undefined] when the key is not bound) and leave the world as it
    is.  Called with any other value they write, and what they store is
    that value; so whenever one of them stores, the value stored is not
    [undefined].  A value written through [Dynel.state] on a key whose
    subscribers are observers is the value a read returns next. *)
Theorem accessors_read_on_undefined fuel u n x w :
  (∀ a st,
     State_instanceMap w !! Dynel_key u n = Some a → states w !! a = Some st →
     Dynel_prop (run fuel) u n VUndef w = Some (Returned w (s_value st)) ∧
     Dynel_state (run fuel) u n VUndef w = Some (Returned w (s_value st))) ∧
  (State_instanceMap w !! Dynel_key u n = None →
     Dynel_prop (run fuel) u n VUndef w = Some (Returned w VUndef) ∧
     Dynel_state (run fuel) u n VUndef w = Some (Returned w VUndef)) ∧
  (∀ o, Dynel_prop (run fuel) u n x w = Some o →
     (x = VUndef ∧ world_of o = w) ∨
     (x ≠ VUndef ∧ Dynel_setProp (run fuel) u n x w = Some o ∧
      ∃ a tr, trace (world_of o) = trace w ++ EvStore a x :: tr)) ∧
  (∀ o, Dynel_state (run fuel) u n x w = Some o →
     (x = VUndef ∧ world_of o = w) ∨
     (x ≠ VUndef ∧ Dynel_setState (run fuel) u n x w = Some (world_of o) ∧
      ∃ a tr, trace (world_of o) = trace w ++ EvStore a x :: tr)) ∧
  (x ≠ VUndef → quiet_key (Dynel_key u n) w →
     ∃ w', Dynel_state (run fuel) u n x w = Some (Returned w' VUndef) ∧
           Dynel_state (run fuel) u n VUndef w' = Some (Returned w' x) ∧
           Dynel_prop (run fuel) u n VUndef w' = Some (Returned w' x)).
Proof.
  split.
  { intros a st Hk Ha. unfold Dynel_prop, Dynel_state. simpl.
    unfold Dynel_getProp, Dynel_getState, Prop_get.
    by rewrite (State_static_get_bound _ _ _ _ Hk Ha). }
  split.
  { intros Hk. unfold Dynel_prop, Dynel_state. simpl.
    unfold Dynel_getProp, Dynel_getState, Prop_get, State_static_get.
    by rewrite Hk. }
  split; [|split].
  - intros o H. unfold Dynel_prop in H.
    destruct (decide (x = VUndef)) as [->|Hx].
    + left. by simplify_eq.
    + right. split; [done|]. split; [done|]. by eapply Dynel_setProp_stores.
  - intros o H. unfold Dynel_state in H.
    destruct (decide (x = VUndef)) as [->|Hx].
    + left. by simplify_eq.
    + right. apply bind_Some in H as (w1 & H1 & [= <-]).
      split; [done|]. split; [done|].
      unfold Dynel_setState in H1.
      destruct (State_static_set_sound _ _ _ _ _ (run_is_sound fuel) H1)
        as (a & tr & _ & Htr & _).
      by exists a, tr.
  - intros Hx Hq.
    destruct (State_static_set_quiet (run fuel) (Dynel_key u n) x w
                (run_accepts_nil fuel) Hq) as (w1 & H1 & Hget & _).
    exists w1. unfold Dynel_state, Dynel_prop, Dynel_setState.
    rewrite decide_False by done. rewrite H1. simpl.
    unfold Dynel_getState, Dynel_getProp, Prop_get. by rewrite Hget.
Qed.

Lemma accessors_read_on_undefined_witness :
  (Dynel_prop (run 0) "7" "n" VUndef world_component
   = Some (Returned world_component (VStr "0")) ∧
   Dynel_state (run 0) "7" "n" VUndef world_component
   = Some (Returned world_component (VStr "0"))) ∧
  ∃ w', Dynel_state (run 0) "7" "n" (VNum 6) world_component
        = Some (Returned w' VUndef) ∧
        Dynel_state (run 0) "7" "n" VUndef w' = Some (Returned w' (VNum 6)) ∧
        Dynel_prop (run 0) "7" "n" VUndef w' = Some (Returned w' (VNum 6)).
Proof.
  destruct (accessors_read_on_undefined 0 "7" "n" (VNum 6) world_component)
    as (H1 & _ & _ & _ & H5).
  split.
  - apply (H1 0 (mkState "n.7" (VStr "0") [observer "seen"])).
    + vm_compute. reflexivity.
    + vm_compute. reflexivity.
  - apply H5; [discriminate|].
    intros a Ha. vm_compute in Ha. injection Ha as <-.
    eexists. split; [vm_compute; reflexivity|]. repeat constructor.
Defined.

(** ** Claims on the template cache *)













(** ** What stays while calls and completions interleave *)











(** ** The matcher *)

Lemma fmap_list_bind {A B C} (f : B → C) (g : A → list B) (l : list A) :
  f <$> (l ≫= g) = l ≫= (λ x, f <$> g x).
Proof.
  induction l as [|x l IH]; [done|].
  rewrite !bind_cons, fmap_app. by f_equal.
Qed.

Lemma bind_ext_in {A B} (f g : A → list B) (l : list A) :
  (∀ x, x ∈ l → f x = g x) → l ≫= f = l ≫= g.
Proof.
  intros H. apply Forall_bind_ext. by apply Forall_forall.
Qed.


Lemma star_iter_splits step :
  (∀ n s x, x ∈ step n s → splits s x) →
  ∀ n s x, x ∈ star_iter step n s → splits s x.
Proof.
  intros Hstep n. induction n as [|n IH]; intros s x Hx; simpl in Hx.
  - apply list_elem_of_singleton in Hx as ->. done.
  - apply elem_of_app in Hx as [Hx|Hx].
    + apply list_elem_of_bind in Hx as (x1 & Hx & Hx1).
      pose proof (Hstep _ _ _ Hx1) as Hs1.
      destruct (x1.1.1) as [|c m1] eqn:Hm; [by apply elem_of_nil in Hx|].
      apply list_elem_of_bind in Hx as (x2 & Hx & Hx2).
      apply list_elem_of_singleton in Hx as ->.
      pose proof (IH _ _ Hx2) as Hs2.
      unfold splits in *. simpl. rewrite Hs1, Hm, Hs2.
      by rewrite <- app_assoc.
    + apply list_elem_of_singleton in Hx as ->. done.
Qed.

Lemma rmatch_splits r : ∀ n s x, x ∈ rmatch r n s → splits s x.
Proof.
  induction r as [|c|p|r1 IH1 r2 IH2|r1 IH1 r2 IH2|r1 IH1|k r1 IH1];
    intros n s x Hx; simpl in Hx.
  - apply list_elem_of_singleton in Hx as ->. done.
  - destruct s as [|c' s]; [by apply elem_of_nil in Hx|].
    destruct (Ascii.eqb c c'); [|by apply elem_of_nil in Hx].
    apply list_elem_of_singleton in Hx as ->. done.
  - destruct s as [|c' s]; [by apply elem_of_nil in Hx|].
    destruct (p c'); [|by apply elem_of_nil in Hx].
    apply list_elem_of_singleton in Hx as ->. done.
  - apply list_elem_of_bind in Hx as (x1 & Hx & Hx1).
    apply list_elem_of_bind in Hx as (x2 & Hx & Hx2).
    apply list_elem_of_singleton in Hx as ->.
    pose proof (IH1 _ _ _ Hx1) as Hs1. pose proof (IH2 _ _ _ Hx2) as Hs2.
    unfold splits in *. simpl. rewrite Hs1, Hs2. by rewrite <- app_assoc.
  - apply elem_of_app in Hx as [Hx|Hx]; eauto.
  - by eapply star_iter_splits.
  - apply list_elem_of_bind in Hx as (x1 & Hx & Hx1).
    apply list_elem_of_singleton in Hx as ->.
    apply (IH1 _ _ _ Hx1).
Qed.

Lemma splits_length s x : splits s x → length x.2 ≤ length s.
Proof. unfold splits. intros ->. rewrite length_app. lia. Qed.

Lemma splits_length_lt s x c m :
  splits s x → x.1.1 = c :: m → length x.2 < length s.
Proof. unfold splits. intros -> ->. rewrite length_app. simpl. lia. Qed.


Lemma bind_all_nil {A B} (f : A → list B) (l : list A) :
  (∀ x, x ∈ l → f x = []) → l ≫= f = [].
Proof.
  intros H. induction l as [|x l IH]; [done|].
  rewrite bind_cons, H by (by left). simpl. apply IH.
  intros y Hy. apply H. by right.
Qed.

Lemma star_iter_fuel step :
  (∀ n s x, x ∈ step n s → splits s x) →
  fuel_irrelevant step → fuel_irrelevant (star_iter step).
Proof.
  intros Hsp Hstep s n. revert s.
  induction n as [|n IH]; intros s n' Hn Hn'.
  - destruct s; [|simpl in Hn; lia].
    destruct n' as [|n']; [done|]. simpl.
    rewrite bind_all_nil; [done|].
    intros x Hx. apply Hsp in Hx. unfold splits in Hx.
    symmetry in Hx. apply app_eq_nil in Hx as [-> _]. done.
  - destruct n' as [|n'].
    + destruct s; [|simpl in Hn'; lia]. simpl.
      rewrite bind_all_nil; [done|].
      intros x Hx. apply Hsp in Hx. unfold splits in Hx.
      symmetry in Hx. apply app_eq_nil in Hx as [-> _]. done.
    + simpl. f_equal. rewrite (Hstep s (S n) (S n')) by done.
      apply bind_ext_in. intros x1 Hx1.
      destruct (x1.1.1) as [|c m] eqn:Hm; [done|].
      pose proof (splits_length_lt _ _ _ _ (Hsp _ _ _ Hx1) Hm).
      rewrite (IH x1.2 n') by lia. done.
Qed.

Lemma rmatch_fuel r : fuel_irrelevant (rmatch r).
Proof.
  induction r as [|c|p|r1 IH1 r2 IH2|r1 IH1 r2 IH2|r1 IH1|k r1 IH1];
    intros s n n' Hn Hn'; simpl; try done.
  - rewrite (IH1 s n n') by done. apply bind_ext_in. intros x1 Hx1.
    pose proof (splits_length _ _ (rmatch_splits _ _ _ _ Hx1)).
    rewrite (IH2 x1.2 n n') by lia. done.
  - by rewrite (IH1 s n n'), (IH2 s n n').
  - apply star_iter_fuel; [apply rmatch_splits | done | done | done].
  - by rewrite (IH1 s n n').
Qed.


Lemma star_iter_stops step :
  (∀ n s x, x ∈ step n s → splits s x) →
  stops_at_dollar step → stops_at_dollar (star_iter step).
Proof.
  intros Hsp Hstep n.
  induction n as [|n IH]; intros x y Hn.
  - rewrite length_app in Hn. simpl in Hn. lia.
  - simpl. rewrite fmap_app. f_equal.
    rewrite (Hstep (S n)) by done.
    rewrite list_fmap_bind, fmap_list_bind.
    apply bind_ext_in. intros x1 Hx1. simpl.
    destruct (x1.1.1) as [|c m] eqn:Hm; [done|].
    pose proof (Hsp _ _ _ Hx1) as Hs. unfold splits in Hs. rewrite Hm in Hs.
    rewrite IH.
    2:{ rewrite Hs in Hn. rewrite !length_app in *. simpl in *. lia. }
    rewrite list_fmap_bind, fmap_list_bind.
    apply bind_ext_in. intros x2 _. done.
Qed.

Lemma rmatch_stops r : dollar_free r = true → stops_at_dollar (rmatch r).
Proof.
  induction r as [|c|p|r1 IH1 r2 IH2|r1 IH1 r2 IH2|r1 IH1|k r1 IH1];
    simpl; intros Hr n x y Hn.
  - done.
  - destruct x as [|c' x]; simpl.
    + apply negb_true_iff in Hr. by rewrite Hr.
    + by destruct (Ascii.eqb c c').
  - destruct x as [|c' x]; simpl.
    + apply negb_true_iff in Hr. by rewrite Hr.
    + by destruct (p c').
  - apply andb_true_iff in Hr as [Hr1 Hr2].
    rewrite (IH1 Hr1) by done.
    rewrite list_fmap_bind, fmap_list_bind.
    apply bind_ext_in. intros x1 Hx1. simpl.
    pose proof (rmatch_splits _ _ _ _ Hx1) as Hs. unfold splits in Hs.
    rewrite (IH2 Hr2).
    2:{ rewrite Hs in Hn. rewrite !length_app in *. simpl in *. lia. }
    rewrite list_fmap_bind, fmap_list_bind.
    apply bind_ext_in. intros x2 _. done.
  - apply andb_true_iff in Hr as [Hr1 Hr2].
    rewrite (IH1 Hr1), (IH2 Hr2) by done. by rewrite fmap_app.
  - apply star_iter_stops; [apply rmatch_splits | by apply IH1 | done].
  - rewrite (IH1 Hr) by done.
    rewrite list_fmap_bind, fmap_list_bind.
    apply bind_ext_in. intros x1 _. done.
Qed.

(** A pattern that starts with a dollar matches nothing at another
    character, and is stopped by a later dollar in the same way. *)
Lemma rmatch_dollar_first_nil r n :
  dollar_first r = true → rmatch r n [] = [].
Proof.
  induction r as [|c|p|r1 IH1 r2 IH2|r1 IH1 r2 IH2|r1 IH1|k r1 IH1];
    simpl; intros Hr; try done.
  - apply andb_true_iff in Hr as [Hr1 _]. by rewrite IH1.
  - by rewrite IH1.
Qed.

Lemma rmatch_dollar_first_other r n c s :
  dollar_first r = true → c ≠ "$"%char → rmatch r n (c :: s) = [].
Proof.
  induction r as [|c'|p|r1 IH1 r2 IH2|r1 IH1 r2 IH2|r1 IH1|k r1 IH1];
    simpl; intros Hr Hc; try done.
  - apply Ascii.eqb_eq in Hr as ->.
    destruct (Ascii.eqb "$" c) eqn:He; [|done].
    apply Ascii.eqb_eq in He. congruence.
  - apply andb_true_iff in Hr as [Hr1 _]. by rewrite IH1.
  - by rewrite IH1.
Qed.

Lemma rmatch_dollar_first_stops r n c x y :
  dollar_first r = true →
  length (c :: x ++ "$"%char :: y) ≤ n →
  rmatch r n (c :: x ++ "$"%char :: y)
  = extend ("$"%char :: y) <$> rmatch r n (c :: x).
Proof.
  induction r as [|c'|p|r1 IH1 r2 IH2|r1 IH1 r2 IH2|r1 IH1|k r1 IH1];
    simpl; intros Hr Hn; try done.
  - by destruct (Ascii.eqb c' c).
  - apply andb_true_iff in Hr as [Hr1 Hr2].
    rewrite (IH1 Hr1) by done.
    rewrite list_fmap_bind, fmap_list_bind.
    apply bind_ext_in. intros x1 Hx1. simpl.
    pose proof (rmatch_splits _ _ _ _ Hx1) as Hs. unfold splits in Hs.
    rewrite (rmatch_stops r2 Hr2).
    2:{ apply (f_equal length) in Hs. rewrite length_app in *.
        simpl in *. rewrite length_app in *. simpl in *. lia. }
    rewrite list_fmap_bind, fmap_list_bind.
    apply bind_ext_in. intros x2 _. done.
  - rewrite (IH1 Hr) by done.
    rewrite list_fmap_bind, fmap_list_bind.
    apply bind_ext_in. intros x1 _. done.
Qed.

(** ** [replaceAll] *)

Lemma regex_exec_splits r s x : regex_exec r s = Some x → splits s x.
Proof.
  unfold regex_exec. intros H. apply (rmatch_splits r (length s)).
  destruct (rmatch r (length s) s) as [|x' l]; simplify_eq/=. by left.
Qed.

Lemma regex_exec_stops r c x y :
  dollar_first r = true →
  regex_exec r (c :: x ++ "$"%char :: y)
  = extend ("$"%char :: y) <$> regex_exec r (c :: x).
Proof.
  intros Hr. unfold regex_exec.
  change ((c :: x) ++ "$"%char :: y) with (c :: x ++ "$"%char :: y).
  rewrite rmatch_dollar_first_stops by done.
  rewrite (rmatch_fuel r (c :: x) (length (c :: x ++ "$"%char :: y))
             (length (c :: x))).
  - by destruct (rmatch r (length (c :: x)) (c :: x)).
  - simpl. rewrite length_app. lia.
  - done.
Qed.

Lemma replaceAll_from_skip r tpl m s :
  replaceAll_from r tpl (length m) (m ++ s) = replaceAll_from r tpl 0 s.
Proof. induction m as [|c m IH]; simpl; done. Qed.

(** A pattern that starts with a dollar does not match the empty text. *)
Lemma replaceAll_from_nil r tpl skip :
  dollar_first r = true → replaceAll_from r tpl skip [] = [].
Proof.
  intros Hr. simpl. destruct skip; [|done].
  unfold regex_exec. by rewrite rmatch_dollar_first_nil.
Qed.

(** The scan of a text can be cut in front of any dollar. *)
Lemma replaceAll_from_dollar r tpl y :
  dollar_first r = true →
  ∀ x skip, skip ≤ length x →
    replaceAll_from r tpl skip (x ++ "$"%char :: y)
    = replaceAll_from r tpl skip x ++ replaceAll_from r tpl 0 ("$"%char :: y).
Proof.
  intros Hr x. induction x as [|c x IH]; intros skip Hs.
  - simpl in Hs. replace skip with 0 by lia.
    by rewrite replaceAll_from_nil.
  - destruct skip as [|k].
    + change ((c :: x) ++ "$"%char :: y) with (c :: x ++ "$"%char :: y).
      cbn [replaceAll_from]. rewrite regex_exec_stops by done.
      destruct (regex_exec r (c :: x)) as [[[m cs] rest]|] eqn:He; simpl.
      * destruct m as [|c' m'].
        -- rewrite <- app_assoc. simpl. by rewrite IH by lia.
        -- rewrite <- app_assoc. f_equal. apply IH.
           apply regex_exec_splits in He. unfold splits in He. simpl in He.
           injection He as _ He. rewrite He, length_app. lia.
      * f_equal. apply IH. lia.
    + simpl. apply IH. simpl in Hs. lia.
Qed.

Lemma replaceAll_dollar r tpl x y :
  dollar_first r = true →
  replaceAll r tpl (x ++ "$"%char :: y)
  = replaceAll r tpl x ++ replaceAll r tpl ("$"%char :: y).
Proof. intros Hr. apply replaceAll_from_dollar; [done | lia]. Qed.

(** Text without a dollar is copied. *)
Lemma replaceAll_inert r tpl p s :
  dollar_first r = true → Forall (λ c, c ≠ "$"%char) p →
  replaceAll r tpl (p ++ s) = p ++ replaceAll r tpl s.
Proof.
  intros Hr Hp. induction Hp as [|c p Hc _ IH]; [done|].
  unfold replaceAll in *. simpl. unfold regex_exec.
  rewrite rmatch_dollar_first_other by done. simpl. by rewrite IH.
Qed.

Lemma replaceAll_match r tpl c s m cs rest :
  regex_exec r (c :: s) = Some (c :: m, cs, rest) →
  replaceAll r tpl (c :: s) = expand tpl (c :: m) cs ++ replaceAll r tpl rest.
Proof.
  intros He. unfold replaceAll. cbn [replaceAll_from]. rewrite He.
  apply regex_exec_splits in He. unfold splits in He. simpl in He.
  injection He as ->. by rewrite replaceAll_from_skip.
Qed.

Lemma replaceAll_no_match r tpl c s :
  regex_exec r (c :: s) = None →
  replaceAll r tpl (c :: s) = c :: replaceAll r tpl s.
Proof. intros He. unfold replaceAll. cbn [replaceAll_from]. by rewrite He. Qed.

(** ** The first match of the parts of the two patterns *)

Lemma head_bind {A B} (f : A → list B) (l : list A) x y :
  head l = Some x → head (f x) = Some y → head (l ≫= f) = Some y.
Proof.
  destruct l as [|x' l]; [done|]. intros [= ->] Hy.
  rewrite bind_cons. by destruct (f x).
Qed.

Lemma head_seq r1 r2 n s x1 x2 :
  head (rmatch r1 n s) = Some x1 →
  head (rmatch r2 n x1.2) = Some x2 →
  head (rmatch (RSeq r1 r2) n s)
  = Some (x1.1.1 ++ x2.1.1, x2.1.2 ++ x1.1.2, x2.2).
Proof.
  intros H1 H2. simpl.
  eapply head_bind; [exact H1|]. by eapply head_bind; [exact H2|].
Qed.

Lemma head_group k r n s x :
  head (rmatch r n s) = Some x →
  head (rmatch (RGroup k r) n s) = Some (x.1.1, (k, x.1.1) :: x.1.2, x.2).
Proof. intros H. simpl. by eapply head_bind; [exact H|]. Qed.

Lemma head_char c n s : head (rmatch (RChar c) n (c :: s)) = Some ([c], [], s).
Proof. simpl. by rewrite Ascii.eqb_refl. Qed.

Lemma head_str w n s : head (rmatch (RStr w) n (w ++ s)) = Some (w, [], s).
Proof.
  revert s. induction w as [|c w IH]; intros s; [done|].
  destruct w as [|c' w].
  - apply head_char.
  - change (RStr (c :: c' :: w)) with (RSeq (RChar c) (RStr (c' :: w))).
    change ((c :: c' :: w) ++ s) with (c :: (c' :: w) ++ s).
    by rewrite (head_seq _ _ _ _ _ _ (head_char c n _) (IH s)).
Qed.

Lemma head_star_iter_more step n s x1 x2 c m :
  head (step (S n) s) = Some x1 → x1.1.1 = c :: m →
  head (star_iter step n x1.2) = Some x2 →
  head (star_iter step (S n) s)
  = Some (x1.1.1 ++ x2.1.1, x2.1.2 ++ x1.1.2, x2.2).
Proof.
  intros H1 Hm H2. cbn [star_iter].
  destruct (step (S n) s) as [|x l]; [done|]. injection H1 as ->.
  rewrite bind_cons, Hm.
  destruct (star_iter step n x1.2) as [|x l2]; [done|]. injection H2 as ->.
  by rewrite bind_cons.
Qed.

Lemma head_star_iter_stop step n s :
  (∀ k, step k s = []) → head (star_iter step n s) = Some ([], [], s).
Proof.
  intros H. destruct n as [|n]; [done|]. cbn [star_iter]. by rewrite H.
Qed.

Lemma head_star_class p ws rest :
  Forall (λ c, p c = true) ws →
  match rest with [] => True | c :: _ => p c = false end →
  ∀ n, length ws ≤ n →
    head (rmatch (RStar (RClass p)) n (ws ++ rest)) = Some (ws, [], rest).
Proof.
  intros Hws Hrest.
  enough (∀ n, length ws ≤ n →
            head (star_iter (rmatch (RClass p)) n (ws ++ rest))
            = Some (ws, [], rest)) as H by exact H.
  induction Hws as [|c ws Hc _ IH]; intros n Hn.
  - apply head_star_iter_stop. intros k. simpl.
    destruct rest as [|c rest]; [done|]. by rewrite Hrest.
  - destruct n as [|n]; [simpl in Hn; lia|].
    assert (head (rmatch (RClass p) (S n) ((c :: ws) ++ rest))
            = Some ([c], [], ws ++ rest)) as H1.
    { simpl. by rewrite Hc. }
    rewrite (head_star_iter_more _ _ _ _ _ c [] H1 eq_refl
               (IH n ltac:(simpl in Hn; lia))).
    done.
Qed.

Lemma head_plus_class p w rest n :
  w ≠ [] → Forall (λ c, p c = true) w →
  match rest with [] => True | c :: _ => p c = false end →
  length w ≤ n →
  head (rmatch (RPlus (RClass p)) n (w ++ rest)) = Some (w, [], rest).
Proof.
  intros Hne Hw Hrest Hn. destruct w as [|c w]; [done|].
  apply Forall_cons in Hw as [Hc Hw].
  unfold RPlus.
  assert (head (rmatch (RClass p) n ((c :: w) ++ rest))
          = Some ([c], [], w ++ rest)) as H1.
  { simpl. by rewrite Hc. }
  rewrite (head_seq _ _ _ _ _ _ H1
             (head_star_class p w rest Hw Hrest n ltac:(simpl in Hn; lia))).
  done.
Qed.

Lemma first_match_seq r1 r2 n s m1 c1 s1 m2 c2 s2 :
  first_match r1 n s m1 c1 s1 → first_match r2 n s1 m2 c2 s2 →
  first_match (RSeq r1 r2) n s (m1 ++ m2) (c2 ++ c1) s2.
Proof. intros H1 H2. apply (head_seq _ _ _ _ _ _ H1 H2). Qed.

Lemma first_match_group k r n s m c rest :
  first_match r n s m c rest →
  first_match (RGroup k r) n s m ((k, m) :: c) rest.
Proof. intros H. apply (head_group _ _ _ _ _ H). Qed.

Lemma first_match_char c n s : first_match (RChar c) n (c :: s) [c] [] s.
Proof. apply head_char. Qed.

Lemma first_match_str w n s : first_match (RStr w) n (w ++ s) w [] s.
Proof. apply head_str. Qed.

Lemma first_match_alt_l r1 r2 n s m c rest :
  first_match r1 n s m c rest → first_match (RAlt r1 r2) n s m c rest.
Proof.
  unfold first_match. simpl. by destruct (rmatch r1 n s).
Qed.

Lemma first_match_alt_r r1 r2 n s m c rest :
  rmatch r1 n s = [] → first_match r2 n s m c rest →
  first_match (RAlt r1 r2) n s m c rest.
Proof. unfold first_match. simpl. by intros ->. Qed.

Lemma first_match_spaces ws rest n :
  spaces ws → no_leading_space rest → length ws ≤ n →
  first_match (RStar (RClass is_space)) n (ws ++ rest) ws [] rest.
Proof.
  intros Hws Hrest Hn. apply head_star_class; [done| |done].
  by destruct rest.
Qed.

Lemma first_match_word w rest n :
  word w → match rest with [] => True | c :: _ => is_word c = false end →
  length w ≤ n →
  first_match (RPlus (RClass is_word)) n (w ++ rest) w [] rest.
Proof. intros [Hne Hw] Hrest Hn. by apply head_plus_class. Qed.

(** What follows the first word of a name does not start with a word
    character. *)
Lemma segments_start segs rest :
  match mjoin ((λ seg, "-"%char :: seg) <$> segs) ++ dq :: rest with
  | [] => True
  | c :: _ => is_word c = false
  end.
Proof. by destruct segs. Qed.

Lemma mjoin_cons {A} (x : list A) (l : list (list A)) :
  mjoin (x :: l) = x ++ mjoin l.
Proof. done. Qed.

Lemma first_match_segments rest segs :
  Forall word segs →
  ∀ n, length (mjoin ((λ seg, "-"%char :: seg) <$> segs)) ≤ n →
  ∃ c5,
    first_match (RStar re_segment) n
      (mjoin ((λ seg, "-"%char :: seg) <$> segs) ++ dq :: rest)
      (mjoin ((λ seg, "-"%char :: seg) <$> segs)) c5 (dq :: rest) ∧
    Forall (λ kc, 4 ≤ kc.1) c5.
Proof.
  intros Hsegs.
  enough (∀ n, length (mjoin ((λ seg, "-"%char :: seg) <$> segs)) ≤ n →
            ∃ c5,
              head (star_iter (rmatch re_segment) n
                      (mjoin ((λ seg, "-"%char :: seg) <$> segs) ++ dq :: rest))
              = Some (mjoin ((λ seg, "-"%char :: seg) <$> segs), c5, dq :: rest) ∧
              Forall (λ kc, 4 ≤ kc.1) c5) as H by exact H.
  induction Hsegs as [|w segs Hw _ IH]; intros n Hn.
  - exists []. split; [|constructor].
    apply head_star_iter_stop. intros k. reflexivity.
  - rewrite fmap_cons, mjoin_cons in *.
    rewrite length_app in Hn. simpl in Hn.
    destruct n as [|n]; [lia|].
    destruct (IH n ltac:(lia)) as (c5 & H5 & Hc5).
    pose proof (first_match_group 5 _ (S n) _ _ _ _
                  (first_match_seq _ _ _ _ _ _ _ _ _ _
                     (first_match_char "-" (S n) _)
                     (first_match_word w _ (S n) Hw (segments_start segs rest)
                        ltac:(lia)))) as H1.
    exists (c5 ++ [(5, "-"%char :: w)]). split.
    + rewrite <- app_assoc.
      apply (head_star_iter_more _ _ _ _ _ "-"%char w H1 eq_refl H5).
    + apply Forall_app. split; [done|]. repeat constructor.
Qed.

Lemma first_match_name w segs rest n :
  word w → Forall word segs → length (name_text w segs) ≤ n →
  ∃ c45,
    first_match re_name n (name_text w segs ++ dq :: rest)
      (name_text w segs) ((3, name_text w segs) :: c45) (dq :: rest) ∧
    Forall (λ kc, 4 ≤ kc.1) c45.
Proof.
  intros Hw Hsegs Hn. unfold name_text in *. rewrite length_app in Hn.
  destruct (first_match_segments rest segs Hsegs n ltac:(lia)) as (c5 & H5 & Hc5).
  exists (c5 ++ [(4, w)]). split.
  - unfold re_name. apply first_match_group.
    rewrite <- app_assoc.
    refine (first_match_seq _ _ _ _ _ _ _ _ _ _ _ H5).
    apply first_match_group. apply first_match_word; [done| |lia].
    apply segments_start.
  - apply Forall_app. split; [done|]. repeat constructor.
Qed.

(** ** Captures and templates *)

Lemma capture_skip k c c' :
  Forall (λ kc, k < kc.1) c → capture k (c ++ c') = capture k c'.
Proof.
  induction 1 as [|[k' m] c Hk _ IH]; [done|]. simpl in *.
  destruct (Nat.eqb_spec k k'); [lia | done].
Qed.

Lemma star_iter_groups step k :
  (∀ n s x, x ∈ step n s → Forall (λ kc, k ≤ kc.1) x.1.2) →
  ∀ n s x, x ∈ star_iter step n s → Forall (λ kc, k ≤ kc.1) x.1.2.
Proof.
  intros Hstep n. induction n as [|n IH]; intros s x Hx; simpl in Hx.
  - apply list_elem_of_singleton in Hx as ->. constructor.
  - apply elem_of_app in Hx as [Hx|Hx].
    + apply list_elem_of_bind in Hx as (x1 & Hx & Hx1).
      destruct (x1.1.1) as [|c m1]; [by apply elem_of_nil in Hx|].
      apply list_elem_of_bind in Hx as (x2 & Hx & Hx2).
      apply list_elem_of_singleton in Hx as ->. simpl.
      apply Forall_app. split; eauto.
    + apply list_elem_of_singleton in Hx as ->. constructor.
Qed.

Lemma rmatch_groups k r :
  groups_from k r = true →
  ∀ n s x, x ∈ rmatch r n s → Forall (λ kc, k ≤ kc.1) x.1.2.
Proof.
  induction r as [|c|p|r1 IH1 r2 IH2|r1 IH1 r2 IH2|r1 IH1|k' r1 IH1];
    simpl; intros Hr n s x Hx.
  - apply list_elem_of_singleton in Hx as ->. constructor.
  - destruct s as [|c' s]; [by apply elem_of_nil in Hx|].
    destruct (Ascii.eqb c c'); [|by apply elem_of_nil in Hx].
    apply list_elem_of_singleton in Hx as ->. constructor.
  - destruct s as [|c' s]; [by apply elem_of_nil in Hx|].
    destruct (p c'); [|by apply elem_of_nil in Hx].
    apply list_elem_of_singleton in Hx as ->. constructor.
  - apply andb_true_iff in Hr as [Hr1 Hr2].
    apply list_elem_of_bind in Hx as (x1 & Hx & Hx1).
    apply list_elem_of_bind in Hx as (x2 & Hx & Hx2).
    apply list_elem_of_singleton in Hx as ->. simpl.
    apply Forall_app. split; eauto.
  - apply andb_true_iff in Hr as [Hr1 Hr2].
    apply elem_of_app in Hx as [Hx|Hx]; eauto.
  - eapply star_iter_groups; [|exact Hx]. by apply IH1.
  - apply andb_true_iff in Hr as [Hk Hr1]. apply Nat.leb_le in Hk.
    apply list_elem_of_bind in Hx as (x1 & Hx & Hx1).
    apply list_elem_of_singleton in Hx as ->. simpl.
    constructor; [done|]. eauto.
Qed.

Lemma expand_dollarless lit t m cs :
  dollarless lit → expand (lit ++ t) m cs = lit ++ expand t m cs.
Proof.
  induction 1 as [|c lit Hc _ IH]; [done|]. simpl.
  destruct (Ascii.eqb c "$") eqn:He.
  - apply Ascii.eqb_eq in He. done.
  - by rewrite IH.
Qed.

Lemma expand_copy c t m cs :
  c ≠ "$"%char → expand (c :: t) m cs = c :: expand t m cs.
Proof.
  intros Hc. simpl. destruct (Ascii.eqb c "$") eqn:He; [|done].
  by apply Ascii.eqb_eq in He.
Qed.

Lemma expand_group d k t m cs :
  digit_of d = Some k → d ≠ "$"%char → d ≠ "&"%char →
  expand ("$"%char :: d :: t) m cs = capture k cs ++ expand t m cs.
Proof.
  intros Hd H1 H2. cbn [expand]. change (Ascii.eqb "$" "$") with true.
  cbv iota. destruct (Ascii.eqb d "$") eqn:He1.
  { by apply Ascii.eqb_eq in He1. }
  destruct (Ascii.eqb d "&") eqn:He2.
  { by apply Ascii.eqb_eq in He2. }
  by rewrite Hd.
Qed.

Lemma dq_not_dollar : dq ≠ "$"%char.
Proof. discriminate. Qed.

Lemma expand_tpl_subscribe uid m cs :
  dollarless uid →
  expand (tpl_subscribe uid) m cs
  = capture 1 cs ++ "("%char :: dq :: uid ++ dq :: ","%char :: " "%char :: dq
      :: capture 3 cs ++ [dq].
Proof.
  intros Hu. unfold tpl_subscribe. cbn [chars list_ascii_of_string app].
  rewrite (expand_group "1" 1) by done.
  rewrite (expand_copy "(") by done.
  rewrite (expand_copy dq) by apply dq_not_dollar.
  rewrite (expand_dollarless uid) by done.
  rewrite (expand_copy dq) by apply dq_not_dollar.
  rewrite (expand_copy ",") by done.
  rewrite (expand_copy " ") by done.
  rewrite (expand_copy dq) by apply dq_not_dollar.
  rewrite (expand_group "3" 3) by done.
  by rewrite (expand_copy dq) by apply dq_not_dollar.
Qed.

Lemma expand_tpl_access uid m cs :
  dollarless uid →
  expand (tpl_access uid) m cs
  = capture 1 cs ++ "("%char :: dq :: uid ++ dq :: ","%char :: dq
      :: capture 3 cs ++ [dq].
Proof.
  intros Hu. unfold tpl_access. cbn [chars list_ascii_of_string app].
  rewrite (expand_group "1" 1) by done.
  rewrite (expand_copy "(") by done.
  rewrite (expand_copy dq) by apply dq_not_dollar.
  rewrite (expand_dollarless uid) by done.
  rewrite (expand_copy dq) by apply dq_not_dollar.
  rewrite (expand_copy ",") by done.
  rewrite (expand_copy dq) by apply dq_not_dollar.
  rewrite (expand_group "3" 3) by done.
  by rewrite (expand_copy dq) by apply dq_not_dollar.
Qed.

(** ** The first match of the two patterns on a recognised call *)

Lemma no_leading_space_paren s : no_leading_space ("("%char :: s).
Proof. done. Qed.

Lemma no_leading_space_dq s : no_leading_space (dq :: s).
Proof. done. Qed.

(** White space, the opening quote and the name, followed by whatever [r]
    matches from the closing quote on. *)
Lemma first_match_argument r ws w segs rest n m c rest' :
  spaces ws → word w → Forall word segs →
  length (ws ++ dq :: name_text w segs) ≤ n →
  first_match r n (dq :: rest) m c rest' →
  ∃ c45,
    first_match (RSeq (RStar (RClass is_space)) (RSeq (RChar dq) (RSeq re_name r)))
      n (ws ++ dq :: name_text w segs ++ dq :: rest)
      (ws ++ dq :: name_text w segs ++ m)
      (c ++ (3, name_text w segs) :: c45) rest' ∧
    Forall (λ kc, 4 ≤ kc.1) c45.
Proof.
  intros Hws Hw Hsegs Hn Hr.
  rewrite length_app in Hn. simpl in Hn.
  destruct (first_match_name w segs rest n Hw Hsegs ltac:(lia))
    as (c45 & Hname & Hc45).
  exists c45. split; [|done].
  pose proof (first_match_seq _ _ _ _ _ _ _ _ _ _
                (first_match_spaces ws (dq :: name_text w segs ++ dq :: rest) n
                   Hws (no_leading_space_dq _) ltac:(lia))
                (first_match_seq _ _ _ _ _ _ _ _ _ _
                   (first_match_char dq n _)
                   (first_match_seq _ _ _ _ _ _ _ _ _ _ Hname Hr))) as H.
  simpl in H. rewrite !app_nil_r in H. exact H.
Qed.

Lemma first_match_function k r f n rest :
  first_match r n (f ++ rest) f [] rest →
  first_match (RGroup 1 (RSeq (RChar "$") (RGroup k r))) n
    ("$"%char :: f ++ rest) ("$"%char :: f) [(1, "$"%char :: f); (k, f)] rest.
Proof.
  intros Hf.
  apply (first_match_group 1 _ _ _ _ [(k, f)]).
  apply (first_match_seq _ _ _ _ ["$"%char] [] _ f [(k, f)] _
           (first_match_char "$" n _)).
  by apply first_match_group.
Qed.

Lemma first_match_subscribe_name f n rest :
  subscribe_name f →
  first_match (RAlt (RStr (chars "onProp")) (RStr (chars "onState"))) n
    (f ++ rest) f [] rest.
Proof.
  intros [->| ->].
  - apply first_match_alt_l, first_match_str.
  - apply first_match_alt_r; [reflexivity | apply first_match_str].
Qed.

Lemma first_match_access_name f n rest :
  access_name f →
  first_match (RAlt (RStr (chars "prop"))
                 (RAlt (RStr (chars "ref")) (RStr (chars "state")))) n
    (f ++ rest) f [] rest.
Proof.
  intros [->|[->| ->]].
  - apply first_match_alt_l, first_match_str.
  - apply first_match_alt_r; [reflexivity|].
    apply first_match_alt_l, first_match_str.
  - apply first_match_alt_r; [reflexivity|].
    apply first_match_alt_r; [reflexivity | apply first_match_str].
Qed.

Lemma exec_subscribe f ws1 ws2 w segs post :
  subscribe_name f → spaces ws1 → spaces ws2 → word w → Forall word segs →
  ∃ cs,
    regex_exec re_subscribe (subscribe_call f ws1 ws2 (name_text w segs) ++ post)
    = Some (subscribe_call f ws1 ws2 (name_text w segs), cs, post) ∧
    capture 1 cs = "$"%char :: f ∧ capture 3 cs = name_text w segs.
Proof.
  intros Hf Hws1 Hws2 Hw Hsegs. unfold regex_exec.
  assert (subscribe_call f ws1 ws2 (name_text w segs) ++ post
          = "$"%char :: f ++ ws1 ++ "("%char :: ws2 ++ dq
              :: name_text w segs ++ dq :: post) as Hs.
  { unfold subscribe_call. simpl. rewrite <- !app_assoc. simpl.
    rewrite <- !app_assoc. simpl. by rewrite <- !app_assoc. }
  rewrite Hs.
  set (n := length _).
  assert (length f + length ws1 + length ws2 + length (name_text w segs) + 4 ≤ n)
    as Hn.
  { unfold n. simpl. rewrite !length_app. simpl. rewrite !length_app. simpl.
    rewrite !length_app. simpl. lia. }
  destruct (first_match_argument (RChar dq) ws2 w segs post n [dq] [] post
              Hws2 Hw Hsegs) as (c45 & Harg & Hc45).
  { rewrite length_app. simpl. lia. }
  { apply first_match_char. }
  pose proof (first_match_seq _ _ _ _ _ _ _ _ _ _
                (first_match_function 2 _ f n _
                   (first_match_subscribe_name f n _ Hf))
                (first_match_seq _ _ _ _ _ _ _ _ _ _
                   (first_match_spaces ws1 _ n Hws1 (no_leading_space_paren _)
                      ltac:(lia))
                   (first_match_seq _ _ _ _ _ _ _ _ _ _
                      (first_match_char "(" n _) Harg))) as H.
  eexists. split; [|split].
  - etrans; [exact H|]. reflexivity.
  - simpl. rewrite !app_nil_r.
    rewrite (capture_skip 1 c45); [done|].
    eapply Forall_impl; [exact Hc45|]. simpl. intros; lia.
  - done.
Qed.

Lemma exec_access f ws w segs ws3 rest :
  access_name f → spaces ws → word w → Forall word segs →
  spaces ws3 → no_leading_space rest →
  ∃ cs,
    regex_exec re_access (access_call f ws (name_text w segs) ++ ws3 ++ rest)
    = Some (access_call f ws (name_text w segs) ++ ws3, cs, rest) ∧
    capture 1 cs = "$"%char :: f ∧ capture 3 cs = name_text w segs.
Proof.
  intros Hf Hws Hw Hsegs Hws3 Hrest. unfold regex_exec.
  assert (access_call f ws (name_text w segs) ++ ws3 ++ rest
          = "$"%char :: f ++ "("%char :: ws ++ dq
              :: name_text w segs ++ dq :: ws3 ++ rest) as Hs.
  { unfold access_call. simpl. rewrite <- !app_assoc. simpl.
    rewrite <- !app_assoc. simpl. by rewrite <- !app_assoc. }
  rewrite Hs.
  set (n := length _).
  assert (length f + length ws + length ws3 + length (name_text w segs) + 4 ≤ n)
    as Hn.
  { unfold n. simpl. rewrite !length_app. simpl. rewrite !length_app. simpl.
    rewrite !length_app. simpl. rewrite !length_app. lia. }
  destruct (first_match_argument (RSeq (RChar dq) (RStar (RClass is_space)))
              ws w segs (ws3 ++ rest) n (dq :: ws3) [] rest
              Hws Hw Hsegs) as (c45 & Harg & Hc45).
  { rewrite length_app. simpl. lia. }
  { apply (first_match_seq _ _ _ _ [dq] [] _ ws3 [] _ (first_match_char dq n _)).
    apply first_match_spaces; [done | done | lia]. }
  pose proof (first_match_seq _ _ _ _ _ _ _ _ _ _
                (first_match_function 2 _ f n _
                   (first_match_access_name f n _ Hf))
                (first_match_seq _ _ _ _ _ _ _ _ _ _
                   (first_match_char "(" n _) Harg)) as H.
  eexists. split; [|split].
  - etrans; [exact H|]. f_equal. f_equal. f_equal.
    unfold access_call. simpl. f_equal.
    rewrite <- !app_assoc. simpl. rewrite <- !app_assoc. simpl.
    by rewrite <- !app_assoc.
  - simpl. rewrite !app_nil_r.
    rewrite (capture_skip 1 c45); [done|].
    eapply Forall_impl; [exact Hc45|]. simpl. intros; lia.
  - done.
Qed.

(** A call of the other family is not matched. *)
Lemma exec_subscribe_other f s :
  access_name f → regex_exec re_subscribe ("$"%char :: f ++ s) = None.
Proof. by intros [->|[->| ->]]. Qed.

Lemma exec_access_other f s :
  subscribe_name f → regex_exec re_access ("$"%char :: f ++ s) = None.
Proof. by intros [->| ->]. Qed.

(** In every match of the two patterns group 1 starts with the dollar. *)
Lemma rmatch_capture_function r t n s x :
  groups_from 2 t = true →
  x ∈ rmatch (RSeq (RGroup 1 (RSeq (RChar "$") r)) t) n s →
  ∃ g, capture 1 x.1.2 = "$"%char :: g.
Proof.
  intros Ht Hx. cbn [rmatch] in Hx.
  apply list_elem_of_bind in Hx as (x1 & Hx & Hx1).
  apply list_elem_of_bind in Hx as (x2 & Hx & Hx2).
  apply list_elem_of_singleton in Hx as ->.
  apply list_elem_of_bind in Hx1 as (x0 & Hx1 & Hx0).
  apply list_elem_of_singleton in Hx1 as ->.
  apply list_elem_of_bind in Hx0 as (xa & Hx0 & Hxa).
  apply list_elem_of_bind in Hx0 as (xb & Hx0 & Hxb).
  apply list_elem_of_singleton in Hx0 as ->.
  destruct s as [|c s]; [by apply elem_of_nil in Hxa|].
  destruct (Ascii.eqb "$" c) eqn:He; [|by apply elem_of_nil in Hxa].
  apply Ascii.eqb_eq in He as <-.
  apply list_elem_of_singleton in Hxa as ->.
  exists xb.1.1. cbn [fst snd].
  rewrite capture_skip; [done|].
  eapply Forall_impl; [apply (rmatch_groups 2 t Ht _ _ _ Hx2)|].
  simpl. intros; lia.
Qed.

(** ** Texts without dollars *)

Lemma word_char_not_dollar c : is_word c = true → c ≠ "$"%char.
Proof. by intros H ->. Qed.

Lemma space_not_dollar c : is_space c = true → c ≠ "$"%char.
Proof. by intros H ->. Qed.

Lemma dollarless_spaces ws : spaces ws → dollarless ws.
Proof.
  intros H. eapply Forall_impl; [exact H|]. intros c. apply space_not_dollar.
Qed.

Lemma dollarless_word w : word w → dollarless w.
Proof.
  intros [_ H]. eapply Forall_impl; [exact H|].
  intros c. apply word_char_not_dollar.
Qed.

Lemma dollarless_name w segs :
  word w → Forall word segs → dollarless (name_text w segs).
Proof.
  intros Hw Hsegs. unfold name_text. apply Forall_app.
  split; [by apply dollarless_word|].
  induction Hsegs as [|seg segs Hseg _ IH]; [constructor|].
  rewrite fmap_cons, mjoin_cons. apply Forall_app. split; [|done].
  constructor; [done | by apply dollarless_word].
Qed.

Lemma leading_skip_spaces s : s = leading_spaces s ++ skip_spaces s.
Proof.
  induction s as [|c s IH]; [done|]. simpl.
  destruct (is_space c); [|done]. simpl. by f_equal.
Qed.

Lemma leading_spaces_spaces s : spaces (leading_spaces s).
Proof.
  induction s as [|c s IH]; [constructor|]. simpl.
  destruct (is_space c) eqn:Hc; by constructor.
Qed.

Lemma skip_spaces_no_leading s : no_leading_space (skip_spaces s).
Proof.
  induction s as [|c s IH]; [done|]. simpl.
  by destruct (is_space c) eqn:Hc.
Qed.

(** The first rewriting does not put white space in front of a text that
    has none. *)
Lemma replaceAll_subscribe_start uid s :
  dollarless uid → no_leading_space s →
  no_leading_space (replaceAll re_subscribe (tpl_subscribe uid) s).
Proof.
  intros Hu Hs. destruct s as [|c s]; [done|].
  destruct (regex_exec re_subscribe (c :: s)) as [[[m cs] rest]|] eqn:He.
  - assert (∃ g, capture 1 cs = "$"%char :: g) as [g Hg].
    { unfold regex_exec, re_subscribe in He.
      eapply (rmatch_capture_function _ _ (length (c :: s)) (c :: s) (m, cs, rest)).
      2:{ destruct (rmatch _ _ _) as [|x l] eqn:Hm in He; [done|].
          rewrite Hm. simpl in He. injection He as ->. by left. }
      done. }
    unfold replaceAll. cbn [replaceAll_from]. rewrite He.
    rewrite expand_tpl_subscribe by done. rewrite Hg. by destruct m.
  - by rewrite replaceAll_no_match.
Qed.

(** ** Claim on the rewriting of scripts *)

Lemma dollarless_subscribe_tail uid f w segs :
  dollarless uid → subscribe_name f → word w → Forall word segs →
  dollarless (f ++ "("%char :: dq :: uid ++ dq :: ","%char :: " "%char :: dq
                :: name_text w segs ++ [dq]).
Proof.
  intros Hu Hf Hw Hsegs. apply Forall_app. split.
  { destruct Hf as [->| ->]; repeat constructor; discriminate. }
  constructor; [done|]. constructor; [apply dq_not_dollar|].
  apply Forall_app. split; [done|].
  constructor; [apply dq_not_dollar|]. constructor; [done|].
  constructor; [done|]. constructor; [apply dq_not_dollar|].
  apply Forall_app. split; [by apply dollarless_name|].
  constructor; [apply dq_not_dollar | constructor].
Qed.

Lemma dollarless_access_tail f ws w segs :
  access_name f → spaces ws → word w → Forall word segs →
  dollarless (f ++ "("%char :: ws ++ dq :: name_text w segs ++ [dq]).
Proof.
  intros Hf Hws Hw Hsegs. apply Forall_app. split.
  { destruct Hf as [->|[->| ->]]; repeat constructor; discriminate. }
  constructor; [done|].
  apply Forall_app. split; [by apply dollarless_spaces|].
  constructor; [apply dq_not_dollar|].
  apply Forall_app. split; [by apply dollarless_name|].
  constructor; [apply dq_not_dollar | constructor].
Qed.

Lemma rewrite_subscribe_call uid f ws1 ws2 w segs pre post :
  dollarless uid → subscribe_name f → spaces ws1 → spaces ws2 →
  word w → Forall word segs →
  prepareScript_chars uid
    (pre ++ subscribe_call f ws1 ws2 (name_text w segs) ++ post)
  = prepareScript_chars uid pre
    ++ subscribe_call_with uid f (name_text w segs)
    ++ prepareScript_chars uid post.
Proof.
  intros Hu Hf Hws1 Hws2 Hw Hsegs. unfold prepareScript_chars.
  (* first pattern: the call is matched and rewritten *)
  destruct (exec_subscribe f ws1 ws2 w segs post Hf Hws1 Hws2 Hw Hsegs)
    as (cs & He & Hc1 & Hc3).
  assert (replaceAll re_subscribe (tpl_subscribe uid)
            (pre ++ subscribe_call f ws1 ws2 (name_text w segs) ++ post)
          = replaceAll re_subscribe (tpl_subscribe uid) pre
            ++ "$"%char
               :: (f ++ "("%char :: dq :: uid ++ dq :: ","%char :: " "%char :: dq
                     :: name_text w segs ++ [dq])
               ++ replaceAll re_subscribe (tpl_subscribe uid) post) as H1.
  { change (subscribe_call f ws1 ws2 (name_text w segs) ++ post)
      with ("$"%char :: (f ++ ws1 ++ "("%char :: ws2 ++ dq
                           :: name_text w segs ++ [dq]) ++ post) in *.
    rewrite replaceAll_dollar by done. f_equal.
    rewrite (replaceAll_match _ _ _ _ _ _ _ He).
    rewrite expand_tpl_subscribe by done. rewrite Hc1, Hc3.
    simpl. rewrite <- !app_assoc. simpl. by rewrite <- !app_assoc. }
  rewrite H1.
  (* second pattern: the rewritten call is left alone *)
  rewrite replaceAll_dollar by done. f_equal.
  rewrite <- app_assoc.
  rewrite replaceAll_no_match by (by apply exec_access_other).
  rewrite app_assoc.
  rewrite replaceAll_inert; [|done|by apply dollarless_subscribe_tail].
  unfold subscribe_call_with. simpl. by rewrite <- !app_assoc.
Qed.

Lemma rewrite_access_call uid f ws w segs pre post :
  dollarless uid → access_name f → spaces ws →
  word w → Forall word segs →
  prepareScript_chars uid
    (pre ++ access_call f ws (name_text w segs) ++ post)
  = prepareScript_chars uid pre
    ++ access_call_with uid f (name_text w segs)
    ++ prepareScript_chars uid (skip_spaces post).
Proof.
  intros Hu Hf Hws Hw Hsegs. unfold prepareScript_chars.
  set (T1 := replaceAll re_subscribe (tpl_subscribe uid)).
  (* first pattern: the call is not matched and is copied *)
  assert (T1 (pre ++ access_call f ws (name_text w segs) ++ post)
          = T1 pre ++ access_call f ws (name_text w segs)
            ++ leading_spaces post ++ T1 (skip_spaces post)) as H1.
  { change (access_call f ws (name_text w segs) ++ post)
      with ("$"%char :: (f ++ "("%char :: ws ++ dq
                           :: name_text w segs ++ [dq]) ++ post).
    unfold T1. rewrite replaceAll_dollar by done. f_equal.
    rewrite <- app_assoc.
    rewrite replaceAll_no_match by (by apply exec_subscribe_other).
    rewrite app_assoc.
    rewrite replaceAll_inert; [|done|by apply dollarless_access_tail].
    rewrite (leading_skip_spaces post) at 1.
    rewrite (replaceAll_inert _ _ (leading_spaces post)); [done|done|].
    apply dollarless_spaces, leading_spaces_spaces. }
  rewrite H1.
  (* second pattern: the call is matched with the white space after it *)
  destruct (exec_access f ws w segs (leading_spaces post) (T1 (skip_spaces post))
              Hf Hws Hw Hsegs (leading_spaces_spaces post))
    as (cs & He & Hc1 & Hc3).
  { apply replaceAll_subscribe_start; [done | apply skip_spaces_no_leading]. }
  change (access_call f ws (name_text w segs))
    with ("$"%char :: (f ++ "("%char :: ws ++ dq :: name_text w segs ++ [dq]))
    in *.
  rewrite <- app_comm_cons in *.
  rewrite replaceAll_dollar by done. f_equal.
  rewrite (replaceAll_match _ _ _ _ _ _ _ He).
  rewrite expand_tpl_access by done. rewrite Hc1, Hc3.
  unfold access_call_with. simpl. rewrite <- !app_assoc. simpl.
  by rewrite <- !app_assoc.
Qed.

(** The uid of an instance is a decimal numeral: it contains no dollar, so
    the templates built from it refer to groups 1 and 3 only. *)
Lemma pretty_N_char_not_dollar y : pretty_N_char y ≠ "$"%char.
Proof.
  unfold pretty_N_char.
  repeat match goal with
         | |- context [match ?p with _ => _ end] => destruct p
         end; discriminate.
Qed.

Lemma pretty_N_go_dollarless x :
  ∀ s, dollarless (chars s) → dollarless (chars (pretty_N_go x s)).
Proof.
  induction (N.lt_wf_0 x) as [x _ IH]. intros s Hs.
  destruct (decide (0 < x)%N) as [Hx|Hx].
  - rewrite pretty_N_go_step by done. apply IH.
    + by apply N.div_lt.
    + constructor; [apply pretty_N_char_not_dollar | done].
  - replace x with 0%N by lia. by rewrite pretty_N_go_0.
Qed.

Lemma pretty_N_dollarless (x : N) : dollarless (chars (pretty x)).
Proof.
  unfold pretty, pretty_N. case_decide.
  - repeat constructor. discriminate.
  - apply pretty_N_go_dollarless. constructor.
Qed.

Lemma Dynel_uid_dollarless now draw : dollarless (chars (Dynel_uid now draw)).
Proof.
  unfold Dynel_uid, pretty, pretty_Z.
  destruct (now * 100 + draw)%Z.
  - repeat constructor. discriminate.
  - apply pretty_N_dollarless.
  - constructor; [discriminate | apply pretty_N_dollarless].
Qed.

(** C3. Wherever a script text contains a call of [$onProp] or [$onState]
    (white space allowed before and after the parenthesis) or of [$prop],
    [$ref] or [$state] (parenthesis at once, white space allowed after it)
    on a double-quoted name made of word characters and hyphenated
    segments, [prepareScript] rewrites that call into the same function
    applied to the uid, as a double-quoted string, followed by the same
    quoted name; what precedes the call and what follows it are rewritten
    on their own (white space between the quoted name and what follows a
    call of [$prop], [$ref] or [$state] is dropped).  This holds for every
    uid the constructor can produce. *)
Theorem prepareScript_injects_uid uid pre post f ws1 ws2 w segs :
  (∀ now draw, dollarless (chars (Dynel_uid now draw))) ∧
  (dollarless uid → spaces ws1 → spaces ws2 → word w → Forall word segs →
   (subscribe_name f →
    prepareScript_chars uid
      (pre ++ subscribe_call f ws1 ws2 (name_text w segs) ++ post)
    = prepareScript_chars uid pre
      ++ subscribe_call_with uid f (name_text w segs)
      ++ prepareScript_chars uid post) ∧
   (access_name f →
    prepareScript_chars uid
      (pre ++ access_call f ws2 (name_text w segs) ++ post)
    = prepareScript_chars uid pre
      ++ access_call_with uid f (name_text w segs)
      ++ prepareScript_chars uid (skip_spaces post))).
Proof.
  split; [apply Dynel_uid_dollarless|].
  intros Hu Hws1 Hws2 Hw Hsegs. split; intros Hf.
  - by apply rewrite_subscribe_call.
  - by apply rewrite_access_call.
Qed.

Lemma prepareScript_injects_uid_witness :
  prepareScript_chars (chars "1234")
    (chars "x = "
     ++ subscribe_call (chars "onState") [" "%char] []
          (name_text (chars "my") [chars "count"])
     ++ chars ", f)")
  = prepareScript_chars (chars "1234") (chars "x = ")
    ++ subscribe_call_with (chars "1234") (chars "onState")
         (name_text (chars "my") [chars "count"])
    ++ prepareScript_chars (chars "1234") (chars ", f)") ∧
  prepareScript_chars (chars "1234")
    (chars "y = "
     ++ access_call (chars "prop") [" "%char] (name_text (chars "n") [])
     ++ chars " , 5)")
  = prepareScript_chars (chars "1234") (chars "y = ")
    ++ access_call_with (chars "1234") (chars "prop") (name_text (chars "n") [])
    ++ prepareScript_chars (chars "1234") (skip_spaces (chars " , 5)")).
Proof.
  assert (dollarless (chars "1234")) as Hu by (repeat constructor; discriminate).
  assert (spaces [" "%char]) as Hsp by (repeat constructor).
  assert (spaces []) as Hnil by constructor.
  split.
  - apply (prepareScript_injects_uid (chars "1234") (chars "x = ") (chars ", f)")
             (chars "onState") [" "%char] [] (chars "my") [chars "count"]);
      try done.
    + split; [discriminate | repeat constructor].
    + repeat constructor. discriminate.
    + by right.
  - apply (prepareScript_injects_uid (chars "1234") (chars "y = ") (chars " , 5)")
             (chars "prop") [] [" "%char] (chars "n") []); try done.
    + split; [discriminate | repeat constructor].
    + by left.
Defined.

(** ** Trees and identities *)

(** Induction on a node with the property for all its children. *)
Lemma node_ind_kids (P : node → Prop) :
  (∀ i data, P (Text i data)) →
  (∀ i tag attrs kids, Forall P kids → P (Elem i tag attrs kids)) →
  ∀ t, P t.
Proof.
  intros HT HE. fix IH 1. intros [i tag attrs kids|i data]; [|apply HT].
  apply HE. induction kids as [|k kids IHk]; constructor; [apply IH | apply IHk].
Qed.

Lemma replace_node_Elem i new j tag attrs kids :
  replace_node i new (Elem j tag attrs kids)
  = Elem j tag attrs
      (map (λ k, if Nat.eqb (node_id k) i then new else replace_node i new k) kids).
Proof. reflexivity. Qed.

Lemma remove_node_Elem a j tag attrs kids :
  remove_node a (Elem j tag attrs kids)
  = Elem j tag attrs
      (map (remove_node a) (List.filter (λ k, negb (Nat.eqb (node_id k) a)) kids)).
Proof.
  simpl. f_equal. induction kids as [|k kids IH]; [done|]. simpl.
  destruct (Nat.eqb (node_id k) a); simpl; [done | by f_equal].
Qed.

Lemma find_node_Elem i j tag attrs kids :
  find_node i (Elem j tag attrs kids)
  = if Nat.eqb j i then Some (Elem j tag attrs kids)
    else head (omap (find_node i) kids).
Proof.
  simpl. destruct (Nat.eqb j i); [done|].
  induction kids as [|k kids IH]; [done|]. simpl.
  by destruct (find_node i k).
Qed.

Lemma ids_subtrees t : ids t = node_id <$> subtrees t.
Proof.
  induction t as [i data|i tag attrs kids IH] using node_ind_kids; [done|].
  simpl. f_equal. induction IH as [|k kids Hk _ IHk]; [done|].
  simpl. by rewrite fmap_app, Hk, IHk.
Qed.

Lemma node_id_in_ids t : node_id t ∈ ids t.
Proof. destruct t; simpl; by left. Qed.

Lemma ids_inner t : ids t = node_id t :: inner_ids t.
Proof. by destruct t. Qed.

Lemma in_flat_map_ids i (kids : list node) :
  i ∈ flat_map ids kids ↔ ∃ k, k ∈ kids ∧ i ∈ ids k.
Proof.
  rewrite list_elem_of_In, in_flat_map. split.
  - intros (k & Hk & Hi). exists k. by rewrite !list_elem_of_In.
  - intros (k & Hk & Hi). exists k. by rewrite <- !list_elem_of_In.
Qed.

(** The identities of the children of a node are pairwise apart. *)
Lemma NoDup_flat_map_ids_kid (kids : list node) k :
  NoDup (flat_map ids kids) → k ∈ kids → NoDup (ids k).
Proof.
  intros Hnd Hk. induction kids as [|k' kids IH]; [by apply elem_of_nil in Hk|].
  simpl in Hnd. apply NoDup_app in Hnd as (H1 & _ & H2).
  apply elem_of_cons in Hk as [->|Hk]; auto.
Qed.

Lemma NoDup_flat_map_ids_apart (kids : list node) k1 k2 i :
  NoDup (flat_map ids kids) → k1 ∈ kids → k2 ∈ kids →
  i ∈ ids k1 → i ∈ ids k2 → k1 = k2.
Proof.
  intros Hnd. induction kids as [|k kids IH]; intros H1 H2 Hi1 Hi2;
    [by apply elem_of_nil in H1|].
  simpl in Hnd. apply NoDup_app in Hnd as (Hk & Hdisj & Hrest).
  apply elem_of_cons in H1 as [->|H1]; apply elem_of_cons in H2 as [->|H2].
  - done.
  - exfalso. apply (Hdisj i Hi1). apply in_flat_map_ids. eauto.
  - exfalso. apply (Hdisj i Hi2). apply in_flat_map_ids. eauto.
  - by apply IH.
Qed.

Lemma NoDup_ids_kids i tag attrs kids :
  NoDup (ids (Elem i tag attrs kids)) →
  NoDup (flat_map ids kids) ∧ i ∉ flat_map ids kids.
Proof. simpl. intros H. apply NoDup_cons in H as [H1 H2]. done. Qed.

(** A node that is not there. *)
Lemma find_node_None i t : i ∉ ids t → find_node i t = None.
Proof.
  induction t as [j data|j tag attrs kids IH] using node_ind_kids; intros Hi.
  - simpl in *. destruct (Nat.eqb_spec j i); [|done].
    exfalso. apply Hi. subst. by left.
  - rewrite find_node_Elem. simpl in Hi.
    destruct (Nat.eqb_spec j i) as [->|Hne]; [exfalso; apply Hi; by left|].
    assert (i ∉ flat_map ids kids) as Hk by (intros H; apply Hi; by right).
    clear Hi. induction IH as [|k kids Hk' _ IHk]; [done|].
    simpl in *. rewrite Hk'; [apply IHk|]; intros H; apply Hk;
      apply elem_of_app; auto.
Qed.

Lemma find_node_is_Some i t : i ∈ ids t → is_Some (find_node i t).
Proof.
  induction t as [j data|j tag attrs kids IH] using node_ind_kids; intros Hi.
  - simpl in *. apply list_elem_of_singleton in Hi as ->.
    rewrite Nat.eqb_refl. eauto.
  - rewrite find_node_Elem. simpl in Hi.
    destruct (Nat.eqb_spec j i) as [->|Hne]; [eauto|].
    apply elem_of_cons in Hi as [->|Hi]; [done|].
    induction IH as [|k kids Hk' _ IHk]; [by apply elem_of_nil in Hi|].
    simpl in *. apply elem_of_app in Hi as [Hi|Hi].
    + destruct (Hk' Hi) as [r ->]. simpl. eauto.
    + destruct (find_node i k); simpl; [eauto | by apply IHk].
Qed.

Lemma remove_node_id a t : a ∉ inner_ids t → remove_node a t = t.
Proof.
  induction t as [j data|j tag attrs kids IH] using node_ind_kids; intros Ha;
    [done|].
  rewrite remove_node_Elem. f_equal. simpl in Ha.
  induction IH as [|k kids Hk _ IHk]; [done|].
  simpl in *.
  assert (a ∉ ids k) as Hak by (intros H; apply Ha; apply elem_of_app; auto).
  assert (a ∉ flat_map ids kids) as Hak' by (intros H; apply Ha; apply elem_of_app; auto).
  destruct (Nat.eqb_spec (node_id k) a) as [He|He].
  - exfalso. apply Hak. rewrite <- He. apply node_id_in_ids.
  - simpl. f_equal; [|by apply IHk].
    apply Hk. intros H. apply Hak. rewrite ids_inner. by right.
Qed.

Lemma replace_node_id i new t : i ∉ inner_ids t → replace_node i new t = t.
Proof.
  induction t as [j data|j tag attrs kids IH] using node_ind_kids; intros Hi;
    [done|].
  rewrite replace_node_Elem. f_equal. simpl in Hi.
  induction IH as [|k kids Hk _ IHk]; [done|].
  simpl in *.
  assert (i ∉ ids k) as Hik by (intros H; apply Hi; apply elem_of_app; auto).
  assert (i ∉ flat_map ids kids) as Hik' by (intros H; apply Hi; apply elem_of_app; auto).
  destruct (Nat.eqb_spec (node_id k) i) as [He|He].
  - exfalso. apply Hik. rewrite <- He. apply node_id_in_ids.
  - f_equal; [|by apply IHk].
    apply Hk. intros H. apply Hik. rewrite ids_inner. by right.
Qed.

(** ** The static list of slots *)

Lemma subtrees_inner t : subtrees t = t :: inner_subtrees t.
Proof. by destruct t. Qed.

Lemma inner_ids_subtrees t : inner_ids t = node_id <$> inner_subtrees t.
Proof.
  destruct t as [i tag attrs kids|i data]; [|done]. simpl.
  induction kids as [|k kids IH]; [done|].
  simpl. by rewrite fmap_app, ids_subtrees, IH.
Qed.

Lemma qsa_Elem i tag attrs kids :
  querySelectorAll_slot (Elem i tag attrs kids) = flat_map slots_within kids.
Proof. reflexivity. Qed.

Lemma qsa_sublist t : querySelectorAll_slot t `sublist_of` inner_subtrees t.
Proof.
  induction t as [i data|i tag attrs kids IH] using node_ind_kids; [done|].
  rewrite qsa_Elem. simpl.
  induction IH as [|k kids Hk _ IHk]; [done|].
  simpl. apply sublist_app; [|done].
  rewrite subtrees_inner. unfold slots_within.
  destruct (placeholder k); [by apply sublist_skip | by apply sublist_cons].
Qed.

Lemma qsa_placeholder t s : s ∈ querySelectorAll_slot t → is_Some (placeholder s).
Proof.
  induction t as [i data|i tag attrs kids IH] using node_ind_kids;
    [by intros H; apply elem_of_nil in H|].
  rewrite qsa_Elem. intros Hs.
  apply list_elem_of_In, in_flat_map in Hs as (k & Hk & Hs).
  apply list_elem_of_In in Hk, Hs.
  rewrite Forall_forall in IH. unfold slots_within in Hs.
  destruct (placeholder k) eqn:Hp.
  - apply elem_of_cons in Hs as [->|Hs]; [by rewrite Hp | by eapply IH].
  - by eapply IH.
Qed.

Lemma qsa_inner_ids t s : s ∈ querySelectorAll_slot t → node_id s ∈ inner_ids t.
Proof.
  intros Hs. rewrite inner_ids_subtrees. apply list_elem_of_fmap_2.
  by eapply elem_of_sublist; [|apply qsa_sublist].
Qed.

Lemma qsa_subtrees t s : s ∈ querySelectorAll_slot t → s ∈ subtrees t.
Proof.
  intros Hs. rewrite subtrees_inner. right.
  by eapply elem_of_sublist; [|apply qsa_sublist].
Qed.

Lemma qsa_NoDup t : NoDup (ids t) → NoDup (node_id <$> querySelectorAll_slot t).
Proof.
  intros H. rewrite ids_inner in H. apply NoDup_cons in H as [_ H].
  rewrite inner_ids_subtrees in H.
  eapply sublist_NoDup; [exact H|]. apply fmap_sublist, qsa_sublist.
Qed.

(** Two nodes of a tree with the same identity are the same node. *)
Lemma same_id_same_node t x y :
  NoDup (ids t) → x ∈ subtrees t → y ∈ subtrees t → node_id x = node_id y → x = y.
Proof.
  rewrite ids_subtrees. intros Hnd Hx Hy Hid.
  apply list_elem_of_lookup in Hx as [ix Hx]. apply list_elem_of_lookup in Hy as [iy Hy].
  assert (ix = iy) as ->.
  { eapply NoDup_lookup; [exact Hnd| |].
    - rewrite list_lookup_fmap, Hx. done.
    - rewrite list_lookup_fmap, Hy. simpl. by rewrite Hid. }
  congruence.
Qed.

Lemma kid_in_subtrees i tag attrs kids k :
  k ∈ kids → k ∈ subtrees (Elem i tag attrs kids).
Proof.
  intros Hk. simpl. right. apply list_elem_of_In, in_flat_map.
  exists k. split; [by apply list_elem_of_In|].
  apply list_elem_of_In. rewrite subtrees_inner. by left.
Qed.

Lemma slots_within_ids k s : s ∈ slots_within k → node_id s ∈ ids k.
Proof.
  unfold slots_within. intros Hs. rewrite ids_inner.
  destruct (placeholder k).
  - apply elem_of_cons in Hs as [->|Hs]; [by left|].
    right. by apply qsa_inner_ids.
  - right. by apply qsa_inner_ids.
Qed.

Lemma qsa_kid i tag attrs kids s :
  s ∈ querySelectorAll_slot (Elem i tag attrs kids) ↔
  ∃ k, k ∈ kids ∧ s ∈ slots_within k.
Proof.
  rewrite qsa_Elem, list_elem_of_In, in_flat_map. split.
  - intros (k & Hk & Hs). exists k. by rewrite !list_elem_of_In.
  - intros (k & Hk & Hs). exists k. by rewrite <- !list_elem_of_In.
Qed.

(** The slot [s] of a tree lies in the child that holds its identity. *)
Lemma qsa_in_kid i tag attrs kids s k :
  NoDup (ids (Elem i tag attrs kids)) →
  s ∈ querySelectorAll_slot (Elem i tag attrs kids) →
  k ∈ kids → node_id s ∈ ids k → s ∈ slots_within k.
Proof.
  intros Hnd Hs Hk Hi. apply qsa_kid in Hs as (k0 & Hk0 & Hs).
  apply NoDup_ids_kids in Hnd as [Hnd _].
  by rewrite (NoDup_flat_map_ids_apart kids k k0 (node_id s) Hnd Hk Hk0 Hi
                (slots_within_ids _ _ Hs)).
Qed.

Lemma flat_slots_kid i tag attrs kids k :
  flat_slots (Elem i tag attrs kids) → k ∈ kids →
  flat_slots k ∧ (is_Some (placeholder k) → querySelectorAll_slot k = []).
Proof.
  unfold flat_slots. rewrite qsa_Elem. intros Hf Hk.
  rewrite Forall_forall in Hf.
  assert (∀ s, s ∈ slots_within k → querySelectorAll_slot s = []) as H.
  { intros s Hs. apply Hf. apply list_elem_of_In, in_flat_map.
    exists k. by rewrite <- !list_elem_of_In. }
  split.
  - apply Forall_forall. intros s Hs. apply H. unfold slots_within.
    destruct (placeholder k); [by right | done].
  - intros [nm Hp]. apply H. unfold slots_within. rewrite Hp. by left.
Qed.

(** ** The copy while its slots are visited *)

Lemma project_upto_Elem m D i tag attrs kids :
  project_upto m D (Elem i tag attrs kids)
  = Elem i tag attrs (map (project_kid_upto m D) kids).
Proof. reflexivity. Qed.

Lemma project_upto_node_id m D t : node_id (project_upto m D t) = node_id t.
Proof. by destruct t. Qed.

Lemma project_upto_no_slots m D t :
  querySelectorAll_slot t = [] → project_upto m D t = t.
Proof.
  induction t as [i data|i tag attrs kids IH] using node_ind_kids; [done|].
  rewrite qsa_Elem, project_upto_Elem. intros Hq. f_equal.
  induction IH as [|k kids Hk _ IHk]; [done|].
  simpl in Hq. apply app_eq_nil in Hq as [Hq1 Hq2].
  simpl. f_equal; [|by apply IHk].
  unfold slots_within in Hq1. unfold project_kid_upto.
  destruct (placeholder k); [done|]. simpl.
  rewrite (Hk Hq1). by destruct (bool_decide _).
Qed.

Lemma project_upto_ext m D D' t :
  (∀ j, j ∈ inner_ids t → (j ∈ D ↔ j ∈ D')) →
  project_upto m D t = project_upto m D' t.
Proof.
  induction t as [i data|i tag attrs kids IH] using node_ind_kids; [done|].
  rewrite !project_upto_Elem. intros HD. f_equal. simpl in HD.
  induction IH as [|k kids Hk _ IHk]; [done|].
  simpl in *. f_equal.
  - unfold project_kid_upto.
    rewrite (Hk).
    2:{ intros j Hj. apply HD. apply elem_of_app. left.
        rewrite ids_inner. by right. }
    rewrite (bool_decide_ext (node_id k ∈ D) (node_id k ∈ D')); [done|].
    apply HD. apply elem_of_app. left. apply node_id_in_ids.
  - apply IHk. intros j Hj. apply HD. apply elem_of_app. by right.
Qed.

Lemma project_upto_nil m t : project_upto m [] t = t.
Proof.
  induction t as [i data|i tag attrs kids IH] using node_ind_kids; [done|].
  rewrite project_upto_Elem. f_equal.
  induction IH as [|k kids Hk _ IHk]; [done|].
  simpl. f_equal; [|done]. unfold project_kid_upto.
  rewrite bool_decide_false by apply not_elem_of_nil. done.
Qed.

(** When every slot has been visited the copy is what the specification
    describes. *)
Lemma project_upto_all m D t :
  (∀ s, s ∈ querySelectorAll_slot t → node_id s ∈ D) →
  project_upto m D t = project_spec m t.
Proof.
  induction t as [i data|i tag attrs kids IH] using node_ind_kids; [done|].
  rewrite project_upto_Elem. intros HD. simpl. f_equal.
  assert (∀ k, k ∈ kids → ∀ s, s ∈ slots_within k → node_id s ∈ D) as HD'.
  { intros k Hk s Hs. apply HD. apply qsa_kid. eauto. }
  clear HD. induction IH as [|k kids Hk _ IHk]; [done|].
  simpl. f_equal.
  - unfold project_kid_upto.
    assert (project_upto m D k = project_spec m k) as Hrec.
    { apply Hk. intros s Hs. apply (HD' k); [by left|].
      unfold slots_within. destruct (placeholder k); [by right | done]. }
    destruct (placeholder k) as [nm|] eqn:Hp; simpl.
    + rewrite bool_decide_true.
      * by rewrite Hrec.
      * apply (HD' k); [by left|]. unfold slots_within. rewrite Hp. by left.
    + rewrite Hrec. by destruct (bool_decide _).
  - apply IHk. intros k' Hk' s Hs. apply (HD' k'); [by right | done].
Qed.

(** The identities in the copy are those of the template copy and those of
    the children projected so far. *)
Lemma project_upto_ids m D t j :
  j ∈ ids (project_upto m D t) →
  j ∈ ids t ∨
  ∃ s child, s ∈ querySelectorAll_slot t ∧ node_id s ∈ D ∧
             placeholder s ≫= m = Some child ∧ j ∈ ids child.
Proof.
  induction t as [i data|i tag attrs kids IH] using node_ind_kids; [by left|].
  rewrite project_upto_Elem. simpl. intros Hj.
  apply elem_of_cons in Hj as [->|Hj]; [left; by left|].
  apply in_flat_map_ids in Hj as (k' & Hk' & Hj).
  apply list_elem_of_fmap in Hk' as (k & -> & Hk).
  rewrite Forall_forall in IH.
  assert (j ∈ ids (project_upto m D k) →
          j ∈ ids (Elem i tag attrs kids) ∨
          ∃ s child, s ∈ querySelectorAll_slot (Elem i tag attrs kids) ∧
                     node_id s ∈ D ∧ placeholder s ≫= m = Some child ∧
                     j ∈ ids child) as Hrec.
  { intros H. destruct (IH k Hk H) as [H1|(s & c & Hs & HsD & Hm & Hc)].
    - left. simpl. right. apply in_flat_map_ids. eauto.
    - right. exists s, c. split; [|done]. apply qsa_kid. exists k.
      split; [done|]. unfold slots_within. destruct (placeholder k); [by right|done]. }
  unfold project_kid_upto in Hj.
  destruct (bool_decide (node_id k ∈ D)) eqn:HD; [|by apply Hrec].
  apply bool_decide_eq_true in HD.
  destruct (placeholder k ≫= m) as [c|] eqn:Hm; [|by apply Hrec].
  right. exists k, c. split; [|done].
  apply (proj2 (qsa_kid i tag attrs kids k)). exists k.
  split; [done|]. unfold slots_within.
  destruct (placeholder k); [by left | done].
Qed.

(** A slot that has not been visited is still in the copy. *)
Lemma project_upto_keeps m D t s :
  flat_slots t → s ∈ querySelectorAll_slot t → node_id s ∉ D →
  node_id s ∈ inner_ids (project_upto m D t).
Proof.
  induction t as [i data|i tag attrs kids IH] using node_ind_kids;
    [by intros _ H; apply elem_of_nil in H|].
  intros Hflat Hs HD. rewrite project_upto_Elem. simpl.
  apply qsa_kid in Hs as (k & Hk & Hs).
  destruct (flat_slots_kid _ _ _ _ _ Hflat Hk) as [Hfk Hslot].
  rewrite Forall_forall in IH.
  apply in_flat_map_ids. exists (project_kid_upto m D k).
  split; [by apply list_elem_of_fmap_2|].
  assert (node_id s ∈ ids (project_upto m D k)) as Hrec.
  { unfold slots_within in Hs. rewrite ids_inner, project_upto_node_id.
    destruct (placeholder k) eqn:Hp.
    - apply elem_of_cons in Hs as [->|Hs]; [by left|].
      rewrite Hslot in Hs by eauto. by apply elem_of_nil in Hs.
    - right. by apply IH. }
  unfold project_kid_upto.
  destruct (bool_decide (node_id k ∈ D)) eqn:HkD; [|done].
  apply bool_decide_eq_true in HkD.
  destruct (placeholder k) as [nm|] eqn:Hp; [|done]. simpl.
  destruct (m nm); [|done].
  exfalso. unfold slots_within in Hs. rewrite Hp in Hs.
  rewrite Hslot in Hs by eauto.
  apply list_elem_of_singleton in Hs as ->. done.
Qed.

Lemma children_apart_kid m i tag attrs kids k :
  children_apart m (Elem i tag attrs kids) → k ∈ kids → children_apart m k.
Proof.
  intros H Hk nm c j Hm Hj Hjk. apply (H nm c j Hm Hj).
  simpl. right. apply in_flat_map_ids. eauto.
Qed.

(** Visiting one more slot: the child projected for its name, if there is
    one, takes its place in the copy. *)
Lemma project_upto_step m D t s :
  NoDup (ids t) → flat_slots t → children_apart m t →
  s ∈ querySelectorAll_slot t → node_id s ∉ D →
  project_upto m (node_id s :: D) t
  = match placeholder s ≫= m with
    | Some child => replace_node (node_id s) child (project_upto m D t)
    | None => project_upto m D t
    end.
Proof.
  induction t as [i data|i tag attrs kids IH] using node_ind_kids;
    [by intros _ _ _ H; apply elem_of_nil in H|].
  intros Hnd Hflat Hapart Hs HD.
  rewrite Forall_forall in IH.
  assert (node_id s ∈ ids (Elem i tag attrs kids)) as Hsin.
  { rewrite ids_inner. right. by apply qsa_inner_ids. }
  assert (querySelectorAll_slot s = []) as Hsflat.
  { unfold flat_slots in Hflat. rewrite Forall_forall in Hflat. by apply Hflat. }
  destruct (NoDup_ids_kids _ _ _ _ Hnd) as [Hndk Hik].
  (* what happens to one child *)
  assert (∀ k, k ∈ kids →
            project_kid_upto m (node_id s :: D) k
            = match placeholder s ≫= m with
              | Some child =>
                  if Nat.eqb (node_id (project_kid_upto m D k)) (node_id s)
                  then child
                  else replace_node (node_id s) child (project_kid_upto m D k)
              | None => project_kid_upto m D k
              end) as Hkid.
  { intros k Hk.
    destruct (flat_slots_kid _ _ _ _ _ Hflat Hk) as [Hfk Hslot].
    pose proof (NoDup_flat_map_ids_kid _ _ Hndk Hk) as Hndk1.
    pose proof (children_apart_kid _ _ _ _ _ _ Hapart Hk) as Hapk.
    destruct (decide (node_id k = node_id s)) as [Heq|Hne].
    - (* the child is the slot itself *)
      assert (k = s) as ->.
      { apply (same_id_same_node (Elem i tag attrs kids)); try done.
        - by apply kid_in_subtrees.
        - by apply qsa_subtrees. }
      unfold project_kid_upto.
      rewrite bool_decide_true by (by left).
      rewrite (bool_decide_false (node_id s ∈ D)) by done.
      rewrite !project_upto_no_slots by done.
      rewrite Nat.eqb_refl. by destruct (placeholder s ≫= m).
    - (* another child *)
      assert (project_upto m (node_id s :: D) k
              = match placeholder s ≫= m with
                | Some child =>
                    replace_node (node_id s) child (project_upto m D k)
                | None => project_upto m D k
                end) as Hrec.
      { destruct (decide (node_id s ∈ inner_ids k)) as [Hin|Hin].
        - apply IH; try done.
          assert (s ∈ slots_within k) as Hsk.
          { apply (qsa_in_kid i tag attrs kids); try done.
            rewrite ids_inner. by right. }
          unfold slots_within in Hsk. destruct (placeholder k) eqn:Hp; [|done].
          apply elem_of_cons in Hsk as [->|Hsk]; done.
        - rewrite (project_upto_ext m (node_id s :: D) D k).
          2:{ intros j Hj. rewrite elem_of_cons. split; [|auto].
              intros [->|?]; done. }
          destruct (placeholder s ≫= m) as [c|] eqn:Hm; [|done].
          symmetry. apply replace_node_id. intros Hj.
          assert (node_id s ∈ ids (project_upto m D k)) as Hj'
            by (rewrite ids_inner; by right).
          apply project_upto_ids in Hj' as [Hj'|(s' & c' & _ & _ & Hm' & Hc')].
          + rewrite ids_inner in Hj'.
            apply elem_of_cons in Hj' as [Hj'|Hj']; done.
          + destruct (placeholder s') as [nm'|]; [|done]. simpl in Hm'.
            by apply (Hapart nm' c' (node_id s) Hm' Hc'). }
      unfold project_kid_upto.
      rewrite (bool_decide_ext (node_id k ∈ node_id s :: D) (node_id k ∈ D)).
      2:{ rewrite elem_of_cons. split; [|auto]. intros [?|?]; done. }
      destruct (bool_decide (node_id k ∈ D)).
      + destruct (placeholder k ≫= m) as [c'|] eqn:Hm'.
        * destruct (placeholder k) as [nm'|]; [|done]. simpl in Hm'.
          destruct (placeholder s ≫= m) as [c|]; [|done].
          destruct (Nat.eqb_spec (node_id c') (node_id s)) as [He|He].
          -- exfalso. apply (Hapart nm' c' (node_id s) Hm'); [|done].
             rewrite <- He. apply node_id_in_ids.
          -- symmetry. apply replace_node_id. intros Hj.
             apply (Hapart nm' c' (node_id s) Hm'); [|done].
             rewrite ids_inner. by right.
        * rewrite Hrec. rewrite project_upto_node_id.
          destruct (placeholder s ≫= m); [|done].
          by destruct (Nat.eqb_spec (node_id k) (node_id s)).
      + rewrite Hrec. rewrite project_upto_node_id.
        destruct (placeholder s ≫= m); [|done].
        by destruct (Nat.eqb_spec (node_id k) (node_id s)). }
  rewrite !project_upto_Elem.
  destruct (placeholder s ≫= m) as [c|] eqn:Hm.
  - rewrite replace_node_Elem, map_map. f_equal.
    apply map_ext_in. intros k Hk. apply list_elem_of_In in Hk. by apply Hkid.
  - f_equal. apply map_ext_in. intros k Hk. apply list_elem_of_In in Hk.
    by apply Hkid.
Qed.

(** ** One [replaceWith] on the forest *)

Lemma find_node_self t : find_node (node_id t) t = Some t.
Proof. destruct t; simpl; by rewrite Nat.eqb_refl. Qed.

Lemma find_node_kid a rid tag attrs ks sub :
  rid ≠ a → sub ∈ ks → node_id sub = a →
  (∀ k, k ∈ ks → a ∈ ids k → k = sub) →
  find_node a (Elem rid tag attrs ks) = Some sub.
Proof.
  intros Hr Hsub Hid Huniq. rewrite find_node_Elem.
  destruct (Nat.eqb_spec rid a); [done|].
  induction ks as [|k ks IH]; [by apply elem_of_nil in Hsub|].
  simpl. destruct (decide (a ∈ ids k)) as [Ha|Ha].
  - rewrite (Huniq k) by (by left || done).
    rewrite <- Hid, find_node_self. done.
  - rewrite find_node_None by done.
    apply IH.
    + apply elem_of_cons in Hsub as [->|?]; [|done].
      exfalso. apply Ha. rewrite <- Hid. apply node_id_in_ids.
    + intros k' Hk'. apply Huniq. by right.
Qed.

Lemma remove_node_kid a rid tag attrs ks sub :
  node_id sub = a → (∀ k, k ∈ ks → a ∈ ids k → k = sub) →
  remove_node a (Elem rid tag attrs ks)
  = Elem rid tag attrs (List.filter (λ k, negb (Nat.eqb (node_id k) a)) ks).
Proof.
  intros Hid Huniq. rewrite remove_node_Elem. f_equal.
  rewrite <- (map_id (List.filter _ ks)) at 2.
  apply map_ext_in. intros k Hk.
  apply filter_In in Hk as [Hk Hne]. apply list_elem_of_In in Hk.
  apply negb_true_iff, Nat.eqb_neq in Hne.
  apply remove_node_id. intros Ha. apply Hne.
  rewrite (Huniq k Hk); [done|]. rewrite ids_inner. by right.
Qed.

Lemma filter_ids_subset (p : node → bool) ks j :
  j ∈ flat_map ids (List.filter p ks) → j ∈ flat_map ids ks.
Proof.
  rewrite !in_flat_map_ids. intros (k & Hk & Hj). exists k. split; [|done].
  apply list_elem_of_In in Hk. apply filter_In in Hk as [Hk _].
  by apply list_elem_of_In.
Qed.

Lemma replaceWith_moves f rid rtag rattrs ks e a sub :
  f_root f = Elem rid rtag rattrs ks →
  e ∈ inner_ids (f_clone f) → a ∉ ids (f_clone f) →
  rid ≠ a → sub ∈ ks → node_id sub = a →
  (∀ k, k ∈ ks → a ∈ ids k → k = sub) →
  e ∉ ids (Elem rid rtag rattrs ks) →
  ∃ f',
    replaceWith e a f = Some f' ∧
    f_clone f' = replace_node e sub (f_clone f) ∧
    f_root f'
    = Elem rid rtag rattrs (List.filter (λ k, negb (Nat.eqb (node_id k) a)) ks).
Proof.
  intros Hroot He Ha Hrid Hsub Hid Huniq Her.
  assert (e ≠ a) as Hea.
  { intros ->. apply Her. simpl. right. apply in_flat_map_ids.
    exists sub. split; [done|]. rewrite <- Hid. apply node_id_in_ids. }
  assert (forest_find a f = Some sub) as Hfa.
  { unfold forest_find, forest_trees. simpl.
    rewrite (find_node_None a (f_clone f)) by done.
    rewrite Hroot, (find_node_kid a rid rtag rattrs ks sub) by done. done. }
  assert (is_Some (forest_find e f)) as [elem Hfe].
  { unfold forest_find, forest_trees. simpl.
    destruct (find_node_is_Some e (f_clone f)) as [x ->]; [|by eauto].
    rewrite ids_inner. by right. }
  assert (e ∉ ids sub) as Hes.
  { intros H. apply Her. simpl. right. apply in_flat_map_ids. eauto. }
  unfold replaceWith.
  assert (existsb (has_parent_in e) (forest_trees f) = true) as ->.
  { unfold forest_trees. simpl. unfold has_parent_in at 1.
    by rewrite bool_decide_true. }
  simpl. destruct (Nat.eqb_spec e a); [done|].
  rewrite Hfa, Hfe. rewrite bool_decide_false by done.
  eexists. split; [done|]. simpl. split.
  - rewrite (remove_node_id a (f_clone f)); [done|].
    intros H. apply Ha. rewrite ids_inner. by right.
  - rewrite Hroot, (remove_node_kid a rid rtag rattrs ks sub) by done.
    apply replace_node_id. simpl. intros H. apply Her. simpl. right.
    by eapply filter_ids_subset.
Qed.

(** ** The slot map *)

Lemma slotDump_fold_Some (l : list node) (m0 : gmap string nat) nm a :
  fold_left (λ m k, <[slot_of k := node_id k]> m) l m0 !! nm = Some a →
  m0 !! nm = Some a ∨ ∃ k, k ∈ l ∧ node_id k = a ∧ slot_of k = nm.
Proof.
  revert m0. induction l as [|k l IH]; intros m0 H; [by left|].
  simpl in H. destruct (IH _ H) as [H1|(k' & Hk' & Hid & Hs)].
  - destruct (decide (slot_of k = nm)) as [Heq|Hne].
    + rewrite Heq, lookup_insert_eq in H1. injection H1 as <-.
      right. exists k. split; [by left | done].
    + rewrite lookup_insert_ne in H1 by done. by left.
  - right. exists k'. split; [by right | done].
Qed.

Lemma slotDump_of_Some kids nm a :
  slotDump_of kids !! nm = Some a →
  ∃ k, k ∈ kids ∧ node_id k = a ∧ slot_of k = nm.
Proof.
  unfold slotDump_of. intros H.
  apply slotDump_fold_Some in H as [H|(k & Hk & Hid & Hs)].
  - by rewrite lookup_empty in H.
  - exists k. split; [|done]. unfold element_children in Hk.
    apply list_elem_of_In, filter_In in Hk as [Hk _]. by apply list_elem_of_In.
Qed.

(** A child is stored under one name only. *)
Lemma slotDump_of_inj kids nm1 nm2 a :
  NoDup (flat_map ids kids) →
  slotDump_of kids !! nm1 = Some a → slotDump_of kids !! nm2 = Some a →
  nm1 = nm2.
Proof.
  intros Hnd H1 H2.
  apply slotDump_of_Some in H1 as (k1 & Hk1 & Hid1 & <-).
  apply slotDump_of_Some in H2 as (k2 & Hk2 & Hid2 & <-).
  rewrite (NoDup_flat_map_ids_apart kids k1 k2 a Hnd Hk1 Hk2); [done| |].
  - rewrite <- Hid1. apply node_id_in_ids.
  - rewrite <- Hid2. apply node_id_in_ids.
Qed.

Lemma projected_Some kids nm sub :
  projected kids nm = Some sub →
  slotDump_of kids !! nm = Some (node_id sub) ∧ sub ∈ kids.
Proof.
  unfold projected. intros H. apply bind_Some in H as (a & Ha & Hf).
  apply find_some in Hf as [Hin Heq]. apply Nat.eqb_eq in Heq.
  rewrite Heq. split; [done | by apply list_elem_of_In].
Qed.

Lemma projected_of_dump kids nm a :
  slotDump_of kids !! nm = Some a →
  ∃ sub, projected kids nm = Some sub ∧ node_id sub = a ∧ sub ∈ kids.
Proof.
  intros H. unfold projected. rewrite H. simpl.
  destruct (List.find (λ k, Nat.eqb (node_id k) a) kids) as [sub|] eqn:Hf.
  - exists sub. apply find_some in Hf as [Hin Heq]. apply Nat.eqb_eq in Heq.
    split; [done|]. split; [done | by apply list_elem_of_In].
  - apply slotDump_of_Some in H as (k & Hk & Hid & _).
    apply list_elem_of_In in Hk.
    pose proof (find_none _ _ Hf k Hk) as Hn. simpl in Hn.
    rewrite Hid, Nat.eqb_refl in Hn. done.
Qed.

Lemma projected_None kids nm :
  slotDump_of kids !! nm = None → projected kids nm = None.
Proof. intros H. unfold projected. by rewrite H. Qed.

Lemma projected_apart clone rid rtag rattrs kids :
  unique_ids clone (Elem rid rtag rattrs kids) →
  children_apart (projected kids) clone.
Proof.
  intros Hu nm c j Hm Hj Hjc.
  apply projected_Some in Hm as [_ Hc].
  unfold unique_ids in Hu. apply NoDup_app in Hu as (_ & Hdisj & _).
  apply (Hdisj j Hjc). simpl. right. apply in_flat_map_ids. eauto.
Qed.

(** ** The loop over the slots *)

Lemma NoDup_fmap_same {A B} (g : A → B) (l : list A) x y :
  NoDup (g <$> l) → x ∈ l → y ∈ l → g x = g y → x = y.
Proof.
  intros Hnd Hx Hy Hg.
  apply list_elem_of_lookup in Hx as [ix Hx]. apply list_elem_of_lookup in Hy as [iy Hy].
  assert (ix = iy) as ->.
  { eapply NoDup_lookup; [exact Hnd| |].
    - rewrite list_lookup_fmap, Hx. done.
    - rewrite list_lookup_fmap, Hy. simpl. by rewrite Hg. }
  congruence.
Qed.

Lemma filter_used_more (U : list nat) a (l : list node) :
  List.filter (λ k, negb (Nat.eqb (node_id k) a))
    (List.filter (λ k, negb (bool_decide (node_id k ∈ U))) l)
  = List.filter (λ k, negb (bool_decide (node_id k ∈ U ++ [a]))) l.
Proof.
  induction l as [|k l IH]; [done|]. simpl.
  destruct (bool_decide (node_id k ∈ U)) eqn:HU; simpl.
  - rewrite bool_decide_true; [done|].
    apply bool_decide_eq_true in HU. apply elem_of_app. by left.
  - apply bool_decide_eq_false in HU.
    destruct (Nat.eqb_spec (node_id k) a) as [He|He]; simpl.
    + rewrite bool_decide_true; [done|].
      apply elem_of_app. right. rewrite He. by left.
    + rewrite bool_decide_false; [simpl; by f_equal|].
      rewrite elem_of_app, list_elem_of_singleton. intros [?|?]; done.
Qed.

Lemma project_upto_snoc m D i t :
  project_upto m (D ++ [i]) t = project_upto m (i :: D) t.
Proof.
  apply project_upto_ext. intros j _.
  rewrite elem_of_app, (elem_of_cons D), list_elem_of_singleton. tauto.
Qed.

Lemma project_slots_run clone rid rtag rattrs kids :
  unique_ids clone (Elem rid rtag rattrs kids) →
  flat_slots clone → distinct_slot_names clone →
  ∀ rest visited f,
    querySelectorAll_slot clone = visited ++ rest →
    f_clone f = project_upto (projected kids) (node_id <$> visited) clone →
    f_root f
    = Elem rid rtag rattrs
        (List.filter
           (λ k, negb (bool_decide
                         (node_id k ∈ actuals_used (slotDump_of kids) visited)))
           kids) →
    ∃ f',
      project_slots (slotDump_of kids) rest f = Some f' ∧
      f_clone f'
      = project_upto (projected kids) (node_id <$> querySelectorAll_slot clone)
          clone.
Proof.
  intros Hu Hflat Hdist.
  pose proof Hu as Hu'. unfold unique_ids in Hu'.
  apply NoDup_app in Hu' as (HndC & Hdisj & HndR).
  apply NoDup_ids_kids in HndR as [HndK Hrid].
  pose proof (projected_apart _ _ _ _ _ Hu) as Hapart.
  induction rest as [|s rest IH]; intros visited f HS Hc Hr.
  - exists f. split; [done|]. by rewrite HS, app_nil_r.
  - assert (s ∈ querySelectorAll_slot clone) as Hs.
    { rewrite HS. apply elem_of_app. right. by left. }
    destruct (qsa_placeholder _ _ Hs) as [nm Hp].
    assert (node_id s ∉ node_id <$> visited) as Hnot.
    { pose proof (qsa_NoDup _ HndC) as H. rewrite HS, fmap_app in H.
      apply NoDup_app in H as (_ & H & _). intros Hin.
      apply (H _ Hin). rewrite fmap_cons. by left. }
    assert (querySelectorAll_slot clone = (visited ++ [s]) ++ rest) as HS'
      by (by rewrite <- app_assoc).
    simpl. unfold project_slot. rewrite Hp.
    destruct (slotDump_of kids !! nm) as [a|] eqn:Hd.
    + (* the slot map has a child for the name *)
      destruct (projected_of_dump kids nm a Hd) as (sub & Hm & Hid & Hsub).
      assert (a ∈ ids sub) as Hasub by (rewrite <- Hid; apply node_id_in_ids).
      assert (a ∉ actuals_used (slotDump_of kids) visited) as Hunused.
      { intros Hin. unfold actuals_used in Hin.
        apply list_elem_of_omap in Hin as (s' & Hs' & Hsa).
        destruct (placeholder s') as [nm'|] eqn:Hp'; [|done]. simpl in Hsa.
        assert (nm' = nm) as -> by (by eapply slotDump_of_inj).
        unfold distinct_slot_names in Hdist. rewrite HS, fmap_app in Hdist.
        apply NoDup_app in Hdist as (_ & Hd' & _).
        apply (Hd' (Some nm)).
        - rewrite <- Hp'. by apply list_elem_of_fmap_2.
        - rewrite fmap_cons, Hp. by left. }
      assert (a ∉ ids (f_clone f)) as Haclone.
      { rewrite Hc. intros H.
        apply project_upto_ids in H as [H|(s' & c & Hs' & Hs'D & Hm' & Hc')].
        - apply (Hdisj a H). simpl. right. apply in_flat_map_ids. eauto.
        - destruct (placeholder s') as [nm'|] eqn:Hp'; [|done]. simpl in Hm'.
          pose proof (projected_Some _ _ _ Hm') as [Hd' Hcin].
          assert (c = sub) as ->
            by (by apply (NoDup_flat_map_ids_apart kids c sub a)).
          rewrite Hid in Hd'.
          apply list_elem_of_fmap in Hs'D as (s'' & Hids & Hs'').
          assert (s'' = s') as ->.
          { apply (NoDup_fmap_same node_id (querySelectorAll_slot clone));
              [by apply qsa_NoDup| |done|done].
            rewrite HS. apply elem_of_app. by left. }
          apply Hunused. unfold actuals_used. apply list_elem_of_omap.
          exists s'. split; [done|]. by rewrite Hp'. }
      destruct (replaceWith_moves f rid rtag rattrs _ (node_id s) a sub Hr)
        as (f1 & Hf1 & Hc1 & Hr1).
      * rewrite Hc. by apply project_upto_keeps.
      * done.
      * intros ->. apply Hrid. apply in_flat_map_ids. eauto.
      * apply list_elem_of_In, filter_In. split; [by apply list_elem_of_In|].
        rewrite Hid. by rewrite bool_decide_false.
      * done.
      * intros k Hk Hak. apply list_elem_of_In, filter_In in Hk as [Hk _].
        apply list_elem_of_In in Hk.
        by apply (NoDup_flat_map_ids_apart kids k sub a).
      * intros H. apply (Hdisj (node_id s)).
        -- rewrite ids_inner. right. by apply qsa_inner_ids.
        -- simpl in *. apply elem_of_cons in H as [->|H]; [by left|].
           right. by eapply filter_ids_subset.
      * rewrite Hf1. simpl. apply (IH (visited ++ [s]) f1 HS').
        -- rewrite Hc1, Hc, fmap_app. simpl. rewrite project_upto_snoc.
           rewrite (project_upto_step _ _ _ s) by done.
           rewrite Hp. simpl. by rewrite Hm.
        -- rewrite Hr1. f_equal. rewrite filter_used_more.
           unfold actuals_used. rewrite omap_app. simpl. rewrite Hp. simpl.
           by rewrite Hd.
    + (* no child for the name: nothing happens *)
      simpl. apply (IH (visited ++ [s]) f HS').
      * rewrite Hc, fmap_app. simpl. rewrite project_upto_snoc.
        rewrite (project_upto_step _ _ _ s) by done.
        rewrite Hp. simpl. by rewrite (projected_None kids nm Hd).
      * rewrite Hr. unfold actuals_used. rewrite omap_app. simpl.
        rewrite Hp. simpl. rewrite Hd. by rewrite app_nil_r.
Qed.

(** ** Claim on the projection of slots *)

(** The loop of [assemble] over the slots never fails on a copy whose
    identities are apart from those of the root. *)
Lemma assemble_slots_run fresh containerNode rid rtag rattrs kids :
  unique_ids (cloneNode fresh containerNode) (Elem rid rtag rattrs kids) →
  flat_slots (cloneNode fresh containerNode) →
  distinct_slot_names (cloneNode fresh containerNode) →
  ∃ f,
    assemble_slots fresh containerNode (Elem rid rtag rattrs kids) = Some f ∧
    f_clone f
    = project_upto (projected kids)
        (node_id <$> querySelectorAll_slot (cloneNode fresh containerNode))
        (cloneNode fresh containerNode).
Proof.
  intros Hu Hflat Hdist. unfold assemble_slots.
  apply (project_slots_run _ rid rtag rattrs kids Hu Hflat Hdist
           (querySelectorAll_slot (cloneNode fresh containerNode)) []).
  - done.
  - simpl. by rewrite project_upto_nil.
  - simpl. f_equal. clear. induction kids as [|k kids IH]; [done|].
    simpl. by rewrite <- IH.
Qed.

(** A placeholder inside a placeholder that is replaced leaves the copy
    with it, whether its own name has an entry or not: [template_nested]
    keeps neither of its two placeholders, although only [x] has an entry. *)
Lemma nested_slot_leaves_with_parent :
  assemble_slots 100 template_nested instance_twice
  = Some (mkForest
            (Elem 100 "div" [] [Elem 11 "b" [("slot", "x")] []])
            (Elem 10 "x-twice" [] [])
            [Elem 101 "slot" [("name", "x")]
               [Elem 102 "slot" [("name", "y")] []]]).
Proof. vm_compute. reflexivity. Qed.


(** Slot projection as the specification describes it.  When every node
    of the copy and of the root has its own identity, no placeholder of the
    copy lies inside another placeholder and no two placeholders of the copy
    declare the same name, the loop over the slots runs to its end without
    an error, and leaves the copy of the template with every placeholder
    whose declared name has an entry in the slot map replaced in place by
    the child of that entry, and with every other placeholder, and every
    other node, as it was. *)
Theorem assemble_projects_slots fresh containerNode rid rtag rattrs kids :
  unique_ids (cloneNode fresh containerNode) (Elem rid rtag rattrs kids) →
  flat_slots (cloneNode fresh containerNode) →
  distinct_slot_names (cloneNode fresh containerNode) →
  ∃ f,
    assemble_slots fresh containerNode (Elem rid rtag rattrs kids) = Some f ∧
    f_clone f = project_spec (projected kids) (cloneNode fresh containerNode).
Proof.
  intros Hu Hflat Hdist.
  destruct (assemble_slots_run _ _ _ _ _ _ Hu Hflat Hdist) as (f & Hf & Hc).
  exists f. split; [done|]. rewrite Hc.
  apply project_upto_all. intros s Hs. by apply list_elem_of_fmap_2.
Qed.

Lemma assemble_projects_slots_witness :
  ∃ f,
    assemble_slots 100 template_card instance_card = Some f ∧
    f_clone f
    = project_spec
        (projected [Elem 11 "b" [] [Text 12 "title"]; Text 13 " ";
                    Elem 14 "i" [("slot", "footer")] []])
        (cloneNode 100 template_card).
Proof.
  apply (assemble_projects_slots 100 template_card 10 "x-card" []
           [Elem 11 "b" [] [Text 12 "title"]; Text 13 " ";
            Elem 14 "i" [("slot", "footer")] []]).
  - unfold unique_ids. refine (bool_decide_unpack _ _). vm_compute. exact I.
  - unfold flat_slots. vm_compute. repeat constructor.
  - unfold distinct_slot_names. refine (bool_decide_unpack _ _). vm_compute. exact I.
Defined.

(* ===================================================================== *)
(** * Part III. Further properties of the code                            *)
(* ===================================================================== *)

(** ** [State]: subscribing and setting *)

Lemma observer_calls_app ls1 ls2 v :
  observer_calls (ls1 ++ ls2) v = observer_calls ls1 v ++ observer_calls ls2 v.
Proof. unfold observer_calls. by rewrite flat_map_app. Qed.

Lemma State_subscribe_Some a cb st w :
  states w !! a = Some st →
  State_subscribe a cb w
  = Some (with_states
            (λ h, <[a := mkState (s_name st) (s_value st)
                           (s_setCallbacks st ++ [cb])]> h) w).
Proof. intros Ha. unfold State_subscribe. by rewrite Ha. Qed.

Section Calls.
Variable r : list cmd → World → option World.
Hypothesis Hnil : run_nil r.

(** [State.set(name, v)] on a name that is not bound. *)
Lemma State_static_set_fresh name v w :
  State_instanceMap w !! name = None →
  State_static_set r name v w
  = Some (logs [EvStore (length (states w)) v]
            (with_State_instanceMap (λ m, <[name := length (states w)]> m)
               (with_states (λ h, h ++ [mkState name v []]) w))).
Proof.
  intros Hk. unfold State_static_set. rewrite Hk. simpl.
  rewrite insert_insert_eq, lookup_insert_eq. simpl.
  erewrite (State_set_observers r Hnil (length (states w)) v
              (mkState name VUndef [])).
  - f_equal. unfold logs, with_states, with_State_instanceMap. simpl.
    f_equal.
    + rewrite insert_app_r_alt by done. by rewrite Nat.sub_diag.
    + by rewrite insert_insert_eq.
  - simpl. by rewrite lookup_app_r, Nat.sub_diag.
  - constructor.
Qed.

(** [State.set(name, v)] on a name bound to a State with observers. *)
Lemma State_static_set_bound name v a st w :
  State_instanceMap w !! name = Some a → states w !! a = Some st →
  Forall is_observer (s_setCallbacks st) →
  State_static_set r name v w
  = Some (logs (EvStore a v :: observer_calls (s_setCallbacks st) v)
            (with_states
               (λ h, <[a := mkState (s_name st) v (s_setCallbacks st)]> h) w)).
Proof.
  intros Hk Ha Hobs. unfold State_static_set. rewrite Hk. simpl.
  rewrite Hk. simpl. by apply State_set_observers.
Qed.
End Calls.

(** X1. [subscribe(cb)] on a State that exists appends [cb] to its
    subscribers and does nothing else: [cb] is not called with the value
    the State holds, and it is appended also when it is a subscriber
    already.  Every [set(v)] that returns afterwards has called the earlier
    subscribers and then [cb], once each, each with the value the State
    held when it was entered, which is [v] for all of them when the State
    was not stored into again during the notification.  When the
    subscribers and [cb] are observers the [set] returns and the trace is
    the store followed by their calls with [v]. *)
Theorem State_subscribe_then_set fuel a cb v w st :
  states w !! a = Some st →
  ∃ w1,
    State_subscribe a cb w = Some w1 ∧
    trace w1 = trace w ∧
    State_get a w1 = Some (s_value st) ∧
    State_setCallbacks_of a w1 = Some (s_setCallbacks st ++ [cb]) ∧
    (∀ w2, State_set (run fuel) a v w1 = Some w2 →
       ∃ tr,
         trace w2 = trace w ++ EvStore a v :: tr ∧ balanced tr ∧
         (top_calls tr).*1 = ltag <$> (s_setCallbacks st ++ [cb]) ∧
         (top_calls tr).*2 = held_at_calls a v 0 tr ∧
         (¬ stores_into a tr →
          top_calls tr = (λ l, (ltag l, v)) <$> (s_setCallbacks st ++ [cb]))) ∧
    (Forall is_observer (s_setCallbacks st) → is_observer cb →
     ∃ w2,
       State_set (run fuel) a v w1 = Some w2 ∧
       trace w2
       = trace w ++ EvStore a v :: observer_calls (s_setCallbacks st) v
           ++ [EvCall (ltag cb) v; EvRet (ltag cb)] ∧
       State_get a w2 = Some v).
Proof.
  intros Ha.
  assert (a < length (states w)) as Hlt by (by eapply lookup_lt_Some).
  eexists. split; [by apply State_subscribe_Some|].
  split; [done|].
  unfold State_get, State_setCallbacks_of. simpl.
  rewrite !list_lookup_insert_eq by done. simpl.
  split; [done|]. split; [done|]. split.
  - intros w2 H.
    destruct (State_set_sound _ (run_is_sound fuel) _ _ _ _ H)
      as (st1 & tr & Ha1 & Hg & Hlt1).
    simpl in Ha1. rewrite list_lookup_insert_eq in Ha1 by done.
    injection Ha1 as <-. simpl in Hlt1.
    exists tr. split; [apply (grows_trace _ _ _ Hg)|].
    split; [by eapply loop_trace_balanced|].
    split; [by eapply loop_trace_tags|].
    split; [by apply (loop_trace_held a v [] _ _ Hlt1)|].
    intros Hn. by apply (loop_trace_no_store a v [] _ _ Hlt1).
  - intros Hobs Hcb.
    erewrite (State_set_observers (run fuel) (run_accepts_nil fuel) a v).
    2:{ simpl. by apply list_lookup_insert_eq. }
    2:{ simpl. apply Forall_app. split; [done|]. by constructor. }
    eexists. split; [done|]. simpl. rewrite observer_calls_app.
    split; [done|].
    rewrite list_lookup_insert_eq; [done|]. by rewrite length_insert.
Qed.

Lemma State_subscribe_then_set_witness :
  ∃ w1,
    State_subscribe 0 (observer "c") world_reentrant = Some w1 ∧
    trace w1 = trace world_reentrant ∧
    State_get 0 w1 = Some VUndef ∧
    State_setCallbacks_of 0 w1
    = Some ([bump_once 0; observer "b"] ++ [observer "c"]) ∧
    ∃ w2 tr,
      State_set (run 2) 0 (VNum 1) w1 = Some w2 ∧
      trace w2 = trace world_reentrant ++ EvStore 0 (VNum 1) :: tr ∧
      balanced tr ∧
      (top_calls tr).*1 = ["a"; "b"; "c"] ∧
      (top_calls tr).*2 = held_at_calls 0 (VNum 1) 0 tr.
Proof.
  destruct (State_subscribe_then_set 2 0 (observer "c") (VNum 1) world_reentrant
              (mkState "s" VUndef [bump_once 0; observer "b"]))
    as (w1 & Hsub & Ht & Hv & Hcbs & Hgen & _).
  - vm_compute. reflexivity.
  - exists w1. split; [exact Hsub|]. split; [exact Ht|]. split; [exact Hv|].
    split; [exact Hcbs|].
    destruct (State_set (run 2) 0 (VNum 1) w1) as [w2|] eqn:E.
    + destruct (Hgen w2 eq_refl) as (tr & Htr & Hb & Htags & Hheld & _).
      by exists w2, tr.
    + exfalso. vm_compute in Hsub. injection Hsub as <-.
      vm_compute in E. discriminate E.
Defined.

(** X2. [State.subscribe(name, cb)] on a name that is not registered does
    nothing, whatever [cb] is: no State is created and [cb] is kept
    nowhere, so that the [State.set(name, v)] that creates the State
    afterwards calls nobody.  Made after that [set], the same subscription
    is effective: every [State.set(name, v')] that returns next has called
    [cb] with [v'], once, after the store; it returns when [cb] is an
    observer. *)
Theorem subscribe_before_set_is_lost fuel name cb v v' w :
  State_instanceMap w !! name = None →
  State_static_subscribe name cb w = Some w ∧
  ∃ w1 w2,
    State_static_set (run fuel) name v w = Some w1 ∧
    trace w1 = trace w ++ [EvStore (length (states w)) v] ∧
    subscribers_under name w1 = [] ∧
    State_static_subscribe name cb w1 = Some w2 ∧
    subscribers_under name w2 = [cb] ∧
    (∀ w3, State_static_set (run fuel) name v' w2 = Some w3 →
       ∃ inner,
         trace w3
         = trace w1 ++ EvStore (length (states w)) v' :: call_segment cb v' inner ∧
         balanced inner) ∧
    (is_observer cb →
     ∃ w3,
       State_static_set (run fuel) name v' w2 = Some w3 ∧
       trace w3
       = trace w1 ++ [EvStore (length (states w)) v';
                      EvCall (ltag cb) v'; EvRet (ltag cb)]).
Proof.
  intros Hk. split.
  { unfold State_static_subscribe. by rewrite Hk. }
  pose proof (run_accepts_nil fuel) as Hnil.
  eexists _, _.
  split; [by apply State_static_set_fresh|].
  split; [done|].
  assert (∀ (l : list StateObj) x, (l ++ [x]) !! length l = Some x) as Hlast.
  { intros l x. by rewrite lookup_app_r, Nat.sub_diag. }
  split.
  { unfold subscribers_under, State_setCallbacks_of. simpl.
    rewrite lookup_insert_eq. simpl. by rewrite Hlast. }
  split.
  { unfold State_static_subscribe. simpl. rewrite lookup_insert_eq.
    apply State_subscribe_Some. simpl. apply Hlast. }
  split.
  { unfold subscribers_under, State_setCallbacks_of. simpl.
    rewrite lookup_insert_eq. simpl.
    rewrite list_lookup_insert_eq by (rewrite length_app; simpl; lia).
    done. }
  split.
  - intros w3 H. unfold State_static_set in H. simpl in H.
    rewrite lookup_insert_eq in H. simpl in H. rewrite lookup_insert_eq in H.
    simpl in H.
    destruct (State_set_sound _ (run_is_sound fuel) _ _ _ _ H)
      as (st1 & tr & Ha1 & Hg & Hlt1).
    simpl in Ha1.
    rewrite list_lookup_insert_eq in Ha1 by (rewrite length_app; simpl; lia).
    injection Ha1 as <-. simpl in Hlt1.
    inversion Hlt1 as [|pre l ls inner tr' Hb Hrest]; subst.
    inversion Hrest; subst. rewrite app_nil_r in *.
    exists inner. split; [|done].
    rewrite (grows_trace _ _ _ Hg). simpl. by rewrite <- app_assoc.
  - intros Hcb.
    rewrite (State_static_set_bound (run fuel) Hnil name v'
               (length (states w)) (mkState name v [cb])).
    + eexists. split; [done|]. simpl. by rewrite <- app_assoc.
    + simpl. by rewrite lookup_insert_eq.
    + simpl. apply list_lookup_insert_eq. rewrite length_app. simpl. lia.
    + simpl. by constructor.
Qed.

Lemma subscribe_before_set_is_lost_witness :
  State_static_subscribe "n" (bump_once 0) empty_world = Some empty_world ∧
  ∃ w1 w2,
    State_static_set (run 2) "n" (VNum 0) empty_world = Some w1 ∧
    trace w1 = trace empty_world ++ [EvStore (length (states empty_world)) (VNum 0)] ∧
    subscribers_under "n" w1 = [] ∧
    State_static_subscribe "n" (bump_once 0) w1 = Some w2 ∧
    subscribers_under "n" w2 = [bump_once 0] ∧
    ∃ w3 inner,
      State_static_set (run 2) "n" (VNum 1) w2 = Some w3 ∧
      trace w3
      = trace w1 ++ EvStore (length (states empty_world)) (VNum 1)
          :: call_segment (bump_once 0) (VNum 1) inner ∧
      balanced inner.
Proof.
  destruct (subscribe_before_set_is_lost 2 "n" (bump_once 0) (VNum 0) (VNum 1)
              empty_world)
    as (H0 & w1 & w2 & Hset & Ht & Hs1 & Hsub & Hs2 & Hgen & _).
  - vm_compute. reflexivity.
  - split; [exact H0|]. exists w1, w2.
    split; [exact Hset|]. split; [exact Ht|]. split; [exact Hs1|].
    split; [exact Hsub|]. split; [exact Hs2|].
    destruct (State_static_set (run 2) "n" (VNum 1) w2) as [w3|] eqn:E.
    + destruct (Hgen w3 eq_refl) as (inner & Htr & Hb). by exists w3, inner.
    + exfalso. vm_compute in Hset. injection Hset as <-.
      vm_compute in Hsub. injection Hsub as <-.
      vm_compute in E. discriminate E.
Defined.

(** ** [State.subscribe(cb, ...states)] *)

Lemma subscribe_each_spec cb ss :
  ∀ w, Forall (λ s, s < length (states w)) ss →
  ∃ w',
    subscribe_each cb ss w = Some w' ∧
    trace w' = trace w ∧ State_instanceMap w' = State_instanceMap w ∧
    length (states w') = length (states w) ∧
    ∀ a st, states w !! a = Some st →
      states w' !! a
      = Some (mkState (s_name st) (s_value st)
                (s_setCallbacks st ++ replicate (count_occ Nat.eq_dec ss a) cb)).
Proof.
  induction ss as [|s ss IH]; intros w Hss.
  - exists w. repeat split; try done.
    intros a st Ha. simpl. rewrite app_nil_r. by destruct st.
  - apply Forall_cons in Hss as [Hs Hss].
    destruct (lookup_lt_is_Some_2 _ _ Hs) as [st0 Hst0].
    simpl. rewrite (State_subscribe_Some _ _ _ _ Hst0). simpl.
    set (w1 := with_states _ w).
    destruct (IH w1) as (w' & Hrun & Htr & Hreg & Hlen & Hall).
    { simpl. by rewrite length_insert. }
    exists w'. split; [done|]. split; [done|]. split; [done|].
    split; [by rewrite Hlen; simpl; rewrite length_insert|].
    intros a st Ha. destruct (Nat.eq_dec s a) as [->|Hne].
    + assert (st0 = st) as -> by congruence.
      rewrite (Hall a (mkState (s_name st) (s_value st) (s_setCallbacks st ++ [cb]))).
      * simpl. by rewrite <- app_assoc.
      * simpl. by apply list_lookup_insert_eq.
    + apply Hall. simpl. by rewrite list_lookup_insert_ne.
Qed.

(** X3. [State.subscribe(cb, s0, ...rest)] appends [cb] to the subscribers
    of every State passed, once for each time the State is passed, and
    changes nothing else; no callback is called.  Called with a callback
    and no State, it throws a [TypeError]. *)
Theorem State_subscribe_states_spec cb s0 part3 w :
  State_static_subscribe_states cb None part3 w = Some ThrowsTypeError ∧
  (Forall (λ s, s < length (states w)) (s0 :: part3) →
   ∃ w',
     State_static_subscribe_states cb (Some s0) part3 w = Some (Returns w') ∧
     trace w' = trace w ∧ State_instanceMap w' = State_instanceMap w ∧
     length (states w') = length (states w) ∧
     ∀ a st, states w !! a = Some st →
       states w' !! a
       = Some (mkState (s_name st) (s_value st)
                 (s_setCallbacks st
                  ++ replicate (count_occ Nat.eq_dec (s0 :: part3) a) cb))).
Proof.
  split; [done|]. intros Hss.
  destruct (subscribe_each_spec cb (s0 :: part3) w Hss) as (w' & Hrun & H).
  exists w'. split; [|done].
  unfold State_static_subscribe_states. by rewrite Hrun.
Qed.

Lemma State_subscribe_states_spec_witness :
  ∃ w',
    State_static_subscribe_states (observer "d") (Some 0) [0] world_observed
    = Some (Returns w') ∧
    trace w' = trace world_observed ∧
    State_instanceMap w' = State_instanceMap world_observed ∧
    length (states w') = length (states world_observed) ∧
    ∀ a st, states world_observed !! a = Some st →
      states w' !! a
      = Some (mkState (s_name st) (s_value st)
                (s_setCallbacks st
                 ++ replicate (count_occ Nat.eq_dec [0; 0] a) (observer "d"))).
Proof.
  apply (proj2 (State_subscribe_states_spec (observer "d") 0 [0] world_observed)).
  repeat constructor.
Defined.

(** ** [State.set(name, v)]: get or create *)

(** X4. [State.set(name, v)] is get-or-create.  On a name that is not
    registered it creates one State, named [name], with no subscribers,
    stores [v] in it and binds the name to it; every other binding stays.
    On a registered name it is [set(v)] on the State the name is bound to,
    and creates and registers nothing itself: every such call that returns
    has stored [v] in that State and called the subscribers that State
    had, once each and in order; the State is still in the heap under its
    name, holding the value last stored into it.  When the subscribers are
    observers the call returns, the registry is as it was and no State but
    that one has changed. *)
Theorem State_static_set_get_or_create fuel name v w :
  (State_instanceMap w !! name = None →
   ∃ w',
     State_static_set (run fuel) name v w = Some w' ∧
     states w' = states w ++ [mkState name v []] ∧
     State_instanceMap w' = <[name := length (states w)]> (State_instanceMap w) ∧
     trace w' = trace w ++ [EvStore (length (states w)) v]) ∧
  (∀ a st,
     State_instanceMap w !! name = Some a → states w !! a = Some st →
     State_static_set (run fuel) name v w = State_set (run fuel) a v w ∧
     (∀ w', State_static_set (run fuel) name v w = Some w' →
        ∃ tr st',
          trace w' = trace w ++ EvStore a v :: tr ∧ balanced tr ∧
          (top_calls tr).*1 = ltag <$> s_setCallbacks st ∧
          states w' !! a = Some st' ∧ s_name st' = s_name st ∧
          s_value st' = last_store a v tr) ∧
     (Forall is_observer (s_setCallbacks st) →
      ∃ w',
        State_static_set (run fuel) name v w = Some w' ∧
        states w' = <[a := mkState (s_name st) v (s_setCallbacks st)]> (states w) ∧
        State_instanceMap w' = State_instanceMap w ∧
        trace w' = trace w ++ EvStore a v :: observer_calls (s_setCallbacks st) v)).
Proof.
  pose proof (run_accepts_nil fuel) as Hnil. split.
  - intros Hk. eexists. split; [by apply State_static_set_fresh|]. done.
  - intros a st Hk Ha.
    assert (State_static_set (run fuel) name v w = State_set (run fuel) a v w)
      as Heq.
    { unfold State_static_set. rewrite Hk. simpl. by rewrite Hk. }
    split; [exact Heq|]. split.
    + intros w' H. rewrite Heq in H.
      destruct (State_set_sound _ (run_is_sound fuel) _ _ _ _ H)
        as (st0 & tr & Ha0 & Hg & Hlt).
      assert (st0 = st) as -> by congruence.
      destruct (grows_states _ _ _ Hg _ _ Ha) as (st' & Ha' & Hname & _ & Hv).
      simpl in Hv. rewrite decide_True in Hv by done.
      exists tr, st'. split; [apply (grows_trace _ _ _ Hg)|].
      split; [by eapply loop_trace_balanced|].
      split; [by eapply loop_trace_tags|]. done.
    + intros Hobs. eexists.
      split; [by eapply State_static_set_bound|]. done.
Qed.

Lemma State_static_set_get_or_create_witness :
  (∃ w',
     State_static_set (run 0) "n" (VNum 1) empty_world = Some w' ∧
     states w' = states empty_world ++ [mkState "n" (VNum 1) []] ∧
     State_instanceMap w'
     = <["n" := length (states empty_world)]> (State_instanceMap empty_world) ∧
     trace w' = trace empty_world ++ [EvStore (length (states empty_world)) (VNum 1)]) ∧
  (∃ w',
     State_static_set (run 0) "k" (VNum 1) world_named = Some w' ∧
     states w' = <[0 := mkState "k" (VNum 1) []]> (states world_named) ∧
     State_instanceMap w' = State_instanceMap world_named ∧
     trace w' = trace world_named ++ EvStore 0 (VNum 1) :: observer_calls [] (VNum 1)).
Proof.
  split.
  - apply (proj1 (State_static_set_get_or_create 0 "n" (VNum 1) empty_world)).
    vm_compute. reflexivity.
  - apply (proj2 (State_static_set_get_or_create 0 "k" (VNum 1) world_named) 0
             (mkState "k" VUndef [])).
    + vm_compute. reflexivity.
    + vm_compute. reflexivity.
    + constructor.
Defined.

(** ** What no operation does *)

Lemma names_kept_refl w : names_kept w w.
Proof. split; [done|]. split; [|done]. intros k a H. exists a. auto. Qed.

Lemma names_kept_trans w1 w2 w3 :
  names_kept w1 w2 → names_kept w2 w3 → names_kept w1 w3.
Proof.
  intros (L1 & S1 & E1) (L2 & S2 & E2). split; [lia|]. split.
  - intros k a H. destruct (S1 k a H) as (a1 & H1 & Ha1).
    destruct (S2 k a1 H1) as (a2 & H2 & Ha2).
    exists a2. split; [done|]. destruct Ha2 as [->|?]; [|right; lia].
    destruct Ha1 as [->|?]; [by left | by right].
  - intros k e H. by apply E2, E1.
Qed.

(** Steps that leave the two registries as they are. *)
Lemma names_kept_same w w' :
  length (states w) ≤ length (states w') →
  State_instanceMap w' = State_instanceMap w →
  Event_instanceMap w' = Event_instanceMap w →
  names_kept w w'.
Proof.
  intros HL HS HE. split; [done|]. rewrite HS, HE. split; [|done].
  intros k a H. exists a. auto.
Qed.

Lemma names_kept_State_subscribe a cb w w' :
  State_subscribe a cb w = Some w' → names_kept w w'.
Proof.
  unfold State_subscribe. intros H.
  destruct (states w !! a) as [st|]; simplify_eq/=.
  apply names_kept_same; simpl; [by rewrite length_insert | done | done].
Qed.

Lemma names_kept_State_new init name now w :
  names_kept w (State_new init name now w).2.
Proof.
  split; [simpl; rewrite length_app; lia|]. split; [|done].
  intros k a H. simpl.
  destruct (decide (k = default (pretty now) name)) as [->|Hne].
  - rewrite lookup_insert_eq. eexists. split; [done|]. by right.
  - rewrite lookup_insert_ne by done. exists a. auto.
Qed.

Lemma names_kept_Event_static_addListener name l w w' :
  Event_static_addListener name l w = Some w' → names_kept w w'.
Proof.
  unfold Event_static_addListener, Event_addListener. intros H.
  destruct (Event_instanceMap w !! name) as [e|] eqn:Hm.
  - rewrite Hm in H. simpl in H.
    destruct (events w !! e) as [ev|]; simplify_eq/=.
    by apply names_kept_same.
  - simpl in H. rewrite insert_insert_eq, lookup_insert_eq in H. simpl in H.
    destruct ((events w ++ [mkEvent name []]) !! length (events w)) as [ev|];
      simplify_eq/=.
    split; [done|]. split; [intros k a Hk; exists a; auto|].
    intros k e Hk. simpl. rewrite insert_insert_eq.
    rewrite lookup_insert_ne; [done|]. intros ->. congruence.
Qed.

Section Kept.
Variable r : list cmd → World → option World.
Hypothesis Hr : ∀ cs w w', r cs w = Some w' → names_kept w w'.

Lemma invoke_kept l v w w' : invoke r l v w = Some w' → names_kept w w'.
Proof.
  unfold invoke. intros H. apply bind_Some in H as (w1 & Hrun & [= <-]).
  apply Hr in Hrun. destruct Hrun as (L & S & E). by split.
Qed.

Lemma forEach_kept arr arg n :
  ∀ i w w', forEach_from r arr arg n i w = Some w' → names_kept w w'.
Proof.
  induction n as [|n IH]; intros i w w' H; simpl in H.
  - simplify_eq. apply names_kept_refl.
  - apply bind_Some in H as (ls & _ & H).
    destruct (ls !! i) as [l|]; [|by eapply IH].
    apply bind_Some in H as (v & _ & H).
    apply bind_Some in H as (w1 & Hinv & H).
    eapply names_kept_trans; [by eapply invoke_kept | by eapply IH].
Qed.

Lemma State_set_kept a v w w' : State_set r a v w = Some w' → names_kept w w'.
Proof.
  unfold State_set. intros H.
  destruct (states w !! a) as [st|]; [|done]. simpl in H.
  eapply names_kept_trans; [|by eapply forEach_kept].
  apply names_kept_same; simpl; [by rewrite length_insert | done | done].
Qed.

Lemma State_static_set_kept name v w w' :
  State_static_set r name v w = Some w' → names_kept w w'.
Proof.
  unfold State_static_set. intros H.
  apply bind_Some in H as (a & _ & H). apply State_set_kept in H.
  destruct (State_instanceMap w !! name) as [a0|] eqn:Hk; [done|].
  eapply names_kept_trans; [|exact H].
  split; [simpl; rewrite length_app; lia|]. split; [|done].
  intros k b Hb. simpl. rewrite insert_insert_eq.
  rewrite lookup_insert_ne by congruence. exists b. auto.
Qed.

Lemma Event_static_trigger_kept name p w w' :
  Event_static_trigger r name p w = Some w' → names_kept w w'.
Proof.
  unfold Event_static_trigger, Event_trigger. intros H.
  destruct (Event_instanceMap w !! name) as [e|].
  - destruct (events w !! e) as [ev|]; [|done]. by eapply forEach_kept.
  - simplify_eq. apply names_kept_refl.
Qed.

Lemma exec_cmd_kept c w w' : exec_cmd r c w = Some w' → names_kept w w'.
Proof.
  destruct c; simpl; intros H.
  - by eapply State_set_kept.
  - apply bind_Some in H as (u & _ & H). by eapply Hr.
  - by eapply names_kept_State_subscribe.
  - simplify_eq. apply names_kept_State_new.
  - by eapply State_static_set_kept.
  - by eapply Hr.
  - unfold State_static_subscribe in H.
    destruct (State_instanceMap w !! name).
    + by eapply names_kept_State_subscribe.
    + simplify_eq. apply names_kept_refl.
  - by eapply names_kept_Event_static_addListener.
  - by eapply Event_static_trigger_kept.
Qed.

Lemma exec_cmds_kept cs :
  ∀ w w', exec_cmds r cs w = Some w' → names_kept w w'.
Proof.
  induction cs as [|c cs IH]; intros w w' H; simpl in H.
  - simplify_eq. apply names_kept_refl.
  - apply bind_Some in H as (w1 & H1 & H2).
    eapply names_kept_trans; [by eapply exec_cmd_kept | by eapply IH].
Qed.
End Kept.

Lemma run_keeps_names fuel cs w w' : run fuel cs w = Some w' → names_kept w w'.
Proof.
  revert cs w w'. induction fuel as [|f IH]; intros cs w w' H.
  - destruct cs; [|done]. simpl in H. simplify_eq. apply names_kept_refl.
  - destruct cs as [|c cs].
    + simpl in H. simplify_eq. apply names_kept_refl.
    + by eapply (exec_cmds_kept (run f) IH).
Qed.

(** X5. Whatever a listener does with the operations of [State] and
    [Event], and returns, it removes nothing.  Every State object and every
    channel object that existed is still in its heap, with the [name] it
    had and the subscribers or listeners it had, in the same order, at the
    start of its list; the value of a State is the value last stored into
    it by a [set]; every call made has returned.  In the registries, a name
    that was bound to a State is still bound to a State, the same one or
    one created since ([new State(v, name)] rebinds the name, and the State
    it was bound to is then found under no name); a name bound to a channel
    is still bound to that channel. *)
Theorem run_never_removes fuel cs w w' :
  run fuel cs w = Some w' →
  ∃ tr,
    trace w' = trace w ++ tr ∧ balanced tr ∧
    (∀ a st, states w !! a = Some st →
       ∃ st', states w' !! a = Some st' ∧ s_name st' = s_name st ∧
              s_setCallbacks st `prefix_of` s_setCallbacks st' ∧
              s_value st' = last_store a (s_value st) tr) ∧
    (∀ e ev, events w !! e = Some ev →
       ∃ ev', events w' !! e = Some ev' ∧ e_name ev' = e_name ev ∧
              e_listeners ev `prefix_of` e_listeners ev') ∧
    (∀ k a, State_instanceMap w !! k = Some a →
       ∃ a', State_instanceMap w' !! k = Some a' ∧
             (a' = a ∨ length (states w) ≤ a')) ∧
    (∀ k e, Event_instanceMap w !! k = Some e →
            Event_instanceMap w' !! k = Some e).
Proof.
  intros H. destruct (run_is_sound fuel _ _ _ H) as (tr & Hg & Hb).
  destruct (run_keeps_names _ _ _ _ H) as (_ & HS & HE).
  exists tr. split; [apply Hg|]. split; [done|].
  split; [apply Hg|]. split; [apply Hg|]. by split.
Qed.

Lemma run_never_removes_witness :
  ∃ tr,
    trace (default empty_world
             (run 2 [CSet 0 (VNum 1); CSubscribe 0 "c" (λ _, []);
                     CNew (VNum 3) (Some "k") 0] world_named))
    = trace world_named ++ tr ∧ balanced tr ∧
    (∀ a st, states world_named !! a = Some st →
       ∃ st',
         states (default empty_world
                   (run 2 [CSet 0 (VNum 1); CSubscribe 0 "c" (λ _, []);
                           CNew (VNum 3) (Some "k") 0] world_named)) !! a
         = Some st' ∧
         s_name st' = s_name st ∧
         s_setCallbacks st `prefix_of` s_setCallbacks st' ∧
         s_value st' = last_store a (s_value st) tr) ∧
    (∀ e ev, events world_named !! e = Some ev →
       ∃ ev',
         events (default empty_world
                   (run 2 [CSet 0 (VNum 1); CSubscribe 0 "c" (λ _, []);
                           CNew (VNum 3) (Some "k") 0] world_named)) !! e
         = Some ev' ∧
         e_name ev' = e_name ev ∧ e_listeners ev `prefix_of` e_listeners ev') ∧
    (∀ k a, State_instanceMap world_named !! k = Some a →
       ∃ a',
         State_instanceMap
           (default empty_world
              (run 2 [CSet 0 (VNum 1); CSubscribe 0 "c" (λ _, []);
                      CNew (VNum 3) (Some "k") 0] world_named)) !! k
         = Some a' ∧
         (a' = a ∨ length (states world_named) ≤ a')) ∧
    (∀ k e, Event_instanceMap world_named !! k = Some e →
       Event_instanceMap
         (default empty_world
            (run 2 [CSet 0 (VNum 1); CSubscribe 0 "c" (λ _, []);
                    CNew (VNum 3) (Some "k") 0] world_named)) !! k
       = Some e).
Proof.
  apply (run_never_removes 2 [CSet 0 (VNum 1); CSubscribe 0 "c" (λ _, []);
                              CNew (VNum 3) (Some "k") 0] world_named).
  vm_compute. reflexivity.
Defined.

(** ** [Event]: listening and dispatching *)

Lemma Event_addListener_Some e l ev w :
  events w !! e = Some ev →
  Event_addListener e l w
  = Some (with_events (λ h, <[e := mkEvent (e_name ev) (e_listeners ev ++ [l])]> h) w).
Proof. intros He. unfold Event_addListener. by rewrite He. Qed.

(** X6. [Dynel.listen(type, cb)], in a world where the channel registered
    under [type], if there is one, is in the heap: [cb] becomes the last
    listener of the channel [type], which is created when there is none; a
    channel that exists is kept, with its listeners.  Nothing is called.
    Every [Dynel.dispatch(type, payload)] that returns next has called the
    earlier listeners and then [cb], once each, each with [payload].  When
    the listeners and [cb] are observers the dispatch returns and the trace
    is exactly these calls. *)
Theorem listen_then_dispatch fuel type cb payload w :
  (∀ e, Event_instanceMap w !! type = Some e → is_Some (events w !! e)) →
  ∃ w1,
    Dynel_listen type cb w = Some w1 ∧
    trace w1 = trace w ∧
    listeners_under type w1 = listeners_under type w ++ [cb] ∧
    (∀ e, Event_instanceMap w !! type = Some e →
          Event_instanceMap w1 !! type = Some e) ∧
    (∀ w2, Dynel_dispatch (run fuel) type payload w1 = Some w2 →
       ∃ tr,
         trace w2 = trace w ++ tr ∧ balanced tr ∧
         top_calls tr
         = (λ l, (ltag l, payload)) <$> (listeners_under type w ++ [cb])) ∧
    (Forall is_observer (listeners_under type w) → is_observer cb →
     ∃ w2,
       Dynel_dispatch (run fuel) type payload w1 = Some w2 ∧
       trace w2
       = trace w ++ observer_calls (listeners_under type w) payload
           ++ [EvCall (ltag cb) payload; EvRet (ltag cb)]).
Proof.
  intros Hwf. pose proof (run_accepts_nil fuel) as Hnil.
  assert (∀ w1 e ev,
            Event_instanceMap w1 !! type = Some e → events w1 !! e = Some ev →
            trace w1 = trace w →
            (∀ w2, Dynel_dispatch (run fuel) type payload w1 = Some w2 →
               ∃ tr,
                 trace w2 = trace w ++ tr ∧ balanced tr ∧
                 top_calls tr = (λ l, (ltag l, payload)) <$> e_listeners ev) ∧
            (Forall is_observer (e_listeners ev) →
             ∃ w2,
               Dynel_dispatch (run fuel) type payload w1 = Some w2 ∧
               trace w2 = trace w ++ observer_calls (e_listeners ev) payload))
    as Hdispatch.
  { intros w1 e ev Hk He Ht. unfold Dynel_dispatch, Event_static_trigger.
    rewrite Hk. split.
    - intros w2 H.
      destruct (Event_trigger_sound _ (run_is_sound fuel) _ _ _ _ H)
        as (ev' & tr & He' & Hg & Hlt).
      assert (ev' = ev) as -> by congruence.
      exists tr. split; [rewrite <- Ht; apply (grows_trace _ _ _ Hg)|].
      split; [by eapply loop_trace_balanced|].
      by apply (loop_trace_const payload [] _ _ Hlt).
    - intros Hobs.
      rewrite (Event_trigger_observers (run fuel) Hnil e payload ev) by done.
      eexists. split; [done|]. simpl. by rewrite Ht. }
  unfold Dynel_listen, Event_static_addListener, listeners_under.
  destruct (Event_instanceMap w !! type) as [e|] eqn:Hk.
  - destruct (Hwf e eq_refl) as [ev He].
    assert (e < length (events w)) as Hlt by (by eapply lookup_lt_Some).
    rewrite Hk. simpl. rewrite (Event_addListener_Some _ _ _ _ He).
    eexists. split; [done|]. simpl. rewrite Hk.
    unfold Event_listeners_of. simpl. rewrite He. simpl.
    rewrite list_lookup_insert_eq by done. simpl.
    split; [done|]. split; [done|]. split; [by intros ? [= ->]|].
    destruct (Hdispatch
                (with_events
                   (λ h, <[e := mkEvent (e_name ev) (e_listeners ev ++ [cb])]> h) w)
                e (mkEvent (e_name ev) (e_listeners ev ++ [cb])))
      as [Hgen Hobs]; [done | by apply list_lookup_insert_eq | done |].
    split; [exact Hgen|].
    intros Hls Hcb. simpl in Hobs.
    destruct Hobs as (w2 & H2 & Ht2).
    { apply Forall_app. split; [done|]. by constructor. }
    exists w2. split; [done|]. by rewrite Ht2, observer_calls_app.
  - simpl. rewrite insert_insert_eq, lookup_insert_eq. simpl.
    assert (∀ (l : list EventObj) x, (l ++ [x]) !! length l = Some x) as Hlast.
    { intros l x. by rewrite lookup_app_r, Nat.sub_diag. }
    rewrite (Event_addListener_Some _ _ (mkEvent type [])) by apply Hlast.
    eexists. split; [done|]. simpl. rewrite lookup_insert_eq.
    unfold Event_listeners_of. simpl.
    rewrite list_lookup_insert_eq by (rewrite length_app; simpl; lia).
    simpl. split; [done|]. split; [done|]. split; [done|].
    set (w1 := with_events _ _).
    destruct (Hdispatch w1 (length (events w)) (mkEvent type [cb]))
      as [Hgen Hobs].
    { simpl. by rewrite lookup_insert_eq. }
    { simpl. apply list_lookup_insert_eq. rewrite length_app. simpl. lia. }
    { done. }
    split; [exact Hgen|].
    intros _ Hcb. apply Hobs. by constructor.
Qed.

Lemma listen_then_dispatch_witness :
  ∃ w1,
    Dynel_listen "ready:x" (observer "c") world_listened = Some w1 ∧
    trace w1 = trace world_listened ∧
    listeners_under "ready:x" w1
    = listeners_under "ready:x" world_listened ++ [observer "c"] ∧
    (∀ e, Event_instanceMap world_listened !! "ready:x" = Some e →
          Event_instanceMap w1 !! "ready:x" = Some e) ∧
    ∃ w2,
      Dynel_dispatch (run 0) "ready:x" (VNum 3) w1 = Some w2 ∧
      trace w2
      = trace world_listened
          ++ observer_calls (listeners_under "ready:x" world_listened) (VNum 3)
          ++ [EvCall (ltag (observer "c")) (VNum 3); EvRet (ltag (observer "c"))].
Proof.
  destruct (listen_then_dispatch 0 "ready:x" (observer "c") (VNum 3) world_listened)
    as (w1 & H1 & H2 & H3 & H4 & _ & Hobs).
  - intros e He. vm_compute in He. injection He as <-.
    vm_compute. eauto.
  - exists w1. split; [exact H1|]. split; [exact H2|]. split; [exact H3|].
    split; [exact H4|]. apply Hobs.
    + vm_compute. repeat constructor.
    + intros v. reflexivity.
Defined.

(** X7. [new Event(name)] binds [name] to the new channel, which has no
    listener, whatever [name] was bound to: firing [name] afterwards calls
    nobody.  The channel that was registered under [name] is still in the
    heap with its listeners, but no longer under any name; the other names
    keep their channels. *)
Theorem Event_new_drops_listeners fuel name payload w :
  Event_instanceMap (Event_new name w).2 !! name = Some (length (events w)) ∧
  listeners_under name (Event_new name w).2 = [] ∧
  Event_static_trigger (run fuel) name payload (Event_new name w).2
  = Some (Event_new name w).2 ∧
  (∀ e ev, events w !! e = Some ev → events (Event_new name w).2 !! e = Some ev) ∧
  (∀ k, k ≠ name →
        Event_instanceMap (Event_new name w).2 !! k = Event_instanceMap w !! k).
Proof.
  assert (∀ (l : list EventObj) x, (l ++ [x]) !! length l = Some x) as Hlast.
  { intros l x. by rewrite lookup_app_r, Nat.sub_diag. }
  split; [simpl; by rewrite lookup_insert_eq|].
  split.
  { unfold listeners_under, Event_listeners_of. simpl.
    rewrite lookup_insert_eq. simpl. by rewrite Hlast. }
  split.
  { unfold Event_static_trigger, Event_trigger. simpl.
    rewrite lookup_insert_eq. simpl. by rewrite Hlast. }
  split.
  - intros e ev He. simpl. rewrite lookup_app_l; [done|].
    by eapply lookup_lt_Some.
  - intros k Hk. simpl. by rewrite lookup_insert_ne.
Qed.

(** ** [Dynel]: keys *)

Lemma chars_app (s1 s2 : string) : chars (s1 +:+ s2) = chars s1 ++ chars s2.
Proof. induction s1 as [|c s1 IH]; simpl; [done|]. by rewrite IH. Qed.

Lemma chars_inj (s1 s2 : string) : chars s1 = chars s2 → s1 = s2.
Proof.
  revert s2. induction s1 as [|c s1 IH]; intros [|c' s2] H; simplify_eq/=;
    [done|]. f_equal. by apply IH.
Qed.

(** Two texts cut at their first occurrence of [c] are equal part by part. *)
Lemma first_occurrence_inj {A} (c : A) (p1 p2 q1 q2 : list A) :
  c ∉ p1 → c ∉ p2 → p1 ++ c :: q1 = p2 ++ c :: q2 → p1 = p2 ∧ q1 = q2.
Proof.
  revert p2. induction p1 as [|x p1 IH]; intros [|y p2] H1 H2 H; simplify_eq/=.
  - done.
  - exfalso. apply H2. by left.
  - exfalso. apply H1. by left.
  - destruct (IH p2) as [-> ->]; [| |done|done].
    + intros Hin. apply H1. by right.
    + intros Hin. apply H2. by right.
Qed.

Lemma last_occurrence_inj {A} (c : A) (p1 p2 q1 q2 : list A) :
  c ∉ q1 → c ∉ q2 → p1 ++ c :: q1 = p2 ++ c :: q2 → p1 = p2 ∧ q1 = q2.
Proof.
  intros H1 H2 H. apply (f_equal reverse) in H.
  rewrite !reverse_app, !reverse_cons, <- !app_assoc in H. simpl in H.
  apply first_occurrence_inj in H as [Hq Hp].
  - split; [by apply (inj reverse) | by apply (inj reverse)].
  - by rewrite elem_of_reverse.
  - by rewrite elem_of_reverse.
Qed.

(** The characters of a decimal numeral. *)
Lemma pretty_N_go_chars (P : ascii → Prop) x :
  (∀ y, P (pretty_N_char y)) →
  ∀ s, Forall P (chars s) → Forall P (chars (pretty_N_go x s)).
Proof.
  intros HP. induction (N.lt_wf_0 x) as [x _ IH]. intros s Hs.
  destruct (decide (0 < x)%N) as [Hx|Hx].
  - rewrite pretty_N_go_step by done. apply IH.
    + by apply N.div_lt.
    + by constructor.
  - replace x with 0%N by lia. by rewrite pretty_N_go_0.
Qed.

Lemma Dynel_uid_chars (P : ascii → Prop) now draw :
  (∀ y, P (pretty_N_char y)) → P "0"%char → P "-"%char →
  Forall P (chars (Dynel_uid now draw)).
Proof.
  intros HP H0 Hm.
  assert (∀ x : N, Forall P (chars (pretty x))) as HN.
  { intros x. unfold pretty, pretty_N. case_decide.
    - by repeat constructor.
    - apply pretty_N_go_chars; [done | constructor]. }
  unfold Dynel_uid, pretty, pretty_Z.
  destruct (now * 100 + draw)%Z.
  - by repeat constructor.
  - apply HN.
  - constructor; [done | apply HN].
Qed.

Lemma pretty_N_char_not_dot y : pretty_N_char y ≠ "."%char.
Proof.
  unfold pretty_N_char.
  repeat match goal with
         | |- context [match ?p with _ => _ end] => destruct p
         end; discriminate.
Qed.

(** X8. The uid the constructor gives an instance contains no dot, and for
    uids without a dot the key tells both the uid and the name: two
    instances with different uids never share a key, whatever the names of
    their properties and states, dots included. *)
Theorem Dynel_key_pair_injective u1 n1 u2 n2 :
  (∀ now draw, dotless (Dynel_uid now draw)) ∧
  (dotless u1 → dotless u2 →
   Dynel_key u1 n1 = Dynel_key u2 n2 → u1 = u2 ∧ n1 = n2).
Proof.
  split.
  - intros now draw. apply Dynel_uid_chars; [|discriminate..].
    apply pretty_N_char_not_dot.
  - intros H1 H2 H. unfold Dynel_key in H.
    apply (f_equal chars) in H. rewrite !chars_app in H. simpl in H.
    apply last_occurrence_inj in H as [Hn Hu].
    + split; by apply chars_inj.
    + intros Hin. by eapply (proj1 (Forall_forall _ _) H1).
    + intros Hin. by eapply (proj1 (Forall_forall _ _) H2).
Qed.

Lemma Dynel_key_pair_injective_witness :
  "17" = "17" ∧ "a.b" = "a.b".
Proof.
  apply (proj2 (Dynel_key_pair_injective "17" "a.b" "17" "a.b")).
  - repeat constructor; discriminate.
  - repeat constructor; discriminate.
  - reflexivity.
Defined.

(** ** [Dynel.setProp]: the attribute of the element *)






(** ** [Dynel.onProp] and [Dynel.onState] *)

(** X10. [Dynel.onProp] and [Dynel.onState] are one operation: both
    subscribe to the State the key of the uid and the name is bound to; a
    callback registered while the key is not bound is dropped.  On a bound
    key the callback becomes the last subscriber and nothing is called;
    every [setState] and every [setProp] that ends afterwards has then
    called the earlier subscribers and the callback, once each and in that
    order, with the written value unless the State was stored into again
    during the notification.  When all of them are observers [setState]
    returns, and so does [setProp] up to the attribute write. *)
Theorem onProp_onState_share fuel u n cb v w :
  Dynel_onProp u n cb w = Dynel_onState u n cb w ∧
  (State_instanceMap w !! Dynel_key u n = None → Dynel_onProp u n cb w = Some w) ∧
  (∀ a st,
     State_instanceMap w !! Dynel_key u n = Some a → states w !! a = Some st →
     ∃ w1,
       Dynel_onProp u n cb w = Some w1 ∧
       trace w1 = trace w ∧
       subscribers_under (Dynel_key u n) w1 = s_setCallbacks st ++ [cb] ∧
       (∀ w2, Dynel_setState (run fuel) u n v w1 = Some w2 →
          ∃ tr,
            trace w2 = trace w ++ EvStore a v :: tr ∧ balanced tr ∧
            (top_calls tr).*1 = ltag <$> (s_setCallbacks st ++ [cb]) ∧
            (¬ stores_into a tr →
             top_calls tr = (λ l, (ltag l, v)) <$> (s_setCallbacks st ++ [cb]))) ∧
       (∀ o, Dynel_setProp (run fuel) u n v w1 = Some o →
          ∃ tr,
            trace (world_of o) = trace w ++ EvStore a v :: tr ∧ balanced tr ∧
            (top_calls tr).*1 = ltag <$> (s_setCallbacks st ++ [cb]) ∧
            (¬ stores_into a tr →
             top_calls tr = (λ l, (ltag l, v)) <$> (s_setCallbacks st ++ [cb]))) ∧
       (Forall is_observer (s_setCallbacks st) → is_observer cb →
        ∃ w2,
          Dynel_setState (run fuel) u n v w1 = Some w2 ∧
          trace w2
          = trace w ++ EvStore a v :: observer_calls (s_setCallbacks st ++ [cb]) v ∧
          (Dynel_getElem u w = None ∨ is_Some (js_String v) →
           ∃ o, Dynel_setProp (run fuel) u n v w1 = Some o ∧
                trace (world_of o) = trace w2))).
Proof.
  split; [done|]. split.
  { intros Hk. unfold Dynel_onProp, Prop_subscribe, State_static_subscribe.
    by rewrite Hk. }
  intros a st Hk Ha.
  assert (a < length (states w)) as Hlt by (by eapply lookup_lt_Some).
  pose proof (run_accepts_nil fuel) as Hnil.
  unfold Dynel_onProp, Prop_subscribe, State_static_subscribe. rewrite Hk.
  rewrite (State_subscribe_Some _ _ _ _ Ha).
  set (st1 := mkState (s_name st) (s_value st) (s_setCallbacks st ++ [cb])).
  set (w1 := with_states _ w).
  assert (State_instanceMap w1 !! Dynel_key u n = Some a) as Hk1 by done.
  assert (states w1 !! a = Some st1) as Ha1.
  { simpl. by apply list_lookup_insert_eq. }
  assert (subscribers_under (Dynel_key u n) w1 = s_setCallbacks st ++ [cb])
    as Hsubs.
  { unfold subscribers_under, State_setCallbacks_of. by rewrite Hk1, Ha1. }
  assert (∀ w2, Dynel_setState (run fuel) u n v w1 = Some w2 →
          ∃ tr,
            trace w2 = trace w ++ EvStore a v :: tr ∧ balanced tr ∧
            (top_calls tr).*1 = ltag <$> (s_setCallbacks st ++ [cb]) ∧
            (¬ stores_into a tr →
             top_calls tr = (λ l, (ltag l, v)) <$> (s_setCallbacks st ++ [cb])))
    as Hstate.
  { intros w2 H. unfold Dynel_setState in H.
    destruct (State_static_set_target _ _ _ _ _ (run_is_sound fuel) H)
      as (a' & tr & st' & Ht & Hb & Hbound & _ & Htags & Hargs & _).
    rewrite (Hbound a Hk1) in *. rewrite Hsubs in *. by exists tr. }
  exists w1. split; [done|]. split; [done|]. split; [done|].
  split; [done|]. split.
  { intros o H.
    destruct (Dynel_setProp_registry _ _ _ _ _ _ H) as (w2 & H2 & _ & _ & ->).
    by apply Hstate. }
  intros Hobs Hcb.
  assert (Forall is_observer (s_setCallbacks st1)) as Hobs1.
  { simpl. apply Forall_app. split; [done|]. by constructor. }
  pose proof (State_static_set_bound (run fuel) Hnil (Dynel_key u n) v a st1 w1
                Hk1 Ha1 Hobs1) as Hset.
  eexists. split; [exact Hset|]. split; [done|].
  intros Hv. unfold Dynel_setProp, Prop_set. rewrite Hset. simpl.
  unfold Dynel_getElem in *. simpl.
  destruct (Dynel_instanceMap w !! u) as [attrs|] eqn:Hu.
  - destruct Hv as [?|[text ->]]; [done|]. simpl.
    destruct (setAttribute _ text attrs); eexists; by split.
  - eexists. by split.
Qed.

Lemma onProp_onState_share_witness :
  ∃ w1,
    Dynel_onProp "7" "n" (observer "p") world_component = Some w1 ∧
    trace w1 = trace world_component ∧
    subscribers_under (Dynel_key "7" "n") w1 = [observer "seen"] ++ [observer "p"] ∧
    ∃ w2,
      Dynel_setState (run 0) "7" "n" (VNum 1) w1 = Some w2 ∧
      trace w2
      = trace world_component
          ++ EvStore 0 (VNum 1)
             :: observer_calls ([observer "seen"] ++ [observer "p"]) (VNum 1) ∧
      ∃ o, Dynel_setProp (run 0) "7" "n" (VNum 1) w1 = Some o ∧
           trace (world_of o) = trace w2.
Proof.
  destruct (proj2 (proj2 (onProp_onState_share 0 "7" "n" (observer "p") (VNum 1)
                            world_component))
              0 (mkState "n.7" (VStr "0") [observer "seen"]))
    as (w1 & H1 & H2 & H3 & _ & _ & Hobs).
  - vm_compute. reflexivity.
  - vm_compute. reflexivity.
  - exists w1. split; [exact H1|]. split; [exact H2|]. split; [exact H3|].
    destruct Hobs as (w2 & Hset & Ht & Hprop).
    + repeat constructor.
    + intros v. reflexivity.
    + exists w2. split; [exact Hset|]. split; [exact Ht|].
      apply Hprop. right. vm_compute. eauto.
Defined.

(** ** [Dynel.configure] *)

Lemma truthy_VStr_nonempty s : truthy (VStr s) = true → s ≠ "".
Proof. simpl. intros H ->. done. Qed.

(** X11. [Dynel.configure(options)] sets the settings that [options]
    gives as non-empty strings and no other: an empty string is ignored
    like an absent field, so that, the initial settings being non-empty,
    no setting is ever empty.  Nothing but the three settings changes. *)
Theorem Dynel_configure_spec b e p w :
  configured empty_world ∧
  (configured w → configured (Dynel_configure b e p w)) ∧
  Dynel_baseUrl (Dynel_configure b e p w)
  = (if option_truthy b then default "" b else Dynel_baseUrl w) ∧
  Dynel_extension (Dynel_configure b e p w)
  = (if option_truthy e then default "" e else Dynel_extension w) ∧
  Dynel_propPrefix (Dynel_configure b e p w)
  = (if option_truthy p then default "" p else Dynel_propPrefix w) ∧
  Dynel_configure (Some "") (Some "") (Some "") w = w ∧
  states (Dynel_configure b e p w) = states w ∧
  State_instanceMap (Dynel_configure b e p w) = State_instanceMap w ∧
  Dynel_instanceMap (Dynel_configure b e p w) = Dynel_instanceMap w ∧
  Dynel_fetchCache (Dynel_configure b e p w) = Dynel_fetchCache w ∧
  requests (Dynel_configure b e p w) = requests w ∧
  trace (Dynel_configure b e p w) = trace w.
Proof.
  split; [by repeat split|].
  assert (∀ o, option_truthy o = true → default "" o ≠ "") as Hne.
  { intros [s|] H; [|done]. by apply truthy_VStr_nonempty. }
  split.
  { intros (Hb & He & Hp). unfold Dynel_configure, configured.
    destruct (option_truthy b) eqn:Eb, (option_truthy e) eqn:Ee,
      (option_truthy p) eqn:Ep; simpl; repeat split; auto. }
  unfold Dynel_configure.
  destruct (option_truthy b), (option_truthy e), (option_truthy p);
    by repeat split.
Qed.

Lemma Dynel_configure_spec_witness :
  configured (Dynel_configure (Some "/c/") (Some "") None empty_world).
Proof.
  apply (proj1 (proj2 (Dynel_configure_spec (Some "/c/") (Some "") None
                         empty_world))).
  repeat split; discriminate.
Defined.

(** X12. A template is requested from the address made of the base URL,
    the kind and the extension as they are configured when [Dynel.fetch]
    is first called for the kind.  A kind that has been requested is not
    requested again: changing the settings afterwards gives it no new
    address. *)
Theorem configure_then_fetch fuel b e p kind cb now w :
  (Dynel_fetchCache w !! kind = None →
   ∃ w1 rq,
     Dynel_fetch (run fuel) kind cb now (Dynel_configure b e p w) = Some w1 ∧
     requests w1 = requests w ++ [rq] ∧
     rq_kind rq = kind ∧
     rq_url rq
     = (if option_truthy b then default "" b else Dynel_baseUrl w)
         +:+ kind
         +:+ (if option_truthy e then default "" e else Dynel_extension w)) ∧
  (∀ w1,
     is_Some (Dynel_fetchCache w !! kind) →
     Dynel_fetch (run fuel) kind cb now (Dynel_configure b e p w) = Some w1 →
     requests w1 = requests w).
Proof.
  destruct (Dynel_configure_spec b e p w)
    as (_ & _ & Hb & He & _ & _ & _ & _ & _ & Hc & Hr & _).
  split.
  - intros Hk. unfold Dynel_fetch. rewrite Hc, Hk. simpl.
    eexists _, _. split; [done|]. simpl. rewrite Hr.
    split; [done|]. split; [done|]. by rewrite Hb, He.
  - intros w1 [a Hk] H. unfold Dynel_fetch in H. rewrite Hc, Hk in H.
    apply bind_Some in H as (v & _ & H).
    destruct (negb (truthy v)).
    + apply grows_State_subscribe in H.
      by rewrite (grows_requests _ _ _ H).
    + destruct (invoke_sound (run fuel) (run_is_sound fuel) _ _ _ _ H)
        as (inner & Hg & _).
      by rewrite (grows_requests _ _ _ Hg).
Qed.

Lemma configure_then_fetch_witness :
  ∃ w1 rq,
    Dynel_fetch (run 0) "card" (observer "i") 5
      (Dynel_configure (Some "/c/") None None empty_world) = Some w1 ∧
    requests w1 = requests empty_world ++ [rq] ∧
    rq_kind rq = "card" ∧
    rq_url rq
    = (if option_truthy (Some "/c/") then default "" (Some "/c/")
       else Dynel_baseUrl empty_world)
        +:+ "card"
        +:+ (if option_truthy None then default "" None
             else Dynel_extension empty_world).
Proof.
  apply (proj1 (configure_then_fetch 0 (Some "/c/") None None "card"
                  (observer "i") 5 empty_world)).
  vm_compute. reflexivity.
Defined.

(** ** The end of [assemble]: attributes become properties *)

Lemma prefix_app_true (p r : string) : String.prefix p (p +:+ r) = true.
Proof.
  induction p as [|c p IH]; simpl; [by destruct r|].
  destruct (ascii_dec c c); [done | congruence].
Qed.

Lemma prefix_true_app (p s : string) :
  String.prefix p s = true → ∃ r, s = p +:+ r.
Proof.
  revert s. induction p as [|c p IH]; intros s H; [by exists s|].
  destruct s as [|c' s]; [done|]. simpl in H.
  destruct (ascii_dec c c') as [->|]; [|done].
  destruct (IH s H) as [r ->]. by exists r.
Qed.

Lemma substring_all (r : string) : String.substring 0 (String.length r) r = r.
Proof. induction r as [|c r IH]; simpl; [done|]. by rewrite IH. Qed.

Lemma substring_app_drop (p r : string) n :
  n = String.length r →
  String.substring (String.length p) n (p +:+ r) = r.
Proof.
  intros ->. induction p as [|c p IH]; simpl; [apply substring_all | done].
Qed.

Lemma length_string_app (p r : string) :
  String.length (p +:+ r) = String.length p + String.length r.
Proof. induction p as [|c p IH]; simpl; [done|]. by rewrite IH. Qed.

(** Removing a prefix: the case of [attr.name.replace(Dynel.propPrefix, "")]
    under [attr.name.startsWith(Dynel.propPrefix)]. *)
Lemma remove_first_prefix (p r : string) : remove_first p (p +:+ r) = r.
Proof.
  assert (∀ s, String.prefix p s = true →
               remove_first p s
               = String.substring (String.length p)
                   (String.length s - String.length p) s) as H.
  { intros s Hs. destruct s; cbn [remove_first]; by rewrite Hs. }
  rewrite H by apply prefix_app_true.
  apply substring_app_drop. rewrite length_string_app. lia.
Qed.

Lemma string_app_inv_head (p r1 r2 : string) : p +:+ r1 = p +:+ r2 → r1 = r2.
Proof.
  intros H. apply chars_inj. apply (f_equal chars) in H.
  rewrite !chars_app in H. by apply app_inv_head in H.
Qed.

Lemma Dynel_key_name_inj uid n1 n2 :
  Dynel_key uid n1 = Dynel_key uid n2 → n1 = n2.
Proof.
  unfold Dynel_key. intros H. apply chars_inj. apply (f_equal chars) in H.
  rewrite !chars_app in H. by apply app_inv_tail in H.
Qed.

Lemma set_attribute_value_same name value attrs :
  NoDup attrs.*1 → (name, value) ∈ attrs →
  set_attribute_value name value attrs = attrs.
Proof.
  induction attrs as [|[n v] attrs IH]; intros Hnd Hin; [by inversion Hin|].
  rewrite fmap_cons in Hnd. apply NoDup_cons in Hnd as [Hn Hnd]. simpl in *.
  apply elem_of_cons in Hin as [[= <- <-]|Hin].
  - by rewrite String.eqb_refl.
  - destruct (String.eqb_spec n name) as [->|Hne].
    + exfalso. apply Hn. apply list_elem_of_fmap. by exists (name, value).
    + f_equal. by apply IH.
Qed.

Section Calm.
Variable r : list cmd → World → option World.
Hypothesis Hnil : run_nil r.

(** In a calm world [State.set(key, v)] returns, changes the value under
    [key] only, and leaves the world calm. *)
Lemma State_static_set_calm key v w :
  calm w →
  ∃ w1,
    State_static_set r key v w = Some w1 ∧ calm w1 ∧
    State_static_get key w1 = v ∧
    (∀ key', key' ≠ key → State_static_get key' w1 = State_static_get key' w) ∧
    Dynel_instanceMap w1 = Dynel_instanceMap w ∧
    Dynel_propPrefix w1 = Dynel_propPrefix w.
Proof.
  intros [Hq Hinj].
  destruct (State_instanceMap w !! key) as [a|] eqn:Hk.
  - destruct (Hq key a Hk) as (st & Ha & Hobs).
    assert (a < length (states w)) as Hlt by (by eapply lookup_lt_Some).
    eexists. split; [by eapply State_static_set_bound|].
    split; [split|].
    + intros k b Hb. simpl in *. destruct (decide (b = a)) as [->|Hne].
      * eexists. split; [by apply list_lookup_insert_eq | done].
      * destruct (Hq k b Hb) as (sb & Hsb & Hobsb).
        exists sb. by rewrite list_lookup_insert_ne.
    + done.
    + split.
      { unfold State_static_get, State_get. simpl. rewrite Hk.
        by rewrite list_lookup_insert_eq. }
      split; [|done].
      intros key' Hne. unfold State_static_get, State_get. simpl.
      destruct (State_instanceMap w !! key') as [b|] eqn:Hb; [|done].
      rewrite list_lookup_insert_ne; [done|].
      intros ->. apply Hne. by eapply Hinj.
  - assert (∀ k b, State_instanceMap w !! k = Some b → b < length (states w))
      as Hvalid.
    { intros k b Hb. destruct (Hq k b Hb) as (sb & Hsb & _).
      by eapply lookup_lt_Some. }
    eexists. split; [by apply State_static_set_fresh|].
    split; [split|].
    + intros k b Hb. simpl in *.
      destruct (decide (k = key)) as [->|Hne].
      * rewrite lookup_insert_eq in Hb. injection Hb as <-.
        eexists. split; [by rewrite lookup_app_r, Nat.sub_diag|]. constructor.
      * rewrite lookup_insert_ne in Hb by done.
        destruct (Hq k b Hb) as (sb & Hsb & Hobsb).
        exists sb. split; [|done]. rewrite lookup_app_l; [done|].
        by eapply lookup_lt_Some.
    + intros k k' b Hb Hb'. simpl in *.
      destruct (decide (k = key)) as [->|Hne], (decide (k' = key)) as [->|Hne'];
        try done.
      * rewrite lookup_insert_eq in Hb. injection Hb as <-.
        rewrite lookup_insert_ne in Hb' by done.
        apply Hvalid in Hb'. lia.
      * rewrite lookup_insert_eq in Hb'. injection Hb' as <-.
        rewrite lookup_insert_ne in Hb by done.
        apply Hvalid in Hb. lia.
      * rewrite lookup_insert_ne in Hb, Hb' by done. by eapply Hinj.
    + split.
      { unfold State_static_get, State_get. simpl. rewrite lookup_insert_eq.
        by rewrite lookup_app_r, Nat.sub_diag. }
      split; [|done].
      intros key' Hne. unfold State_static_get, State_get. simpl.
      rewrite lookup_insert_ne by done.
      destruct (State_instanceMap w !! key') as [b|] eqn:Hb; [|done].
      rewrite lookup_app_l; [done|]. by eapply Hvalid.
Qed.

Lemma assemble_props_loop uid all rest :
  NoDup all.*1 → rest ⊆ all →
  ∀ w, calm w → NoDup rest.*1 →
  (∀ name value, (name, value) ∈ rest →
     String.prefix (Dynel_propPrefix w) name = true → lowercase_Name name) →
  ∃ w',
    assemble_props r uid rest w = Some (Returned w' VUndef) ∧ calm w' ∧
    Dynel_propPrefix w' = Dynel_propPrefix w ∧
    (∀ n v, (Dynel_propPrefix w +:+ n, v) ∈ rest →
            Dynel_getProp uid n w' = VStr v) ∧
    (∀ key, (∀ n v, (Dynel_propPrefix w +:+ n, v) ∈ rest → key ≠ Dynel_key uid n) →
            State_static_get key w' = State_static_get key w) ∧
    (Dynel_instanceMap w !! uid = Some all →
     Dynel_instanceMap w' = Dynel_instanceMap w).
Proof.
  intros Hall. induction rest as [|[name value] rest IH];
    intros Hsub w Hcalm Hnd Hnames.
  { exists w. repeat split; try done; try apply Hcalm.
    intros n v Hin. by inversion Hin. }
  rewrite fmap_cons in Hnd. apply NoDup_cons in Hnd as [Hname Hnd].
  assert (rest ⊆ all) as Hsub' by (intros x Hx; apply Hsub; by right).
  assert ((name, value) ∈ all) as Hin0 by (apply Hsub; by left).
  assert (∀ name' value', (name', value') ∈ rest →
            String.prefix (Dynel_propPrefix w) name' = true →
            lowercase_Name name') as Hnames'
    by (intros name' value' Hin'; apply (Hnames name' value'); by right).
  simpl. destruct (String.prefix (Dynel_propPrefix w) name) eqn:Hpre.
  - destruct (Hnames name value ltac:(by left) Hpre) as [Hvalid Hlower].
    apply prefix_true_app in Hpre as [n0 ->].
    rewrite remove_first_prefix.
    destruct (State_static_set_calm (Dynel_key uid n0) (VStr value) w Hcalm)
      as (w1 & Hset & Hcalm1 & Hget1 & Hother1 & Hmap1 & Hpre1).
    assert (∃ w2,
      Dynel_setProp r uid n0 (VStr value) w = Some (Returned w2 VUndef) ∧
      calm w2 ∧ Dynel_propPrefix w2 = Dynel_propPrefix w ∧
      (∀ key, State_static_get key w2 = State_static_get key w1) ∧
      (Dynel_instanceMap w !! uid = Some all →
       Dynel_instanceMap w2 = Dynel_instanceMap w))
      as (w2 & Hprop & Hc2 & Hp2 & Hg2 & Hm2).
    { unfold Dynel_setProp, Prop_set. rewrite Hset. simpl.
      unfold Dynel_getElem, setAttribute. rewrite Hmap1, Hpre1, Hvalid, Hlower.
      destruct (Dynel_instanceMap w !! uid) as [attrs|] eqn:Hu; simpl.
      - eexists. split; [done|]. split; [exact Hcalm1|].
        split; [exact Hpre1|]. split; [done|].
        intros [= ->]. simpl.
        rewrite set_attribute_value_same by done. rewrite Hmap1.
        by apply insert_id.
      - exists w1. split; [done|]. split; [exact Hcalm1|].
        split; [exact Hpre1|]. split; done. }
    rewrite Hprop. simpl.
    destruct (IH Hsub' w2 Hc2 Hnd) as (w' & Hrun & Hc' & Hp' & Hin' & Hout' & Hm').
    { rewrite Hp2. exact Hnames'. }
    rewrite Hp2 in *.
    exists w'. split; [done|]. split; [done|]. split; [congruence|].
    split; [|split].
    + intros n v Hin. apply elem_of_cons in Hin as [[= Hn <-]|Hin].
      * apply string_app_inv_head in Hn as <-.
        unfold Dynel_getProp, Prop_get. rewrite Hout', Hg2; [done|].
        intros n' v' Hn' Hkey. apply Dynel_key_name_inj in Hkey as <-.
        apply Hname. apply list_elem_of_fmap.
        by exists (Dynel_propPrefix w +:+ n, v').
      * by apply Hin'.
    + intros key Hkey. rewrite Hout', Hg2.
      * apply Hother1. apply (Hkey n0 value). by left.
      * intros n v Hin. apply (Hkey n v). by right.
    + intros Hu. rewrite Hm' by (by rewrite Hm2). by apply Hm2.
  - destruct (IH Hsub' w Hcalm Hnd Hnames')
      as (w' & Hrun & Hc' & Hp' & Hin' & Hout' & Hm').
    exists w'. simpl. split; [done|]. split; [done|]. split; [done|].
    split; [|split; [|done]].
    + intros n v Hin. apply elem_of_cons in Hin as [[= <- <-]|Hin].
      * by rewrite prefix_app_true in Hpre.
      * by apply Hin'.
    + intros key Hkey. apply Hout'. intros n v Hin. apply (Hkey n v). by right.
Qed.
End Calm.

(** X13. At the end of [assemble] the attributes of the element whose
    names start with the property prefix become properties.  In a world
    where every State of the registry has observers as its only
    subscribers and no two names share a State, for attributes with
    distinct names of which those with the prefix are XML names in lower
    case (such as the HTML parser gives): the loop returns, the property
    named by the rest of each such attribute name holds the attribute
    value, as a string; the other properties and states keep their values,
    the attributes of the element are as they were, and the attributes
    without the prefix give no property. *)
Theorem assemble_props_spec fuel uid attributes w :
  calm w → NoDup attributes.*1 →
  (∀ name value, (name, value) ∈ attributes →
     String.prefix (Dynel_propPrefix w) name = true → lowercase_Name name) →
  ∃ w',
    assemble_props (run fuel) uid attributes w = Some (Returned w' VUndef) ∧
    (∀ n v, (Dynel_propPrefix w +:+ n, v) ∈ attributes →
            Dynel_getProp uid n w' = VStr v) ∧
    (∀ key,
       (∀ n v, (Dynel_propPrefix w +:+ n, v) ∈ attributes → key ≠ Dynel_key uid n) →
       State_static_get key w' = State_static_get key w) ∧
    (Dynel_instanceMap w !! uid = Some attributes →
     Dynel_instanceMap w' = Dynel_instanceMap w).
Proof.
  intros Hcalm Hnd Hnames.
  destruct (assemble_props_loop (run fuel) (run_accepts_nil fuel) uid
              attributes attributes Hnd (reflexivity _) w Hcalm Hnd Hnames)
    as (w' & Hrun & _ & _ & Hin & Hout & Hm).
  by exists w'.
Qed.

Lemma assemble_props_spec_witness :
  ∃ w',
    assemble_props (run 0) "7" [("id", "c1"); ("prop-n", "5")]
      (Dynel_registerInstance "7" [("id", "c1"); ("prop-n", "5")] empty_world)
    = Some (Returned w' VUndef) ∧
    (∀ n v,
       (Dynel_propPrefix
          (Dynel_registerInstance "7" [("id", "c1"); ("prop-n", "5")] empty_world)
        +:+ n, v) ∈ [("id", "c1"); ("prop-n", "5")] →
       Dynel_getProp "7" n w' = VStr v) ∧
    (∀ key,
       (∀ n v,
          (Dynel_propPrefix
             (Dynel_registerInstance "7" [("id", "c1"); ("prop-n", "5")] empty_world)
           +:+ n, v) ∈ [("id", "c1"); ("prop-n", "5")] →
          key ≠ Dynel_key "7" n) →
       State_static_get key w'
       = State_static_get key
           (Dynel_registerInstance "7" [("id", "c1"); ("prop-n", "5")] empty_world)) ∧
    (Dynel_instanceMap
       (Dynel_registerInstance "7" [("id", "c1"); ("prop-n", "5")] empty_world)
     !! "7" = Some [("id", "c1"); ("prop-n", "5")] →
     Dynel_instanceMap w'
     = Dynel_instanceMap
         (Dynel_registerInstance "7" [("id", "c1"); ("prop-n", "5")] empty_world)).
Proof.
  apply (assemble_props_spec 0 "7" [("id", "c1"); ("prop-n", "5")]
           (Dynel_registerInstance "7" [("id", "c1"); ("prop-n", "5")] empty_world)).
  - split.
    + intros key a Ha. vm_compute in Ha. discriminate Ha.
    + intros k k' a Ha. vm_compute in Ha. discriminate Ha.
  - refine (bool_decide_unpack _ _). vm_compute. exact I.
  - intros name value Hin Hpre.
    apply elem_of_cons in Hin as [[= -> ->]|Hin]; [discriminate Hpre|].
    apply list_elem_of_singleton in Hin as [= -> ->].
    split; vm_compute; reflexivity.
Defined.

(** ** [prepareScript]: what is left alone *)

Lemma star_iter_matches r step :
  (∀ n s x, x ∈ step n s → matches r x.1.1) →
  ∀ n s x, x ∈ star_iter step n s → matches (RStar r) x.1.1.
Proof.
  intros Hstep n. induction n as [|n IH]; intros s x Hx; simpl in Hx.
  - apply list_elem_of_singleton in Hx as ->. constructor.
  - apply elem_of_app in Hx as [Hx|Hx].
    + apply list_elem_of_bind in Hx as (x1 & Hx & Hx1).
      pose proof (Hstep _ _ _ Hx1) as Hm1.
      destruct (x1.1.1) as [|c m1] eqn:Hm; [by apply elem_of_nil in Hx|].
      apply list_elem_of_bind in Hx as (x2 & Hx & Hx2).
      apply list_elem_of_singleton in Hx as ->.

      apply (matches_star_more r (c :: m1) x2.1.1); [done | by eapply IH].
    + apply list_elem_of_singleton in Hx as ->. constructor.
Qed.

(** What the matcher reports is matched by the pattern. *)
Lemma rmatch_matches r : ∀ n s x, x ∈ rmatch r n s → matches r x.1.1.
Proof.
  induction r as [|c|p|r1 IH1 r2 IH2|r1 IH1 r2 IH2|r1 IH1|k r1 IH1];
    intros n s x Hx; simpl in Hx.
  - apply list_elem_of_singleton in Hx as ->. constructor.
  - destruct s as [|c' s]; [by apply elem_of_nil in Hx|].
    destruct (Ascii.eqb c c') eqn:He; [|by apply elem_of_nil in Hx].
    apply Ascii.eqb_eq in He as <-.
    apply list_elem_of_singleton in Hx as ->. constructor.
  - destruct s as [|c' s]; [by apply elem_of_nil in Hx|].
    destruct (p c') eqn:Hp; [|by apply elem_of_nil in Hx].
    apply list_elem_of_singleton in Hx as ->. by constructor.
  - apply list_elem_of_bind in Hx as (x1 & Hx & Hx1).
    apply list_elem_of_bind in Hx as (x2 & Hx & Hx2).
    apply list_elem_of_singleton in Hx as ->.
    apply (matches_seq r1 r2 x1.1.1 x2.1.1); [by eapply IH1 | by eapply IH2].
  - apply elem_of_app in Hx as [Hx|Hx].
    + apply matches_alt_l. by eapply IH1.
    + apply matches_alt_r. by eapply IH2.
  - eapply star_iter_matches; [|exact Hx]. apply IH1.
  - apply list_elem_of_bind in Hx as (x1 & Hx & Hx1).
    apply list_elem_of_singleton in Hx as ->.
    apply matches_group. simpl. by eapply IH1.
Qed.

Lemma regex_exec_matches r s m cs rest :
  regex_exec r s = Some (m, cs, rest) → matches r m ∧ s = m ++ rest.
Proof.
  unfold regex_exec. intros H.
  destruct (rmatch r (length s) s) as [|x l] eqn:Hm; [done|].
  simpl in H. injection H as ->.
  assert ((m, cs, rest) ∈ rmatch r (length s) s) as Hin by (rewrite Hm; by left).
  split.
  - apply (rmatch_matches _ _ _ _ Hin).
  - apply (rmatch_splits _ _ _ _ Hin).
Qed.

Lemma matches_seq_inv r1 r2 m :
  matches (RSeq r1 r2) m → ∃ m1 m2, m = m1 ++ m2 ∧ matches r1 m1 ∧ matches r2 m2.
Proof. inversion 1; subst. eauto. Qed.

Lemma matches_group_inv k r m : matches (RGroup k r) m → matches r m.
Proof. by inversion 1. Qed.

Lemma matches_char_inv c m : matches (RChar c) m → m = [c].
Proof. by inversion 1. Qed.

Lemma matches_alt_inv r1 r2 m :
  matches (RAlt r1 r2) m → matches r1 m ∨ matches r2 m.
Proof. inversion 1; subst; eauto. Qed.

Lemma matches_str_inv w m : matches (RStr w) m → m = w.
Proof.
  revert m. induction w as [|c w IH]; intros m H.
  - by inversion H.
  - destruct w as [|c' w].
    + by apply matches_char_inv in H.
    + change (RStr (c :: c' :: w)) with (RSeq (RChar c) (RStr (c' :: w))) in H.
      apply matches_seq_inv in H as (m1 & m2 & -> & H1 & H2).
      apply matches_char_inv in H1 as ->. by rewrite (IH _ H2).
Qed.

Lemma matches_star_class_inv p m :
  matches (RStar (RClass p)) m → Forall (λ c, p c = true) m.
Proof.
  remember (RStar (RClass p)) as r eqn:Hr. intros H.
  induction H as [| | | | | | |r0 m1 m2 H1 _ H2 IH2|]; try done.
  injection Hr as ->. apply Forall_app. split; [|by apply IH2].
  inversion H1; subst. by constructor.
Qed.

(** The start of every text the two patterns match. *)
Lemma matches_subscribe_start m :
  matches re_subscribe m →
  ∃ fn sp1 sp2 tail,
    m = "$"%char :: fn ++ sp1 ++ "("%char :: sp2 ++ dq :: tail ∧
    subscribe_name fn ∧ spaces sp1 ∧ spaces sp2.
Proof.
  unfold re_subscribe. intros H.
  apply matches_seq_inv in H as (m1 & ma & -> & H1 & H).
  apply matches_group_inv, matches_seq_inv in H1 as (d & fn & -> & Hd & Hfn).
  apply matches_char_inv in Hd as ->.
  apply matches_group_inv, matches_alt_inv in Hfn.
  apply matches_seq_inv in H as (sp1 & mb & -> & Hsp1 & H).
  apply matches_star_class_inv in Hsp1.
  apply matches_seq_inv in H as (par & mc & -> & Hpar & H).
  apply matches_char_inv in Hpar as ->.
  apply matches_seq_inv in H as (sp2 & md & -> & Hsp2 & H).
  apply matches_star_class_inv in Hsp2.
  apply matches_seq_inv in H as (q & tail & -> & Hq & H).
  apply matches_char_inv in Hq as ->.
  exists fn, sp1, sp2, tail. split.
  { by rewrite <- app_assoc. }
  split; [|done].
  destruct Hfn as [Hfn|Hfn]; apply matches_str_inv in Hfn as ->;
    [by left | by right].
Qed.

Lemma matches_access_start m :
  matches re_access m →
  ∃ fn sp2 tail,
    m = "$"%char :: fn ++ "("%char :: sp2 ++ dq :: tail ∧
    access_name fn ∧ spaces sp2.
Proof.
  unfold re_access. intros H.
  apply matches_seq_inv in H as (m1 & ma & -> & H1 & H).
  apply matches_group_inv, matches_seq_inv in H1 as (d & fn & -> & Hd & Hfn).
  apply matches_char_inv in Hd as ->.
  apply matches_group_inv, matches_alt_inv in Hfn.
  apply matches_seq_inv in H as (par & mb & -> & Hpar & H).
  apply matches_char_inv in Hpar as ->.
  apply matches_seq_inv in H as (sp2 & mc & -> & Hsp2 & H).
  apply matches_star_class_inv in Hsp2.
  apply matches_seq_inv in H as (q & tail & -> & Hq & H).
  apply matches_char_inv in Hq as ->.
  exists fn, sp2, tail. split.
  { by rewrite <- app_assoc. }
  split; [|done].
  destruct Hfn as [Hfn|Hfn]; [apply matches_str_inv in Hfn as ->; by left|].
  apply matches_alt_inv in Hfn as [Hfn|Hfn]; apply matches_str_inv in Hfn as ->.
  - right. by left.
  - right. by right.
Qed.

(** White space followed by a double quote is not the start of white
    space followed by something else. *)
Lemma spaces_then_quote sp2 ws2 tail t rest :
  spaces sp2 → spaces ws2 → starts_other t →
  (sp2 ++ dq :: tail) ++ rest ≠ ws2 ++ t.
Proof.
  intros Hsp2. revert ws2. induction Hsp2 as [|c sp2 Hc _ IH];
    intros ws2 Hws2 Ht H.
  - destruct ws2 as [|c' ws2]; simpl in H.
    + destruct t as [|c t]; [done|]. injection H as <- _. by destruct Ht.
    + injection H as <- _. by apply Forall_cons in Hws2 as [Hdq _].
  - destruct ws2 as [|c' ws2]; simpl in H.
    + destruct t as [|c' t]; [done|]. injection H as <- _.
      destruct Ht as [Ht _]. congruence.
    + injection H as _ H. apply Forall_cons in Hws2 as [_ Hws2].
      by apply (IH ws2).
Qed.

Lemma no_paren_word_spaces f ws :
  Forall (λ c, is_word c = true) f → spaces ws → "("%char ∉ f ++ ws.
Proof.
  intros Hf Hws Hin. apply elem_of_app in Hin as [Hin|Hin].
  - by apply (proj1 (Forall_forall _ _) Hf) in Hin.
  - by apply (proj1 (Forall_forall _ _) Hws) in Hin.
Qed.

Lemma subscribe_name_word fn : subscribe_name fn → Forall (λ c, is_word c = true) fn.
Proof. intros [->| ->]; by repeat constructor. Qed.

Lemma access_name_word fn : access_name fn → Forall (λ c, is_word c = true) fn.
Proof. intros [->|[->| ->]]; by repeat constructor. Qed.

(** A call whose first argument does not start with a double quote is
    matched by neither pattern. *)
Lemma exec_subscribe_other_argument f ws1 ws2 t :
  Forall (λ c, is_word c = true) f → spaces ws1 → spaces ws2 → starts_other t →
  regex_exec re_subscribe ("$"%char :: f ++ ws1 ++ "("%char :: ws2 ++ t) = None.
Proof.
  intros Hf Hws1 Hws2 Ht.
  destruct (regex_exec _ _) as [[[m cs] rest]|] eqn:He; [|done]. exfalso.
  apply regex_exec_matches in He as [Hm Hs].
  apply matches_subscribe_start in Hm as (fn & sp1 & sp2 & tail & -> & Hfn & Hsp1 & Hsp2).
  simpl in Hs. injection Hs as Hs.
  assert ((f ++ ws1) ++ "("%char :: ws2 ++ t
          = (fn ++ sp1) ++ "("%char :: (sp2 ++ dq :: tail) ++ rest) as Hs'.
  { repeat (progress (rewrite <- ?app_assoc in *; simpl in * )). exact Hs. }
  apply first_occurrence_inj in Hs' as [_ Hs'].
  - symmetry in Hs'. by apply spaces_then_quote in Hs'.
  - by apply no_paren_word_spaces.
  - apply no_paren_word_spaces; [by apply subscribe_name_word | done].
Qed.

Lemma exec_access_other_argument f ws1 ws2 t :
  Forall (λ c, is_word c = true) f → spaces ws1 → spaces ws2 → starts_other t →
  regex_exec re_access ("$"%char :: f ++ ws1 ++ "("%char :: ws2 ++ t) = None.
Proof.
  intros Hf Hws1 Hws2 Ht.
  destruct (regex_exec _ _) as [[[m cs] rest]|] eqn:He; [|done]. exfalso.
  apply regex_exec_matches in He as [Hm Hs].
  apply matches_access_start in Hm as (fn & sp2 & tail & -> & Hfn & Hsp2).
  simpl in Hs. injection Hs as Hs.
  assert ((f ++ ws1) ++ "("%char :: ws2 ++ t
          = (fn ++ []) ++ "("%char :: (sp2 ++ dq :: tail) ++ rest) as Hs'.
  { rewrite app_nil_r.
    repeat (progress (rewrite <- ?app_assoc in *; simpl in * )). exact Hs. }
  apply first_occurrence_inj in Hs' as [_ Hs'].
  - symmetry in Hs'. by apply spaces_then_quote in Hs'.
  - by apply no_paren_word_spaces.
  - apply no_paren_word_spaces; [by apply access_name_word | constructor].
Qed.

Lemma replaceAll_nil r tpl : dollar_first r = true → replaceAll r tpl [] = [].
Proof. intros Hr. by apply replaceAll_from_nil. Qed.

Lemma replaceAll_dollarless r tpl s :
  dollar_first r = true → dollarless s → replaceAll r tpl s = s.
Proof.
  intros Hr Hs. rewrite <- (app_nil_r s) at 1.
  rewrite replaceAll_inert by done. by rewrite replaceAll_nil, app_nil_r.
Qed.

(** X14. A script text without a dollar sign is left as it is. *)
Theorem prepareScript_dollarless uid s :
  dollarless s → prepareScript_chars uid s = s.
Proof.
  intros Hs. unfold prepareScript_chars.
  rewrite (replaceAll_dollarless re_subscribe) by done.
  by apply replaceAll_dollarless.
Qed.

Lemma prepareScript_dollarless_witness :
  prepareScript_chars (chars "17") (chars "let n = 1; f(n);")
  = chars "let n = 1; f(n);".
Proof.
  apply (prepareScript_dollarless (chars "17") (chars "let n = 1; f(n);")).
  repeat constructor; discriminate.
Defined.

Lemma replaceAll_subscribe_starts_other uid s :
  dollarless uid → starts_other s →
  starts_other (replaceAll re_subscribe (tpl_subscribe uid) s).
Proof.
  intros Hu Hs. destruct s as [|c s]; [by rewrite replaceAll_nil|].
  destruct (regex_exec re_subscribe (c :: s)) as [[[m cs] rest]|] eqn:He.
  - assert (∃ g, capture 1 cs = "$"%char :: g) as [g Hg].
    { unfold regex_exec, re_subscribe in He.
      eapply (rmatch_capture_function _ _ (length (c :: s)) (c :: s) (m, cs, rest)).
      2:{ destruct (rmatch _ _ _) as [|x l] eqn:Hm in He; [done|].
          rewrite Hm. simpl in He. injection He as ->. by left. }
      done. }
    unfold replaceAll. cbn [replaceAll_from]. rewrite He.
    rewrite expand_tpl_subscribe by done. rewrite Hg.
    destruct m; simpl; split; (done || apply not_eq_sym, dq_not_dollar).
  - by rewrite replaceAll_no_match.
Qed.

Lemma dollarless_call_start f ws1 ws2 :
  Forall (λ c, is_word c = true) f → spaces ws1 → spaces ws2 →
  dollarless (f ++ ws1 ++ "("%char :: ws2).
Proof.
  intros Hf Hws1 Hws2. apply Forall_app. split.
  { eapply Forall_impl; [exact Hf|]. apply word_char_not_dollar. }
  apply Forall_app. split; [by apply dollarless_spaces|].
  constructor; [done | by apply dollarless_spaces].
Qed.

(** One pass over a call whose first argument is not a double-quoted text. *)
Lemma replaceAll_other_argument r tpl pre f ws1 ws2 t :
  dollar_first r = true →
  regex_exec r ("$"%char :: f ++ ws1 ++ "("%char :: ws2 ++ t) = None →
  Forall (λ c, is_word c = true) f → spaces ws1 → spaces ws2 →
  replaceAll r tpl (pre ++ "$"%char :: f ++ ws1 ++ "("%char :: ws2 ++ t)
  = replaceAll r tpl pre ++ "$"%char :: f ++ ws1 ++ "("%char :: ws2
      ++ replaceAll r tpl t.
Proof.
  intros Hr He Hf Hws1 Hws2.
  rewrite replaceAll_dollar by done. f_equal.
  rewrite replaceAll_no_match by done. f_equal.
  pose proof (dollarless_call_start f ws1 ws2 Hf Hws1 Hws2) as Hd.
  assert (f ++ ws1 ++ "("%char :: ws2 ++ t
          = (f ++ ws1 ++ "("%char :: ws2) ++ t) as ->.
  { by repeat (progress (rewrite <- ?app_assoc; simpl)). }
  rewrite replaceAll_inert by done.
  by repeat (progress (rewrite <- ?app_assoc; simpl)).
Qed.

(** X15. A call of one of the helper functions whose first argument does
    not start with a double quote (a name between single quotes or
    backquotes, a variable, another call) is left as it is: no uid is put
    into it.  What precedes the call and what follows the parenthesis are
    rewritten on their own. *)
Theorem prepareScript_keeps_other_arguments uid pre f ws1 ws2 t :
  dollarless uid →
  Forall (λ c, is_word c = true) f → spaces ws1 → spaces ws2 →
  starts_other t →
  prepareScript_chars uid (pre ++ "$"%char :: f ++ ws1 ++ "("%char :: ws2 ++ t)
  = prepareScript_chars uid pre
    ++ "$"%char :: f ++ ws1 ++ "("%char :: ws2 ++ prepareScript_chars uid t.
Proof.
  intros Hu Hf Hws1 Hws2 Ht. unfold prepareScript_chars.
  rewrite (replaceAll_other_argument re_subscribe) by
    (done || by apply exec_subscribe_other_argument).
  rewrite (replaceAll_other_argument re_access); try done.
  apply exec_access_other_argument; try done.
  by apply replaceAll_subscribe_starts_other.
Qed.

Lemma prepareScript_keeps_other_arguments_witness :
  prepareScript_chars (chars "17")
    (chars "x = " ++ "$"%char :: chars "prop" ++ [] ++ "("%char :: []
       ++ chars "'n')")
  = prepareScript_chars (chars "17") (chars "x = ")
    ++ "$"%char :: chars "prop" ++ [] ++ "("%char :: []
    ++ prepareScript_chars (chars "17") (chars "'n')").
Proof.
  apply (prepareScript_keeps_other_arguments (chars "17") (chars "x = ")
           (chars "prop") [] [] (chars "'n')")).
  - repeat constructor; discriminate.
  - repeat constructor.
  - constructor.
  - constructor.
  - split; [reflexivity | discriminate].
Defined.

Lemma word_not_space c : is_word c = true → is_space c = false.
Proof.
  destruct c as [[|] [|] [|] [|] [|] [|] [|] [|]]; vm_compute; intros H;
    (reflexivity || discriminate H).
Qed.

(** A word followed by white space is cut in one way only. *)
Lemma word_spaces_inj f1 ws1 f2 ws2 :
  Forall (λ c, is_word c = true) f1 → Forall (λ c, is_word c = true) f2 →
  spaces ws1 → spaces ws2 →
  f1 ++ ws1 = f2 ++ ws2 → f1 = f2 ∧ ws1 = ws2.
Proof.
  intros H1. revert f2. induction H1 as [|c f1 Hc _ IH]; intros f2 H2 Hs1 Hs2 H.
  - destruct H2 as [|c f2 Hc _]; [done|]. simpl in H.
    destruct Hs1 as [|c' ws1 Hc' _]; [done|]. injection H as -> _.
    apply word_not_space in Hc. congruence.
  - destruct H2 as [|c2 f2 Hc2 H2]; simpl in H.
    + destruct Hs2 as [|c' ws2 Hc' _]; [done|]. injection H as <- _.
      apply word_not_space in Hc. congruence.
    + injection H as <- H. destruct (IH f2 H2 Hs1 Hs2 H) as [-> ->]. done.
Qed.

Lemma exec_subscribe_other_function f ws1 t :
  Forall (λ c, is_word c = true) f → spaces ws1 → ¬ subscribe_name f →
  regex_exec re_subscribe ("$"%char :: f ++ ws1 ++ "("%char :: t) = None.
Proof.
  intros Hf Hws1 Hno.
  destruct (regex_exec _ _) as [[[m cs] rest]|] eqn:He; [|done]. exfalso.
  apply regex_exec_matches in He as [Hm Hs].
  apply matches_subscribe_start in Hm as (fn & sp1 & sp2 & tail & -> & Hfn & Hsp1 & Hsp2).
  simpl in Hs. injection Hs as Hs.
  assert ((f ++ ws1) ++ "("%char :: t
          = (fn ++ sp1) ++ "("%char :: (sp2 ++ dq :: tail) ++ rest) as Hs'.
  { repeat (progress (rewrite <- ?app_assoc in *; simpl in * )). exact Hs. }
  apply first_occurrence_inj in Hs' as [Hs' _].
  - apply word_spaces_inj in Hs' as [-> _]; try done.
    by apply subscribe_name_word.
  - by apply no_paren_word_spaces.
  - apply no_paren_word_spaces; [by apply subscribe_name_word | done].
Qed.

Lemma exec_access_other_function f ws1 t :
  Forall (λ c, is_word c = true) f → spaces ws1 →
  ¬ access_name f ∨ ws1 ≠ [] →
  regex_exec re_access ("$"%char :: f ++ ws1 ++ "("%char :: t) = None.
Proof.
  intros Hf Hws1 Hno.
  destruct (regex_exec _ _) as [[[m cs] rest]|] eqn:He; [|done]. exfalso.
  apply regex_exec_matches in He as [Hm Hs].
  apply matches_access_start in Hm as (fn & sp2 & tail & -> & Hfn & Hsp2).
  simpl in Hs. injection Hs as Hs.
  assert ((f ++ ws1) ++ "("%char :: t
          = (fn ++ []) ++ "("%char :: (sp2 ++ dq :: tail) ++ rest) as Hs'.
  { rewrite app_nil_r.
    repeat (progress (rewrite <- ?app_assoc in *; simpl in * )). exact Hs. }
  apply first_occurrence_inj in Hs' as [Hs' _].
  - apply word_spaces_inj in Hs' as [-> ->]; try done.
    + by destruct Hno.
    + by apply access_name_word.
    + constructor.
  - by apply no_paren_word_spaces.
  - apply no_paren_word_spaces; [by apply access_name_word | constructor].
Qed.

Lemma replaceAll_other_function r tpl pre f ws1 t :
  dollar_first r = true →
  regex_exec r ("$"%char :: f ++ ws1 ++ "("%char :: t) = None →
  Forall (λ c, is_word c = true) f → spaces ws1 →
  replaceAll r tpl (pre ++ "$"%char :: f ++ ws1 ++ "("%char :: t)
  = replaceAll r tpl pre ++ "$"%char :: f ++ ws1 ++ "("%char :: replaceAll r tpl t.
Proof.
  intros Hr He Hf Hws1.
  rewrite replaceAll_dollar by done. f_equal.
  rewrite replaceAll_no_match by done. f_equal.
  assert (spaces []) as Hnil by constructor.
  pose proof (dollarless_call_start f ws1 [] Hf Hws1 Hnil) as Hd.
  assert (f ++ ws1 ++ "("%char :: t = (f ++ ws1 ++ ["("%char]) ++ t) as ->.
  { by repeat (progress (rewrite <- ?app_assoc; simpl)). }
  rewrite replaceAll_inert by done.
  by repeat (progress (rewrite <- ?app_assoc; simpl)).
Qed.

(** X16. Only [$onProp], [$onState], [$prop], [$ref] and [$state] get a
    uid: a call of any other function, [$listen] and [$dispatch] among
    them, is left as it is whatever its arguments, and so is a call of
    [$prop], [$ref] or [$state] written with white space before the
    parenthesis.  What follows the parenthesis is rewritten on its own. *)
Theorem prepareScript_keeps_other_functions uid pre f ws1 t :
  Forall (λ c, is_word c = true) f → spaces ws1 →
  ¬ subscribe_name f → ¬ access_name f ∨ ws1 ≠ [] →
  prepareScript_chars uid (pre ++ "$"%char :: f ++ ws1 ++ "("%char :: t)
  = prepareScript_chars uid pre
    ++ "$"%char :: f ++ ws1 ++ "("%char :: prepareScript_chars uid t.
Proof.
  intros Hf Hws1 Hsub Hacc. unfold prepareScript_chars.
  rewrite (replaceAll_other_function re_subscribe) by
    (done || by apply exec_subscribe_other_function).
  rewrite (replaceAll_other_function re_access); try done.
  by apply exec_access_other_function.
Qed.

Lemma prepareScript_keeps_other_functions_witness :
  prepareScript_chars (chars "17")
    ([] ++ "$"%char :: chars "listen" ++ [] ++ "("%char :: dq :: chars "go"
       ++ [dq; ")"%char])
  = prepareScript_chars (chars "17") []
    ++ "$"%char :: chars "listen" ++ [] ++ "("%char
    :: prepareScript_chars (chars "17") (dq :: chars "go" ++ [dq; ")"%char]).
Proof.
  apply (prepareScript_keeps_other_functions (chars "17") [] (chars "listen") []
           (dq :: chars "go" ++ [dq; ")"%char])).
  - repeat constructor.
  - constructor.
  - intros [H|H]; discriminate H.
  - left. intros [H|[H|H]]; discriminate H.
Defined.

(** ** The slot map and the children no slot takes *)

Lemma last_cons_match {A} (x : A) (l : list A) :
  last (x :: l) = match last l with Some y => Some y | None => Some x end.
Proof. apply last_cons. Qed.

Lemma slotDump_fold_last (l : list node) (m0 : gmap string nat) nm :
  fold_left (λ m k, <[slot_of k := node_id k]> m) l m0 !! nm
  = match last (List.filter (λ k, String.eqb (slot_of k) nm) l) with
    | Some k => Some (node_id k)
    | None => m0 !! nm
    end.
Proof.
  revert m0. induction l as [|k l IH]; intros m0; [done|].
  simpl. rewrite IH.
  destruct (String.eqb_spec (slot_of k) nm) as [Heq|Hne].
  - rewrite last_cons_match.
    destruct (last (List.filter _ l)); [done|].
    by rewrite Heq, lookup_insert_eq.
  - destruct (last (List.filter _ l)); [done|].
    by rewrite lookup_insert_ne.
Qed.

Lemma filter_filter_andb {A} (p q : A → bool) (l : list A) :
  List.filter q (List.filter p l) = List.filter (λ x, p x && q x) l.
Proof.
  induction l as [|x l IH]; [done|]. simpl.
  destruct (p x); simpl; [|done]. destruct (q x); by rewrite IH.
Qed.

(** X17. The slot map holds, for a slot name, the last element child of
    the instance that declares it ([elem.getAttribute("slot") ?? ""]):
    an earlier element child with the same slot name is in the map under
    no name, and a text child is never in the map. *)
Theorem slotDump_last_wins kids nm :
  slotDump_of kids !! nm
  = node_id
      <$> last (List.filter (λ k, is_element k && String.eqb (slot_of k) nm) kids).
Proof.
  unfold slotDump_of, element_children.
  rewrite slotDump_fold_last, filter_filter_andb, lookup_empty.
  by destruct (last _).
Qed.

Lemma project_slots_run_root clone rid rtag rattrs kids :
  unique_ids clone (Elem rid rtag rattrs kids) →
  flat_slots clone → distinct_slot_names clone →
  ∀ rest visited f,
    querySelectorAll_slot clone = visited ++ rest →
    f_clone f = project_upto (projected kids) (node_id <$> visited) clone →
    f_root f
    = Elem rid rtag rattrs
        (List.filter
           (λ k, negb (bool_decide
                         (node_id k ∈ actuals_used (slotDump_of kids) visited)))
           kids) →
    ∃ f',
      project_slots (slotDump_of kids) rest f = Some f' ∧
      f_root f'
      = Elem rid rtag rattrs
          (List.filter
             (λ k, negb (bool_decide
                           (node_id k ∈ actuals_used (slotDump_of kids)
                                          (querySelectorAll_slot clone))))
             kids).
Proof.
  intros Hu Hflat Hdist.
  pose proof Hu as Hu'. unfold unique_ids in Hu'.
  apply NoDup_app in Hu' as (HndC & Hdisj & HndR).
  apply NoDup_ids_kids in HndR as [HndK Hrid].
  pose proof (projected_apart _ _ _ _ _ Hu) as Hapart.
  induction rest as [|s rest IH]; intros visited f HS Hc Hr.
  - exists f. split; [done|]. by rewrite HS, app_nil_r.
  - assert (s ∈ querySelectorAll_slot clone) as Hs.
    { rewrite HS. apply elem_of_app. right. by left. }
    destruct (qsa_placeholder _ _ Hs) as [nm Hp].
    assert (node_id s ∉ node_id <$> visited) as Hnot.
    { pose proof (qsa_NoDup _ HndC) as H. rewrite HS, fmap_app in H.
      apply NoDup_app in H as (_ & H & _). intros Hin.
      apply (H _ Hin). rewrite fmap_cons. by left. }
    assert (querySelectorAll_slot clone = (visited ++ [s]) ++ rest) as HS'
      by (by rewrite <- app_assoc).
    simpl. unfold project_slot. rewrite Hp.
    destruct (slotDump_of kids !! nm) as [a|] eqn:Hd.
    + destruct (projected_of_dump kids nm a Hd) as (sub & Hm & Hid & Hsub).
      assert (a ∈ ids sub) as Hasub by (rewrite <- Hid; apply node_id_in_ids).
      assert (a ∉ actuals_used (slotDump_of kids) visited) as Hunused.
      { intros Hin. unfold actuals_used in Hin.
        apply list_elem_of_omap in Hin as (s' & Hs' & Hsa).
        destruct (placeholder s') as [nm'|] eqn:Hp'; [|done]. simpl in Hsa.
        assert (nm' = nm) as -> by (by eapply slotDump_of_inj).
        unfold distinct_slot_names in Hdist. rewrite HS, fmap_app in Hdist.
        apply NoDup_app in Hdist as (_ & Hd' & _).
        apply (Hd' (Some nm)).
        - rewrite <- Hp'. by apply list_elem_of_fmap_2.
        - rewrite fmap_cons, Hp. by left. }
      assert (a ∉ ids (f_clone f)) as Haclone.
      { rewrite Hc. intros H.
        apply project_upto_ids in H as [H|(s' & c & Hs' & Hs'D & Hm' & Hc')].
        - apply (Hdisj a H). simpl. right. apply in_flat_map_ids. eauto.
        - destruct (placeholder s') as [nm'|] eqn:Hp'; [|done]. simpl in Hm'.
          pose proof (projected_Some _ _ _ Hm') as [Hd' Hcin].
          assert (c = sub) as ->
            by (by apply (NoDup_flat_map_ids_apart kids c sub a)).
          rewrite Hid in Hd'.
          apply list_elem_of_fmap in Hs'D as (s'' & Hids & Hs'').
          assert (s'' = s') as ->.
          { apply (NoDup_fmap_same node_id (querySelectorAll_slot clone));
              [by apply qsa_NoDup| |done|done].
            rewrite HS. apply elem_of_app. by left. }
          apply Hunused. unfold actuals_used. apply list_elem_of_omap.
          exists s'. split; [done|]. by rewrite Hp'. }
      destruct (replaceWith_moves f rid rtag rattrs _ (node_id s) a sub Hr)
        as (f1 & Hf1 & Hc1 & Hr1).
      * rewrite Hc. by apply project_upto_keeps.
      * done.
      * intros ->. apply Hrid. apply in_flat_map_ids. eauto.
      * apply list_elem_of_In, filter_In. split; [by apply list_elem_of_In|].
        rewrite Hid. by rewrite bool_decide_false.
      * done.
      * intros k Hk Hak. apply list_elem_of_In, filter_In in Hk as [Hk _].
        apply list_elem_of_In in Hk.
        by apply (NoDup_flat_map_ids_apart kids k sub a).
      * intros H. apply (Hdisj (node_id s)).
        -- rewrite ids_inner. right. by apply qsa_inner_ids.
        -- simpl in *. apply elem_of_cons in H as [->|H]; [by left|].
           right. by eapply filter_ids_subset.
      * rewrite Hf1. simpl. apply (IH (visited ++ [s]) f1 HS').
        -- rewrite Hc1, Hc, fmap_app. simpl. rewrite project_upto_snoc.
           rewrite (project_upto_step _ _ _ s) by done.
           rewrite Hp. simpl. by rewrite Hm.
        -- rewrite Hr1. f_equal. rewrite filter_used_more.
           unfold actuals_used. rewrite omap_app. simpl. rewrite Hp. simpl.
           by rewrite Hd.
    + simpl. apply (IH (visited ++ [s]) f HS').
      * rewrite Hc, fmap_app. simpl. rewrite project_upto_snoc.
        rewrite (project_upto_step _ _ _ s) by done.
        rewrite Hp. simpl. by rewrite (projected_None kids nm Hd).
      * rewrite Hr. unfold actuals_used. rewrite omap_app. simpl.
        rewrite Hp. simpl. rewrite Hd. by rewrite app_nil_r.
Qed.

(** X18. When every node of the copy and of the root has its own
    identity, no placeholder lies inside another and no two placeholders
    declare the same name: after the loop over the slots the root of the
    instance still has, in their order, the children that no placeholder
    took, and only those; they are what [this.root.replaceChildren()] then
    removes.  Among them are every text child and every element child whose
    slot name no placeholder of the copy declares. *)
Theorem assemble_leaves_unused_children fresh containerNode rid rtag rattrs kids :
  unique_ids (cloneNode fresh containerNode) (Elem rid rtag rattrs kids) →
  flat_slots (cloneNode fresh containerNode) →
  distinct_slot_names (cloneNode fresh containerNode) →
  ∃ f left,
    assemble_slots fresh containerNode (Elem rid rtag rattrs kids) = Some f ∧
    f_root f = Elem rid rtag rattrs left ∧
    left
    = List.filter
        (λ k, negb (bool_decide
                      (node_id k
                       ∈ actuals_used (slotDump_of kids)
                           (querySelectorAll_slot (cloneNode fresh containerNode)))))
        kids ∧
    ∀ k, k ∈ kids →
         (∀ s, s ∈ querySelectorAll_slot (cloneNode fresh containerNode) →
               placeholder s ≠ Some (slot_of k)) ∨ is_element k = false →
         k ∈ left.
Proof.
  intros Hu Hflat Hdist.
  destruct (project_slots_run_root _ rid rtag rattrs kids Hu Hflat Hdist
              (querySelectorAll_slot (cloneNode fresh containerNode)) []
              (mkForest (cloneNode fresh containerNode)
                 (Elem rid rtag rattrs kids) []))
    as (f & Hf & Hr).
  - done.
  - simpl. by rewrite project_upto_nil.
  - simpl. f_equal. clear. induction kids as [|k kids IH]; [done|].
    simpl. by rewrite <- IH.
  - eexists f, _. split; [exact Hf|]. split; [exact Hr|]. split; [done|].
    intros k Hk Hfree. apply list_elem_of_In, filter_In.
    split; [by apply list_elem_of_In|].
    rewrite bool_decide_false; [done|]. intros Hin.
    unfold actuals_used in Hin.
    apply list_elem_of_omap in Hin as (s & Hs & Hsa).
    destruct (placeholder s) as [nm|] eqn:Hp; [|done]. simpl in Hsa.
    unfold slotDump_of in Hsa.
    apply slotDump_fold_Some in Hsa as [Hsa|(k' & Hk' & Hid & Hslot)].
    { by rewrite lookup_empty in Hsa. }
    unfold element_children in Hk'.
    apply list_elem_of_In, filter_In in Hk' as [Hk' Hel].
    apply list_elem_of_In in Hk'.
    assert (k' = k) as ->.
    { unfold unique_ids in Hu. apply NoDup_app in Hu as (_ & _ & HndR).
      apply NoDup_ids_kids in HndR as [HndK _].
      apply (NoDup_flat_map_ids_apart kids k' k (node_id k)); try done.
      - rewrite <- Hid. apply node_id_in_ids.
      - apply node_id_in_ids. }
    destruct Hfree as [Hfree|Hfree]; [|congruence].
    apply (Hfree s Hs). by rewrite Hp, Hslot.
Qed.

Lemma assemble_leaves_unused_children_witness :
  ∃ f left,
    assemble_slots 100 template_card instance_card = Some f ∧
    f_root f = Elem 10 "x-card" [] left ∧
    left
    = List.filter
        (λ k, negb (bool_decide
                      (node_id k
                       ∈ actuals_used
                           (slotDump_of [Elem 11 "b" [] [Text 12 "title"];
                                         Text 13 " ";
                                         Elem 14 "i" [("slot", "footer")] []])
                           (querySelectorAll_slot (cloneNode 100 template_card)))))
        [Elem 11 "b" [] [Text 12 "title"]; Text 13 " ";
         Elem 14 "i" [("slot", "footer")] []] ∧
    ∀ k, k ∈ [Elem 11 "b" [] [Text 12 "title"]; Text 13 " ";
              Elem 14 "i" [("slot", "footer")] []] →
         (∀ s, s ∈ querySelectorAll_slot (cloneNode 100 template_card) →
               placeholder s ≠ Some (slot_of k)) ∨ is_element k = false →
         k ∈ left.
Proof.
  apply (assemble_leaves_unused_children 100 template_card 10 "x-card" []
           [Elem 11 "b" [] [Text 12 "title"]; Text 13 " ";
            Elem 14 "i" [("slot", "footer")] []]).
  - unfold unique_ids. refine (bool_decide_unpack _ _). vm_compute. exact I.
  - unfold flat_slots. vm_compute. repeat constructor.
  - unfold distinct_slot_names. refine (bool_decide_unpack _ _). vm_compute. exact I.
Defined.

(** ** [prepareStyle] *)

(** *** A text can be cut in front of the character a pattern starts with *)

Lemma star_iter_stops_at d step :
  (∀ n s x, x ∈ step n s → splits s x) →
  stops_at d step → stops_at d (star_iter step).
Proof.
  intros Hsp Hstep n.
  induction n as [|n IH]; intros x y Hn.
  - rewrite length_app in Hn. simpl in Hn. lia.
  - simpl. rewrite fmap_app. f_equal.
    rewrite (Hstep (S n)) by done.
    rewrite list_fmap_bind, fmap_list_bind.
    apply bind_ext_in. intros x1 Hx1. simpl.
    destruct (x1.1.1) as [|c m] eqn:Hm; [done|].
    pose proof (Hsp _ _ _ Hx1) as Hs. unfold splits in Hs. rewrite Hm in Hs.
    rewrite IH.
    2:{ rewrite Hs in Hn. rewrite !length_app in *. simpl in *. lia. }
    rewrite list_fmap_bind, fmap_list_bind.
    apply bind_ext_in. intros x2 _. done.
Qed.

Lemma rmatch_stops_at d r : char_free d r = true → stops_at d (rmatch r).
Proof.
  induction r as [|c|p|r1 IH1 r2 IH2|r1 IH1 r2 IH2|r1 IH1|k r1 IH1];
    simpl; intros Hr n x y Hn.
  - done.
  - destruct x as [|c' x]; simpl.
    + apply negb_true_iff in Hr. by rewrite Hr.
    + by destruct (Ascii.eqb c c').
  - destruct x as [|c' x]; simpl.
    + apply negb_true_iff in Hr. by rewrite Hr.
    + by destruct (p c').
  - apply andb_true_iff in Hr as [Hr1 Hr2].
    rewrite (IH1 Hr1) by done.
    rewrite list_fmap_bind, fmap_list_bind.
    apply bind_ext_in. intros x1 Hx1. simpl.
    pose proof (rmatch_splits _ _ _ _ Hx1) as Hs. unfold splits in Hs.
    rewrite (IH2 Hr2).
    2:{ rewrite Hs in Hn. rewrite !length_app in *. simpl in *. lia. }
    rewrite list_fmap_bind, fmap_list_bind.
    apply bind_ext_in. intros x2 _. done.
  - apply andb_true_iff in Hr as [Hr1 Hr2].
    rewrite (IH1 Hr1), (IH2 Hr2) by done. by rewrite fmap_app.
  - apply star_iter_stops_at; [apply rmatch_splits | by apply IH1 | done].
  - rewrite (IH1 Hr) by done.
    rewrite list_fmap_bind, fmap_list_bind.
    apply bind_ext_in. intros x1 _. done.
Qed.

Lemma rmatch_char_first_nil d r n :
  char_first d r = true → rmatch r n [] = [].
Proof.
  induction r as [|c|p|r1 IH1 r2 IH2|r1 IH1 r2 IH2|r1 IH1|k r1 IH1];
    simpl; intros Hr; try done.
  - apply andb_true_iff in Hr as [Hr1 _]. by rewrite IH1.
  - by rewrite IH1.
Qed.

Lemma rmatch_char_first_other d r n c s :
  char_first d r = true → c ≠ d → rmatch r n (c :: s) = [].
Proof.
  induction r as [|c'|p|r1 IH1 r2 IH2|r1 IH1 r2 IH2|r1 IH1|k r1 IH1];
    simpl; intros Hr Hc; try done.
  - apply Ascii.eqb_eq in Hr as ->.
    destruct (Ascii.eqb d c) eqn:He; [|done].
    apply Ascii.eqb_eq in He. congruence.
  - apply andb_true_iff in Hr as [Hr1 _]. by rewrite IH1.
  - by rewrite IH1.
Qed.

Lemma rmatch_char_first_stops d r n c x y :
  char_first d r = true →
  length (c :: x ++ d :: y) ≤ n →
  rmatch r n (c :: x ++ d :: y) = extend (d :: y) <$> rmatch r n (c :: x).
Proof.
  induction r as [|c'|p|r1 IH1 r2 IH2|r1 IH1 r2 IH2|r1 IH1|k r1 IH1];
    simpl; intros Hr Hn; try done.
  - by destruct (Ascii.eqb c' c).
  - apply andb_true_iff in Hr as [Hr1 Hr2].
    rewrite (IH1 Hr1) by done.
    rewrite list_fmap_bind, fmap_list_bind.
    apply bind_ext_in. intros x1 Hx1. simpl.
    pose proof (rmatch_splits _ _ _ _ Hx1) as Hs. unfold splits in Hs.
    rewrite (rmatch_stops_at d r2 Hr2).
    2:{ apply (f_equal length) in Hs. rewrite length_app in *.
        simpl in *. rewrite length_app in *. simpl in *. lia. }
    rewrite list_fmap_bind, fmap_list_bind.
    apply bind_ext_in. intros x2 _. done.
  - rewrite (IH1 Hr) by done.
    rewrite list_fmap_bind, fmap_list_bind.
    apply bind_ext_in. intros x1 _. done.
Qed.

Lemma regex_exec_stops_at d r c x y :
  char_first d r = true →
  regex_exec r (c :: x ++ d :: y) = extend (d :: y) <$> regex_exec r (c :: x).
Proof.
  intros Hr. unfold regex_exec.
  change ((c :: x) ++ d :: y) with (c :: x ++ d :: y).
  rewrite (rmatch_char_first_stops d) by done.
  rewrite (rmatch_fuel r (c :: x) (length (c :: x ++ d :: y))
             (length (c :: x))).
  - by destruct (rmatch r (length (c :: x)) (c :: x)).
  - simpl. rewrite length_app. lia.
  - done.
Qed.

Lemma replaceAll_from_nil_at d r tpl skip :
  char_first d r = true → replaceAll_from r tpl skip [] = [].
Proof.
  intros Hr. simpl. destruct skip; [|done].
  unfold regex_exec. by rewrite (rmatch_char_first_nil d).
Qed.

Lemma replaceAll_from_cut d r tpl y :
  char_first d r = true →
  ∀ x skip, skip ≤ length x →
    replaceAll_from r tpl skip (x ++ d :: y)
    = replaceAll_from r tpl skip x ++ replaceAll_from r tpl 0 (d :: y).
Proof.
  intros Hr x. induction x as [|c x IH]; intros skip Hs.
  - simpl in Hs. replace skip with 0 by lia.
    by rewrite (replaceAll_from_nil_at d).
  - destruct skip as [|k].
    + change ((c :: x) ++ d :: y) with (c :: x ++ d :: y).
      cbn [replaceAll_from]. rewrite (regex_exec_stops_at d) by done.
      destruct (regex_exec r (c :: x)) as [[[m cs] rest]|] eqn:He; simpl.
      * destruct m as [|c' m'].
        -- rewrite <- app_assoc. simpl. by rewrite IH by lia.
        -- rewrite <- app_assoc. f_equal. apply IH.
           apply regex_exec_splits in He. unfold splits in He. simpl in He.
           injection He as _ He. rewrite He, length_app. lia.
      * f_equal. apply IH. lia.
    + simpl. apply IH. simpl in Hs. lia.
Qed.

Lemma replaceAll_cut d r tpl x y :
  char_first d r = true →
  replaceAll r tpl (x ++ d :: y) = replaceAll r tpl x ++ replaceAll r tpl (d :: y).
Proof. intros Hr. apply (replaceAll_from_cut d); [done | lia]. Qed.

(** Text without the first character of the pattern is copied. *)
Lemma replaceAll_copy d r tpl p s :
  char_first d r = true → Forall (λ c, c ≠ d) p →
  replaceAll r tpl (p ++ s) = p ++ replaceAll r tpl s.
Proof.
  intros Hr Hp. induction Hp as [|c p Hc _ IH]; [done|].
  unfold replaceAll in *. simpl. unfold regex_exec.
  rewrite (rmatch_char_first_other d) by done. simpl. by rewrite IH.
Qed.

Lemma replaceAll_copy_all d r tpl p :
  char_first d r = true → Forall (λ c, c ≠ d) p → replaceAll r tpl p = p.
Proof.
  intros Hr Hp. rewrite <- (app_nil_r p) at 1.
  rewrite (replaceAll_copy d) by done.
  unfold replaceAll. by rewrite (replaceAll_from_nil_at d), app_nil_r.
Qed.

(** *** The first pass: selectors on [ref] *)

Ltac flatten_apps :=
  repeat (progress (rewrite <- ?app_assoc; simpl)).

Lemma exec_ref ws1 ws2 ws3 w ws4 post :
  spaces ws1 → spaces ws2 → spaces ws3 → word w → spaces ws4 →
  ∃ cs,
    regex_exec re_ref (ref_selector ws1 ws2 ws3 w ws4 ++ post)
    = Some (ref_selector ws1 ws2 ws3 w ws4, cs, post) ∧
    capture 1 cs = ref_selector ws1 ws2 ws3 w ws4.
Proof.
  intros Hws1 Hws2 Hws3 Hw Hws4. unfold regex_exec.
  assert (ref_selector ws1 ws2 ws3 w ws4 ++ post
          = "["%char :: ws1 ++ chars "ref" ++ ws2 ++ "="%char :: ws3 ++ dq :: w
              ++ dq :: ws4 ++ "]"%char :: post) as Hs.
  { unfold ref_selector. by flatten_apps. }
  rewrite Hs. set (n := length _).
  assert (length ws1 + length ws2 + length ws3 + length w + length ws4 + 8 ≤ n)
    as Hn.
  { unfold n. repeat (progress (rewrite ?length_app; simpl)). lia. }
  pose proof (first_match_seq _ _ _ _ _ _ _ _ _ _
                (first_match_spaces ws4 ("]"%char :: post) n Hws4 eq_refl
                   ltac:(lia))
                (first_match_char "]" n post)) as H10.
  pose proof (first_match_seq _ _ _ _ _ _ _ _ _ _
                (first_match_char dq n _) H10) as H9.
  pose proof (first_match_seq _ _ _ _ _ _ _ _ _ _
                (first_match_group 2 _ n _ _ _ _
                   (first_match_word w (dq :: ws4 ++ "]"%char :: post) n Hw
                      ltac:(vm_compute; reflexivity) ltac:(lia)))
                H9) as H8.
  pose proof (first_match_seq _ _ _ _ _ _ _ _ _ _
                (first_match_char dq n _) H8) as H7.
  pose proof (first_match_seq _ _ _ _ _ _ _ _ _ _
                (first_match_spaces ws3 (dq :: _) n Hws3
                   (no_leading_space_dq _) ltac:(lia))
                H7) as H6.
  pose proof (first_match_seq _ _ _ _ _ _ _ _ _ _
                (first_match_char "=" n _) H6) as H5.
  pose proof (first_match_seq _ _ _ _ _ _ _ _ _ _
                (first_match_spaces ws2 ("="%char :: _) n Hws2 eq_refl
                   ltac:(lia))
                H5) as H4.
  pose proof (first_match_seq _ _ _ _ _ _ _ _ _ _
                (first_match_str (chars "ref") n _) H4) as H3.
  pose proof (first_match_seq _ _ _ _ _ _ _ _ _ _
                (first_match_spaces ws1 (chars "ref" ++ _) n Hws1 eq_refl
                   ltac:(lia))
                H3) as H2.
  pose proof (first_match_group 1 _ _ _ _ _ _
                (first_match_seq _ _ _ _ _ _ _ _ _ _
                   (first_match_char "[" n _) H2)) as H1.
  unfold first_match in H1.
  match type of H1 with
  | head _ = Some (?m, _, _) =>
      assert (m = ref_selector ws1 ws2 ws3 w ws4) as Hm
        by (unfold ref_selector; by flatten_apps);
      rewrite Hm in H1
  end.
  eexists. split; [exact H1 | done].
Qed.

Lemma expand_tpl_ref name m cs :
  dollarless name →
  expand (tpl_ref name) m cs = name ++ " "%char :: capture 1 cs.
Proof.
  intros Hn. unfold tpl_ref. rewrite expand_dollarless by done.
  cbn [chars list_ascii_of_string].
  rewrite (expand_copy " ") by done.
  rewrite (expand_group "1" 1) by done. simpl. by rewrite app_nil_r.
Qed.

Lemma re_ref_first : char_first "[" re_ref = true.
Proof. reflexivity. Qed.

Lemma replaceAll_ref_selector name pre ws1 ws2 ws3 w ws4 post :
  dollarless name →
  spaces ws1 → spaces ws2 → spaces ws3 → word w → spaces ws4 →
  replaceAll re_ref (tpl_ref name) (pre ++ ref_selector ws1 ws2 ws3 w ws4 ++ post)
  = replaceAll re_ref (tpl_ref name) pre
    ++ name ++ " "%char :: ref_selector ws1 ws2 ws3 w ws4
    ++ replaceAll re_ref (tpl_ref name) post.
Proof.
  intros Hn Hws1 Hws2 Hws3 Hw Hws4.
  destruct (exec_ref ws1 ws2 ws3 w ws4 post Hws1 Hws2 Hws3 Hw Hws4)
    as (cs & He & Hc).
  unfold ref_selector in *. rewrite <- !app_comm_cons in *.
  rewrite (replaceAll_cut "[") by apply re_ref_first. f_equal.
  rewrite (replaceAll_match _ _ _ _ _ _ _ He).
  rewrite expand_tpl_ref by done. rewrite Hc.
  by flatten_apps.
Qed.

(** *** The second pass: occurrences of [self] *)

Lemma expand_plain_dollarless tpl m b a :
  dollarless tpl → expand_plain tpl m b a = tpl.
Proof.
  induction 1 as [|c tpl Hc _ IH]; [done|]. simpl.
  destruct (Ascii.eqb c "$") eqn:He.
  - by apply Ascii.eqb_eq in He.
  - by rewrite IH.
Qed.

Lemma replaceAll_str_subst pat tpl :
  dollarless tpl →
  ∀ s skip b, replaceAll_str_from pat tpl skip b s = subst_from pat tpl skip s.
Proof.
  intros Ht s. induction s as [|c s IH]; intros skip b; simpl.
  - destruct skip, pat; try done. by apply expand_plain_dollarless.
  - destruct skip as [|k]; [|apply IH].
    destruct (is_prefix pat (c :: s)).
    + rewrite expand_plain_dollarless by done. f_equal.
      destruct pat; by rewrite IH.
    + by rewrite IH.
Qed.

Lemma is_prefix_app p s y :
  is_prefix p s = true → is_prefix p (s ++ y) = true.
Proof.
  revert s. induction p as [|a p IH]; intros [|b s] H; simpl in *; try done.
  apply andb_true_iff in H as [-> H]. simpl. by apply IH.
Qed.

Lemma is_prefix_length p s : is_prefix p s = true → length p ≤ length s.
Proof.
  revert s. induction p as [|a p IH]; intros [|b s] H; simpl in *; try done;
    [lia|]. apply andb_true_iff in H as [_ H]. apply IH in H. lia.
Qed.

Lemma is_prefix_split p s : is_prefix p s = true → ∃ y, s = p ++ y.
Proof.
  revert s. induction p as [|a p IH]; intros s H; [by exists s|].
  destruct s as [|b s]; [done|]. simpl in H.
  apply andb_true_iff in H as [Hab H]. apply Ascii.eqb_eq in Hab as ->.
  destruct (IH s H) as [y ->]. by exists y.
Qed.

Lemma is_prefix_refl_app p y : is_prefix p (p ++ y) = true.
Proof.
  induction p as [|a p IH]; [done|]. simpl. by rewrite Ascii.eqb_refl, IH.
Qed.

(** Whether [self] starts at a position does not depend on what follows a
    later character outside [e], [l], [f]. *)
Lemma is_prefix_self_cut x c y :
  not_in_elf c → x ≠ [] →
  is_prefix (chars "self") (x ++ c :: y) = is_prefix (chars "self") x.
Proof.
  intros (He & Hl & Hf) Hx.
  apply Ascii.eqb_neq in He, Hl, Hf.
  rewrite Ascii.eqb_sym in He. rewrite Ascii.eqb_sym in Hl.
  rewrite Ascii.eqb_sym in Hf.
  destruct x as [|a1 x]; [done|].
  destruct x as [|a2 x];
    [cbn [is_prefix chars list_ascii_of_string app]; by rewrite He, !andb_false_r|].
  destruct x as [|a3 x];
    [cbn [is_prefix chars list_ascii_of_string app]; by rewrite Hl, !andb_false_r|].
  destruct x as [|a4 x];
    [cbn [is_prefix chars list_ascii_of_string app]; by rewrite Hf, !andb_false_r|].
  done.
Qed.

(** The scan for [self] can be cut in front of any character outside [e],
    [l], [f]. *)
Lemma subst_self_cut tpl c y :
  not_in_elf c →
  ∀ x skip, skip ≤ length x →
    subst_from (chars "self") tpl skip (x ++ c :: y)
    = subst_from (chars "self") tpl skip x
      ++ subst_from (chars "self") tpl 0 (c :: y).
Proof.
  intros Hc x. induction x as [|a x IH]; intros skip Hs.
  - simpl in Hs. by replace skip with 0 by lia.
  - destruct skip as [|k]; [|simpl; apply IH; simpl in Hs; lia].
    set (T := subst_from (chars "self") tpl 0 (c :: y)) in *.
    change ((a :: x) ++ c :: y) with (a :: x ++ c :: y).
    cbn [subst_from].
    change (a :: x ++ c :: y) with ((a :: x) ++ c :: y).
    rewrite is_prefix_self_cut by done.
    destruct (is_prefix (chars "self") (a :: x)) eqn:Hp.
    + apply is_prefix_length in Hp. simpl in Hp.
      cbn [chars list_ascii_of_string length].
      rewrite <- app_assoc. f_equal. apply IH. lia.
    + rewrite <- app_comm_cons. f_equal. apply IH. lia.
Qed.

Lemma subst_self_cut0 tpl c x y :
  not_in_elf c →
  subst_from (chars "self") tpl 0 (x ++ c :: y)
  = subst_from (chars "self") tpl 0 x ++ subst_from (chars "self") tpl 0 (c :: y).
Proof. intros Hc. apply subst_self_cut; [done | lia]. Qed.

Lemma subst_self_occurrence tpl y :
  subst_from (chars "self") tpl 0 (chars "self" ++ y)
  = tpl ++ subst_from (chars "self") tpl 0 y.
Proof. reflexivity. Qed.

(** Text without the letter [s] is copied. *)
Lemma subst_self_copy tpl p y :
  Forall (λ c, c ≠ "s"%char) p →
  subst_from (chars "self") tpl 0 (p ++ y)
  = p ++ subst_from (chars "self") tpl 0 y.
Proof.
  induction 1 as [|c p Hc _ IH]; [done|].
  change ((c :: p) ++ y) with (c :: p ++ y). cbn [subst_from].
  assert (is_prefix (chars "self") (c :: p ++ y) = false) as ->.
  { cbn [is_prefix chars list_ascii_of_string].
    apply Ascii.eqb_neq in Hc. rewrite Ascii.eqb_sym in Hc.
    by rewrite Hc. }
  rewrite <- app_comm_cons. by f_equal.
Qed.

Lemma subst_self_copy_all tpl p :
  Forall (λ c, c ≠ "s"%char) p → subst_from (chars "self") tpl 0 p = p.
Proof.
  intros Hp. rewrite <- (app_nil_r p) at 1.
  rewrite subst_self_copy by done. simpl. by rewrite app_nil_r.
Qed.

Lemma space_not_s c : is_space c = true → c ≠ "s"%char.
Proof. by intros H ->. Qed.

Lemma space_not_bracket c : is_space c = true → c ≠ "["%char.
Proof. by intros H ->. Qed.

Lemma space_not_in_elf c : is_space c = true → not_in_elf c.
Proof. intros H. repeat split; by intros ->. Qed.

Lemma replaceAll_str_self name s :
  dollarless name →
  replaceAll_str (chars "self") name s = subst_from (chars "self") name 0 s.
Proof. intros Hn. by apply replaceAll_str_subst. Qed.

(** X19. Without shadow root, [prepareStyle] replaces every occurrence of
    [self] by the name of the component, wherever it stands, inside a
    longer word too: in a text without opening bracket the occurrences are
    replaced one by one and the rest is kept; a text that has neither an
    opening bracket nor the letter [s] is left as it is.  With a shadow
    root the text is never changed. *)
Theorem prepareStyle_replaces_self name x y :
  dollarless name →
  Forall (λ c, c ≠ "["%char) x → Forall (λ c, c ≠ "["%char) y →
  prepareStyle_chars false name (x ++ chars "self" ++ y)
  = prepareStyle_chars false name x ++ name ++ prepareStyle_chars false name y ∧
  (Forall (λ c, c ≠ "s"%char) x → prepareStyle_chars false name x = x) ∧
  prepareStyle_chars true name (x ++ chars "self" ++ y) = x ++ chars "self" ++ y.
Proof.
  intros Hn Hx Hy. unfold prepareStyle_chars.
  rewrite !(replaceAll_copy_all "[") by
    (done || (repeat (apply Forall_app; split)); done || by repeat constructor).
  rewrite !replaceAll_str_self by done.
  split; [|split; [|done]].
  - change (chars "self" ++ y) with ("s"%char :: chars "elf" ++ y).
    rewrite subst_self_cut0 by (by repeat split). f_equal.
  - intros Hs. by apply subst_self_copy_all.
Qed.

Lemma prepareStyle_replaces_self_witness :
  prepareStyle_chars false (chars "x-card")
    (chars ".my" ++ chars "self" ++ chars " { color: red }")
  = prepareStyle_chars false (chars "x-card") (chars ".my")
    ++ chars "x-card"
    ++ prepareStyle_chars false (chars "x-card") (chars " { color: red }") ∧
  (Forall (λ c, c ≠ "s"%char) (chars ".my") →
   prepareStyle_chars false (chars "x-card") (chars ".my") = chars ".my") ∧
  prepareStyle_chars true (chars "x-card")
    (chars ".my" ++ chars "self" ++ chars " { color: red }")
  = chars ".my" ++ chars "self" ++ chars " { color: red }".
Proof.
  apply (prepareStyle_replaces_self (chars "x-card") (chars ".my")
           (chars " { color: red }")).
  - repeat constructor; discriminate.
  - repeat constructor; discriminate.
  - repeat constructor; discriminate.
Defined.

Lemma spaces_not_s ws : spaces ws → Forall (λ c, c ≠ "s"%char) ws.
Proof. intros H. eapply Forall_impl; [exact H|]. apply space_not_s. Qed.

(** X20. Without shadow root, [prepareStyle] puts the name of the
    component and a space in front of every selector of the form
    [[ref="w"]] (white space allowed around [ref], the equals sign and the
    quoted word).  The second pass then runs over the result: an occurrence
    of [self] in the inserted name or in the word [w] is replaced like any
    other.  What precedes the selector and what follows it are rewritten
    on their own, provided the name starts with none of [e], [l], [f],
    which could complete a [self] begun in the text before. *)
Theorem prepareStyle_scopes_ref name c0 name' pre ws1 ws2 ws3 w ws4 post :
  name = c0 :: name' → not_in_elf c0 → dollarless name →
  spaces ws1 → spaces ws2 → spaces ws3 → word w → spaces ws4 →
  prepareStyle_chars false name (pre ++ ref_selector ws1 ws2 ws3 w ws4 ++ post)
  = prepareStyle_chars false name pre
    ++ replaceAll_str (chars "self") name name
    ++ " "%char
       :: ref_selector ws1 ws2 ws3 (replaceAll_str (chars "self") name w) ws4
    ++ prepareStyle_chars false name post ∧
  (Forall (λ c, c ≠ "s"%char) name → Forall (λ c, c ≠ "s"%char) w →
   prepareStyle_chars false name (pre ++ ref_selector ws1 ws2 ws3 w ws4 ++ post)
   = prepareStyle_chars false name pre
     ++ name ++ " "%char :: ref_selector ws1 ws2 ws3 w ws4
     ++ prepareStyle_chars false name post).
Proof.
  intros Hname Hc0 Hn Hws1 Hws2 Hws3 Hw Hws4.
  assert (prepareStyle_chars false name
            (pre ++ ref_selector ws1 ws2 ws3 w ws4 ++ post)
          = prepareStyle_chars false name pre
            ++ replaceAll_str (chars "self") name name
            ++ " "%char
               :: ref_selector ws1 ws2 ws3
                    (replaceAll_str (chars "self") name w) ws4
            ++ prepareStyle_chars false name post) as Hmain.
  { unfold prepareStyle_chars.
    rewrite replaceAll_ref_selector by done.
    rewrite !replaceAll_str_self by done.
    set (P := replaceAll re_ref (tpl_ref name) pre).
    set (Q := replaceAll re_ref (tpl_ref name) post).
    set (S := subst_from (chars "self") name 0).
    (* the name *)
    assert (P ++ name ++ " "%char :: ref_selector ws1 ws2 ws3 w ws4 ++ Q
            = P ++ c0 :: name' ++ " "%char :: ref_selector ws1 ws2 ws3 w ws4 ++ Q)
      as -> by (by rewrite Hname).
    unfold S at 1. rewrite subst_self_cut0 by done. fold S. f_equal.
    assert (c0 :: name' ++ " "%char :: ref_selector ws1 ws2 ws3 w ws4 ++ Q
            = name ++ " "%char :: ref_selector ws1 ws2 ws3 w ws4 ++ Q)
      as -> by (by rewrite Hname).
    unfold S at 1. rewrite subst_self_cut0 by (by repeat split). fold S. f_equal.
    (* the selector up to the word *)
    assert (" "%char :: ref_selector ws1 ws2 ws3 w ws4 ++ Q
            = (" "%char :: "["%char :: ws1 ++ chars "ref" ++ ws2 ++ "="%char
                 :: ws3) ++ dq :: w ++ dq :: ws4 ++ "]"%char :: Q) as ->.
    { unfold ref_selector. by flatten_apps. }
    unfold S at 1. rewrite subst_self_cut0 by (by repeat split). fold S.
    unfold S at 1. rewrite <- (app_nil_r (_ :: _ :: ws1 ++ _)) at 1.
    rewrite subst_self_copy.
    2:{ constructor; [done|]. constructor; [done|].
        apply Forall_app. split; [by apply spaces_not_s|].
        apply Forall_app. split; [by repeat constructor|].
        apply Forall_app. split; [by apply spaces_not_s|].
        constructor; [done | by apply spaces_not_s]. }
    cbn [subst_from]. rewrite app_nil_r.
    (* the word and the rest of the selector *)
    change (dq :: w ++ dq :: ws4 ++ "]"%char :: Q)
      with ([dq] ++ w ++ dq :: ws4 ++ "]"%char :: Q).
    unfold S at 1. rewrite subst_self_copy by (by repeat constructor). fold S.
    unfold S at 1. rewrite subst_self_cut0 by (by repeat split). fold S.
    assert (dq :: ws4 ++ "]"%char :: Q = (dq :: ws4 ++ ["]"%char]) ++ Q) as ->
      by (by flatten_apps).
    unfold S at 2. rewrite subst_self_copy.
    2:{ constructor; [done|]. apply Forall_app.
        split; [by apply spaces_not_s | by repeat constructor]. }
    fold S. unfold ref_selector. by flatten_apps. }
  split; [exact Hmain|].
  intros Hsn Hsw. rewrite Hmain.
  rewrite !replaceAll_str_self by done.
  by rewrite !subst_self_copy_all.
Qed.

Lemma prepareStyle_scopes_ref_witness :
  prepareStyle_chars false (chars "x-card")
    (chars "p " ++ ref_selector [] [] [] (chars "title") [] ++ chars " { }")
  = prepareStyle_chars false (chars "x-card") (chars "p ")
    ++ replaceAll_str (chars "self") (chars "x-card") (chars "x-card")
    ++ " "%char
       :: ref_selector [] [] []
            (replaceAll_str (chars "self") (chars "x-card") (chars "title")) []
    ++ prepareStyle_chars false (chars "x-card") (chars " { }") ∧
  (Forall (λ c, c ≠ "s"%char) (chars "x-card") →
   Forall (λ c, c ≠ "s"%char) (chars "title") →
   prepareStyle_chars false (chars "x-card")
     (chars "p " ++ ref_selector [] [] [] (chars "title") [] ++ chars " { }")
   = prepareStyle_chars false (chars "x-card") (chars "p ")
     ++ chars "x-card" ++ " "%char :: ref_selector [] [] [] (chars "title") []
     ++ prepareStyle_chars false (chars "x-card") (chars " { }")).
Proof.
  apply (prepareStyle_scopes_ref (chars "x-card") "x"%char (chars "-card")
           (chars "p ") [] [] [] (chars "title") [] (chars " { }")).
  - reflexivity.
  - repeat split; discriminate.
  - repeat constructor; discriminate.
  - constructor.
  - constructor.
  - constructor.
  - split; [discriminate | repeat constructor].
  - constructor.
Defined.

(** ** The scripts and styles of the copy *)

Lemma textContent_text_child i tag attrs fresh s :
  textContent (Elem i tag attrs (text_child fresh s)) = s.
Proof.
  unfold text_child. destruct (String.eqb_spec s "") as [->|Hne]; [done|].
  simpl. done.
Qed.

Lemma prepareStyle_shadow name text : prepareStyle true name text = text.
Proof.
  unfold prepareStyle, prepareStyle_chars, chars.
  apply string_of_list_ascii_of_string.
Qed.

Lemma set_textContent_node_id e fresh s t :
  node_id (set_textContent e fresh s t) = node_id t.
Proof. destruct t as [i tag attrs kids|i data]; [|done]. simpl. by destruct (Nat.eqb i e). Qed.

Lemma set_textContent_id e fresh s t :
  e ∉ ids t → set_textContent e fresh s t = t.
Proof.
  induction t as [j data|j tag attrs kids IH] using node_ind_kids; intros He;
    [done|].
  simpl in *. destruct (Nat.eqb_spec j e) as [->|Hne]; [exfalso; apply He; by left|].
  f_equal.
  assert (e ∉ flat_map ids kids) as Hk by (intros H; apply He; by right).
  clear He. induction IH as [|k kids Hk' _ IHk]; [done|].
  simpl in *. f_equal.
  - apply Hk'. intros H. apply Hk. apply elem_of_app. auto.
  - apply IHk. intros H. apply Hk. apply elem_of_app. auto.
Qed.

Lemma find_node_Some_in i t r : find_node i t = Some r → i ∈ ids t.
Proof.
  intros H. destruct (decide (i ∈ ids t)) as [|Hn]; [done|].
  by rewrite find_node_None in H.
Qed.

Lemma omap_all_None {A B} (g : A → option B) (l : list A) :
  (∀ x, x ∈ l → g x = None) → omap g l = [].
Proof.
  induction l as [|x l IH]; intros H; [done|].
  simpl. rewrite (H x) by (by left). apply IH. intros y Hy. apply H. by right.
Qed.

(** The element after [elem.textContent = s]. *)
Lemma set_textContent_find e fresh s t tag attrs kids :
  find_node e t = Some (Elem e tag attrs kids) →
  find_node e (set_textContent e fresh s t)
  = Some (Elem e tag attrs (text_child fresh s)).
Proof.
  induction t as [j data|j tag' attrs' kids' IH] using node_ind_kids.
  - simpl. by destruct (Nat.eqb j e).
  - rewrite find_node_Elem. simpl set_textContent.
    destruct (Nat.eqb_spec j e) as [->|Hne].
    + intros [= -> -> ->]. simpl. by rewrite Nat.eqb_refl.
    + rewrite find_node_Elem. destruct (Nat.eqb_spec j e); [done|].
      induction IH as [|k ks Hk _ IHk]; [done|].
      simpl. destruct (find_node e k) as [r|] eqn:Hf.
      * simpl. intros [= ->]. by rewrite (Hk eq_refl).
      * intros H. rewrite set_textContent_id.
        -- rewrite Hf. by apply IHk.
        -- intros Hin. apply find_node_is_Some in Hin as [x Hx]. congruence.
Qed.

(** Replacing an element makes no difference between the element and the
    element with another text. *)
Lemma replace_node_set_textContent e new fresh s t :
  node_id t ≠ e →
  replace_node e new (set_textContent e fresh s t) = replace_node e new t.
Proof.
  induction t as [j data|j tag attrs kids IH] using node_ind_kids; [done|].
  simpl node_id. intros Hne. simpl set_textContent.
  destruct (Nat.eqb_spec j e); [done|].
  rewrite !replace_node_Elem, map_map. f_equal.
  induction IH as [|k ks Hk _ IHk]; [done|].
  simpl. f_equal; [|done].
  rewrite set_textContent_node_id.
  destruct (Nat.eqb_spec (node_id k) e); [done|]. by apply Hk.
Qed.

Lemma qss_Elem i tag attrs kids :
  querySelectorAll_script_style (Elem i tag attrs kids)
  = flat_map marked_within kids.
Proof. reflexivity. Qed.

Lemma qss_sublist t : querySelectorAll_script_style t `sublist_of` inner_subtrees t.
Proof.
  induction t as [i data|i tag attrs kids IH] using node_ind_kids; [done|].
  rewrite qss_Elem. simpl.
  induction IH as [|k kids Hk _ IHk]; [done|].
  simpl. apply sublist_app; [|done].
  rewrite subtrees_inner. unfold marked_within.
  destruct (is_script_or_style k); [by apply sublist_skip | by apply sublist_cons].
Qed.

Lemma qss_kid i tag attrs kids s :
  s ∈ querySelectorAll_script_style (Elem i tag attrs kids) ↔
  ∃ k, k ∈ kids ∧ s ∈ marked_within k.
Proof.
  rewrite qss_Elem, list_elem_of_In, in_flat_map. split.
  - intros (k & Hk & Hs). exists k. by rewrite !list_elem_of_In.
  - intros (k & Hk & Hs). exists k. by rewrite <- !list_elem_of_In.
Qed.

Lemma qss_marked t s :
  s ∈ querySelectorAll_script_style t → is_script_or_style s = true.
Proof.
  induction t as [i data|i tag attrs kids IH] using node_ind_kids;
    [by intros H; apply elem_of_nil in H|].
  intros Hs. apply qss_kid in Hs as (k & Hk & Hs).
  rewrite Forall_forall in IH. unfold marked_within in Hs.
  destruct (is_script_or_style k) eqn:Hp.
  - apply elem_of_cons in Hs as [->|Hs]; [done | by eapply IH].
  - by eapply IH.
Qed.

Lemma qss_inner_ids t s :
  s ∈ querySelectorAll_script_style t → node_id s ∈ inner_ids t.
Proof.
  intros Hs. rewrite inner_ids_subtrees. apply list_elem_of_fmap_2.
  by eapply elem_of_sublist; [|apply qss_sublist].
Qed.

Lemma qss_subtrees t s : s ∈ querySelectorAll_script_style t → s ∈ subtrees t.
Proof.
  intros Hs. rewrite subtrees_inner. right.
  by eapply elem_of_sublist; [|apply qss_sublist].
Qed.

Lemma qss_NoDup t :
  NoDup (ids t) → NoDup (node_id <$> querySelectorAll_script_style t).
Proof.
  intros H. rewrite ids_inner in H. apply NoDup_cons in H as [_ H].
  rewrite inner_ids_subtrees in H.
  eapply sublist_NoDup; [exact H|]. apply fmap_sublist, qss_sublist.
Qed.

Lemma marked_within_ids k s : s ∈ marked_within k → node_id s ∈ ids k.
Proof.
  unfold marked_within. intros Hs. rewrite ids_inner.
  destruct (is_script_or_style k).
  - apply elem_of_cons in Hs as [->|Hs]; [by left|].
    right. by apply qss_inner_ids.
  - right. by apply qss_inner_ids.
Qed.

Lemma qss_in_kid i tag attrs kids s k :
  NoDup (ids (Elem i tag attrs kids)) →
  s ∈ querySelectorAll_script_style (Elem i tag attrs kids) →
  k ∈ kids → node_id s ∈ ids k → s ∈ marked_within k.
Proof.
  intros Hnd Hs Hk Hi. apply qss_kid in Hs as (k0 & Hk0 & Hs).
  apply NoDup_ids_kids in Hnd as [Hnd _].
  by rewrite (NoDup_flat_map_ids_apart kids k k0 (node_id s) Hnd Hk Hk0 Hi
                (marked_within_ids _ _ Hs)).
Qed.

Lemma flat_scripts_kid i tag attrs kids k :
  flat_scripts (Elem i tag attrs kids) → k ∈ kids →
  flat_scripts k ∧
  (is_script_or_style k = true → querySelectorAll_script_style k = []).
Proof.
  unfold flat_scripts. rewrite qss_Elem. intros Hf Hk.
  rewrite Forall_forall in Hf.
  assert (∀ s, s ∈ marked_within k → querySelectorAll_script_style s = []) as H.
  { intros s Hs. apply Hf. apply list_elem_of_In, in_flat_map.
    exists k. by rewrite <- !list_elem_of_In. }
  split.
  - apply Forall_forall. intros s Hs. apply H. unfold marked_within.
    destruct (is_script_or_style k); [by right | done].
  - intros Hp. apply H. unfold marked_within. rewrite Hp. by left.
Qed.

(** ** The copy while its scripts and styles are visited *)

Lemma recreate_upto_Elem mk D i tag attrs kids :
  recreate_upto mk D (Elem i tag attrs kids)
  = Elem i tag attrs (map (recreate_kid_upto mk D) kids).
Proof. reflexivity. Qed.

Lemma recreate_upto_node_id mk D t : node_id (recreate_upto mk D t) = node_id t.
Proof. by destruct t. Qed.

Lemma recreate_upto_no_marks mk D t :
  querySelectorAll_script_style t = [] → recreate_upto mk D t = t.
Proof.
  induction t as [i data|i tag attrs kids IH] using node_ind_kids; [done|].
  rewrite qss_Elem, recreate_upto_Elem. intros Hq. f_equal.
  induction IH as [|k kids Hk _ IHk]; [done|].
  simpl in Hq. apply app_eq_nil in Hq as [Hq1 Hq2].
  simpl. f_equal; [|by apply IHk].
  unfold marked_within in Hq1. unfold recreate_kid_upto.
  destruct (is_script_or_style k); [done|]. simpl. by apply Hk.
Qed.

Lemma recreate_upto_ext mk D D' t :
  (∀ j, j ∈ inner_ids t → (j ∈ D ↔ j ∈ D')) →
  recreate_upto mk D t = recreate_upto mk D' t.
Proof.
  induction t as [i data|i tag attrs kids IH] using node_ind_kids; [done|].
  rewrite !recreate_upto_Elem. intros HD. f_equal. simpl in HD.
  induction IH as [|k kids Hk _ IHk]; [done|].
  simpl in *. f_equal.
  - unfold recreate_kid_upto.
    rewrite (Hk).
    2:{ intros j Hj. apply HD. apply elem_of_app. left.
        rewrite ids_inner. by right. }
    rewrite (bool_decide_ext (node_id k ∈ D) (node_id k ∈ D')); [done|].
    apply HD. apply elem_of_app. left. apply node_id_in_ids.
  - apply IHk. intros j Hj. apply HD. apply elem_of_app. by right.
Qed.

Lemma recreate_upto_nil mk t : recreate_upto mk [] t = t.
Proof.
  induction t as [i data|i tag attrs kids IH] using node_ind_kids; [done|].
  rewrite recreate_upto_Elem. f_equal.
  induction IH as [|k kids Hk _ IHk]; [done|].
  simpl. f_equal; [|done]. unfold recreate_kid_upto.
  rewrite bool_decide_false by apply not_elem_of_nil.
  by rewrite andb_false_r.
Qed.

(** When every script and style has been visited the copy is [restyle]. *)
Lemma recreate_upto_all mk D t :
  (∀ s, s ∈ querySelectorAll_script_style t → node_id s ∈ D) →
  recreate_upto mk D t = restyle mk t.
Proof.
  induction t as [i data|i tag attrs kids IH] using node_ind_kids; [done|].
  rewrite recreate_upto_Elem. intros HD. simpl. f_equal.
  assert (∀ k, k ∈ kids → ∀ s, s ∈ marked_within k → node_id s ∈ D) as HD'.
  { intros k Hk s Hs. apply HD. apply qss_kid. eauto. }
  clear HD. induction IH as [|k kids Hk _ IHk]; [done|].
  simpl. f_equal.
  - unfold recreate_kid_upto.
    destruct (is_script_or_style k) eqn:Hp; simpl.
    + rewrite bool_decide_true; [done|].
      apply (HD' k); [by left|]. unfold marked_within. rewrite Hp. by left.
    + apply Hk. intros s Hs. apply (HD' k); [by left|].
      unfold marked_within. by rewrite Hp.
  - apply IHk. intros k' Hk' s Hs. apply (HD' k'); [by right | done].
Qed.

(** The identities in the copy are those it had and those of the elements
    made so far. *)
Lemma recreate_upto_ids mk D t j :
  j ∈ ids (recreate_upto mk D t) →
  j ∈ ids t ∨ ∃ s, is_script_or_style s = true ∧ j ∈ ids (mk s).
Proof.
  induction t as [i data|i tag attrs kids IH] using node_ind_kids; [by left|].
  rewrite recreate_upto_Elem. simpl. intros Hj.
  apply elem_of_cons in Hj as [->|Hj]; [left; by left|].
  apply in_flat_map_ids in Hj as (k' & Hk' & Hj).
  apply list_elem_of_fmap in Hk' as (k & -> & Hk).
  rewrite Forall_forall in IH.
  unfold recreate_kid_upto in Hj.
  destruct (is_script_or_style k) eqn:Hp; simpl in Hj.
  - destruct (bool_decide (node_id k ∈ D)); [right; eauto|].
    destruct (IH k Hk Hj) as [H1|H1]; [|by right].
    left. right. apply in_flat_map_ids. eauto.
  - destruct (IH k Hk Hj) as [H1|H1]; [|by right].
    left. right. apply in_flat_map_ids. eauto.
Qed.

Lemma recreate_kid_upto_ids mk D k j :
  j ∈ ids (recreate_kid_upto mk D k) →
  j ∈ ids k ∨ ∃ s, is_script_or_style s = true ∧ j ∈ ids (mk s).
Proof.
  unfold recreate_kid_upto.
  destruct (is_script_or_style k) eqn:Hp; simpl.
  - destruct (bool_decide (node_id k ∈ D)); [right; eauto|].
    apply recreate_upto_ids.
  - apply recreate_upto_ids.
Qed.

Lemma made_apart_kid mk i tag attrs kids k :
  made_apart mk (Elem i tag attrs kids) → k ∈ kids → made_apart mk k.
Proof.
  intros H Hk s j Hs Hj Hjk. apply (H s j Hs Hj).
  simpl. right. apply in_flat_map_ids. eauto.
Qed.

(** A script or style that has not been visited is still in the copy, as
    it was. *)
Lemma recreate_upto_find mk D t s :
  NoDup (ids t) → flat_scripts t → made_apart mk t →
  s ∈ querySelectorAll_script_style t → node_id s ∉ D →
  find_node (node_id s) (recreate_upto mk D t) = Some s.
Proof.
  induction t as [i data|i tag attrs kids IH] using node_ind_kids;
    [by intros _ _ _ H; apply elem_of_nil in H|].
  intros Hnd Hflat Hapart Hs HD. rewrite Forall_forall in IH.
  destruct (NoDup_ids_kids _ _ _ _ Hnd) as [Hndk Hik].
  pose proof (qss_inner_ids _ _ Hs) as Hsin. simpl in Hsin.
  rewrite recreate_upto_Elem, find_node_Elem.
  destruct (Nat.eqb_spec i (node_id s)) as [He|_]; [by rewrite He in Hik|].
  apply qss_kid in Hs as (k & Hk & Hs).
  destruct (flat_scripts_kid _ _ _ _ _ Hflat Hk) as [Hfk Hmark].
  pose proof (NoDup_flat_map_ids_kid _ _ Hndk Hk) as Hndk1.
  pose proof (made_apart_kid _ _ _ _ _ _ Hapart Hk) as Hapk.
  apply list_elem_of_split in Hk as (l1 & l2 & ->).
  rewrite map_app, omap_app. simpl map.
  rewrite omap_all_None.
  - simpl.
    assert (find_node (node_id s) (recreate_kid_upto mk D k) = Some s) as ->; [|done].
    unfold recreate_kid_upto, marked_within in *.
    destruct (is_script_or_style k) eqn:Hp; simpl.
    + rewrite Hmark in Hs by done.
      apply list_elem_of_singleton in Hs as ->.
      rewrite bool_decide_false by done.
      rewrite recreate_upto_no_marks by auto. apply find_node_self.
    + apply IH; try done. apply elem_of_app. right. by left.
  - intros k' Hk'. apply list_elem_of_fmap in Hk' as (k1 & -> & Hk1).
    apply find_node_None. intros Hj.
    apply recreate_kid_upto_ids in Hj as [Hj|(s' & Hs' & Hj)].
    + rewrite flat_map_app in Hndk. apply NoDup_app in Hndk as (_ & Hdisj & _).
      apply (Hdisj (node_id s)).
      * apply in_flat_map_ids. eauto.
      * simpl. apply elem_of_app. left. by apply marked_within_ids.
    + apply (Hapart s' (node_id s) Hs' Hj). simpl. by right.
Qed.

(** Visiting one more script or style: the element made for it takes its
    place in the copy. *)
Lemma recreate_upto_step mk D t s :
  NoDup (ids t) → flat_scripts t → made_apart mk t →
  s ∈ querySelectorAll_script_style t → node_id s ∉ D →
  recreate_upto mk (node_id s :: D) t
  = replace_node (node_id s) (mk s) (recreate_upto mk D t).
Proof.
  induction t as [i data|i tag attrs kids IH] using node_ind_kids;
    [by intros _ _ _ H; apply elem_of_nil in H|].
  intros Hnd Hflat Hapart Hs HD.
  rewrite Forall_forall in IH.
  assert (node_id s ∈ ids (Elem i tag attrs kids)) as Hsin.
  { rewrite ids_inner. right. by apply qss_inner_ids. }
  assert (querySelectorAll_script_style s = []) as Hsflat.
  { unfold flat_scripts in Hflat. rewrite Forall_forall in Hflat. by apply Hflat. }
  pose proof (qss_marked _ _ Hs) as Hsmark.
  destruct (NoDup_ids_kids _ _ _ _ Hnd) as [Hndk Hik].
  assert (∀ k, k ∈ kids →
            recreate_kid_upto mk (node_id s :: D) k
            = if Nat.eqb (node_id (recreate_kid_upto mk D k)) (node_id s)
              then mk s
              else replace_node (node_id s) (mk s) (recreate_kid_upto mk D k))
    as Hkid.
  { intros k Hk.
    destruct (flat_scripts_kid _ _ _ _ _ Hflat Hk) as [Hfk Hmark].
    pose proof (NoDup_flat_map_ids_kid _ _ Hndk Hk) as Hndk1.
    pose proof (made_apart_kid _ _ _ _ _ _ Hapart Hk) as Hapk.
    destruct (decide (node_id k = node_id s)) as [Heq|Hne].
    - (* the child is the element itself *)
      assert (k = s) as ->.
      { apply (same_id_same_node (Elem i tag attrs kids)); try done.
        - by apply kid_in_subtrees.
        - by apply qss_subtrees. }
      unfold recreate_kid_upto. rewrite Hsmark. simpl.
      rewrite bool_decide_true by (by left).
      rewrite (bool_decide_false (node_id s ∈ D)) by done.
      rewrite recreate_upto_no_marks by done.
      by rewrite Nat.eqb_refl.
    - (* another child *)
      assert (recreate_upto mk (node_id s :: D) k
              = replace_node (node_id s) (mk s) (recreate_upto mk D k)) as Hrec.
      { destruct (decide (node_id s ∈ inner_ids k)) as [Hin|Hin].
        - apply IH; try done.
          assert (s ∈ marked_within k) as Hsk.
          { apply (qss_in_kid i tag attrs kids); try done.
            rewrite ids_inner. by right. }
          unfold marked_within in Hsk.
          destruct (is_script_or_style k) eqn:Hp; [|done].
          apply elem_of_cons in Hsk as [->|Hsk]; done.
        - rewrite (recreate_upto_ext mk (node_id s :: D) D k).
          2:{ intros j Hj. rewrite elem_of_cons. split; [|auto].
              intros [->|?]; done. }
          symmetry. apply replace_node_id. intros Hj.
          assert (node_id s ∈ ids (recreate_upto mk D k)) as Hj'
            by (rewrite ids_inner; by right).
          apply recreate_upto_ids in Hj' as [Hj'|(s' & Hs' & Hc')].
          + rewrite ids_inner in Hj'.
            apply elem_of_cons in Hj' as [Hj'|Hj']; done.
          + by apply (Hapart s' (node_id s) Hs' Hc'). }
      unfold recreate_kid_upto.
      rewrite (bool_decide_ext (node_id k ∈ node_id s :: D) (node_id k ∈ D)).
      2:{ rewrite elem_of_cons. split; [|auto]. intros [?|?]; done. }
      destruct (is_script_or_style k && bool_decide (node_id k ∈ D)) eqn:Hb.
      + apply andb_true_iff in Hb as [Hp _].
        destruct (Nat.eqb_spec (node_id (mk k)) (node_id s)) as [He|He].
        * exfalso. apply (Hapart k (node_id s) Hp); [|done].
          rewrite <- He. apply node_id_in_ids.
        * symmetry. apply replace_node_id. intros Hj.
          apply (Hapart k (node_id s) Hp); [|done].
          rewrite ids_inner. by right.
      + rewrite Hrec. rewrite recreate_upto_node_id.
        by destruct (Nat.eqb_spec (node_id k) (node_id s)). }
  rewrite !recreate_upto_Elem.
  rewrite replace_node_Elem, map_map. f_equal.
  apply map_ext_in. intros k Hk. apply list_elem_of_In in Hk. by apply Hkid.
Qed.

Lemma recreate_upto_snoc mk D i t :
  recreate_upto mk (D ++ [i]) t = recreate_upto mk (i :: D) t.
Proof.
  apply recreate_upto_ext. intros j _.
  rewrite elem_of_app, (elem_of_cons D), list_elem_of_singleton. tauto.
Qed.

(** ** One round of the loop on the forest *)

Lemma forest_find_clone e f x :
  find_node e (f_clone f) = Some x → forest_find e f = Some x.
Proof. intros H. unfold forest_find, forest_trees. simpl. by rewrite H. Qed.

Lemma find_node_inner i t r :
  find_node i t = Some r → i ≠ node_id t → i ∈ inner_ids t.
Proof.
  intros H Hne. apply find_node_Some_in in H. rewrite ids_inner in H.
  apply elem_of_cons in H as [?|?]; done.
Qed.

Lemma replaceWith_new_spec e temp f elem rid rtag rattrs :
  find_node e (f_clone f) = Some elem → e ≠ node_id (f_clone f) →
  f_root f = Elem rid rtag rattrs [] →
  f_clone (replaceWith_new e temp f) = replace_node e temp (f_clone f) ∧
  f_root (replaceWith_new e temp f) = Elem rid rtag rattrs [].
Proof.
  intros Hf Hne Hr. unfold replaceWith_new.
  assert (existsb (has_parent_in e) (forest_trees f) = true) as ->.
  { unfold forest_trees. simpl. unfold has_parent_in at 1.
    rewrite bool_decide_true; [done|]. by eapply find_node_inner. }
  rewrite (forest_find_clone _ _ _ Hf). simpl. by rewrite Hr.
Qed.

Lemma set_textContent_in_spec e fresh s f tag attrs kids rid rtag rattrs :
  find_node e (f_clone f) = Some (Elem e tag attrs kids) → rid ≠ e →
  f_root f = Elem rid rtag rattrs [] →
  find_node e (f_clone (set_textContent_in e fresh s f))
  = Some (Elem e tag attrs (text_child fresh s)) ∧
  f_clone (set_textContent_in e fresh s f) = set_textContent e fresh s (f_clone f) ∧
  f_root (set_textContent_in e fresh s f) = Elem rid rtag rattrs [].
Proof.
  intros Hf Hne Hr. simpl. split; [by apply (set_textContent_find _ _ _ _ _ _ kids)|].
  split; [done|]. rewrite Hr. simpl. by destruct (Nat.eqb_spec rid e).
Qed.

Lemma prepare_style useShadow name uid text :
  prepare useShadow name uid "style" text = prepareStyle useShadow name text.
Proof. reflexivity. Qed.

Lemma recreate_step useShadow name uid fresh f s rid rtag rattrs :
  is_script_or_style s = true →
  find_node (node_id s) (f_clone f) = Some s →
  node_id s ≠ node_id (f_clone f) → rid ≠ node_id s →
  f_root f = Elem rid rtag rattrs [] →
  ∃ f',
    recreate useShadow name uid fresh s f = Some f' ∧
    f_clone f'
    = replace_node (node_id s) (temp_of useShadow name uid fresh s) (f_clone f) ∧
    f_root f' = Elem rid rtag rattrs [].
Proof.
  intros Hmark Hf Hne Hrid Hr.
  destruct s as [e type attrs kids|]; [|done]. simpl node_id in *.
  unfold recreate. rewrite (forest_find_clone _ _ _ Hf). simpl.
  (* the forest after prepareStyle or prepareScript *)
  assert (∀ str,
    ∃ f',
      (cur1 ← forest_find e (set_textContent_in e fresh str f);
       Some (replaceWith_new e
               (Elem (fresh + 1) type []
                  (text_child (fresh + 2) (textContent cur1)))
               (set_textContent_in e fresh str f))) = Some f' ∧
      f_clone f'
      = replace_node e (Elem (fresh + 1) type [] (text_child (fresh + 2) str))
          (f_clone f) ∧
      f_root f' = Elem rid rtag rattrs []) as Hset.
  { intros str.
    destruct (set_textContent_in_spec e fresh str f type attrs kids
                rid rtag rattrs Hf Hrid Hr) as (Hf1 & Hc1 & Hr1).
    rewrite (forest_find_clone _ _ _ Hf1). simpl.
    assert (String.concat "" (map textContent (text_child fresh str)) = str)
      as -> by apply (textContent_text_child 0 "" []).
    eexists. split; [done|].
    destruct (replaceWith_new_spec e
                (Elem (fresh + 1) type [] (text_child (fresh + 2) str))
                (set_textContent_in e fresh str f) _ rid rtag rattrs Hf1)
      as [Hc2 Hr2].
    - by rewrite Hc1, set_textContent_node_id.
    - done.
    - rewrite Hc2, Hr2, Hc1. split; [|done].
      apply replace_node_set_textContent. congruence. }
  assert (∀ str, str = textContent (Elem e type attrs kids) →
    ∃ f',
      (cur1 ← forest_find e f;
       Some (replaceWith_new e
               (Elem (fresh + 1) type []
                  (text_child (fresh + 2) (textContent cur1))) f)) = Some f' ∧
      f_clone f'
      = replace_node e (Elem (fresh + 1) type [] (text_child (fresh + 2) str))
          (f_clone f) ∧
      f_root f' = Elem rid rtag rattrs []) as Hsame.
  { intros str ->. rewrite (forest_find_clone _ _ _ Hf). simpl.
    eexists. split; [done|].
    by apply (replaceWith_new_spec e _ f _ rid rtag rattrs Hf). }
  unfold prepare.
  destruct (String.eqb type "style").
  - destruct useShadow.
    + apply Hsame. by rewrite prepareStyle_shadow.
    + apply Hset.
  - destruct (String.eqb type "script"); [apply Hset | by apply Hsame].
Qed.

(** ** The loop over the scripts and styles *)

Lemma index_of_app i (l1 l2 : list nat) :
  i ∉ l1 → index_of i (l1 ++ i :: l2) = length l1.
Proof.
  induction l1 as [|x l1 IH]; intros Hi; simpl.
  - by rewrite Nat.eqb_refl.
  - destruct (Nat.eqb_spec x i) as [->|_]; [exfalso; apply Hi; by left|].
    f_equal. apply IH. intros H. apply Hi. by right.
Qed.

Lemma temp_of_ids useShadow name uid fresh s j :
  is_script_or_style s = true →
  j ∈ ids (temp_of useShadow name uid fresh s) → fresh < j.
Proof.
  destruct s as [e type attrs kids|]; [|done]. intros _. simpl.
  unfold text_child. destruct (String.eqb _ ""); simpl.
  - intros H. apply list_elem_of_singleton in H. lia.
  - intros H. apply elem_of_cons in H as [->|H]; [lia|].
    apply list_elem_of_singleton in H. lia.
Qed.

Lemma new_element_apart useShadow name uid fresh t :
  (∀ j, j ∈ ids t → j < fresh) →
  made_apart (new_element useShadow name uid fresh t) t.
Proof.
  intros Hfresh s j Hs Hj Hjt. unfold new_element in Hj.
  apply temp_of_ids in Hj; [|done]. apply Hfresh in Hjt. lia.
Qed.

Lemma recreate_all_run useShadow name uid fresh clone rid rtag rattrs :
  NoDup (ids clone) → flat_scripts clone →
  (∀ j, j ∈ ids clone → j < fresh) → rid ∉ ids clone →
  ∀ rest visited f,
    querySelectorAll_script_style clone = visited ++ rest →
    f_clone f
    = recreate_upto (new_element useShadow name uid fresh clone)
        (node_id <$> visited) clone →
    f_root f = Elem rid rtag rattrs [] →
    ∃ f',
      recreate_all useShadow name uid (fresh + 3 * length visited) rest f
      = Some f' ∧
      f_clone f' = restyle (new_element useShadow name uid fresh clone) clone ∧
      f_root f' = Elem rid rtag rattrs [].
Proof.
  intros Hnd Hflat Hfresh Hrid.
  pose proof (new_element_apart useShadow name uid fresh clone Hfresh) as Hapart.
  induction rest as [|s rest IH]; intros visited f HS Hc Hr.
  - exists f. split; [done|]. split; [|done].
    rewrite Hc. apply recreate_upto_all. intros s Hs.
    apply list_elem_of_fmap_2. by rewrite HS, app_nil_r in Hs.
  - assert (s ∈ querySelectorAll_script_style clone) as Hs.
    { rewrite HS. apply elem_of_app. right. by left. }
    assert (node_id s ∉ node_id <$> visited) as Hnot.
    { pose proof (qss_NoDup _ Hnd) as H. rewrite HS, fmap_app in H.
      apply NoDup_app in H as (_ & H & _). intros Hin.
      apply (H _ Hin). rewrite fmap_cons. by left. }
    assert (querySelectorAll_script_style clone = (visited ++ [s]) ++ rest)
      as HS' by (by rewrite <- app_assoc).
    pose proof (qss_inner_ids _ _ Hs) as Hsin.
    assert (node_id s ∈ ids clone) as Hsin' by (rewrite ids_inner; by right).
    destruct (recreate_step useShadow name uid (fresh + 3 * length visited)
                f s rid rtag rattrs) as (f1 & Hf1 & Hc1 & Hr1).
    + by eapply qss_marked.
    + rewrite Hc. by apply recreate_upto_find.
    + rewrite Hc, recreate_upto_node_id. intros He.
      rewrite ids_inner in Hnd. apply NoDup_cons in Hnd as [Hn _].
      by rewrite <- He in Hn.
    + intros ->. done.
    + done.
    + cbn [recreate_all]. rewrite Hf1. cbn [mbind option_bind].
      replace (fresh + 3 * length visited + 3)
        with (fresh + 3 * length (visited ++ [s]))
        by (rewrite length_app; simpl; lia).
      apply (IH (visited ++ [s]) f1 HS'); [|done].
      rewrite Hc1, Hc, fmap_app. simpl. rewrite recreate_upto_snoc.
      rewrite (recreate_upto_step _ _ _ s) by done.
      f_equal. unfold new_element. f_equal. f_equal. f_equal.
      rewrite HS, fmap_app, fmap_cons, index_of_app by done.
      by rewrite length_fmap.
Qed.

(** The end of [assemble] on the forest the loop over the slots has left. *)
Lemma assemble_recreates_rest useShadow name uid fresh f
    rid rtag rattrs left :
  f_root f = Elem rid rtag rattrs left →
  NoDup (ids (f_clone f)) → flat_scripts (f_clone f) →
  (∀ j, j ∈ ids (f_clone f) → j < fresh) → rid ∉ ids (f_clone f) →
  ∃ f',
    assemble_rest useShadow name uid fresh f = Some f' ∧
    f_root f'
    = Elem rid rtag rattrs
        (element_children
           (kids_of
              (restyle (new_element useShadow name uid fresh (f_clone f))
                 (f_clone f)))).
Proof.
  intros Hr Hnd Hflat Hfresh Hrid. unfold assemble_rest.
  assert (f_clone (replaceChildren_none f) = f_clone f) as Hc0
    by (unfold replaceChildren_none; by rewrite Hr).
  assert (f_root (replaceChildren_none f) = Elem rid rtag rattrs []) as Hr0
    by (unfold replaceChildren_none; by rewrite Hr).
  rewrite Hc0.
  destruct (recreate_all_run useShadow name uid fresh (f_clone f)
              rid rtag rattrs Hnd Hflat Hfresh Hrid
              (querySelectorAll_script_style (f_clone f)) []
              (replaceChildren_none f)) as (f2 & Hf2 & Hc2 & Hr2).
  - done.
  - rewrite Hc0. simpl. by rewrite recreate_upto_nil.
  - done.
  - simpl in Hf2. rewrite Nat.add_0_r in Hf2. rewrite Hf2. simpl.
    eexists. split; [done|].
    unfold replaceChildren_clone_children. rewrite Hr2, Hc2.
    destruct (f_clone f) as [cid ctag cattrs ckids|]; simpl; [done|].
    by rewrite Hr2.
Qed.

(** X21. The end of [assemble], from [this.root.replaceChildren()] on: when
    the nodes of the copy have identities of their own below the new ones
    and no script or style of the copy lies inside another, the loop
    returns and the root gets as its children the element children of the
    copy in which every script and every style, at any depth, is replaced
    by a new element of the same tag, without attributes, that holds the
    text after [prepareStyle] or [prepareScript]; everything else of the
    copy is as it was, and the children the root had are gone. *)
Theorem assemble_recreates_scripts useShadow name uid fresh f
    rid rtag rattrs left :
  f_root f = Elem rid rtag rattrs left →
  NoDup (ids (f_clone f)) → flat_scripts (f_clone f) →
  (∀ j, j ∈ ids (f_clone f) → j < fresh) → rid ∉ ids (f_clone f) →
  ∃ f',
    assemble_rest useShadow name uid fresh f = Some f' ∧
    f_root f'
    = Elem rid rtag rattrs
        (element_children
           (kids_of
              (restyle (new_element useShadow name uid fresh (f_clone f))
                 (f_clone f)))).
Proof. apply assemble_recreates_rest. Qed.

Lemma assemble_recreates_scripts_witness :
  ∃ f',
    assemble_rest false "x-card" "x-card.0" 100
      (mkForest template_scripted (Elem 10 "x-card" [] [Text 11 "old"]) [])
    = Some f' ∧
    f_root f'
    = Elem 10 "x-card" []
        (element_children
           (kids_of
              (restyle (new_element false "x-card" "x-card.0" 100 template_scripted)
                 template_scripted))).
Proof.
  apply (assemble_recreates_scripts false "x-card" "x-card.0" 100
           (mkForest template_scripted (Elem 10 "x-card" [] [Text 11 "old"]) [])
           10 "x-card" [] [Text 11 "old"]).
  - reflexivity.
  - refine (bool_decide_unpack _ _). vm_compute. exact I.
  - unfold flat_scripts. vm_compute. repeat constructor.
  - intros j Hj. simpl in Hj.
    repeat (apply elem_of_cons in Hj as [->|Hj]; [lia|]).
    by apply elem_of_nil in Hj.
  - simpl. intros Hj.
    repeat (apply elem_of_cons in Hj as [Hj|Hj]; [discriminate Hj|]).
    by apply elem_of_nil in Hj.
Defined.

(** ** The copy after the slots: its identities *)

Lemma project_spec_ids m t j :
  j ∈ ids (project_spec m t) →
  j ∈ ids t ∨
  ∃ s nm child, s ∈ querySelectorAll_slot t ∧ placeholder s = Some nm ∧
                m nm = Some child ∧ j ∈ ids child.
Proof.
  rewrite <- (project_upto_all m (node_id <$> querySelectorAll_slot t))
    by (intros s Hs; by apply list_elem_of_fmap_2).
  intros H. apply project_upto_ids in H as [H|(s & c & Hs & _ & Hm & Hc)];
    [by left|].
  right. destruct (placeholder s) as [nm|] eqn:Hp; [|done].
  exists s, nm, c. done.
Qed.

Lemma project_kid_ids m k j :
  j ∈ ids (match placeholder k ≫= m with
           | Some child => child
           | None => project_spec m k
           end) →
  j ∈ ids k ∨
  ∃ s nm child, s ∈ slots_within k ∧ placeholder s = Some nm ∧
                m nm = Some child ∧ j ∈ ids child.
Proof.
  unfold slots_within. destruct (placeholder k) as [nm|] eqn:Hp; simpl.
  - destruct (m nm) as [c|] eqn:Hm.
    + intros Hj. right. exists k, nm, c. split; [by left | done].
    + intros Hj. apply project_spec_ids in Hj as [?|(s & nm' & c & Hs & H)];
        [by left|].
      right. exists s, nm', c. split; [by right | done].
  - intros Hj. apply project_spec_ids in Hj as [?|(s & nm' & c & Hs & H)];
      [by left|].
    right. exists s, nm', c. done.
Qed.

Lemma project_kids_ids m (kids : list node) j :
  j ∈ flat_map ids
        (map (λ k, match placeholder k ≫= m with
                   | Some child => child
                   | None => project_spec m k
                   end) kids) →
  j ∈ flat_map ids kids ∨
  ∃ s nm child, s ∈ flat_map slots_within kids ∧ placeholder s = Some nm ∧
                m nm = Some child ∧ j ∈ ids child.
Proof.
  intros Hj. apply in_flat_map_ids in Hj as (k' & Hk' & Hj).
  apply list_elem_of_fmap in Hk' as (k & -> & Hk).
  apply project_kid_ids in Hj as [Hj|(s & nm & c & Hs & H)].
  - left. apply in_flat_map_ids. eauto.
  - right. exists s, nm, c. split; [|done].
    apply list_elem_of_In, in_flat_map. exists k. by rewrite <- !list_elem_of_In.
Qed.

(** Every node of the copy after the slots has its own identity, when the
    projected children are apart from the copy and from each other. *)
Lemma project_spec_NoDup m t :
  (∀ nm c, m nm = Some c → NoDup (ids c)) →
  (∀ nm nm' c c' j,
     m nm = Some c → m nm' = Some c' → j ∈ ids c → j ∈ ids c' → nm = nm') →
  NoDup (ids t) → children_apart m t →
  NoDup (placeholder <$> querySelectorAll_slot t) →
  NoDup (ids (project_spec m t)).
Proof.
  intros Hc1 Hc2.
  induction t as [i data|i tag attrs kids IH] using node_ind_kids; [done|].
  intros Hnd Hapart Hdist. rewrite qsa_Elem in Hdist.
  destruct (NoDup_ids_kids _ _ _ _ Hnd) as [Hndk Hik].
  simpl. apply NoDup_cons. split.
  - intros Hj. apply project_kids_ids in Hj as [Hj|(s & nm & c & _ & _ & Hm & Hj)];
      [done|].
    apply (Hapart nm c i Hm Hj). by left.
  - assert (∀ nm c j, m nm = Some c → j ∈ ids c → j ∉ flat_map ids kids)
      as Hapk.
    { intros nm c j Hm Hj Hjk. apply (Hapart nm c j Hm Hj). by right. }
    clear Hnd Hapart Hik.
    induction IH as [|k kids Hk _ IHk]; [constructor|].
    simpl in *. rewrite fmap_app in Hdist.
    apply NoDup_app in Hndk as (Hndk1 & Hdisj & Hndk2).
    apply NoDup_app in Hdist as (Hd1 & Hdd & Hd2).
    apply NoDup_app. split; [|split].
    + destruct (placeholder k ≫= m) as [c|] eqn:Hm.
      * destruct (placeholder k) as [nm|]; [|done]. by apply (Hc1 nm).
      * apply Hk; [done| |].
        -- intros nm c j Hm' Hj Hjk. apply (Hapk nm c j Hm' Hj).
           apply elem_of_app. by left.
        -- unfold slots_within in Hd1. destruct (placeholder k); [|done].
           rewrite fmap_cons in Hd1. by apply NoDup_cons in Hd1 as [_ ?].
    + intros j Hj1 Hj2.
      apply project_kid_ids in Hj1 as [Hj1|(s1 & nm1 & c1 & Hs1 & Hp1 & Hm1 & Hj1)];
        apply project_kids_ids in Hj2
          as [Hj2|(s2 & nm2 & c2 & Hs2 & Hp2 & Hm2 & Hj2)].
      * by apply (Hdisj j).
      * apply (Hapk nm2 c2 j Hm2 Hj2). apply elem_of_app. by left.
      * apply (Hapk nm1 c1 j Hm1 Hj1). apply elem_of_app. by right.
      * assert (nm1 = nm2) as -> by (by eapply Hc2).
        apply (Hdd (Some nm2)).
        -- rewrite <- Hp1. by apply list_elem_of_fmap_2.
        -- rewrite <- Hp2. by apply list_elem_of_fmap_2.
    + apply IHk; [done|done|].
      intros nm c j Hm Hj Hjk. apply (Hapk nm c j Hm Hj).
      apply elem_of_app. by right.
Qed.

Lemma projected_NoDup kids nm c :
  NoDup (flat_map ids kids) → projected kids nm = Some c → NoDup (ids c).
Proof.
  intros Hnd Hm. apply projected_Some in Hm as [_ Hc].
  by eapply NoDup_flat_map_ids_kid.
Qed.

Lemma projected_inj kids nm nm' c c' j :
  NoDup (flat_map ids kids) →
  projected kids nm = Some c → projected kids nm' = Some c' →
  j ∈ ids c → j ∈ ids c' → nm = nm'.
Proof.
  intros Hnd Hm Hm' Hj Hj'.
  apply projected_Some in Hm as [Hd Hc].
  apply projected_Some in Hm' as [Hd' Hc'].
  assert (c = c') as <- by (by eapply (NoDup_flat_map_ids_apart kids)).
  by eapply slotDump_of_inj.
Qed.

(** The forest the loop over the slots leaves. *)
Lemma assemble_slots_forest fresh containerNode rid rtag rattrs kids :
  unique_ids (cloneNode fresh containerNode) (Elem rid rtag rattrs kids) →
  flat_slots (cloneNode fresh containerNode) →
  distinct_slot_names (cloneNode fresh containerNode) →
  ∃ f left,
    assemble_slots fresh containerNode (Elem rid rtag rattrs kids) = Some f ∧
    f_clone f = project_spec (projected kids) (cloneNode fresh containerNode) ∧
    f_root f = Elem rid rtag rattrs left.
Proof.
  intros Hu Hflat Hdist.
  destruct (assemble_slots_run _ _ _ _ _ _ Hu Hflat Hdist) as (f & Hf & Hc).
  destruct (project_slots_run_root _ rid rtag rattrs kids Hu Hflat Hdist
              (querySelectorAll_slot (cloneNode fresh containerNode)) []
              (mkForest (cloneNode fresh containerNode)
                 (Elem rid rtag rattrs kids) []))
    as (f' & Hf' & Hr).
  - done.
  - simpl. by rewrite project_upto_nil.
  - simpl. f_equal. clear. induction kids as [|k kids IH]; [done|].
    simpl. by rewrite <- IH.
  - unfold assemble_slots in Hf. rewrite Hf in Hf'. injection Hf' as <-.
    eexists f, _. split; [exact Hf|]. split; [|exact Hr].
    rewrite Hc. apply project_upto_all. intros s Hs.
    by apply list_elem_of_fmap_2.
Qed.

(** X22. [assemble] on the document, from the copy of the template to the
    last [replaceChildren]: when the nodes of the copy and of the root have
    identities of their own, below the new ones, no placeholder lies inside
    another, no two placeholders declare the same name, and no script or
    style lies inside another once the children are projected, [assemble]
    runs to its end and the root gets the element children of the copy
    with the children of the instance projected into the placeholders and
    then every script and style replaced by its new element, those that
    came with the projected children included. *)
Theorem assemble_dom_spec useShadow name uid fresh fresh' containerNode
    rid rtag rattrs kids :
  unique_ids (cloneNode fresh containerNode) (Elem rid rtag rattrs kids) →
  flat_slots (cloneNode fresh containerNode) →
  distinct_slot_names (cloneNode fresh containerNode) →
  flat_scripts (project_spec (projected kids) (cloneNode fresh containerNode)) →
  (∀ j, j ∈ ids (cloneNode fresh containerNode) ++ ids (Elem rid rtag rattrs kids) →
        j < fresh') →
  ∃ f',
    assemble_dom useShadow name uid fresh fresh' containerNode
      (Elem rid rtag rattrs kids) = Some f' ∧
    f_root f'
    = Elem rid rtag rattrs
        (element_children
           (kids_of
              (restyle
                 (new_element useShadow name uid fresh'
                    (project_spec (projected kids)
                       (cloneNode fresh containerNode)))
                 (project_spec (projected kids)
                    (cloneNode fresh containerNode))))).
Proof.
  intros Hu Hflat Hdist Hscripts Hfresh.
  destruct (assemble_slots_forest _ _ _ _ _ _ Hu Hflat Hdist)
    as (f & left & Hf & Hc & Hr).
  pose proof Hu as Hu'. unfold unique_ids in Hu'.
  apply NoDup_app in Hu' as (HndC & Hdisj & HndR).
  apply NoDup_ids_kids in HndR as [HndK Hrid].
  pose proof (projected_apart _ _ _ _ _ Hu) as Hapart.
  unfold assemble_dom. rewrite Hf. simpl. rewrite <- Hc.
  apply (assemble_recreates_rest useShadow name uid fresh' f rid rtag rattrs left).
  - done.
  - rewrite Hc. apply project_spec_NoDup; try done.
    + intros nm c. by apply projected_NoDup.
    + intros nm nm' c c' j. by apply projected_inj.
  - by rewrite Hc.
  - rewrite Hc. intros j Hj. apply Hfresh.
    apply project_spec_ids in Hj as [Hj|(s & nm & c & _ & _ & Hm & Hj)].
    + apply elem_of_app. by left.
    + apply projected_Some in Hm as [_ Hin]. apply elem_of_app. right.
      simpl. right. apply in_flat_map_ids. eauto.
  - rewrite Hc. intros Hj.
    apply project_spec_ids in Hj as [Hj|(s & nm & c & _ & _ & Hm & Hj)].
    + apply (Hdisj rid Hj). by left.
    + apply projected_Some in Hm as [_ Hin]. apply Hrid.
      apply in_flat_map_ids. eauto.
Qed.

Lemma assemble_dom_spec_witness :
  ∃ f',
    assemble_dom false "x-widget" "x-widget.0" 100 1000 template_widget
      instance_widget = Some f' ∧
    f_root f'
    = Elem 10 "x-widget" []
        (element_children
           (kids_of
              (restyle
                 (new_element false "x-widget" "x-widget.0" 1000
                    (project_spec
                       (projected
                          [Elem 11 "b" [] [Elem 12 "script" [] [Text 13 "g(2)"]]])
                       (cloneNode 100 template_widget)))
                 (project_spec
                    (projected
                       [Elem 11 "b" [] [Elem 12 "script" [] [Text 13 "g(2)"]]])
                    (cloneNode 100 template_widget))))).
Proof.
  apply (assemble_dom_spec false "x-widget" "x-widget.0" 100 1000
           template_widget 10 "x-widget" []
           [Elem 11 "b" [] [Elem 12 "script" [] [Text 13 "g(2)"]]]).
  - unfold unique_ids. refine (bool_decide_unpack _ _). vm_compute. exact I.
  - unfold flat_slots. vm_compute. repeat constructor.
  - unfold distinct_slot_names. refine (bool_decide_unpack _ _). vm_compute. exact I.
  - unfold flat_scripts. vm_compute. repeat constructor.
  - intros j Hj. simpl in Hj.
    repeat (apply elem_of_cons in Hj as [->|Hj]; [lia|]).
    by apply elem_of_nil in Hj.
Defined.
